(** * Linear containers of the DSA library: ring buffer, dynamic array,
      singly and doubly linked lists.

    The C++ sources are embedded shallowly.  Integers of type
    [std::size_t] and [std::ptrdiff_t] are 64-bit (LP64) and are kept as
    [Z] with the wrap-around of every conversion written out.  Raw storage
    is a list of slots, a slot holding [Some v] while an object lives in
    it.  Linked nodes live in a heap, a finite map from addresses to node
    records; a null pointer is [None].  A member function that can throw,
    or whose behaviour is undefined on some input, returns an [outcome]. *)

From Stdlib Require Import ZArith Lia String.
From Stdlib Require Import Floats.SpecFloat.
From stdpp Require Import base numbers option list gmap sorting.

Set Default Proof Using "Type".

(** ** Common C++ notions *)

Module Cxx.

Local Open Scope Z_scope.

(** The two standard exception classes the containers throw, with the
    message passed to the constructor, and the exception of
    [std::allocator<T>::allocate] for a request whose size in bytes is not
    a [std::size_t]. *)
Inductive exception : Type :=
| out_of_range (what : string)
| runtime_error (what : string)
| bad_array_new_length.

(** Result of running a member function: normal return, a thrown exception,
    or undefined behaviour (null dereference, access outside the storage,
    use of a slot holding no object, division by zero).  Loops that walk a
    node chain are bounded by a fuel argument; [OutOfFuel] says that the
    bound was reached, it is not a behaviour of the program. *)
Inductive outcome (A : Type) : Type :=
| Ok (a : A)
| Throw (e : exception)
| Undefined
| OutOfFuel.

Arguments Ok {A} a.
Arguments Throw {A} e.
Arguments Undefined {A}.
Arguments OutOfFuel {A}.

Definition bind {A B : Type} (m : outcome A) (k : A -> outcome B) : outcome B :=
  match m with
  | Ok a => k a
  | Throw e => Throw e
  | Undefined => Undefined
  | OutOfFuel => OutOfFuel
  end.

(** Width of [std::size_t] and [std::ptrdiff_t]. *)
Definition width : Z := 64.

(** Conversion of a mathematical integer to [std::size_t]. *)
Definition to_size_t (z : Z) : Z := z mod 2 ^ width.

(** Conversion of a mathematical integer to [std::ptrdiff_t]
    (two's complement). *)
Definition to_ptrdiff_t (z : Z) : Z :=
  (z + 2 ^ (width - 1)) mod 2 ^ width - 2 ^ (width - 1).

(** The names the specification gives to the error conditions, as the
    exceptions the code throws for them. *)
Definition CapacityExceeded : exception := runtime_error "CircularArray is full".
Definition Underflow : exception := runtime_error "CircularArray is empty".
Definition IndexOutOfRange : exception := out_of_range "Index out of range".

End Cxx.

Notation "'do' x <- m ; k" := (Cxx.bind m (fun x => k))
  (at level 10, x name, m at level 100, k at level 200).
Notation "'do' ' p <- m ; k" := (Cxx.bind m (fun x => match x with p => k end))
  (at level 10, p pattern, m at level 100, k at level 200).

(** ** CircularArray.cpp *)

Module CircularArray.

Import Cxx.
Local Open Scope Z_scope.

Section WithElement.

Context {T : Type}.

(** The data members of [CircularArray<T>]; [buffer_] is the storage the
    pointer designates, one slot per allocated element. *)
Record t : Type := Build {
  buffer_ : list (option T);
  head_ : Z;
  tail_ : Z;
  capacity_ : Z;
  size_ : Z
}.

(** [CircularArray(size_type capacity)] *)
Definition make (capacity : Z) : t :=
  {| buffer_ := replicate (Z.to_nat capacity) None;
     head_ := 0; tail_ := 0; capacity_ := capacity; size_ := 0 |}.

(** [CircularArray(size_type count, const T& value)] *)
Definition make_fill (count : Z) (value : T) : t :=
  {| buffer_ := replicate (Z.to_nat count) (Some value);
     head_ := 0; tail_ := count; capacity_ := count; size_ := count |}.

Definition empty (a : t) : bool := size_ a =? 0.

Definition full (a : t) : bool := size_ a =? capacity_ a.

Definition size (a : t) : Z := size_ a.

Definition capacity (a : t) : Z := capacity_ a.

(** [normalize_index(difference_type index)]: [index += capacity_] is
    computed in [size_t] and stored back into the signed [index];
    [index % capacity_] converts [index] to [size_t] first. *)
Definition normalize_index (a : t) (index : Z) : outcome Z :=
  let index :=
    if index <? 0 then to_ptrdiff_t (to_size_t index + capacity_ a) else index in
  if capacity_ a =? 0 then Undefined
  else Ok (to_size_t index mod capacity_ a).

(** [buffer_[i]] read as a value: the slot must exist and hold an object. *)
Definition load (buf : list (option T)) (i : Z) : outcome T :=
  if i <? 0 then Undefined
  else match buf !! Z.to_nat i with
       | Some (Some v) => Ok v
       | _ => Undefined
       end.

(** [construct(alloc_, buffer_ + i, value)] *)
Definition construct (buf : list (option T)) (i : Z) (value : T)
  : outcome (list (option T)) :=
  if (0 <=? i) && (i <? Z.of_nat (length buf))
  then Ok (<[Z.to_nat i := Some value]> buf)
  else Undefined.

(** [destroy(alloc_, buffer_ + i)] *)
Definition destroy (buf : list (option T)) (i : Z) : outcome (list (option T)) :=
  if i <? 0 then Undefined
  else match buf !! Z.to_nat i with
       | Some (Some _) => Ok (<[Z.to_nat i := None]> buf)
       | _ => Undefined
       end.

(** [at(size_type pos)] *)
Definition at_ (a : t) (pos : Z) : outcome T :=
  if size_ a <=? pos then Throw (out_of_range "Index out of range")
  else
    do i <- normalize_index a (to_ptrdiff_t (to_size_t (head_ a + pos)));
    load (buffer_ a) i.

Definition push_front (a : t) (value : T) : outcome t :=
  if full a then Throw (runtime_error "CircularArray is full")
  else
    do h <- normalize_index a (to_ptrdiff_t (to_size_t (head_ a - 1)));
    do buf <- construct (buffer_ a) h value;
    Ok {| buffer_ := buf; head_ := h; tail_ := tail_ a;
          capacity_ := capacity_ a; size_ := to_size_t (size_ a + 1) |}.

Definition push_back (a : t) (value : T) : outcome t :=
  if full a then Throw (runtime_error "CircularArray is full")
  else
    do buf <- construct (buffer_ a) (tail_ a) value;
    do tl <- normalize_index a (to_ptrdiff_t (to_size_t (tail_ a + 1)));
    Ok {| buffer_ := buf; head_ := head_ a; tail_ := tl;
          capacity_ := capacity_ a; size_ := to_size_t (size_ a + 1) |}.

Definition pop_front (a : t) : outcome t :=
  if empty a then Throw (runtime_error "CircularArray is empty")
  else
    do buf <- destroy (buffer_ a) (head_ a);
    do h <- normalize_index a (to_ptrdiff_t (to_size_t (head_ a + 1)));
    Ok {| buffer_ := buf; head_ := h; tail_ := tail_ a;
          capacity_ := capacity_ a; size_ := to_size_t (size_ a - 1) |}.

Definition pop_back (a : t) : outcome t :=
  if empty a then Throw (runtime_error "CircularArray is empty")
  else
    do tl <- normalize_index a (to_ptrdiff_t (to_size_t (tail_ a - 1)));
    do buf <- destroy (buffer_ a) tl;
    Ok {| buffer_ := buf; head_ := head_ a; tail_ := tl;
          capacity_ := capacity_ a; size_ := to_size_t (size_ a - 1) |}.

(** [rotate(difference_type n)]: [%] on two [ptrdiff_t] truncates toward
    zero ([Z.rem]); [n += size_] and [head_ + n] are computed in [size_t]. *)
Definition rotate (a : t) (n : Z) : outcome t :=
  if empty a then Ok a
  else
    let n := Z.rem n (to_ptrdiff_t (size_ a)) in
    let n := if n <? 0 then to_ptrdiff_t (to_size_t n + size_ a) else n in
    do h <- normalize_index a (to_ptrdiff_t (to_size_t (head_ a + to_size_t n)));
    let a' := {| buffer_ := buffer_ a; head_ := h; tail_ := tail_ a;
                 capacity_ := capacity_ a; size_ := size_ a |} in
    do tl <- normalize_index a' (to_ptrdiff_t (to_size_t (tail_ a' + to_size_t n)));
    Ok {| buffer_ := buffer_ a; head_ := h; tail_ := tl;
          capacity_ := capacity_ a; size_ := size_ a |}.

(** The loop of [copy_elements]: [count - i] iterations remain, each
    constructing slot [i] from [other.buffer_[src_pos]]. *)
Fixpoint copy_elements_loop (remaining : nat) (other : t)
    (buf : list (option T)) (i src_pos : Z) : outcome (list (option T)) :=
  match remaining with
  | O => Ok buf
  | S k =>
      do v <- load (buffer_ other) src_pos;
      do buf <- construct buf i v;
      if capacity_ other =? 0 then Undefined
      else copy_elements_loop k other buf (to_size_t (i + 1))
             (to_size_t (src_pos + 1) mod capacity_ other)
  end.

Definition copy_elements (buf : list (option T)) (other : t)
  : outcome (list (option T)) :=
  copy_elements_loop (Z.to_nat (size_ other)) other buf 0 (head_ other).

(** [CircularArray(const CircularArray& other)] *)
Definition copy (other : t) : outcome t :=
  do buf <- copy_elements (replicate (Z.to_nat (capacity_ other)) None) other;
  Ok {| buffer_ := buf; head_ := 0; tail_ := size_ other;
        capacity_ := capacity_ other; size_ := size_ other |}.

(** A [CircularIterator]: the buffer it walks, its position and the
    capacity used to wrap. *)
Record iterator : Type := Iterator {
  it_buffer_ : list (option T);
  position_ : Z;
  it_capacity_ : Z
}.

Definition begin_ (a : t) : iterator :=
  Iterator (buffer_ a) (head_ a) (capacity_ a).

Definition end_ (a : t) : iterator :=
  Iterator (buffer_ a) (tail_ a) (capacity_ a).

(** [operator++] of the iterator. *)
Definition incr (it : iterator) : outcome iterator :=
  if it_capacity_ it =? 0 then Undefined
  else Ok (Iterator (it_buffer_ it)
             (to_size_t (position_ it + 1) mod it_capacity_ it)
             (it_capacity_ it)).

(** [operator*] of the iterator. *)
Definition deref (it : iterator) : outcome T :=
  load (it_buffer_ it) (position_ it).

(** The logical sequence: what [at(0)], ..., [at(size-1)] return. *)
Definition logical (a : t) : list (outcome T) :=
  (fun i => at_ a i) <$> seqZ 0 (size_ a).

(** The invariant of the data model. *)
Definition tail_invariant (a : t) : Prop :=
  tail_ a = (head_ a + size_ a) mod capacity_ a.

(** [clear()]: [while (!empty()) pop_front();].  The function is
    [noexcept]; [pop_front] throws on an empty array only, which the loop
    condition excludes. *)
Fixpoint clear (fuel : nat) (a : t) : outcome t :=
  match fuel with
  | O => OutOfFuel
  | S k => if empty a then Ok a else do a <- pop_front a; clear k a
  end.

(** [operator=(const CircularArray& other)], for [this != &other]. *)
Definition assign (fuel : nat) (this other : t) : outcome t :=
  do this <- clear fuel this;
  let this :=
    if negb (capacity_ this =? capacity_ other)
    then {| buffer_ := replicate (Z.to_nat (capacity_ other)) None;
            head_ := head_ this; tail_ := tail_ this;
            capacity_ := capacity_ other; size_ := size_ this |}
    else this in
  do buf <- copy_elements (buffer_ this) other;
  Ok {| buffer_ := buf; head_ := 0; tail_ := size_ other;
        capacity_ := capacity_ this; size_ := size_ other |}.

(** [operator!=] of the element type. *)
Variable ne : T -> T -> bool.

(** The loop of [operator==]: [remaining] iterations are left, the next
    one compares [at(i)] with [other.at(i)]. *)
Fixpoint equal_loop (remaining : nat) (a other : t) (i : Z) : outcome bool :=
  match remaining with
  | O => Ok true
  | S k =>
      do x <- at_ a i;
      do y <- at_ other i;
      if ne x y then Ok false
      else equal_loop k a other (to_size_t (i + 1))
  end.

(** [operator==(const CircularArray& other)] *)
Definition equal (a other : t) : outcome bool :=
  if negb (size_ a =? size_ other) then Ok false
  else equal_loop (Z.to_nat (size_ a)) a other 0.

(** [operator!=(const CircularArray& other)] *)
Definition not_equal (a other : t) : outcome bool :=
  do b <- equal a other; Ok (negb b).

End WithElement.

Arguments t : clear implicits.
Arguments iterator : clear implicits.

End CircularArray.

(** ** DynamicArray.cpp *)

Module DynamicArray.

Import Cxx.
Local Open Scope Z_scope.

(** [float] is IEEE 754 binary32: 24 bits of precision, exponents below 128. *)
Definition prec : Z := 24.
Definition emax : Z := 128.

(** [static constexpr float GROWTH_FACTOR = 1.5f], that is 3 * 2^-1. *)
Definition GROWTH_FACTOR : spec_float := binary_normalize prec emax 3 (-1) false.

(** [static constexpr size_type INITIAL_CAPACITY = 16] *)
Definition INITIAL_CAPACITY : Z := 16.

(** Conversion of a [size_t] to [float], rounding to nearest, ties to even. *)
Definition float_of_size_t (n : Z) : spec_float :=
  binary_normalize prec emax n 0 false.

(** [static_cast<size_type>(f)]: truncation toward zero, undefined when the
    truncated value does not fit. *)
Definition size_t_of_float (f : spec_float) : outcome Z :=
  match f with
  | S754_zero _ => Ok 0
  | S754_finite s m e =>
      let v := Z.shiftl (Z.pos m) e in
      if s then (if v =? 0 then Ok 0 else Undefined)
      else if v <? 2 ^ width then Ok v else Undefined
  | _ => Undefined
  end.

Section WithElement.

Context {T : Type}.

(** The data members of [DynamicArray<T>]; [data_] is [None] for
    [nullptr], otherwise the allocated storage. *)
Record t : Type := Build {
  data_ : option (list (option T));
  size_ : Z;
  capacity_ : Z
}.

(** [DynamicArray()] *)
Definition make : t := {| data_ := None; size_ := 0; capacity_ := 0 |}.

(** [DynamicArray(size_type count, const T& value)] *)
Definition make_fill (count : Z) (value : T) : t :=
  {| data_ := if 0 <? count then Some (replicate (Z.to_nat count) (Some value))
              else None;
     size_ := count; capacity_ := count |}.

(** [data_[i]] read as a value. *)
Definition load (d : option (list (option T))) (i : Z) : outcome T :=
  match d with
  | None => Undefined
  | Some buf =>
      if i <? 0 then Undefined
      else match buf !! Z.to_nat i with
           | Some (Some v) => Ok v
           | _ => Undefined
           end
  end.

(** [construct(alloc_, p + i, value)] on the storage [buf]. *)
Definition construct (buf : list (option T)) (i : Z) (value : T)
  : outcome (list (option T)) :=
  if (0 <=? i) && (i <? Z.of_nat (length buf))
  then Ok (<[Z.to_nat i := Some value]> buf)
  else Undefined.

(** [destroy(alloc_, p + i)] on the storage [buf]. *)
Definition destroy (buf : list (option T)) (i : Z) : outcome (list (option T)) :=
  if i <? 0 then Undefined
  else match buf !! Z.to_nat i with
       | Some (Some _) => Ok (<[Z.to_nat i := None]> buf)
       | _ => Undefined
       end.

(** [at(size_type pos)] *)
Definition at_ (a : t) (pos : Z) : outcome T :=
  if size_ a <=? pos then Throw (out_of_range "Index out of range")
  else load (data_ a) pos.

(** [calculate_growth(size_type new_size)]: the product is a [float]
    multiplication of the converted capacity by the growth factor. *)
Definition calculate_growth (a : t) (new_size : Z) : outcome Z :=
  do new_capacity <-
    size_t_of_float (SFmul prec emax (float_of_size_t (capacity_ a)) GROWTH_FACTOR);
  Ok (Z.max new_capacity (Z.max INITIAL_CAPACITY new_size)).

(** The loop of [reallocate] that moves the elements: slot [i] of the
    new storage is constructed from [data_[i]]. *)
Fixpoint move_loop (remaining : nat) (d : option (list (option T)))
    (new_data : list (option T)) (i : Z) : outcome (list (option T)) :=
  match remaining with
  | O => Ok new_data
  | S k =>
      do v <- load d i;
      do new_data <- construct new_data i v;
      move_loop k d new_data (to_size_t (i + 1))
  end.

(** [reallocate(size_type new_capacity)]; the old storage is released, so
    only the new one remains in the state.  The allocation is taken to
    succeed; [reallocate_checked] adds what [allocate] throws for a
    request it cannot serve. *)
Definition reallocate (a : t) (new_capacity : Z) : outcome t :=
  do new_data <-
    move_loop (Z.to_nat (size_ a)) (data_ a)
      (replicate (Z.to_nat new_capacity) None) 0;
  Ok {| data_ := Some new_data; size_ := size_ a; capacity_ := new_capacity |}.

(** [push_back(const T& value)] *)
Definition push_back (a : t) (value : T) : outcome t :=
  do a <-
    (if size_ a =? capacity_ a
     then do n <- calculate_growth a (to_size_t (size_ a + 1)); reallocate a n
     else Ok a);
  match data_ a with
  | None => Undefined
  | Some buf =>
      do buf <- construct buf (size_ a) value;
      Ok {| data_ := Some buf; size_ := to_size_t (size_ a + 1);
            capacity_ := capacity_ a |}
  end.

(** [pop_back()] *)
Definition pop_back (a : t) : outcome t :=
  if 0 <? size_ a then
    let size' := to_size_t (size_ a - 1) in
    match data_ a with
    | None => Undefined
    | Some buf =>
        do buf <- destroy buf size';
        Ok {| data_ := Some buf; size_ := size'; capacity_ := capacity_ a |}
    end
  else Ok a.

(** [operator[](size_type pos)]: no bounds check. *)
Definition subscript (a : t) (pos : Z) : outcome T := load (data_ a) pos.

(** [destroy_range(first, last)] over [remaining] slots of the storage
    from slot [i] on. *)
Fixpoint destroy_range (remaining : nat) (buf : list (option T)) (i : Z)
  : outcome (list (option T)) :=
  match remaining with
  | O => Ok buf
  | S k => do buf <- destroy buf i; destroy_range k buf (i + 1)
  end.

(** [clear()]: [destroy_range(data_, data_ + size_); size_ = 0;].  On a
    null [data_] the range is empty when [size_] is 0. *)
Definition clear (a : t) : outcome t :=
  do d <-
    (match data_ a with
     | None => if size_ a =? 0 then Ok None else Undefined
     | Some buf =>
         do buf <- destroy_range (Z.to_nat (size_ a)) buf 0; Ok (Some buf)
     end);
  Ok {| data_ := d; size_ := 0; capacity_ := capacity_ a |}.

(** The test [std::allocator<T>::allocate(n)] makes before it obtains
    storage: a request of more than [SIZE_MAX / sizeof(T)] elements throws
    [std::bad_array_new_length].  [elem_size] is [sizeof(T)]. *)
Definition check_length (elem_size n : Z) : outcome unit :=
  if (2 ^ width - 1) / elem_size <? n then Throw bad_array_new_length
  else Ok tt.

(** [reallocate(size_type new_capacity)] with the test of its first
    statement, [allocate(alloc_, new_capacity)]: when that throws, nothing
    has been written. *)
Definition reallocate_checked (elem_size : Z) (a : t) (new_capacity : Z)
  : outcome t :=
  do _ <- check_length elem_size new_capacity;
  reallocate a new_capacity.

(** [reserve(size_type new_cap)] *)
Definition reserve (elem_size : Z) (a : t) (new_cap : Z) : outcome t :=
  if capacity_ a <? new_cap then reallocate_checked elem_size a new_cap
  else Ok a.

(** [push_back(const T& value)] with the test of [allocate] in its call
    of [reallocate]. *)
Definition push_back_checked (elem_size : Z) (a : t) (value : T) : outcome t :=
  do a <-
    (if size_ a =? capacity_ a
     then do n <- calculate_growth a (to_size_t (size_ a + 1));
          reallocate_checked elem_size a n
     else Ok a);
  match data_ a with
  | None => Undefined
  | Some buf =>
      do buf <- construct buf (size_ a) value;
      Ok {| data_ := Some buf; size_ := to_size_t (size_ a + 1);
            capacity_ := capacity_ a |}
  end.

(** [shrink_to_fit()] *)
Definition shrink_to_fit (a : t) : outcome t :=
  if size_ a <? capacity_ a then reallocate a (size_ a) else Ok a.

(** [DynamicArray(const DynamicArray& other)]: the storage has room for
    [other.size_] elements, and [std::uninitialized_copy] constructs slot
    [i] from [other.data_[i]] for every [i] below [size_], which is what
    the loop of [reallocate] does. *)
Definition copy (other : t) : outcome t :=
  if 0 <? size_ other then
    do d <- move_loop (Z.to_nat (size_ other)) (data_ other)
              (replicate (Z.to_nat (size_ other)) None) 0;
    Ok {| data_ := Some d; size_ := size_ other; capacity_ := size_ other |}
  else Ok {| data_ := None; size_ := size_ other; capacity_ := size_ other |}.

(** The storage seen as a list of slots; nothing behind [nullptr]. *)
Definition slots (a : t) : list (option T) := default [] (data_ a).

(** Well-formed arrays: the first [size_] slots hold the elements [xs],
    the other slots of the [capacity_] allocated ones hold no object. *)
Definition represents (a : t) (xs : list T) : Prop :=
  Z.of_nat (length xs) = size_ a /\
  size_ a <= capacity_ a < 2 ^ (width - 1) /\
  slots a = (Some <$> xs) ++ replicate (Z.to_nat (capacity_ a - size_ a)) None.

End WithElement.

Arguments t : clear implicits.

End DynamicArray.

(** ** Node heaps *)

Module Heap.

(** Addresses of allocated nodes; a pointer is an address or null. *)
Definition addr : Type := nat.
Definition ptr : Type := option addr.

Section Segments.

Context {T N : Type}.

(** [dat] reads the payload of a node and [link] one of its pointers. *)
Variables (dat : N -> T) (link : N -> ptr).

(** [lseg h p xs q]: starting at [p] and following [link], the nodes met
    before reaching [q] are those at the addresses of [xs], in order, with
    the payloads of [xs]. *)
Fixpoint lseg (h : gmap addr N) (p : ptr) (xs : list (addr * T)) (q : ptr) : Prop :=
  match xs with
  | [] => p = q
  | x :: xs' =>
      p = Some (fst x) /\
      exists n, h !! fst x = Some n /\ dat n = snd x /\ lseg h (link n) xs' q
  end.

(** A chain is a segment that ends at the null pointer. *)
Definition chain (h : gmap addr N) (p : ptr) (xs : list (addr * T)) : Prop :=
  lseg h p xs None.

End Segments.

End Heap.

(** ** DoublyLinkedList.cpp *)

Module DoublyLinkedList.

Import Cxx Heap.

Section WithElement.

Context {T : Type}.

(** [operator<=] of the element type. *)
Variable le : T -> T -> bool.

(** [struct Node] *)
Record Node : Type := MkNode {
  data : T;
  prev : ptr;
  next : ptr
}.

(** The data members of [DoublyLinkedList<T>] (the allocator apart). *)
Record t : Type := Build {
  head_ : ptr;
  tail_ : ptr;
  size_ : Z
}.

Definition set_head (l : t) (p : ptr) : t :=
  {| head_ := p; tail_ := tail_ l; size_ := size_ l |}.

Definition set_tail (l : t) (p : ptr) : t :=
  {| head_ := head_ l; tail_ := p; size_ := size_ l |}.

Definition set_size (l : t) (n : Z) : t :=
  {| head_ := head_ l; tail_ := tail_ l; size_ := n |}.

(** [*p]: the node a pointer designates; null and dangling pointers may
    not be dereferenced. *)
Definition get (h : gmap addr Node) (p : ptr) : outcome Node :=
  match p with
  | None => Undefined
  | Some a => match h !! a with Some n => Ok n | None => Undefined end
  end.

(** [p->prev = q] *)
Definition set_prev (h : gmap addr Node) (p q : ptr) : outcome (gmap addr Node) :=
  do n <- get h p;
  match p with
  | Some a => Ok (<[a := MkNode (data n) q (next n)]> h)
  | None => Undefined
  end.

(** [p->next = q] *)
Definition set_next (h : gmap addr Node) (p q : ptr) : outcome (gmap addr Node) :=
  do n <- get h p;
  match p with
  | Some a => Ok (<[a := MkNode (data n) (prev n) q]> h)
  | None => Undefined
  end.

(** [DoublyLinkedList()] *)
Definition make : t := {| head_ := None; tail_ := None; size_ := 0 |}.

Definition empty (l : t) : bool := (size_ l =? 0)%Z.

(** [create_node(value)]: the allocator returns an address not in use. *)
Definition create_node (h : gmap addr Node) (value : T) : gmap addr Node * ptr :=
  let a := fresh (dom h) in
  (<[a := MkNode value None None]> h, Some a).

(** [push_back(const T& value)] *)
Definition push_back (h : gmap addr Node) (l : t) (value : T)
  : outcome (gmap addr Node * t) :=
  let '(h, new_node) := create_node h value in
  do '(h, l) <-
    (if empty l then Ok (h, set_tail (set_head l new_node) new_node)
     else
       do h <- set_prev h new_node (tail_ l);
       do h <- set_next h (tail_ l) new_node;
       Ok (h, set_tail l new_node));
  Ok (h, set_size l (to_size_t (size_ l + 1))).

(** The counting loop of [splice]:
    [for (auto it = first; it != last; ++it) ++count;] *)
Fixpoint distance (fuel : nat) (h : gmap addr Node) (it last : ptr) (count : Z)
  : outcome Z :=
  match fuel with
  | O => OutOfFuel
  | S k =>
      if decide (it = last) then Ok count
      else
        do n <- get h it;
        distance k h (next n) last (to_size_t (count + 1))
  end.

(** [splice(pos, other, first, last)] called on a list [this] with another
    list object [other]; the call with [&other == this] returns at once and
    is not part of this definition.  The three statements that use
    [last.current_], a [const Node*], as a [Node*] are read with the
    [const_cast] the function applies to [first.current_] and
    [pos.current_]. *)
Definition splice (fuel : nat) (h : gmap addr Node) (this other : t)
    (pos first last : ptr) : outcome (gmap addr Node * t * t) :=
  if decide (first = last) then Ok (h, this, other)
  else
    do count <- distance fuel h first last 0;
    do nfirst <- get h first;
    let before_first := prev nfirst in
    do nlast <- get h last;
    let before_last := prev nlast in
    let insert_pos := pos in
    do '(h, other) <-
      (match before_first with
       | Some _ => do h <- set_next h before_first last; Ok (h, other)
       | None => Ok (h, set_head other last)
       end);
    do h <-
      (match last with
       | Some _ => set_prev h last before_first
       | None => Ok h
       end);
    let first_node := first in
    do '(h, this) <-
      (match insert_pos with
       | Some _ =>
           do npos <- get h insert_pos;
           let before_pos := prev npos in
           do '(h, this) <-
             (match before_pos with
              | Some _ => do h <- set_next h before_pos first_node; Ok (h, this)
              | None => Ok (h, set_head this first_node)
              end);
           do h <- set_prev h first_node before_pos;
           do h <- set_next h before_last insert_pos;
           do h <- set_prev h insert_pos before_last;
           Ok (h, this)
       | None =>
           do '(h, this) <-
             (match tail_ this with
              | Some _ =>
                  do h <- set_next h (tail_ this) first_node;
                  do h <- set_prev h first_node (tail_ this);
                  Ok (h, this)
              | None =>
                  let this := set_head this first_node in
                  do h <- set_prev h first_node None;
                  Ok (h, this)
              end);
           let this := set_tail this before_last in
           do h <- set_next h (tail_ this) None;
           Ok (h, this)
       end);
    Ok (h, set_size this (to_size_t (size_ this + count)),
        set_size other (to_size_t (size_ other - count))).

(** The loop of [reverse]: swap [prev] and [next] of [current], then
    move to the node that was its successor. *)
Fixpoint reverse_loop (fuel : nat) (h : gmap addr Node) (current : ptr)
  : outcome (gmap addr Node) :=
  match fuel with
  | O => OutOfFuel
  | S k =>
      match current with
      | None => Ok h
      | Some _ =>
          do n <- get h current;
          let temp := prev n in
          do h <- set_prev h current (next n);
          do h <- set_next h current temp;
          do n <- get h current;
          reverse_loop k h (prev n)
      end
  end.

(** [reverse()] *)
Definition reverse (fuel : nat) (h : gmap addr Node) (l : t)
  : outcome (gmap addr Node * t) :=
  if (size_ l <=? 1)%Z then Ok (h, l)
  else
    do h <- reverse_loop fuel h (head_ l);
    let temp := head_ l in
    Ok (h, set_tail (set_head l (tail_ l)) temp).

(** The node with its two pointers exchanged, as one iteration of the loop
    of [reverse] leaves it. *)
Definition swapped (n : Node) : Node := MkNode (data n) (next n) (prev n).

(** The main loop of [merge_sorted_lists]; the state is
    [(first, second, result, tail)]. *)
Fixpoint merge_loop (fuel : nat) (h : gmap addr Node)
    (first second result tail : ptr)
  : outcome (gmap addr Node * (ptr * ptr * ptr * ptr)) :=
  match fuel with
  | O => OutOfFuel
  | S k =>
      match first, second with
      | Some _, Some _ =>
          do nf <- get h first;
          do ns <- get h second;
          let '(nxt, first, second) :=
            if le (data nf) (data ns) then (first, next nf, second)
            else (second, first, next ns) in
          do '(h, result) <-
            (match result with
             | None => Ok (h, nxt)
             | Some _ => do h <- set_next h tail nxt; Ok (h, result)
             end);
          do h <- set_prev h nxt tail;
          merge_loop k h first second result nxt
      | _, _ => Ok (h, (first, second, result, tail))
      end
  end.

(** [while (tail->next) tail = tail->next;] *)
Fixpoint walk_to_last (fuel : nat) (h : gmap addr Node) (tail : ptr) : outcome ptr :=
  match fuel with
  | O => OutOfFuel
  | S k =>
      do n <- get h tail;
      match next n with
      | Some _ => walk_to_last k h (next n)
      | None => Ok tail
      end
  end.

(** One of the two blocks that append what remains of a chain. *)
Definition append_remaining (fuel : nat) (h : gmap addr Node) (rest tail : ptr)
  : outcome (gmap addr Node * ptr) :=
  match rest with
  | Some _ =>
      do h <- set_next h tail rest;
      do h <- set_prev h rest tail;
      do tail <- walk_to_last fuel h tail;
      Ok (h, tail)
  | None => Ok (h, tail)
  end.

(** [merge_sorted_lists(first, second)] *)
Definition merge_sorted_lists (fuel : nat) (h : gmap addr Node) (first second : ptr)
  : outcome (gmap addr Node * (ptr * ptr)) :=
  match first, second with
  | None, _ => Ok (h, (second, second))
  | _, None => Ok (h, (first, first))
  | _, _ =>
      do '(h, (first, second, result, tail)) <-
        merge_loop fuel h first second None None;
      do '(h, tail) <- append_remaining fuel h first tail;
      do '(h, tail) <- append_remaining fuel h second tail;
      Ok (h, (result, tail))
  end.

(** The slow and fast pointers of [merge_sort]. *)
Fixpoint find_middle (fuel : nat) (h : gmap addr Node) (slow fast : ptr) : outcome ptr :=
  match fuel with
  | O => OutOfFuel
  | S k =>
      match fast with
      | None => Ok slow
      | Some _ =>
          do nfast <- get h fast;
          match next nfast with
          | None => Ok slow
          | Some _ =>
              do nslow <- get h slow;
              do nfn <- get h (next nfast);
              find_middle k h (next nslow) (next nfn)
          end
      end
  end.

(** [merge_sort(head)] *)
Fixpoint merge_sort (fuel : nat) (h : gmap addr Node) (head : ptr)
  : outcome (gmap addr Node * ptr) :=
  match fuel with
  | O => OutOfFuel
  | S k =>
      match head with
      | None => Ok (h, head)
      | Some _ =>
          do nhead <- get h head;
          match next nhead with
          | None => Ok (h, head)
          | Some _ =>
              do slow <- find_middle k h head (next nhead);
              do nslow <- get h slow;
              let right := next nslow in
              do h <- set_next h slow None;
              do '(h, left_sorted) <- merge_sort k h head;
              do '(h, right_sorted) <- merge_sort k h right;
              do '(h, res) <- merge_sorted_lists k h left_sorted right_sorted;
              Ok (h, fst res)
          end
      end
  end.

(** The loop of [sort] that rewrites the [prev] pointers. *)
Fixpoint relink_prev (fuel : nat) (h : gmap addr Node) (current : ptr)
  : outcome (gmap addr Node * ptr) :=
  match fuel with
  | O => OutOfFuel
  | S k =>
      do n <- get h current;
      match next n with
      | Some _ =>
          do h <- set_prev h (next n) current;
          relink_prev k h (next n)
      | None => Ok (h, current)
      end
  end.

(** [sort()] *)
Definition sort (fuel : nat) (h : gmap addr Node) (l : t)
  : outcome (gmap addr Node * t) :=
  if (size_ l <=? 1)%Z then Ok (h, l)
  else
    do '(h, head) <- merge_sort fuel h (head_ l);
    let l := set_head l head in
    do '(h, current) <- relink_prev fuel h (head_ l);
    Ok (h, set_tail l current).

(** Traversal with an iterator from [it] to [end()], reading [*it]. *)
Fixpoint traverse (fuel : nat) (h : gmap addr Node) (it : ptr) : outcome (list T) :=
  match fuel with
  | O => OutOfFuel
  | S k =>
      match it with
      | None => Ok []
      | Some _ =>
          do n <- get h it;
          do rest <- traverse k h (next n);
          Ok (data n :: rest)
      end
  end.

(** [destroy_node(node)]: the node is destroyed and its storage given
    back; a pointer to it dangles from then on. *)
Definition destroy_node (h : gmap addr Node) (p : ptr) : outcome (gmap addr Node) :=
  match p with
  | Some a => match h !! a with Some _ => Ok (delete a h) | None => Undefined end
  | None => Undefined
  end.

(** [front()] *)
Definition front (h : gmap addr Node) (l : t) : outcome T :=
  if empty l then Throw (out_of_range "List is empty")
  else do n <- get h (head_ l); Ok (data n).

(** [back()] *)
Definition back (h : gmap addr Node) (l : t) : outcome T :=
  if empty l then Throw (out_of_range "List is empty")
  else do n <- get h (tail_ l); Ok (data n).

(** [push_front(const T& value)] *)
Definition push_front (h : gmap addr Node) (l : t) (value : T)
  : outcome (gmap addr Node * t) :=
  let '(h, new_node) := create_node h value in
  do '(h, l) <-
    (if empty l then Ok (h, set_tail (set_head l new_node) new_node)
     else
       do h <- set_next h new_node (head_ l);
       do h <- set_prev h (head_ l) new_node;
       Ok (h, set_head l new_node));
  Ok (h, set_size l (to_size_t (size_ l + 1))).

(** [pop_front()] *)
Definition pop_front (h : gmap addr Node) (l : t) : outcome (gmap addr Node * t) :=
  if empty l then Throw (out_of_range "List is empty")
  else
    let old_head := head_ l in
    do n <- get h (head_ l);
    let l := set_head l (next n) in
    do '(h, l) <-
      (match head_ l with
       | Some _ => do h <- set_prev h (head_ l) None; Ok (h, l)
       | None => Ok (h, set_tail l None)
       end);
    do h <- destroy_node h old_head;
    Ok (h, set_size l (to_size_t (size_ l - 1))).

(** [pop_back()] *)
Definition pop_back (h : gmap addr Node) (l : t) : outcome (gmap addr Node * t) :=
  if empty l then Throw (out_of_range "List is empty")
  else
    let old_tail := tail_ l in
    do n <- get h (tail_ l);
    let l := set_tail l (prev n) in
    do '(h, l) <-
      (match tail_ l with
       | Some _ => do h <- set_next h (tail_ l) None; Ok (h, l)
       | None => Ok (h, set_head l None)
       end);
    do h <- destroy_node h old_tail;
    Ok (h, set_size l (to_size_t (size_ l - 1))).

(** [insert(const_iterator pos, const T& value)]; the iterator returned
    is the last component. *)
Definition insert (h : gmap addr Node) (l : t) (pos : ptr) (value : T)
  : outcome (gmap addr Node * t * ptr) :=
  match pos with
  | None => do '(h, l) <- push_back h l value; Ok (h, l, tail_ l)
  | Some _ =>
      let '(h, new_node) := create_node h value in
      let current := pos in
      do h <- set_next h new_node current;
      do nc <- get h current;
      do h <- set_prev h new_node (prev nc);
      do nc <- get h current;
      do '(h, l) <-
        (match prev nc with
         | Some _ => do h <- set_next h (prev nc) new_node; Ok (h, l)
         | None => Ok (h, set_head l new_node)
         end);
      do h <- set_prev h current new_node;
      Ok (h, set_size l (to_size_t (size_ l + 1)), new_node)
  end.

(** [erase(const_iterator pos)]; the iterator returned is the last
    component. *)
Definition erase (h : gmap addr Node) (l : t) (pos : ptr)
  : outcome (gmap addr Node * t * ptr) :=
  if empty l || bool_decide (pos = None)
  then Throw (out_of_range "Invalid iterator")
  else
    let current := pos in
    do nc <- get h current;
    let next_node := next nc in
    do '(h, l) <-
      (match prev nc with
       | Some _ => do h <- set_next h (prev nc) next_node; Ok (h, l)
       | None => Ok (h, set_head l next_node)
       end);
    do nc <- get h current;
    do '(h, l) <-
      (match next_node with
       | Some _ => do h <- set_prev h next_node (prev nc); Ok (h, l)
       | None => Ok (h, set_tail l (prev nc))
       end);
    do h <- destroy_node h current;
    Ok (h, set_size l (to_size_t (size_ l - 1)), next_node).

(** The body of the [if] in the loops of [remove] and [remove_if]: the
    node [current] is taken out of the chain and destroyed. *)
Definition unlink (h : gmap addr Node) (l : t) (current : ptr)
  : outcome (gmap addr Node * t) :=
  do nc <- get h current;
  do '(h, l) <-
    (match prev nc with
     | Some _ => do h <- set_next h (prev nc) (next nc); Ok (h, l)
     | None => Ok (h, set_head l (next nc))
     end);
  do nc <- get h current;
  do '(h, l) <-
    (match next nc with
     | Some _ => do h <- set_prev h (next nc) (prev nc); Ok (h, l)
     | None => Ok (h, set_tail l (prev nc))
     end);
  do h <- destroy_node h current;
  Ok (h, set_size l (to_size_t (size_ l - 1))).

(** The loop of [clear]. *)
Fixpoint clear_loop (fuel : nat) (h : gmap addr Node) (head : ptr)
  : outcome (gmap addr Node) :=
  match fuel with
  | O => OutOfFuel
  | S k =>
      match head with
      | None => Ok h
      | Some _ =>
          let temp := head in
          do n <- get h head;
          do h <- destroy_node h temp;
          clear_loop k h (next n)
      end
  end.

(** [clear()] *)
Definition clear (fuel : nat) (h : gmap addr Node) (l : t)
  : outcome (gmap addr Node * t) :=
  do h <- clear_loop fuel h (head_ l);
  Ok (h, {| head_ := None; tail_ := None; size_ := 0 |}).

(** The loop of [remove_if(p)] and, with [p] comparing to a value, of
    [remove(value)]. *)
Fixpoint remove_if_loop (p : T -> bool) (fuel : nat) (h : gmap addr Node) (l : t)
    (current : ptr) : outcome (gmap addr Node * t) :=
  match fuel with
  | O => OutOfFuel
  | S k =>
      match current with
      | None => Ok (h, l)
      | Some _ =>
          do nc <- get h current;
          let next_node := next nc in
          if p (data nc) then
            do '(h, l) <- unlink h l current;
            remove_if_loop p k h l next_node
          else remove_if_loop p k h l next_node
      end
  end.

(** [remove_if(UnaryPredicate p)] *)
Definition remove_if (p : T -> bool) (fuel : nat) (h : gmap addr Node) (l : t)
  : outcome (gmap addr Node * t) :=
  remove_if_loop p fuel h l (head_ l).

(** [operator==] and [operator!=] of the element type. *)
Variables (eqb ne : T -> T -> bool).

(** [remove(const T& value)], for a [value] that is not an element of
    the list itself. *)
Definition remove (value : T) (fuel : nat) (h : gmap addr Node) (l : t)
  : outcome (gmap addr Node * t) :=
  remove_if (fun x => eqb x value) fuel h l.

(** The loop of [unique]. *)
Fixpoint unique_loop (fuel : nat) (h : gmap addr Node) (l : t) (current : ptr)
  : outcome (gmap addr Node * t) :=
  match fuel with
  | O => OutOfFuel
  | S k =>
      match current with
      | None => Ok (h, l)
      | Some _ =>
          do nc <- get h current;
          match next nc with
          | None => Ok (h, l)
          | Some _ =>
              do nn <- get h (next nc);
              if eqb (data nc) (data nn) then
                let duplicate := next nc in
                do nd <- get h duplicate;
                do h <- set_next h current (next nd);
                do nd <- get h duplicate;
                do '(h, l) <-
                  (match next nd with
                   | Some _ => do h <- set_prev h (next nd) current; Ok (h, l)
                   | None => Ok (h, set_tail l current)
                   end);
                do h <- destroy_node h duplicate;
                unique_loop k h (set_size l (to_size_t (size_ l - 1))) current
              else unique_loop k h l (next nc)
          end
      end
  end.

(** [unique()] *)
Definition unique (fuel : nat) (h : gmap addr Node) (l : t)
  : outcome (gmap addr Node * t) :=
  if (size_ l <=? 1)%Z then Ok (h, l) else unique_loop fuel h l (head_ l).

(** The loop of [copy_from]: [push_back(current->data)] for every node
    of the other list. *)
Fixpoint copy_from_loop (fuel : nat) (h : gmap addr Node) (l : t) (current : ptr)
  : outcome (gmap addr Node * t) :=
  match fuel with
  | O => OutOfFuel
  | S k =>
      match current with
      | None => Ok (h, l)
      | Some _ =>
          do n <- get h current;
          do '(h, l) <- push_back h l (data n);
          do n <- get h current;
          copy_from_loop k h l (next n)
      end
  end.

(** [copy_from(const DoublyLinkedList& other)] *)
Definition copy_from (fuel : nat) (h : gmap addr Node) (l other : t)
  : outcome (gmap addr Node * t) :=
  copy_from_loop fuel h l (head_ other).

(** [DoublyLinkedList(const DoublyLinkedList& other)] *)
Definition copy (fuel : nat) (h : gmap addr Node) (other : t)
  : outcome (gmap addr Node * t) :=
  copy_from fuel h make other.

(** The loop of [operator==]. *)
Fixpoint equal_loop (fuel : nat) (h : gmap addr Node) (current1 current2 : ptr)
  : outcome bool :=
  match fuel with
  | O => OutOfFuel
  | S k =>
      match current1 with
      | None => Ok true
      | Some _ =>
          do n1 <- get h current1;
          do n2 <- get h current2;
          if ne (data n1) (data n2) then Ok false
          else equal_loop k h (next n1) (next n2)
      end
  end.

(** [operator==(const DoublyLinkedList& other)] *)
Definition equal (fuel : nat) (h : gmap addr Node) (l other : t) : outcome bool :=
  if negb (size_ l =? size_ other)%Z then Ok false
  else equal_loop fuel h (head_ l) (head_ other).

(** The data model: the [next] pointers lead from [head_] through the
    nodes [xs] to null, the [prev] pointers lead from [tail_] through the
    same nodes in the opposite order to null, and [size_] counts them. *)
Definition represents (h : gmap addr Node) (l : t) (xs : list (addr * T)) : Prop :=
  chain data next h (head_ l) xs /\
  chain data prev h (tail_ l) (rev xs) /\
  size_ l = Z.of_nat (length xs).

End WithElement.

Arguments Node : clear implicits.

End DoublyLinkedList.

(** ** SinglyLinkedList.cpp *)

Module SinglyLinkedList.

Import Cxx Heap.

Section WithElement.

Context {T : Type}.

(** [operator<=] of the element type. *)
Variable le : T -> T -> bool.

(** [struct Node] *)
Record Node : Type := MkNode {
  data : T;
  next : ptr
}.

(** The data members of [SinglyLinkedList<T>] (the allocator apart). *)
Record t : Type := Build {
  head_ : ptr;
  tail_ : ptr;
  size_ : Z
}.

Definition set_head (l : t) (p : ptr) : t :=
  {| head_ := p; tail_ := tail_ l; size_ := size_ l |}.

Definition set_tail (l : t) (p : ptr) : t :=
  {| head_ := head_ l; tail_ := p; size_ := size_ l |}.

Definition set_size (l : t) (n : Z) : t :=
  {| head_ := head_ l; tail_ := tail_ l; size_ := n |}.

(** [*p] *)
Definition get (h : gmap addr Node) (p : ptr) : outcome Node :=
  match p with
  | None => Undefined
  | Some a => match h !! a with Some n => Ok n | None => Undefined end
  end.

(** [p->next = q] *)
Definition set_next (h : gmap addr Node) (p q : ptr) : outcome (gmap addr Node) :=
  do n <- get h p;
  match p with
  | Some a => Ok (<[a := MkNode (data n) q]> h)
  | None => Undefined
  end.

(** [SinglyLinkedList()] *)
Definition make : t := {| head_ := None; tail_ := None; size_ := 0 |}.

(** [create_node(value)]: the allocator returns an address not in use. *)
Definition create_node (h : gmap addr Node) (value : T) : gmap addr Node * ptr :=
  let a := fresh (dom h) in
  (<[a := MkNode value None]> h, Some a).

(** [push_back(const T& value)] *)
Definition push_back (h : gmap addr Node) (l : t) (value : T)
  : outcome (gmap addr Node * t) :=
  let '(h, new_node) := create_node h value in
  do '(h, l) <-
    (match tail_ l with
     | Some _ => do h <- set_next h (tail_ l) new_node; Ok (h, l)
     | None => Ok (h, set_head l new_node)
     end);
  let l := set_tail l new_node in
  Ok (h, set_size l (to_size_t (size_ l + 1))).

(** The loop of [reverse]; the state is [(prev, current)]. *)
Fixpoint reverse_loop (fuel : nat) (h : gmap addr Node) (prev current : ptr)
  : outcome (gmap addr Node * ptr) :=
  match fuel with
  | O => OutOfFuel
  | S k =>
      match current with
      | None => Ok (h, prev)
      | Some _ =>
          do n <- get h current;
          let next_temp := next n in
          do h <- set_next h current prev;
          reverse_loop k h current next_temp
      end
  end.

(** [reverse()] *)
Definition reverse (fuel : nat) (h : gmap addr Node) (l : t)
  : outcome (gmap addr Node * t) :=
  if (size_ l <=? 1)%Z then Ok (h, l)
  else
    let current := head_ l in
    let l := set_tail l (head_ l) in
    do '(h, prev) <- reverse_loop fuel h None current;
    Ok (h, set_head l prev).

(** Modelled from the spec: the merge of [SinglyLinkedList::merge_sort],
    which src/ does not contain.  Section 4.3: "merge two sorted chains by
    comparing heads and relinking (stable: on ties the element from the
    first/left chain is taken first)".  The state is
    [(first, second, result, tail)]. *)
Fixpoint merge_loop (fuel : nat) (h : gmap addr Node)
    (first second result tail : ptr)
  : outcome (gmap addr Node * (ptr * ptr * ptr * ptr)) :=
  match fuel with
  | O => OutOfFuel
  | S k =>
      match first, second with
      | Some _, Some _ =>
          do nf <- get h first;
          do ns <- get h second;
          let '(nxt, first, second) :=
            if le (data nf) (data ns) then (first, next nf, second)
            else (second, first, next ns) in
          do '(h, result) <-
            (match result with
             | None => Ok (h, nxt)
             | Some _ => do h <- set_next h tail nxt; Ok (h, result)
             end);
          merge_loop k h first second result nxt
      | _, _ => Ok (h, (first, second, result, tail))
      end
  end.

(** Modelled from the spec: the chain that is not exhausted when the
    merge loop stops is linked behind the merged nodes. *)
Definition append_remaining (h : gmap addr Node) (rest tail : ptr)
  : outcome (gmap addr Node) :=
  match rest with
  | Some _ => set_next h tail rest
  | None => Ok h
  end.

(** Modelled from the spec: the merge of two sorted chains of
    [SinglyLinkedList::merge_sort]; it returns the head of the merged
    chain. *)
Definition merge_sorted_lists (fuel : nat) (h : gmap addr Node) (first second : ptr)
  : outcome (gmap addr Node * ptr) :=
  match first, second with
  | None, _ => Ok (h, second)
  | _, None => Ok (h, first)
  | _, _ =>
      do '(h, (first, second, result, tail)) <-
        merge_loop fuel h first second None None;
      do h <- append_remaining h first tail;
      do h <- append_remaining h second tail;
      Ok (h, result)
  end.

(** Modelled from the spec: "split by slow/fast-pointer
    midpoint-finding". *)
Fixpoint find_middle (fuel : nat) (h : gmap addr Node) (slow fast : ptr) : outcome ptr :=
  match fuel with
  | O => OutOfFuel
  | S k =>
      match fast with
      | None => Ok slow
      | Some _ =>
          do nfast <- get h fast;
          match next nfast with
          | None => Ok slow
          | Some _ =>
              do nslow <- get h slow;
              do nfn <- get h (next nfast);
              find_middle k h (next nslow) (next nfn)
          end
      end
  end.

(** Modelled from the spec: [SinglyLinkedList::merge_sort], called by
    [sort()] and defined nowhere in src/.  Section 4.3: "split by
    slow/fast-pointer midpoint-finding, recursively sort each half, merge
    two sorted chains", with "no extra node allocation (in-place
    relinking)". *)
Fixpoint merge_sort (fuel : nat) (h : gmap addr Node) (head : ptr)
  : outcome (gmap addr Node * ptr) :=
  match fuel with
  | O => OutOfFuel
  | S k =>
      match head with
      | None => Ok (h, head)
      | Some _ =>
          do nhead <- get h head;
          match next nhead with
          | None => Ok (h, head)
          | Some _ =>
              do slow <- find_middle k h head (next nhead);
              do nslow <- get h slow;
              let right := next nslow in
              do h <- set_next h slow None;
              do '(h, left_sorted) <- merge_sort k h head;
              do '(h, right_sorted) <- merge_sort k h right;
              merge_sorted_lists k h left_sorted right_sorted
          end
      end
  end.

(** The loop of [sort] that looks for the new tail. *)
Fixpoint find_tail (fuel : nat) (h : gmap addr Node) (current : ptr) : outcome ptr :=
  match fuel with
  | O => OutOfFuel
  | S k =>
      do n <- get h current;
      match next n with
      | Some _ => find_tail k h (next n)
      | None => Ok current
      end
  end.

(** [sort()] *)
Definition sort (fuel : nat) (h : gmap addr Node) (l : t)
  : outcome (gmap addr Node * t) :=
  if (size_ l <=? 1)%Z then Ok (h, l)
  else
    do '(h, head) <- merge_sort fuel h (head_ l);
    let l := set_head l head in
    do current <- find_tail fuel h (head_ l);
    Ok (h, set_tail l current).

(** Traversal with an iterator from [it] to [end()], reading [*it]. *)
Fixpoint traverse (fuel : nat) (h : gmap addr Node) (it : ptr) : outcome (list T) :=
  match fuel with
  | O => OutOfFuel
  | S k =>
      match it with
      | None => Ok []
      | Some _ =>
          do n <- get h it;
          do rest <- traverse k h (next n);
          Ok (data n :: rest)
      end
  end.

(** [destroy_node(node)]: the node is destroyed and its storage given
    back; a pointer to it dangles from then on. *)
Definition destroy_node (h : gmap addr Node) (p : ptr) : outcome (gmap addr Node) :=
  match p with
  | Some a => match h !! a with Some _ => Ok (delete a h) | None => Undefined end
  | None => Undefined
  end.

(** [push_front(const T& value)] *)
Definition push_front (h : gmap addr Node) (l : t) (value : T)
  : outcome (gmap addr Node * t) :=
  let '(h, new_node) := create_node h value in
  do h <- set_next h new_node (head_ l);
  let l := set_head l new_node in
  let l := match tail_ l with None => set_tail l new_node | Some _ => l end in
  Ok (h, set_size l (to_size_t (size_ l + 1))).

(** The loop of [clear]. *)
Fixpoint clear_loop (fuel : nat) (h : gmap addr Node) (head : ptr)
  : outcome (gmap addr Node) :=
  match fuel with
  | O => OutOfFuel
  | S k =>
      match head with
      | None => Ok h
      | Some _ =>
          let temp := head in
          do n <- get h head;
          do h <- destroy_node h temp;
          clear_loop k h (next n)
      end
  end.

(** [clear()] *)
Definition clear (fuel : nat) (h : gmap addr Node) (l : t)
  : outcome (gmap addr Node * t) :=
  do h <- clear_loop fuel h (head_ l);
  Ok (h, {| head_ := None; tail_ := None; size_ := 0 |}).

(** The loop of [remove_if(p)] and, with [p] comparing to a value, of
    [remove(value)]; the state is [(current, prev)]. *)
Fixpoint remove_if_loop (p : T -> bool) (fuel : nat) (h : gmap addr Node) (l : t)
    (current prev : ptr) : outcome (gmap addr Node * t) :=
  match fuel with
  | O => OutOfFuel
  | S k =>
      match current with
      | None => Ok (h, l)
      | Some _ =>
          do nc <- get h current;
          if p (data nc) then
            do '(h, l) <-
              (match prev with
               | None =>
                   let l := set_head l (next nc) in
                   Ok (h, if decide (tail_ l = current) then set_tail l None else l)
               | Some _ =>
                   do h <- set_next h prev (next nc);
                   Ok (h, if decide (tail_ l = current) then set_tail l prev else l)
               end);
            let to_delete := current in
            do nc <- get h current;
            do h <- destroy_node h to_delete;
            remove_if_loop p k h (set_size l (to_size_t (size_ l - 1))) (next nc) prev
          else remove_if_loop p k h l (next nc) current
      end
  end.

(** [remove_if(UnaryPredicate p)] *)
Definition remove_if (p : T -> bool) (fuel : nat) (h : gmap addr Node) (l : t)
  : outcome (gmap addr Node * t) :=
  remove_if_loop p fuel h l (head_ l) None.

(** [operator==] and [operator!=] of the element type. *)
Variables (eqb ne : T -> T -> bool).

(** [remove(const T& value)], for a [value] that is not an element of
    the list itself. *)
Definition remove (value : T) (fuel : nat) (h : gmap addr Node) (l : t)
  : outcome (gmap addr Node * t) :=
  remove_if (fun x => eqb x value) fuel h l.

(** The loop of [unique]. *)
Fixpoint unique_loop (fuel : nat) (h : gmap addr Node) (l : t) (current : ptr)
  : outcome (gmap addr Node * t) :=
  match fuel with
  | O => OutOfFuel
  | S k =>
      match current with
      | None => Ok (h, l)
      | Some _ =>
          do nc <- get h current;
          match next nc with
          | None => Ok (h, l)
          | Some _ =>
              do nn <- get h (next nc);
              if eqb (data nc) (data nn) then
                let duplicate := next nc in
                do nd <- get h duplicate;
                do h <- set_next h current (next nd);
                let l := if decide (tail_ l = duplicate) then set_tail l current
                         else l in
                do h <- destroy_node h duplicate;
                unique_loop k h (set_size l (to_size_t (size_ l - 1))) current
              else unique_loop k h l (next nc)
          end
      end
  end.

(** [unique()] *)
Definition unique (fuel : nat) (h : gmap addr Node) (l : t)
  : outcome (gmap addr Node * t) :=
  if (size_ l <=? 1)%Z then Ok (h, l) else unique_loop fuel h l (head_ l).

(** The loop of [copy_from]: [push_back(current->data)] for every node
    of the other list. *)
Fixpoint copy_from_loop (fuel : nat) (h : gmap addr Node) (l : t) (current : ptr)
  : outcome (gmap addr Node * t) :=
  match fuel with
  | O => OutOfFuel
  | S k =>
      match current with
      | None => Ok (h, l)
      | Some _ =>
          do n <- get h current;
          do '(h, l) <- push_back h l (data n);
          do n <- get h current;
          copy_from_loop k h l (next n)
      end
  end.

(** [copy_from(const SinglyLinkedList& other)] *)
Definition copy_from (fuel : nat) (h : gmap addr Node) (l other : t)
  : outcome (gmap addr Node * t) :=
  copy_from_loop fuel h l (head_ other).

(** [SinglyLinkedList(const SinglyLinkedList& other)] *)
Definition copy (fuel : nat) (h : gmap addr Node) (other : t)
  : outcome (gmap addr Node * t) :=
  copy_from fuel h make other.

(** The loop of [operator==]. *)
Fixpoint equal_loop (fuel : nat) (h : gmap addr Node) (current1 current2 : ptr)
  : outcome bool :=
  match fuel with
  | O => OutOfFuel
  | S k =>
      match current1 with
      | None => Ok true
      | Some _ =>
          do n1 <- get h current1;
          do n2 <- get h current2;
          if ne (data n1) (data n2) then Ok false
          else equal_loop k h (next n1) (next n2)
      end
  end.

(** [operator==(const SinglyLinkedList& other)] *)
Definition equal (fuel : nat) (h : gmap addr Node) (l other : t) : outcome bool :=
  if negb (size_ l =? size_ other)%Z then Ok false
  else equal_loop fuel h (head_ l) (head_ other).

(** The data model: the [next] pointers lead from [head_] through the
    nodes [xs] to null, [tail_] is the last of them (null when there is
    none), and [size_] counts them. *)
Definition represents (h : gmap addr Node) (l : t) (xs : list (addr * T)) : Prop :=
  chain data next h (head_ l) xs /\
  tail_ l = fst <$> last xs /\
  size_ l = Z.of_nat (length xs).

End WithElement.

Arguments Node : clear implicits.

End SinglyLinkedList.

(** * Specifications *)

Module CircularArraySpec.

Import Cxx CircularArray.
Local Open Scope Z_scope.

Section WithElement.

Context {T : Type}.

(** Arrays obtained from [CircularArray(capacity)] by pushes and pops
    that return normally. *)
Inductive reachable : CircularArray.t T -> Prop :=
| reachable_make (c : Z) :
    0 <= c < 2 ^ (width - 1) -> reachable (make c)
| reachable_push_front a v a' :
    reachable a -> push_front a v = Ok a' -> reachable a'
| reachable_push_back a v a' :
    reachable a -> push_back a v = Ok a' -> reachable a'
| reachable_pop_front a a' :
    reachable a -> pop_front a = Ok a' -> reachable a'
| reachable_pop_back a a' :
    reachable a -> pop_back a = Ok a' -> reachable a'.

(** What every reachable array satisfies: the indices are in range and
    [tail_] is [size_] slots behind [head_], modulo the capacity. *)
Definition well_formed (a : CircularArray.t T) : Prop :=
  0 <= size_ a <= capacity_ a /\
  capacity_ a < 2 ^ (width - 1) /\
  0 <= head_ a /\ (head_ a < capacity_ a \/ capacity_ a = 0 /\ head_ a = 0) /\
  tail_invariant a.

(** The elements [xs] an array holds: slot [j] of the storage holds the
    element at offset [(j - head_) mod capacity_] of the sequence, and no
    object when the sequence has no such offset. *)
Definition represents (a : CircularArray.t T) (xs : list T) : Prop :=
  well_formed a /\
  size_ a = Z.of_nat (length xs) /\
  length (buffer_ a) = Z.to_nat (capacity_ a) /\
  forall j, 0 <= j < capacity_ a ->
    buffer_ a !! Z.to_nat j =
      Some (xs !! Z.to_nat ((j - head_ a) mod capacity_ a)).

(** [n] applications of [operator++] to an iterator. *)
Fixpoint advance (n : nat) (it : iterator T) : outcome (iterator T) :=
  match n with
  | O => Ok it
  | S k => do it <- incr it; advance k it
  end.

(** [operator==] of [CircularIterator] is declared in CircularArray.h and
    defined nowhere in src/; it is a parameter here. *)
Variable iterator_eqb : iterator T -> iterator T -> bool.

(** A loop [for (auto it = first; it != last; ++it)] that reads [*it],
    collecting the values visited. *)
Fixpoint visit (fuel : nat) (it last : iterator T) : outcome (list T) :=
  match fuel with
  | O => OutOfFuel
  | S k =>
      if iterator_eqb it last then Ok []
      else
        do v <- deref it;
        do it <- incr it;
        do rest <- visit k it last;
        Ok (v :: rest)
  end.

End WithElement.

(** The scenario of the wrap-around test on an array of capacity 4. *)
Definition wraparound : outcome (CircularArray.t Z) :=
  do a <- push_back (make 4) 1;
  do a <- push_back a 2;
  do a <- push_back a 3;
  do a <- push_back a 4;
  do a <- pop_front a;
  push_back a 5.

(** The array the scenario ends with. *)
Definition wraparound_state : CircularArray.t Z :=
  {| buffer_ := [Some 5; Some 2; Some 3; Some 4];
     head_ := 1; tail_ := 1; capacity_ := 4; size_ := 4 |}.

(** Two pushes into an array of capacity 4. *)
Definition two_of_four : outcome (CircularArray.t Z) :=
  do a <- push_back (make 4) 1;
  push_back a 2.

(** The array the two pushes give: 1, 2 in the first two of four slots. *)
Definition one_two_of_four : CircularArray.t Z :=
  {| buffer_ := [Some 1; Some 2; None; None];
     head_ := 0; tail_ := 2; capacity_ := 4; size_ := 2 |}.

(** [operator!=] of [int]. *)
Definition int_ne (x y : Z) : bool := negb (x =? y).

End CircularArraySpec.

Module DynamicArraySpec.

Import Cxx DynamicArray.

(** [m / 2^s] rounded to the nearest integer, to the even one of the two
    when it is halfway between them. *)
Definition round_to_nearest_even (m s : Z) : Z :=
  (let q := m / 2 ^ s in
   let r := m mod 2 ^ s in
   if (2 ^ s <? 2 * r) || ((2 ^ s =? 2 * r) && Z.odd q) then q + 1 else q)%Z.

(** The [float] nearest to [m * 2^e], for [m > 0]: a mantissa of exactly
    24 bits and its exponent.  A number of at most 24 bits is a [float]
    as it is; of a longer one the bits beyond the 24 leading ones are
    rounded away. *)
Definition round_float (m e : Z) : Z * Z :=
  (let s := Z.log2 m + 1 - 24 in
   if s <=? 0 then (m * 2 ^ (- s), e + s)
   else
     let q := round_to_nearest_even m s in
     if q =? 2 ^ 24 then (2 ^ 23, e + s + 1) else (q, e + s))%Z.

(** What [static_cast<size_type>(capacity_ * GROWTH_FACTOR)] is in
    arithmetic: the capacity rounded to [float], its product with 3/2
    rounded to [float], and the integer part of the result. *)
Definition float_growth (c : Z) : Z :=
  (let '(m1, e1) := round_float c 0 in
   let '(m2, e2) := round_float (3 * m1) (e1 - 1) in
   Z.shiftl m2 e2)%Z.

(** [push_back] of the values [vs], one after the other. *)
Fixpoint push_all {T : Type} (a : DynamicArray.t T) (vs : list T)
  : outcome (DynamicArray.t T) :=
  match vs with
  | [] => Ok a
  | v :: vs => do a <- push_back a v; push_all a vs
  end.

(** An array holding 1, 2, 3 in a storage of four slots. *)
Definition three_of_four : DynamicArray.t Z :=
  {| data_ := Some [Some 1; Some 2; Some 3; None]%Z;
     size_ := 3; capacity_ := 4 |}.

End DynamicArraySpec.

Module ListSpec.

Import Heap.

Section WithElement.

Context {T : Type}.

Variable le : T -> T -> bool.

(** Nodes are compared by their payloads. *)
Definition node_le (x y : addr * T) : Prop := le (snd x) (snd y) = true.

#[global] Instance node_le_dec : RelDecision node_le.
Proof. intros x y. unfold node_le. apply _. Defined.

(** Two nodes compare equal when each is below the other. *)
Definition equivalent (x y : addr * T) : Prop := node_le x y /\ node_le y x.

(** [ys] keeps the nodes that compare equal in the order they have in
    [xs]. *)
Definition stable (xs ys : list (addr * T)) : Prop :=
  forall x, filter (equivalent x) ys = filter (equivalent x) xs.

(** [ys] is the result of a stable sort of [xs]: the same nodes with the
    same payloads, in non-decreasing order, equal ones in their order of
    [xs]. *)
Definition sorted_from (xs ys : list (addr * T)) : Prop :=
  xs ≡ₚ ys /\ StronglySorted node_le ys /\ stable xs ys.

(** The address of the first node of [xs], or [q] when there is none, and
    the address of the last node, or [p]. *)
Definition first_addr (xs : list (addr * T)) (q : ptr) : ptr :=
  match xs with
  | [] => q
  | x :: _ => Some (fst x)
  end.

Definition last_addr (xs : list (addr * T)) (p : ptr) : ptr :=
  match last xs with
  | None => p
  | Some x => Some (fst x)
  end.

(** [dseg h p xs q]: the nodes [xs] are linked to each other in both
    directions, the first has [p] as its [prev] and the last has [q] as
    its [next]. *)
Fixpoint dseg (h : gmap addr (DoublyLinkedList.Node T)) (p : ptr)
    (xs : list (addr * T)) (q : ptr) : Prop :=
  match xs with
  | [] => True
  | x :: xs' =>
      h !! fst x = Some (DoublyLinkedList.MkNode (snd x) p (first_addr xs' q)) /\
      dseg h (Some (fst x)) xs' q
  end.

(** [sseg h xs q]: the nodes [xs] of a singly linked list are linked to
    each other in order, and the last has [q] as its [next]. *)
Fixpoint sseg (h : gmap addr (SinglyLinkedList.Node T))
    (xs : list (addr * T)) (q : ptr) : Prop :=
  match xs with
  | [] => True
  | x :: xs' =>
      h !! fst x = Some (SinglyLinkedList.MkNode (snd x) (first_addr xs' q)) /\
      sseg h xs' q
  end.

(** A doubly linked node seen as a singly linked one, and a singly linked
    node given a null [prev]. *)
Definition forget_prev (n : DoublyLinkedList.Node T) : SinglyLinkedList.Node T :=
  SinglyLinkedList.MkNode (DoublyLinkedList.data n) (DoublyLinkedList.next n).

Definition with_null_prev (n : SinglyLinkedList.Node T) : DoublyLinkedList.Node T :=
  DoublyLinkedList.MkNode (SinglyLinkedList.data n) None (SinglyLinkedList.next n).

(** What [unique] keeps of the node [c] followed by the nodes [zs]: a
    node is dropped when [eqb] finds its payload equal to that of the
    last node kept. *)
Fixpoint unique_nodes (eqb : T -> T -> bool) (c : addr * T) (zs : list (addr * T))
  : list (addr * T) :=
  match zs with
  | [] => [c]
  | z :: zs =>
      if eqb (snd c) (snd z) then unique_nodes eqb c zs
      else c :: unique_nodes eqb z zs
  end.

Definition unique_list (eqb : T -> T -> bool) (xs : list (addr * T))
  : list (addr * T) :=
  match xs with
  | [] => []
  | c :: zs => unique_nodes eqb c zs
  end.

End WithElement.

End ListSpec.

Module ListExamples.

Import Cxx Heap.

(** A doubly linked list holding 1, 2, 3, built by [push_back]. *)
Definition dll_three
  : outcome (gmap addr (DoublyLinkedList.Node Z) * DoublyLinkedList.t) :=
  do '(h, l) <- DoublyLinkedList.push_back ∅ DoublyLinkedList.make 1%Z;
  do '(h, l) <- DoublyLinkedList.push_back h l 2%Z;
  DoublyLinkedList.push_back h l 3%Z.

(** The heap and the list [dll_three] returns: nodes at the addresses
    0, 1 and 2. *)
Definition dll_three_heap : gmap addr (DoublyLinkedList.Node Z) :=
  <[2 := DoublyLinkedList.MkNode 3%Z (Some 1) None]>
    (<[1 := DoublyLinkedList.MkNode 2%Z (Some 0) (Some 2)]>
       (<[0 := DoublyLinkedList.MkNode 1%Z None (Some 1)]> ∅)).

Definition dll_three_list : DoublyLinkedList.t :=
  DoublyLinkedList.Build (Some 0) (Some 2) 3.

(** A singly linked list holding 1, 2, 3, built by [push_back]. *)
Definition sll_three
  : outcome (gmap addr (SinglyLinkedList.Node Z) * SinglyLinkedList.t) :=
  do '(h, l) <- SinglyLinkedList.push_back ∅ SinglyLinkedList.make 1%Z;
  do '(h, l) <- SinglyLinkedList.push_back h l 2%Z;
  SinglyLinkedList.push_back h l 3%Z.

Definition sll_three_heap : gmap addr (SinglyLinkedList.Node Z) :=
  <[2 := SinglyLinkedList.MkNode 3%Z None]>
    (<[1 := SinglyLinkedList.MkNode 2%Z (Some 2)]>
       (<[0 := SinglyLinkedList.MkNode 1%Z (Some 1)]> ∅)).

Definition sll_three_list : SinglyLinkedList.t :=
  SinglyLinkedList.Build (Some 0) (Some 2) 3.

(** The nodes of both examples, in list order. *)
Definition three_nodes : list (addr * Z) := [(0, 1%Z); (1, 2%Z); (2, 3%Z)].

(** Two doubly linked lists in one heap: A holds 10, 20 in the nodes at
    0 and 1, B holds 1, 2, 3 in the nodes at 2, 3 and 4. *)
Definition dll_two_lists
  : outcome (gmap addr (DoublyLinkedList.Node Z) *
             DoublyLinkedList.t * DoublyLinkedList.t) :=
  do '(h, a) <- DoublyLinkedList.push_back ∅ DoublyLinkedList.make 10%Z;
  do '(h, a) <- DoublyLinkedList.push_back h a 20%Z;
  do '(h, b) <- DoublyLinkedList.push_back h DoublyLinkedList.make 1%Z;
  do '(h, b) <- DoublyLinkedList.push_back h b 2%Z;
  do '(h, b) <- DoublyLinkedList.push_back h b 3%Z;
  Ok (h, a, b).

(** Pairs compared by their first component, as in the stability test. *)
Definition by_first (p q : Z * Z) : bool := (fst p <=? fst q)%Z.

(** Lists holding (2, 0), (1, 1), (1, 2), built by [push_back]. *)
Definition dll_pairs
  : outcome (gmap addr (DoublyLinkedList.Node (Z * Z)) * DoublyLinkedList.t) :=
  do '(h, l) <- DoublyLinkedList.push_back ∅ DoublyLinkedList.make (2, 0)%Z;
  do '(h, l) <- DoublyLinkedList.push_back h l (1, 1)%Z;
  DoublyLinkedList.push_back h l (1, 2)%Z.

Definition dll_pairs_heap : gmap addr (DoublyLinkedList.Node (Z * Z)) :=
  <[2 := DoublyLinkedList.MkNode (1, 2)%Z (Some 1) None]>
    (<[1 := DoublyLinkedList.MkNode (1, 1)%Z (Some 0) (Some 2)]>
       (<[0 := DoublyLinkedList.MkNode (2, 0)%Z None (Some 1)]> ∅)).

Definition sll_pairs
  : outcome (gmap addr (SinglyLinkedList.Node (Z * Z)) * SinglyLinkedList.t) :=
  do '(h, l) <- SinglyLinkedList.push_back ∅ SinglyLinkedList.make (2, 0)%Z;
  do '(h, l) <- SinglyLinkedList.push_back h l (1, 1)%Z;
  SinglyLinkedList.push_back h l (1, 2)%Z.

Definition sll_pairs_heap : gmap addr (SinglyLinkedList.Node (Z * Z)) :=
  <[2 := SinglyLinkedList.MkNode (1, 2)%Z None]>
    (<[1 := SinglyLinkedList.MkNode (1, 1)%Z (Some 2)]>
       (<[0 := SinglyLinkedList.MkNode (2, 0)%Z (Some 1)]> ∅)).

Definition pairs_nodes : list (addr * (Z * Z)) :=
  [(0, (2, 0)%Z); (1, (1, 1)%Z); (2, (1, 2)%Z)].

(** [operator==] of pairs that looks at the first component only. *)
Definition same_first (p q : Z * Z) : bool := (fst p =? fst q)%Z.

(** The predicate "equal to 2" on [int]. *)
Definition is_two (x : Z) : bool := (x =? 2)%Z.

End ListExamples.

(** * Theorems *)

(** ** Integer conversions *)

Section Conversions.

Import Cxx.
Local Open Scope Z_scope.

Lemma to_size_t_range z : 0 <= to_size_t z < 2 ^ width.
Proof. unfold to_size_t, width. apply Z.mod_pos_bound. lia. Qed.

Lemma to_size_t_small z : 0 <= z < 2 ^ width -> to_size_t z = z.
Proof. intros Hz. unfold to_size_t. by apply Z.mod_small. Qed.

Lemma to_ptrdiff_t_small z :
  - 2 ^ (width - 1) <= z < 2 ^ (width - 1) -> to_ptrdiff_t z = z.
Proof.
  unfold to_ptrdiff_t, width. simpl Z.sub. intros Hz.
  rewrite Z.mod_small; lia.
Qed.

(** Going through the signed type and back does not change the residue. *)
Lemma to_size_t_ptrdiff z : to_size_t (to_ptrdiff_t z) = to_size_t z.
Proof.
  unfold to_size_t, to_ptrdiff_t, width. simpl Z.sub.
  replace (2 ^ 64) with (2 * 2 ^ 63) by lia.
  rewrite Zminus_mod, Zmod_mod, <- Zminus_mod.
  f_equal. lia.
Qed.

Lemma to_size_t_add_l x y : to_size_t (to_size_t x + y) = to_size_t (x + y).
Proof. unfold to_size_t. by rewrite Zplus_mod_idemp_l. Qed.

Lemma to_size_t_add_r x y : to_size_t (x + to_size_t y) = to_size_t (x + y).
Proof. unfold to_size_t. by rewrite Zplus_mod_idemp_r. Qed.

End Conversions.

(** ** Circular array *)

Section CircularArrayFacts.

Import Cxx CircularArray CircularArraySpec.
Local Open Scope Z_scope.

Context {T : Type}.

Implicit Types a : CircularArray.t T.

Lemma normalize_index_nonneg a i :
  0 < capacity_ a -> 0 <= i < 2 ^ width ->
  normalize_index a i = Ok (i mod capacity_ a).
Proof.
  intros Hc Hi. unfold normalize_index.
  destruct (Z.ltb_spec i 0); [lia|].
  destruct (Z.eqb_spec (capacity_ a) 0); [lia|].
  by rewrite to_size_t_small.
Qed.

Lemma normalize_index_negative a i :
  0 < capacity_ a < 2 ^ width -> - capacity_ a <= i < 0 ->
  normalize_index a i = Ok (i mod capacity_ a).
Proof.
  intros Hc Hi. unfold normalize_index.
  destruct (Z.ltb_spec i 0); [|lia].
  destruct (Z.eqb_spec (capacity_ a) 0); [lia|].
  rewrite to_size_t_ptrdiff, to_size_t_add_l, to_size_t_small by lia.
  f_equal. replace (i + capacity_ a) with (i + 1 * capacity_ a) by lia.
  apply Z_mod_plus_full.
Qed.

Lemma normalize_index_in_range a i :
  0 < capacity_ a < 2 ^ width ->
  - capacity_ a <= i < 2 ^ (width - 1) ->
  normalize_index a i = Ok (i mod capacity_ a).
Proof.
  intros Hc Hi. destruct (Z.ltb_spec i 0).
  - apply normalize_index_negative; lia.
  - apply normalize_index_nonneg; [lia|].
    unfold width in *. simpl Z.sub in *. lia.
Qed.

(** C7, as amended: an offset that is not below [-capacity] is mapped to
    its residue modulo the capacity, the representative in
    [0, capacity). *)
Theorem normalize_index_mod a i :
  0 < capacity_ a < 2 ^ width ->
  - capacity_ a <= i < 2 ^ (width - 1) ->
  normalize_index a i = Ok (i mod capacity_ a) /\
  0 <= i mod capacity_ a < capacity_ a.
Proof.
  intros Hc Hi. split; [by apply normalize_index_in_range|].
  apply Z.mod_pos_bound. lia.
Qed.

End CircularArrayFacts.

Lemma normalize_index_mod_witness :
  CircularArray.normalize_index (@CircularArray.make Z 3) (-3) = Cxx.Ok 0%Z.
Proof.
  apply (proj1 (normalize_index_mod (@CircularArray.make Z 3) (-3)%Z
                  ltac:(simpl; unfold Cxx.width; simpl; lia)
                  ltac:(simpl; unfold Cxx.width; simpl; lia))).
Defined.

(** C7: below [-capacity] one addition of the capacity leaves the offset
    negative, and the remainder is taken of its value as a [size_t]:
    with capacity 3 the offset -4 gives 0, and -4 mod 3 is 2. *)
Lemma normalize_index_below_capacity :
  CircularArray.normalize_index (@CircularArray.make Z 3) (-4) <> Cxx.Ok ((-4) mod 3)%Z.
Proof. vm_compute. discriminate. Qed.

Example normalize_index_minus_four :
  CircularArray.normalize_index (@CircularArray.make Z 3) (-4) = Cxx.Ok 0%Z /\
  ((-4) mod 3 = 2)%Z.
Proof. split; reflexivity. Qed.

Section CircularArrayInvariant.

Import Cxx CircularArray CircularArraySpec.
Local Open Scope Z_scope.

Context {T : Type}.

Implicit Types a : CircularArray.t T.

Lemma to_ptrdiff_size_t z : to_ptrdiff_t (to_size_t z) = to_ptrdiff_t z.
Proof. unfold to_ptrdiff_t, to_size_t. by rewrite Zplus_mod_idemp_l. Qed.

(** The index computations of the modifiers: the intermediate [size_t]
    value is passed as a [ptrdiff_t] and normalized. *)
Lemma normalize_index_step a z :
  0 < capacity_ a < 2 ^ (width - 1) ->
  - capacity_ a <= z < 2 ^ (width - 1) ->
  normalize_index a (to_ptrdiff_t (to_size_t z)) = Ok (z mod capacity_ a).
Proof.
  intros Hc Hz. rewrite to_ptrdiff_size_t, to_ptrdiff_t_small by lia.
  apply normalize_index_in_range; [|lia].
  unfold width in *. simpl Z.sub in *. lia.
Qed.

Lemma make_well_formed c : 0 <= c < 2 ^ (width - 1) -> well_formed (@make T c).
Proof.
  intros Hc. unfold well_formed, tail_invariant. simpl.
  repeat split; lia.
Qed.

Lemma full_false a :
  well_formed a -> full a = false -> 0 < capacity_ a /\ size_ a < capacity_ a.
Proof.
  unfold well_formed, full. intros (? & ? & ?) Hf.
  apply Z.eqb_neq in Hf. lia.
Qed.

Lemma empty_false a :
  well_formed a -> empty a = false -> 0 < capacity_ a /\ 0 < size_ a.
Proof.
  unfold well_formed, empty. intros (? & ? & ?) Hf.
  apply Z.eqb_neq in Hf. lia.
Qed.

Lemma well_formed_tail_range a :
  well_formed a -> 0 < capacity_ a -> 0 <= tail_ a < capacity_ a.
Proof.
  intros (_ & _ & _ & _ & Ht) Hc. rewrite Ht. by apply Z.mod_pos_bound.
Qed.

Ltac split_outcome H :=
  repeat match type of H with
  | (if ?b then _ else _) = _ => destruct b eqn:?; [discriminate H|]
  | bind ?m _ = _ => destruct m eqn:?; simpl in H; try discriminate H
  | Ok _ = Ok _ => injection H as <-
  end.

Lemma push_back_well_formed a v a' :
  well_formed a -> push_back a v = Ok a' -> well_formed a'.
Proof.
  intros Hwf H. unfold push_back in H. split_outcome H.
  destruct (full_false a Hwf) as [Hc Hs]; [done|].
  pose proof (well_formed_tail_range a Hwf Hc) as Ht.
  destruct Hwf as (Hsz & Hcap & Hh0 & Hh & Hinv).
  rewrite normalize_index_step in * by lia. simplify_eq.
  unfold well_formed, tail_invariant in *. simpl.
  rewrite to_size_t_small by (unfold width in *; simpl Z.sub in *; lia).
  repeat split; try lia.
  rewrite Hinv, Zplus_mod_idemp_l. f_equal. lia.
Qed.

Lemma push_front_well_formed a v a' :
  well_formed a -> push_front a v = Ok a' -> well_formed a'.
Proof.
  intros Hwf H. unfold push_front in H. split_outcome H.
  destruct (full_false a Hwf) as [Hc Hs]; [done|].
  destruct Hwf as (Hsz & Hcap & Hh0 & Hh & Hinv).
  rewrite normalize_index_step in * by lia. simplify_eq.
  unfold well_formed, tail_invariant in *. simpl.
  rewrite to_size_t_small by (unfold width in *; simpl Z.sub in *; lia).
  pose proof (Z.mod_pos_bound (head_ a - 1) (capacity_ a) Hc).
  repeat split; try lia.
  rewrite Hinv, Zplus_mod_idemp_l. f_equal. lia.
Qed.

Lemma pop_front_well_formed a a' :
  well_formed a -> pop_front a = Ok a' -> well_formed a'.
Proof.
  intros Hwf H. unfold pop_front in H. split_outcome H.
  destruct (empty_false a Hwf) as [Hc Hs]; [done|].
  destruct Hwf as (Hsz & Hcap & Hh0 & Hh & Hinv).
  rewrite normalize_index_step in * by lia. simplify_eq.
  unfold well_formed, tail_invariant in *. simpl.
  rewrite to_size_t_small by (unfold width in *; simpl Z.sub in *; lia).
  pose proof (Z.mod_pos_bound (head_ a + 1) (capacity_ a) Hc).
  repeat split; try lia.
  rewrite Hinv, Zplus_mod_idemp_l. f_equal. lia.
Qed.

Lemma pop_back_well_formed a a' :
  well_formed a -> pop_back a = Ok a' -> well_formed a'.
Proof.
  intros Hwf H. unfold pop_back in H. split_outcome H.
  destruct (empty_false a Hwf) as [Hc Hs]; [done|].
  pose proof (well_formed_tail_range a Hwf Hc) as Ht.
  destruct Hwf as (Hsz & Hcap & Hh0 & Hh & Hinv).
  rewrite normalize_index_step in * by lia. simplify_eq.
  unfold well_formed, tail_invariant in *. simpl.
  rewrite to_size_t_small by (unfold width in *; simpl Z.sub in *; lia).
  repeat split; try lia.
  rewrite Hinv, Zminus_mod_idemp_l. f_equal. lia.
Qed.

(** The data-model invariant holds along pushes and pops that start from
    an array built by [CircularArray(capacity)]. *)
Lemma reachable_well_formed a : reachable a -> well_formed a.
Proof.
  induction 1;
    eauto using make_well_formed, push_front_well_formed,
      push_back_well_formed, pop_front_well_formed, pop_back_well_formed.
Qed.

End CircularArrayInvariant.

Section CircularArrayIterators.

Import Cxx CircularArray CircularArraySpec.
Local Open Scope Z_scope.

Context {T : Type}.

Implicit Types a : CircularArray.t T.

Lemma full_head_eq_tail a :
  well_formed a -> full a = true -> empty a = false -> head_ a = tail_ a.
Proof.
  intros Hwf Hf He. destruct (empty_false a Hwf He) as [Hc Hs].
  destruct Hwf as (Hsz & Hcap & Hh0 & Hh & Hinv).
  unfold full in Hf. apply Z.eqb_eq in Hf.
  rewrite Hinv, Hf.
  replace (head_ a + capacity_ a) with (head_ a + 1 * capacity_ a) by lia.
  rewrite Z_mod_plus_full, Z.mod_small; lia.
Qed.

(** C10: on a full, non-empty array reached by pushes and pops, [begin()]
    and [end()] are the same iterator (same buffer, same position, same
    capacity), so a loop from one to the other visits nothing whatever
    reflexive equality the iterators have, and yet the array holds
    [capacity] elements. *)
Theorem full_begin_is_end a :
  reachable a -> full a = true -> empty a = false ->
  begin_ a = end_ a /\
  position_ (begin_ a) = position_ (end_ a) /\
  (forall eqb fuel, (forall it, eqb it it = true) ->
     visit eqb (S fuel) (begin_ a) (end_ a) = Ok []) /\
  size a = capacity a /\ 0 < size a.
Proof.
  intros Hr Hf He. pose proof (reachable_well_formed a Hr) as Hwf.
  pose proof (full_head_eq_tail a Hwf Hf He) as Heq.
  assert (begin_ a = end_ a) as Hbe by (unfold begin_, end_; by rewrite Heq).
  split; [done|]. split; [by rewrite Hbe|]. split.
  - intros eqb fuel Hrefl. simpl. by rewrite Hbe, Hrefl.
  - unfold size, capacity. unfold full in Hf. apply Z.eqb_eq in Hf.
    destruct (empty_false a Hwf He). lia.
Qed.

End CircularArrayIterators.

Ltac reach_push_back H v :=
  match type of H with
  | CircularArraySpec.reachable ?a =>
      let r := eval vm_compute in (CircularArray.push_back a v) in
      match r with
      | Cxx.Ok ?a' =>
          let H' := fresh in
          assert (H' : CircularArraySpec.reachable a')
            by (apply (CircularArraySpec.reachable_push_back a v a' H);
                vm_compute; reflexivity);
          clear H; rename H' into H
      end
  end.

Ltac reach_pop_front H :=
  match type of H with
  | CircularArraySpec.reachable ?a =>
      let r := eval vm_compute in (CircularArray.pop_front a) in
      match r with
      | Cxx.Ok ?a' =>
          let H' := fresh in
          assert (H' : CircularArraySpec.reachable a')
            by (apply (CircularArraySpec.reachable_pop_front a a' H);
                vm_compute; reflexivity);
          clear H; rename H' into H
      end
  end.

Lemma wraparound_reachable :
  CircularArraySpec.wraparound = Cxx.Ok CircularArraySpec.wraparound_state /\
  CircularArraySpec.reachable CircularArraySpec.wraparound_state.
Proof.
  split; [vm_compute; reflexivity|].
  pose proof (CircularArraySpec.reachable_make (T:=Z) 4
                ltac:(vm_compute; intuition discriminate)) as H.
  reach_push_back H 1%Z. reach_push_back H 2%Z.
  reach_push_back H 3%Z. reach_push_back H 4%Z.
  reach_pop_front H. reach_push_back H 5%Z.
  exact H.
Qed.

Lemma full_begin_is_end_witness :
  CircularArray.begin_ CircularArraySpec.wraparound_state =
  CircularArray.end_ CircularArraySpec.wraparound_state /\
  CircularArray.size CircularArraySpec.wraparound_state = 4%Z.
Proof.
  destruct (full_begin_is_end CircularArraySpec.wraparound_state
              (proj2 wraparound_reachable) eq_refl eq_refl)
    as (Hbe & _ & _ & Hsz & _).
  split; [exact Hbe | exact Hsz].
Defined.

Section CircularArrayScenarios.

Import Cxx CircularArray CircularArraySpec.
Local Open Scope Z_scope.

(** C5: four pushes, a pop at the front and a fifth push on an array of
    capacity 4 leave the sequence 2, 3, 4, 5 in a full array; a further
    push throws the "full" error, and it does so as its first statement,
    before any member is assigned. *)
Theorem wraparound_sequence :
  wraparound = Ok wraparound_state /\
  logical wraparound_state = [Ok 2; Ok 3; Ok 4; Ok 5] /\
  full wraparound_state = true /\
  forall v, push_back wraparound_state v = Throw CapacityExceeded.
Proof. split; [vm_compute; reflexivity|]. repeat split. Qed.

(** C2: the fill constructor sets [tail_] to [count], which is the
    capacity, where the invariant asks for 0; so does the copy constructor
    on a full array.  After a pop at the front the next push constructs
    its element one slot behind the storage. *)
Theorem fill_constructor_tail :
  tail_ (make_fill 2 7) = 2 /\
  (head_ (make_fill 2 7) + size_ (make_fill 2 7)) mod capacity_ (make_fill 2 7) = 0 /\
  ~ tail_invariant (make_fill 2 7) /\
  (do a <- pop_front (make_fill 2 7); push_back a 9) = Undefined /\
  (exists c, copy wraparound_state = Ok c /\ tail_ c = 4 /\ ~ tail_invariant c).
Proof.
  repeat split; try discriminate.
  eexists. repeat split; discriminate.
Qed.

(** C1: on an array that is not full, [rotate] moves the window over
    slots that hold no object: after two pushes into an array of capacity
    4, [rotate(1)] leaves [at(0)] reading 2 and [at(1)] reading a slot in
    which nothing was constructed; the element 1 is out of the window. *)
Theorem rotate_partial_window :
  exists a a',
    two_of_four = Ok a /\ rotate a 1 = Ok a' /\
    logical a = [Ok 1; Ok 2] /\
    logical a' = [Ok 2; Undefined] /\
    buffer_ a' = buffer_ a /\ size_ a' = size_ a.
Proof. do 2 eexists. repeat split. Qed.

(** On a full array the window covers every slot, and [rotate(1)] turns
    2, 3, 4, 5 into 3, 4, 5, 2. *)
Example rotate_full_window :
  exists a', rotate wraparound_state 1 = Ok a' /\
    logical a' = [Ok 3; Ok 4; Ok 5; Ok 2] /\
    buffer_ a' = buffer_ wraparound_state.
Proof. eexists. repeat split. Qed.

End CircularArrayScenarios.

Section CircularArrayRotate.

Import Cxx CircularArray CircularArraySpec.
Local Open Scope Z_scope.

Context {T : Type}.

Implicit Types a : CircularArray.t T.

(** The amount [rotate] adds to the two indices is [n mod size]. *)
Lemma rotate_amount s n :
  0 < s < 2 ^ (width - 1) -> - 2 ^ (width - 1) <= n < 2 ^ (width - 1) ->
  (let r := Z.rem n (to_ptrdiff_t s) in
   if r <? 0 then to_ptrdiff_t (to_size_t r + s) else r) = n mod s.
Proof.
  intros Hs Hn. rewrite to_ptrdiff_t_small by lia. cbv zeta.
  pose proof (Z.quot_rem' n s) as Hqr.
  pose proof (Z.rem_bound_abs n s ltac:(lia)) as Habs.
  destruct (Z.ltb_spec (Z.rem n s) 0) as [Hneg|Hpos].
  - assert (to_size_t (Z.rem n s) = Z.rem n s + 2 ^ width) as ->.
    { unfold to_size_t. symmetry.
      apply (Z.mod_unique_pos _ _ (-1)); unfold width in *; simpl Z.sub in *; lia. }
    assert (to_ptrdiff_t (Z.rem n s + 2 ^ width + s) = Z.rem n s + s) as ->.
    { unfold to_ptrdiff_t.
      replace (Z.rem n s + 2 ^ width + s + 2 ^ (width - 1))
        with (Z.rem n s + s + 2 ^ (width - 1) + 1 * 2 ^ width) by lia.
      rewrite Z_mod_plus_full.
      rewrite Z.mod_small; unfold width in *; simpl Z.sub in *; lia. }
    apply (Z.mod_unique_pos _ _ (n ÷ s - 1)); lia.
  - apply (Z.mod_unique_pos _ _ (n ÷ s)); lia.
Qed.

(** X1: On a full array the window covers every slot of the buffer, so moving
    [head_] and [tail_] by [n] rotates the logical sequence: the element
    read at [i] afterwards is the one read at [(i + n) mod size] before. *)
Lemma rotate_full_array a n :
  well_formed a -> full a = true -> empty a = false ->
  capacity_ a <= 2 ^ (width - 2) ->
  - 2 ^ (width - 1) <= n < 2 ^ (width - 1) ->
  exists a',
    rotate a n = Ok a' /\
    buffer_ a' = buffer_ a /\ size_ a' = size_ a /\ capacity_ a' = capacity_ a /\
    well_formed a' /\
    forall i, 0 <= i < size_ a -> at_ a' i = at_ a ((i + n) mod size_ a).
Proof.
  intros Hwf Hf He Hcap Hn.
  destruct (empty_false a Hwf He) as [Hc Hs].
  pose proof (well_formed_tail_range a Hwf Hc) as Ht.
  pose proof Hwf as (Hsz & Hcap' & Hh0 & Hh & Hinv).
  unfold full in Hf. apply Z.eqb_eq in Hf.
  assert (2 ^ (width - 1) = 2 * 2 ^ (width - 2)) as Hpow by done.
  unfold rotate. rewrite He.
  pose proof (rotate_amount (size_ a) n ltac:(lia) Hn) as Hamount.
  cbv zeta in Hamount. rewrite Hamount.
  pose proof (Z.mod_pos_bound n (size_ a) Hs) as Hm.
  set (m := n mod size_ a) in *.
  rewrite (to_size_t_small m) by (unfold width in *; simpl Z.sub in *; lia).
  rewrite normalize_index_step by lia. cbn [bind].
  rewrite normalize_index_step by (simpl; lia). cbn [bind tail_ capacity_].
  eexists. split; [done|]. cbn [buffer_ size_ capacity_].
  split; [done|]. split; [done|]. split; [done|].
  pose proof (Z.mod_pos_bound (head_ a + m) (capacity_ a) Hc) as Hh'.
  split.
  - unfold well_formed, tail_invariant. cbn.
    repeat split; try lia.
    rewrite Hinv, !Zplus_mod_idemp_l. f_equal. lia.
  - intros i Hi. unfold at_. cbn [size_ head_ buffer_].
    pose proof (Z.mod_pos_bound (i + n) (size_ a) Hs) as Hj.
    destruct (Z.leb_spec (size_ a) i); [lia|].
    destruct (Z.leb_spec (size_ a) ((i + n) mod size_ a)); [lia|].
    rewrite !normalize_index_step by (cbn; lia). cbn [bind capacity_].
    f_equal. unfold m. rewrite Hf.
    rewrite Zplus_mod_idemp_l, (Zplus_mod_idemp_r (i + n)).
    replace (head_ a + n mod capacity_ a + i)
      with (head_ a + i + n mod capacity_ a) by lia.
    rewrite Zplus_mod_idemp_r. f_equal. lia.
Qed.

End CircularArrayRotate.

(** ** Circular array: the elements it holds *)

(** Names the parts of [represents a xs]. *)
Ltac rep_unpack Hrep :=
  pose proof Hrep as (Hwf & Hsz & Hlen & Hslots);
  pose proof Hwf as (Hs & Hcap & Hh0 & Hh & Hinv).

Section CircularArrayContents.

Import Cxx CircularArray CircularArraySpec.
Local Open Scope Z_scope.

Context {T : Type}.

Implicit Types (a : CircularArray.t T) (xs : list T).

(** Residues of the offsets the code computes: one capacity below or
    above the range at most. *)
Lemma mod_range_cases x c :
  0 < c -> - c <= x < 2 * c ->
  x mod c = if x <? 0 then x + c else if x <? c then x else x - c.
Proof.
  intros Hc Hx. destruct (Z.ltb_spec x 0); [|destruct (Z.ltb_spec x c)].
  - symmetry. apply (Z.mod_unique_pos _ _ (-1)); lia.
  - by apply Z.mod_small.
  - symmetry. apply (Z.mod_unique_pos _ _ 1); lia.
Qed.

Lemma represents_slot a xs i :
  represents a xs -> 0 <= i < capacity_ a ->
  buffer_ a !! Z.to_nat ((head_ a + i) mod capacity_ a) = Some (xs !! Z.to_nat i).
Proof.
  intros (Hwf & Hsz & Hlen & Hslots) Hi.
  destruct Hwf as (Hs & Hcap & Hh0 & Hh & Hinv).
  assert (0 < capacity_ a) as Hc by lia.
  pose proof (Z.mod_pos_bound (head_ a + i) (capacity_ a) Hc) as Hj.
  rewrite (Hslots _ Hj). do 2 f_equal. f_equal.
  rewrite (mod_range_cases (head_ a + i)) by lia.
  destruct (Z.ltb_spec (head_ a + i) 0); [lia|].
  destruct (Z.ltb_spec (head_ a + i) (capacity_ a));
    rewrite mod_range_cases by lia.
  - destruct (Z.ltb_spec (head_ a + i - head_ a) 0); [lia|].
    destruct (Z.ltb_spec (head_ a + i - head_ a) (capacity_ a)); lia.
  - destruct (Z.ltb_spec (head_ a + i - capacity_ a - head_ a) 0); lia.
Qed.

(** What [at] returns on every index. *)
Lemma at_represents a xs i :
  represents a xs -> capacity_ a <= 2 ^ (width - 2) -> 0 <= i ->
  at_ a i = match xs !! Z.to_nat i with
            | Some x => Ok x
            | None => Throw IndexOutOfRange
            end.
Proof.
  intros Hrep Hcap Hi. pose proof Hrep as (Hwf & Hsz & Hlen & Hslots).
  destruct Hwf as (Hs & Hcap' & Hh0 & Hh & Hinv).
  assert (2 ^ (width - 1) = 2 * 2 ^ (width - 2)) as Hpow by done.
  unfold at_. destruct (Z.leb_spec (size_ a) i).
  - rewrite lookup_ge_None_2 by lia. done.
  - rewrite normalize_index_step by lia. cbn [bind].
    unfold load.
    pose proof (Z.mod_pos_bound (head_ a + i) (capacity_ a) ltac:(lia)).
    destruct (Z.ltb_spec ((head_ a + i) mod capacity_ a) 0); [lia|].
    rewrite (represents_slot a xs i Hrep) by lia.
    destruct (lookup_lt_is_Some_2 xs (Z.to_nat i) ltac:(lia)) as [x ->]. done.
Qed.

Lemma mod_range_spec x c :
  0 < c -> - c <= x < 2 * c ->
  0 <= x mod c < c /\
  (x < 0 /\ x mod c = x + c \/ 0 <= x < c /\ x mod c = x \/
   c <= x /\ x mod c = x - c).
Proof.
  intros Hc Hx. split; [by apply Z.mod_pos_bound|].
  rewrite mod_range_cases by done.
  destruct (Z.ltb_spec x 0); [lia|]. destruct (Z.ltb_spec x c); lia.
Qed.

Lemma push_back_represents a xs v :
  represents a xs -> full a = false ->
  exists a', push_back a v = Ok a' /\ represents a' (xs ++ [v]) /\
    capacity_ a' = capacity_ a /\ head_ a' = head_ a /\
    buffer_ a' = <[Z.to_nat (tail_ a) := Some v]> (buffer_ a).
Proof.
  intros Hrep Hfull. rep_unpack Hrep.
  destruct (full_false a Hwf Hfull) as [Hc Hlt].
  pose proof (well_formed_tail_range a Hwf Hc) as Ht.
  assert (push_back a v =
          Ok {| buffer_ := <[Z.to_nat (tail_ a) := Some v]> (buffer_ a);
                head_ := head_ a; tail_ := (tail_ a + 1) mod capacity_ a;
                capacity_ := capacity_ a; size_ := size_ a + 1 |}) as Hpush.
  { unfold push_back. rewrite Hfull. unfold construct.
    destruct (Z.leb_spec 0 (tail_ a)); [|lia].
    destruct (Z.ltb_spec (tail_ a) (Z.of_nat (length (buffer_ a)))); [|lia].
    cbn [andb bind]. rewrite normalize_index_step by lia. cbn [bind].
    rewrite to_size_t_small by (unfold width in *; simpl Z.sub in *; lia). done. }
  eexists. split; [exact Hpush|]. split; [|done].
  split; [exact (push_back_well_formed _ _ _ Hwf Hpush)|].
  cbn [size_ buffer_ capacity_ head_].
  split; [rewrite length_app; simpl; lia|]. split; [by rewrite length_insert|].
  intros j Hj.
  destruct (mod_range_spec (head_ a + size_ a) (capacity_ a) Hc ltac:(lia)) as [_ Ht'].
  rewrite <- Hinv in Ht'.
  destruct (mod_range_spec (j - head_ a) (capacity_ a) Hc ltac:(lia)) as [Hk Hk'].
  set (k := (j - head_ a) mod capacity_ a) in *.
  destruct (decide (j = tail_ a)) as [->|Hne].
  - rewrite list_lookup_insert_eq by lia. f_equal.
    symmetry. apply list_lookup_middle. lia.
  - rewrite list_lookup_insert_ne by lia. rewrite (Hslots j Hj). f_equal. fold k.
    destruct (decide (Z.to_nat k < length xs)%nat).
    + by rewrite lookup_app_l.
    + rewrite !lookup_ge_None_2; [done| |lia]. rewrite length_app. simpl. lia.
Qed.

Lemma push_front_represents a xs v :
  represents a xs -> full a = false ->
  exists a', push_front a v = Ok a' /\ represents a' (v :: xs) /\
    capacity_ a' = capacity_ a /\ tail_ a' = tail_ a /\
    buffer_ a' = <[Z.to_nat ((head_ a - 1) mod capacity_ a) := Some v]> (buffer_ a).
Proof.
  intros Hrep Hfull. rep_unpack Hrep.
  destruct (full_false a Hwf Hfull) as [Hc Hlt].
  destruct (mod_range_spec (head_ a - 1) (capacity_ a) Hc ltac:(lia)) as [Hh1 Hh1'].
  assert (push_front a v =
          Ok {| buffer_ := <[Z.to_nat ((head_ a - 1) mod capacity_ a) := Some v]> (buffer_ a);
                head_ := (head_ a - 1) mod capacity_ a; tail_ := tail_ a;
                capacity_ := capacity_ a; size_ := size_ a + 1 |}) as Hpush.
  { unfold push_front. rewrite Hfull.
    rewrite normalize_index_step by lia. cbn [bind]. unfold construct.
    destruct (Z.leb_spec 0 ((head_ a - 1) mod capacity_ a)); [|lia].
    destruct (Z.ltb_spec ((head_ a - 1) mod capacity_ a)
                (Z.of_nat (length (buffer_ a)))); [|lia].
    cbn [andb bind].
    rewrite to_size_t_small by (unfold width in *; simpl Z.sub in *; lia). done. }
  eexists. split; [exact Hpush|]. split; [|done].
  split; [exact (push_front_well_formed _ _ _ Hwf Hpush)|].
  cbn [size_ buffer_ capacity_ head_].
  split; [simpl; lia|]. split; [by rewrite length_insert|].
  intros j Hj.
  set (h' := (head_ a - 1) mod capacity_ a) in *.
  destruct (mod_range_spec (j - head_ a) (capacity_ a) Hc ltac:(lia)) as [Hk Hk'].
  destruct (mod_range_spec (j - h') (capacity_ a) Hc ltac:(lia)) as [Hk2 Hk2'].
  set (k := (j - head_ a) mod capacity_ a) in *.
  set (k' := (j - h') mod capacity_ a) in *.
  destruct (decide (j = h')) as [->|Hne].
  - rewrite list_lookup_insert_eq by lia. f_equal.
    replace (Z.to_nat k') with 0%nat by lia. done.
  - rewrite list_lookup_insert_ne by lia. rewrite (Hslots j Hj). f_equal. fold k.
    replace (Z.to_nat k') with (S (Z.to_nat k)) by lia. done.
Qed.

Lemma pop_front_represents a x xs :
  represents a (x :: xs) ->
  exists a', pop_front a = Ok a' /\ represents a' xs /\
    capacity_ a' = capacity_ a /\ tail_ a' = tail_ a /\
    buffer_ a' = <[Z.to_nat (head_ a) := None]> (buffer_ a).
Proof.
  intros Hrep. rep_unpack Hrep. cbn [length] in Hsz.
  assert (empty a = false) as Hne by (unfold empty; apply Z.eqb_neq; lia).
  destruct (empty_false a Hwf Hne) as [Hc Hpos].
  destruct (mod_range_spec (head_ a + 1) (capacity_ a) Hc ltac:(lia)) as [Hh1 Hh1'].
  assert (buffer_ a !! Z.to_nat (head_ a) = Some (Some x)) as Hhead.
  { rewrite (Hslots (head_ a)) by lia. by rewrite Z.sub_diag, Z.mod_0_l by lia. }
  assert (pop_front a =
          Ok {| buffer_ := <[Z.to_nat (head_ a) := None]> (buffer_ a);
                head_ := (head_ a + 1) mod capacity_ a; tail_ := tail_ a;
                capacity_ := capacity_ a; size_ := size_ a - 1 |}) as Hpop.
  { unfold pop_front. rewrite Hne. unfold destroy.
    destruct (Z.ltb_spec (head_ a) 0); [lia|]. rewrite Hhead. cbn [bind].
    rewrite normalize_index_step by lia. cbn [bind].
    rewrite to_size_t_small by (unfold width in *; simpl Z.sub in *; lia). done. }
  eexists. split; [exact Hpop|]. split; [|done].
  split; [exact (pop_front_well_formed _ _ Hwf Hpop)|].
  cbn [size_ buffer_ capacity_ head_].
  split; [lia|]. split; [by rewrite length_insert|].
  intros j Hj.
  set (h' := (head_ a + 1) mod capacity_ a) in *.
  destruct (mod_range_spec (j - head_ a) (capacity_ a) Hc ltac:(lia)) as [Hk Hk'].
  destruct (mod_range_spec (j - h') (capacity_ a) Hc ltac:(lia)) as [Hk2 Hk2'].
  set (k := (j - head_ a) mod capacity_ a) in *.
  set (k' := (j - h') mod capacity_ a) in *.
  destruct (decide (j = head_ a)) as [->|Hnej].
  - rewrite list_lookup_insert_eq by lia. f_equal.
    rewrite lookup_ge_None_2; [done|lia].
  - rewrite list_lookup_insert_ne by lia. rewrite (Hslots j Hj). f_equal. fold k.
    replace (Z.to_nat k) with (S (Z.to_nat k')) by lia. done.
Qed.

Lemma pop_back_represents a x xs :
  represents a (xs ++ [x]) ->
  exists a', pop_back a = Ok a' /\ represents a' xs /\
    capacity_ a' = capacity_ a /\ head_ a' = head_ a /\
    buffer_ a' = <[Z.to_nat ((tail_ a - 1) mod capacity_ a) := None]> (buffer_ a).
Proof.
  intros Hrep. rep_unpack Hrep. rewrite length_app in Hsz. cbn [length] in Hsz.
  assert (empty a = false) as Hne by (unfold empty; apply Z.eqb_neq; lia).
  destruct (empty_false a Hwf Hne) as [Hc Hpos].
  pose proof (well_formed_tail_range a Hwf Hc) as Ht.
  destruct (mod_range_spec (head_ a + size_ a) (capacity_ a) Hc ltac:(lia)) as [_ Ht'].
  rewrite <- Hinv in Ht'.
  destruct (mod_range_spec (tail_ a - 1) (capacity_ a) Hc ltac:(lia)) as [Ht1 Ht1'].
  set (t' := (tail_ a - 1) mod capacity_ a) in *.
  destruct (mod_range_spec (t' - head_ a) (capacity_ a) Hc ltac:(lia)) as [Hkt Hkt'].
  assert (buffer_ a !! Z.to_nat t' = Some (Some x)) as Hlast.
  { rewrite (Hslots t') by lia. f_equal.
    apply list_lookup_middle. lia. }
  assert (pop_back a =
          Ok {| buffer_ := <[Z.to_nat t' := None]> (buffer_ a);
                head_ := head_ a; tail_ := t';
                capacity_ := capacity_ a; size_ := size_ a - 1 |}) as Hpop.
  { unfold pop_back. rewrite Hne.
    rewrite normalize_index_step by lia. cbn [bind]. fold t'. unfold destroy.
    destruct (Z.ltb_spec t' 0); [lia|]. rewrite Hlast. cbn [bind].
    rewrite to_size_t_small by (unfold width in *; simpl Z.sub in *; lia). done. }
  eexists. split; [exact Hpop|]. split; [|done].
  split; [exact (pop_back_well_formed _ _ Hwf Hpop)|].
  cbn [size_ buffer_ capacity_ head_].
  split; [lia|]. split; [by rewrite length_insert|].
  intros j Hj.
  destruct (mod_range_spec (j - head_ a) (capacity_ a) Hc ltac:(lia)) as [Hk Hk'].
  set (k := (j - head_ a) mod capacity_ a) in *.
  destruct (decide (j = t')) as [->|Hnej].
  - rewrite list_lookup_insert_eq by lia. f_equal.
    rewrite lookup_ge_None_2; [done|lia].
  - rewrite list_lookup_insert_ne by lia. rewrite (Hslots j Hj). f_equal. fold k.
    destruct (decide (Z.to_nat k < length xs)%nat).
    + by rewrite lookup_app_l.
    + rewrite !lookup_ge_None_2; [done|lia|]. rewrite length_app. simpl. lia.
Qed.

Lemma represents_nil_buffer a :
  represents a [] -> buffer_ a = replicate (Z.to_nat (capacity_ a)) None.
Proof.
  intros (Hwf & Hsz & Hlen & Hslots). apply list_eq. intros i.
  destruct (decide (i < Z.to_nat (capacity_ a))%nat) as [Hi|Hi].
  - rewrite lookup_replicate_2 by done.
    rewrite <- (Nat2Z.id i), (Hslots (Z.of_nat i)) by lia. done.
  - rewrite !lookup_ge_None_2; [done| |lia]. rewrite length_replicate. lia.
Qed.

Lemma clear_represents a xs fuel :
  represents a xs -> (length xs < fuel)%nat ->
  exists a', clear fuel a = Ok a' /\ represents a' [] /\
    capacity_ a' = capacity_ a /\ tail_ a' = tail_ a.
Proof.
  revert a fuel. induction xs as [|x xs IH]; intros a fuel Hrep Hfuel.
  - destruct fuel as [|k]; [simpl in Hfuel; lia|]. cbn [clear].
    destruct Hrep as (Hwf & Hsz & Hrest). unfold empty. rewrite Hsz. cbn.
    exists a. split; [done|]. split; [by split|done].
  - destruct fuel as [|k]; [simpl in Hfuel; lia|]. cbn [clear].
    pose proof Hrep as (Hwf & Hsz & _). unfold empty.
    destruct (Z.eqb_spec (size_ a) 0) as [H0|_]; [simpl in Hsz; lia|].
    destruct (pop_front_represents a x xs Hrep) as (a1 & -> & Hrep1 & Hc1 & Ht1 & _).
    cbn [bind].
    destruct (IH a1 k Hrep1 ltac:(simpl in Hfuel; lia)) as (a' & -> & Hrep' & Hc' & Ht').
    exists a'. split; [done|]. split; [done|]. split; congruence.
Qed.

(** [operator++] applied [n] times moves the position [n] slots forward,
    modulo the capacity. *)
Lemma advance_position (buf : list (option T)) p c (n : nat) :
  0 < c < 2 ^ (width - 1) -> 0 <= p < c ->
  advance n (Iterator buf p c) = Ok (Iterator buf ((p + Z.of_nat n) mod c) c).
Proof.
  intros Hc. revert p. induction n as [|n IH]; intros p Hp.
  - cbn [advance]. by rewrite Z.add_0_r, Z.mod_small.
  - cbn [advance]. unfold incr. cbn [it_capacity_ position_ it_buffer_].
    destruct (Z.eqb_spec c 0); [lia|]. cbn [bind].
    rewrite to_size_t_small by (unfold width in *; simpl Z.sub in *; lia).
    rewrite IH by (apply Z.mod_pos_bound; lia).
    rewrite Zplus_mod_idemp_l. do 3 f_equal. lia.
Qed.

Lemma construct_append (done : list T) (k : nat) v :
  construct ((Some <$> done) ++ None :: replicate k None) (Z.of_nat (length done)) v =
  Ok ((Some <$> (done ++ [v])) ++ replicate k None).
Proof.
  unfold construct. rewrite length_app, length_fmap. cbn [length].
  rewrite length_replicate.
  destruct (Z.leb_spec 0 (Z.of_nat (length done))); [|lia].
  destruct (Z.ltb_spec (Z.of_nat (length done)) (Z.of_nat (length done + S k)));
    [|lia].
  cbn [andb]. f_equal. rewrite Nat2Z.id.
  rewrite insert_app_r_alt by (rewrite length_fmap; lia).
  rewrite length_fmap, Nat.sub_diag. cbn [insert list_insert].
  rewrite fmap_app, <- app_assoc. done.
Qed.

(** The loop of [copy_elements] lays the elements out from slot 0 on, in
    their logical order. *)
Lemma copy_elements_loop_spec other xs (done rest : list T) (k : nat) :
  represents other xs -> xs = done ++ rest ->
  copy_elements_loop (length rest) other
    ((Some <$> done) ++ replicate (length rest + k) None)
    (Z.of_nat (length done))
    ((head_ other + Z.of_nat (length done)) mod capacity_ other) =
  Ok ((Some <$> xs) ++ replicate k None).
Proof.
  intros Hrep. rep_unpack Hrep.
  revert done. induction rest as [|x rest IH]; intros done Hxs.
  - cbn. by rewrite Hxs, app_nil_r.
  - cbn [length copy_elements_loop].
    assert (Z.of_nat (length done) < size_ other) as Hlt.
    { rewrite Hsz, Hxs, length_app. cbn [length]. lia. }
    assert (0 < capacity_ other) as Hc by lia.
    unfold load.
    pose proof (Z.mod_pos_bound (head_ other + Z.of_nat (length done))
                  (capacity_ other) Hc) as Hj.
    destruct (Z.ltb_spec ((head_ other + Z.of_nat (length done)) mod capacity_ other) 0);
      [lia|].
    rewrite (represents_slot other xs _ Hrep) by lia.
    rewrite Nat2Z.id, Hxs, list_lookup_middle by done. cbn [bind].
    cbn [Nat.add replicate]. rewrite construct_append. cbn [bind].
    destruct (Z.eqb_spec (capacity_ other) 0); [lia|].
    rewrite !to_size_t_small by (unfold width in *; simpl Z.sub in *; lia).
    rewrite Zplus_mod_idemp_l.
    replace (Z.of_nat (length done) + 1) with (Z.of_nat (length (done ++ [x])))
      by (rewrite length_app; cbn [length]; lia).
    replace (head_ other + Z.of_nat (length done) + 1)
      with (head_ other + Z.of_nat (length (done ++ [x])))
      by (rewrite length_app; cbn [length]; lia).
    rewrite <- Hxs. apply IH. by rewrite <- app_assoc.
Qed.

Lemma copy_elements_spec other xs :
  represents other xs ->
  copy_elements (replicate (Z.to_nat (capacity_ other)) None) other =
  Ok ((Some <$> xs) ++ replicate (Z.to_nat (capacity_ other - size_ other)) None).
Proof.
  intros Hrep. rep_unpack Hrep. unfold copy_elements.
  pose proof (copy_elements_loop_spec other xs [] xs
                (Z.to_nat (capacity_ other - size_ other)) Hrep eq_refl) as Hloop.
  cbn [length fmap list_fmap app] in Hloop.
  rewrite Z.add_0_r in Hloop.
  destruct Hh as [Hh|[Hc0 Hh]].
  - rewrite Z.mod_small in Hloop by lia.
    replace (Z.to_nat (size_ other)) with (length xs) by lia.
    replace (Z.to_nat (capacity_ other)) with
      (length xs + Z.to_nat (capacity_ other - size_ other))%nat by lia.
    exact Hloop.
  - assert (xs = []) as -> by (destruct xs; [done|simpl in Hsz; lia]).
    cbn in Hsz. rewrite Hsz, Hc0. reflexivity.
Qed.

(** Reading an array whose elements start at slot 0. *)
Lemma at_compact (a' : CircularArray.t T) xs i :
  head_ a' = 0 -> size_ a' = Z.of_nat (length xs) ->
  size_ a' <= capacity_ a' < 2 ^ (width - 1) ->
  buffer_ a' = (Some <$> xs) ++ replicate (Z.to_nat (capacity_ a' - size_ a')) None ->
  0 <= i ->
  at_ a' i = match xs !! Z.to_nat i with
             | Some x => Ok x
             | None => Throw IndexOutOfRange
             end.
Proof.
  intros Hh Hsz Hcap Hbuf Hi. unfold at_. destruct (Z.leb_spec (size_ a') i).
  - rewrite lookup_ge_None_2 by lia. done.
  - rewrite Hh, Z.add_0_l, normalize_index_step by lia. cbn [bind].
    rewrite Z.mod_small by lia. unfold load.
    destruct (Z.ltb_spec i 0); [lia|]. rewrite Hbuf.
    rewrite lookup_app_l by (rewrite length_fmap; lia).
    rewrite list_lookup_fmap.
    destruct (lookup_lt_is_Some_2 xs (Z.to_nat i) ltac:(lia)) as [x ->]. done.
Qed.

Lemma compact_represents (a' : CircularArray.t T) xs :
  head_ a' = 0 -> tail_ a' = size_ a' -> size_ a' = Z.of_nat (length xs) ->
  size_ a' < capacity_ a' < 2 ^ (width - 1) ->
  buffer_ a' = (Some <$> xs) ++ replicate (Z.to_nat (capacity_ a' - size_ a')) None ->
  represents a' xs.
Proof.
  intros Hh Ht Hsz Hcap Hbuf. split; [|split; [done|split]].
  - unfold well_formed, tail_invariant. rewrite Hh, Ht, Z.add_0_l, Z.mod_small by lia.
    repeat split; lia.
  - rewrite Hbuf, length_app, length_fmap, length_replicate. lia.
  - intros j Hj. rewrite Hh, Z.sub_0_r, Z.mod_small by lia. rewrite Hbuf.
    destruct (decide (Z.to_nat j < length xs)%nat).
    + rewrite lookup_app_l by (by rewrite length_fmap).
      rewrite list_lookup_fmap.
      by destruct (lookup_lt_is_Some_2 xs (Z.to_nat j) ltac:(done)) as [x ->].
    + rewrite lookup_app_r by (rewrite length_fmap; lia).
      rewrite lookup_replicate_2 by (rewrite length_fmap; lia).
      by rewrite lookup_ge_None_2 by lia.
Qed.

End CircularArrayContents.

(** ** Circular array: behaviour of the member functions *)

Section CircularArrayProperties.

Import Cxx CircularArray CircularArraySpec.
Local Open Scope Z_scope.

Context {T : Type}.

Implicit Types (a : CircularArray.t T) (xs : list T).

(** X2: [at(pos)] returns the element at offset [pos] of the sequence, and
    throws [std::out_of_range] for every [pos >= size()]. *)
Theorem at_checked a xs :
  represents a xs -> capacity_ a <= 2 ^ (width - 2) ->
  (forall i x, xs !! i = Some x -> at_ a (Z.of_nat i) = Ok x) /\
  (forall pos, size_ a <= pos -> at_ a pos = Throw IndexOutOfRange).
Proof.
  intros Hrep Hcap. split.
  - intros i x Hi. rewrite (at_represents a xs) by (done || lia).
    by rewrite Nat2Z.id, Hi.
  - intros pos Hpos. unfold at_. by destruct (Z.leb_spec (size_ a) pos); [|lia].
Qed.

(** X3: [push_back] and [push_front] throw on a full array; otherwise
    [push_back] appends the value and [push_front] puts it in front,
    keeping the other elements and the capacity. *)
Theorem push_adds_at_either_end a xs v :
  represents a xs ->
  (full a = true ->
   push_back a v = Throw CapacityExceeded /\
   push_front a v = Throw CapacityExceeded) /\
  (full a = false ->
   (exists a', push_back a v = Ok a' /\ represents a' (xs ++ [v]) /\
      capacity_ a' = capacity_ a) /\
   (exists a', push_front a v = Ok a' /\ represents a' (v :: xs) /\
      capacity_ a' = capacity_ a)).
Proof.
  intros Hrep. split.
  - intros Hf. unfold push_back, push_front. by rewrite Hf.
  - intros Hf. split.
    + destruct (push_back_represents a xs v Hrep Hf) as (a' & Hp & Hr & Hc & _).
      by exists a'.
    + destruct (push_front_represents a xs v Hrep Hf) as (a' & Hp & Hr & Hc & _).
      by exists a'.
Qed.

(** X4: [pop_front] and [pop_back] throw on an empty array; otherwise
    [pop_front] removes the first element, leaving the slot it occupied
    without an object, and [pop_back] removes the last. *)
Theorem pop_removes_at_either_end a xs :
  represents a xs ->
  (xs = [] -> pop_front a = Throw Underflow /\ pop_back a = Throw Underflow) /\
  (forall x xs', xs = x :: xs' ->
   exists a', pop_front a = Ok a' /\ represents a' xs' /\
     capacity_ a' = capacity_ a /\
     buffer_ a' !! Z.to_nat (head_ a) = Some None) /\
  (forall ys x, xs = ys ++ [x] ->
   exists a', pop_back a = Ok a' /\ represents a' ys /\
     capacity_ a' = capacity_ a).
Proof.
  intros Hrep. split; [|split].
  - intros ->. destruct Hrep as (_ & Hsz & _).
    unfold pop_front, pop_back, empty. by rewrite Hsz.
  - intros x xs' ->.
    destruct (pop_front_represents a x xs' Hrep) as (a' & Hp & Hr & Hc & _ & Hb).
    exists a'. split; [done|]. split; [done|]. split; [done|].
    rewrite Hb. apply list_lookup_insert_eq.
    destruct Hrep as (Hwf & Hsz & Hlen & _).
    destruct Hwf as (Hs & _ & Hh0 & Hh & _). cbn [length] in Hsz. lia.
  - intros ys x ->.
    destruct (pop_back_represents a x ys Hrep) as (a' & Hp & Hr & Hc & _).
    by exists a'.
Qed.

(** X5: A push followed by the pop at the same end gives back the array the
    push started from, member by member. *)
Theorem push_then_pop_restores a xs v :
  represents a xs -> full a = false ->
  (do a' <- push_back a v; pop_back a') = Ok a /\
  (do a' <- push_front a v; pop_front a') = Ok a.
Proof.
  intros Hrep Hfull. rep_unpack Hrep.
  destruct (full_false a Hwf Hfull) as [Hc Hlt].
  pose proof (well_formed_tail_range a Hwf Hc) as Ht.
  destruct (mod_range_spec (head_ a + size_ a) (capacity_ a) Hc ltac:(lia)) as [_ Ht'].
  rewrite <- Hinv in Ht'.
  split.
  - destruct (push_back_represents a xs v Hrep Hfull)
      as (a1 & -> & Hrep1 & Hc1 & Hh1 & Hb1). cbn [bind].
    destruct (pop_back_represents a1 v xs Hrep1) as (a2 & -> & Hrep2 & Hc2 & Hh2 & Hb2).
    f_equal.
    destruct Hrep1 as ((_ & _ & _ & _ & Hinv1) & Hsz1 & _).
    destruct Hrep2 as ((_ & _ & _ & _ & Hinv2) & Hsz2 & _).
    unfold tail_invariant in *.
    rewrite length_app in Hsz1. cbn [length] in Hsz1.
    assert (tail_ a2 = tail_ a) as Ht2 by (rewrite Hinv2, Hinv; congruence).
    assert ((tail_ a1 - 1) mod capacity_ a1 = tail_ a) as Hidx.
    { rewrite Hinv1, Hc1, Hh1, Hsz1, Zminus_mod_idemp_l, Hinv, Hsz. f_equal. lia. }
    rewrite Hidx, Hb1, list_insert_insert_eq in Hb2.
    rewrite list_insert_id in Hb2.
    2:{ rewrite (Hslots (tail_ a)) by lia. f_equal. apply lookup_ge_None_2.
        destruct (mod_range_spec (tail_ a - head_ a) (capacity_ a) Hc ltac:(lia)). lia. }
    destruct a, a2. cbn in *. congruence.
  - destruct (push_front_represents a xs v Hrep Hfull)
      as (a1 & -> & Hrep1 & Hc1 & Ht1 & Hb1). cbn [bind].
    destruct (pop_front_represents a1 v xs Hrep1) as (a2 & -> & Hrep2 & Hc2 & Ht2 & Hb2).
    f_equal.
    destruct (mod_range_spec (head_ a - 1) (capacity_ a) Hc ltac:(lia)) as [Hp Hp'].
    pose proof Hrep1 as ((_ & _ & Hh10 & Hh1 & Hinv1) & Hsz1 & _).
    pose proof Hrep2 as ((_ & _ & Hh20 & Hh2 & Hinv2) & Hsz2 & _).
    unfold tail_invariant in *. cbn [length] in Hsz1.
    destruct (mod_range_spec (head_ a1 + size_ a1) (capacity_ a1) ltac:(lia) ltac:(lia))
      as [_ Hm1].
    destruct (mod_range_spec (head_ a2 + size_ a2) (capacity_ a2) ltac:(lia) ltac:(lia))
      as [_ Hm2].
    rewrite <- Hinv1 in Hm1. rewrite <- Hinv2 in Hm2.
    assert (head_ a1 = (head_ a - 1) mod capacity_ a) as Hhead1 by lia.
    assert (head_ a2 = head_ a) as Hhead2 by lia.
    rewrite Hhead1, Hb1, list_insert_insert_eq in Hb2.
    rewrite list_insert_id in Hb2.
    2:{ rewrite (Hslots ((head_ a - 1) mod capacity_ a)) by lia. f_equal.
        apply lookup_ge_None_2.
        destruct (mod_range_spec ((head_ a - 1) mod capacity_ a - head_ a)
                    (capacity_ a) Hc ltac:(lia)). lia. }
    destruct a, a2. cbn in *. subst. f_equal. lia.
Qed.

(** X6: [clear] removes every element: the array is left empty with its
    capacity, and no slot of the storage holds an object. *)
Theorem clear_empties a xs fuel :
  represents a xs -> (length xs < fuel)%nat ->
  exists a', clear fuel a = Ok a' /\ represents a' [] /\
    capacity_ a' = capacity_ a /\
    buffer_ a' = replicate (Z.to_nat (capacity_ a)) None.
Proof.
  intros Hrep Hfuel.
  destruct (clear_represents a xs fuel Hrep Hfuel) as (a' & Hcl & Hrep' & Hc & _).
  exists a'. split; [done|]. split; [done|]. split; [done|].
  rewrite <- Hc. by apply represents_nil_buffer.
Qed.

(** X7: Walking an iterator from [begin()]: after [i] increments it reads the
    element at offset [i], and after [size()] increments it is [end()]. *)
Theorem iterator_walk a xs :
  represents a xs ->
  (forall i x, xs !! i = Some x ->
     (do it <- advance i (begin_ a); deref it) = Ok x) /\
  advance (length xs) (begin_ a) = Ok (end_ a).
Proof.
  intros Hrep. rep_unpack Hrep. unfold begin_, end_. split.
  - intros i x Hi. pose proof (lookup_lt_Some _ _ _ Hi) as Hlt.
    rewrite advance_position by lia. cbn [bind]. unfold deref.
    cbn [it_buffer_ position_]. unfold load.
    pose proof (Z.mod_pos_bound (head_ a + Z.of_nat i) (capacity_ a) ltac:(lia)).
    destruct (Z.ltb_spec ((head_ a + Z.of_nat i) mod capacity_ a) 0); [lia|].
    rewrite (represents_slot a xs _ Hrep) by lia. by rewrite Nat2Z.id, Hi.
  - destruct xs as [|x xs'].
    + cbn [advance length]. cbn [length] in Hsz. f_equal. f_equal.
      unfold tail_invariant in Hinv. rewrite Hinv, Hsz, Z.add_0_r.
      destruct Hh as [Hh|[-> ->]]; [by rewrite Z.mod_small by lia|done].
    + cbn [length] in Hsz. rewrite advance_position by lia.
      unfold tail_invariant in Hinv. by rewrite Hinv, Hsz.
Qed.

(** X8: The copy constructor gives an array of the same capacity that holds
    the same elements, laid out from slot 0 on. *)
Theorem copy_preserves_elements a xs :
  represents a xs ->
  exists a', copy a = Ok a' /\
    size_ a' = size_ a /\ capacity_ a' = capacity_ a /\ head_ a' = 0 /\
    (forall i, 0 <= i ->
       at_ a' i = match xs !! Z.to_nat i with
                  | Some x => Ok x
                  | None => Throw IndexOutOfRange
                  end) /\
    (size_ a < capacity_ a -> represents a' xs).
Proof.
  intros Hrep. rep_unpack Hrep. unfold copy.
  rewrite (copy_elements_spec a xs Hrep). cbn [bind].
  eexists. split; [done|]. cbn [size_ capacity_ head_].
  do 3 (split; [done|]). split.
  - intros i Hi. by apply at_compact; cbn; try lia.
  - intros Hlt. by apply compact_represents; cbn; try lia.
Qed.

(** X9: Copy assignment replaces the elements and the capacity of [this] by
    those of [other]. *)
Theorem assign_replaces_elements this other xs ys fuel :
  represents this xs -> represents other ys -> (length xs < fuel)%nat ->
  exists a', assign fuel this other = Ok a' /\
    size_ a' = size_ other /\ capacity_ a' = capacity_ other /\
    (forall i, 0 <= i ->
       at_ a' i = match ys !! Z.to_nat i with
                  | Some y => Ok y
                  | None => Throw IndexOutOfRange
                  end).
Proof.
  intros Hthis Hother Hfuel. unfold assign.
  destruct (clear_represents this xs fuel Hthis Hfuel) as (t1 & -> & Hrep1 & Hc1 & _).
  cbn [bind]. pose proof (represents_nil_buffer t1 Hrep1) as Hbuf.
  destruct Hother as (Hwf & Hsz & Hlen & Hslots) eqn:E. clear E.
  pose proof Hwf as (Hs & Hcap & _).
  assert (buffer_ (if negb (capacity_ t1 =? capacity_ other)
                   then {| buffer_ := replicate (Z.to_nat (capacity_ other)) None;
                           head_ := head_ t1; tail_ := tail_ t1;
                           capacity_ := capacity_ other; size_ := size_ t1 |}
                   else t1) = replicate (Z.to_nat (capacity_ other)) None /\
          capacity_ (if negb (capacity_ t1 =? capacity_ other)
                   then {| buffer_ := replicate (Z.to_nat (capacity_ other)) None;
                           head_ := head_ t1; tail_ := tail_ t1;
                           capacity_ := capacity_ other; size_ := size_ t1 |}
                   else t1) = capacity_ other) as [-> ->].
  { destruct (Z.eqb_spec (capacity_ t1) (capacity_ other)) as [Heq|Hne]; cbn.
    - by rewrite Hbuf, Heq.
    - done. }
  rewrite (copy_elements_spec other ys) by done. cbn [bind].
  eexists. split; [done|]. cbn [size_ capacity_].
  do 2 (split; [done|]).
  intros i Hi. by apply at_compact; cbn; try lia.
Qed.

Section Equality.

(** [operator!=] of the elements is taken to decide inequality. *)
Variable ne : T -> T -> bool.
Hypothesis ne_spec : forall x y, ne x y = false <-> x = y.

Lemma equal_loop_spec a b xs ys (n i : nat) :
  represents a xs -> represents b ys ->
  capacity_ a <= 2 ^ (width - 2) -> capacity_ b <= 2 ^ (width - 2) ->
  length xs = length ys -> (i + n = length xs)%nat ->
  exists r, equal_loop ne n a b (Z.of_nat i) = Ok r /\
    (r = true <-> drop i xs = drop i ys).
Proof using ne_spec.
  intros Ha Hb Hca Hcb Hlen. revert i. induction n as [|n IH]; intros i Hi.
  - exists true. split; [done|]. by rewrite !drop_ge by lia.
  - cbn [equal_loop].
    destruct (lookup_lt_is_Some_2 xs i ltac:(lia)) as [x Hx].
    destruct (lookup_lt_is_Some_2 ys i ltac:(lia)) as [y Hy].
    rewrite (at_represents a xs) by (done || lia).
    rewrite (at_represents b ys) by (done || lia).
    rewrite Nat2Z.id, Hx, Hy. cbn [bind].
    rewrite (drop_S _ _ _ Hx), (drop_S _ _ _ Hy).
    destruct (ne x y) eqn:Hne.
    + exists false. split; [done|]. split; [done|].
      intros [= Hxy _]. apply ne_spec in Hxy. congruence.
    + apply ne_spec in Hne as ->.
      destruct Ha as ((Hs & Hcap & _) & Hsz & _).
      rewrite to_size_t_small by (unfold width in *; simpl Z.sub in *; lia).
      replace (Z.of_nat i + 1) with (Z.of_nat (S i)) by lia.
      destruct (IH (S i) ltac:(lia)) as (r & -> & Hr).
      exists r. split; [done|]. rewrite Hr. split; [by intros ->|by intros [= ->]].
Qed.

(** X10: [operator==] returns true exactly when the two arrays hold the same
    sequence of elements, whatever their capacities and head positions;
    [operator!=] returns the opposite. *)
Theorem equal_compares_elements a b xs ys :
  represents a xs -> represents b ys ->
  capacity_ a <= 2 ^ (width - 2) -> capacity_ b <= 2 ^ (width - 2) ->
  exists r, equal ne a b = Ok r /\ not_equal ne a b = Ok (negb r) /\
    (r = true <-> xs = ys).
Proof using ne_spec.
  intros Ha Hb Hca Hcb. unfold not_equal, equal.
  pose proof Ha as (_ & Hsa & _). pose proof Hb as (_ & Hsb & _).
  destruct (Z.eqb_spec (size_ a) (size_ b)) as [Heq|Hne]; cbn [negb].
  - assert (length xs = length ys) as Hlen by lia.
    destruct (equal_loop_spec a b xs ys (length xs) 0 Ha Hb Hca Hcb Hlen eq_refl)
      as (r & Hr & Hiff).
    replace (Z.to_nat (size_ a)) with (length xs) by lia.
    change 0 with (Z.of_nat 0). rewrite Hr. by exists r.
  - exists false. split; [done|]. split; [done|]. split; [done|].
    intros ->. lia.
Qed.

End Equality.

End CircularArrayProperties.

(** Instances of the circular array theorems on two arrays of capacity 4:
    one holding 1, 2 from slot 0, and the full one holding 2, 3, 4, 5 from
    slot 1. *)

Ltac slots_by_cases :=
  let j := fresh "j" in let Hj := fresh "Hj" in
  intros j Hj; cbn in Hj;
  assert (j = 0 \/ j = 1 \/ j = 2 \/ j = 3)%Z as [->|[->|[->| ->]]] by lia;
  reflexivity.

Lemma one_two_of_four_represents :
  CircularArraySpec.two_of_four = Cxx.Ok CircularArraySpec.one_two_of_four /\
  CircularArraySpec.represents CircularArraySpec.one_two_of_four [1; 2]%Z.
Proof.
  split; [reflexivity|].
  split; [|split; [reflexivity|split; [reflexivity|slots_by_cases]]].
  unfold CircularArraySpec.well_formed, CircularArray.tail_invariant, Cxx.width,
    CircularArraySpec.one_two_of_four.
  cbn. change (2 ^ (64 - 1))%Z with 9223372036854775808%Z.
  repeat split; try lia; reflexivity.
Qed.

Lemma wraparound_state_represents :
  CircularArraySpec.represents CircularArraySpec.wraparound_state [2; 3; 4; 5]%Z.
Proof.
  split; [|split; [reflexivity|split; [reflexivity|slots_by_cases]]].
  unfold CircularArraySpec.well_formed, CircularArray.tail_invariant, Cxx.width,
    CircularArraySpec.wraparound_state.
  cbn. change (2 ^ (64 - 1))%Z with 9223372036854775808%Z.
  repeat split; try lia; reflexivity.
Qed.

Lemma int_ne_spec x y : CircularArraySpec.int_ne x y = false <-> x = y.
Proof.
  unfold CircularArraySpec.int_ne. destruct (Z.eqb_spec x y); cbn; split; congruence.
Qed.

Lemma at_checked_witness :
  CircularArray.at_ CircularArraySpec.wraparound_state 0 = Cxx.Ok 2%Z /\
  CircularArray.at_ CircularArraySpec.wraparound_state 4 = Cxx.Throw Cxx.IndexOutOfRange.
Proof.
  destruct (at_checked CircularArraySpec.wraparound_state [2; 3; 4; 5]%Z
              wraparound_state_represents ltac:(unfold Cxx.width; cbn; lia))
    as [Hin Hout].
  split; [exact (Hin 0%nat 2%Z eq_refl)|].
  apply Hout. cbn. lia.
Defined.

Lemma push_adds_at_either_end_witness :
  (exists a', CircularArray.push_back CircularArraySpec.one_two_of_four 3%Z = Cxx.Ok a' /\
     CircularArraySpec.represents a' [1; 2; 3]%Z) /\
  (exists a', CircularArray.push_front CircularArraySpec.one_two_of_four 0%Z = Cxx.Ok a' /\
     CircularArraySpec.represents a' [0; 1; 2]%Z).
Proof.
  destruct (push_adds_at_either_end CircularArraySpec.one_two_of_four [1; 2]%Z 3%Z
              (proj2 one_two_of_four_represents)) as [_ H3].
  destruct (push_adds_at_either_end CircularArraySpec.one_two_of_four [1; 2]%Z 0%Z
              (proj2 one_two_of_four_represents)) as [_ H0].
  destruct (H3 eq_refl) as [(a' & Hp & Hr & _) _].
  destruct (H0 eq_refl) as [_ (a0 & Hp0 & Hr0 & _)].
  split.
  - exists a'. split; [exact Hp|exact Hr].
  - exists a0. split; [exact Hp0|exact Hr0].
Defined.

Lemma pop_removes_at_either_end_witness :
  (exists a', CircularArray.pop_front CircularArraySpec.wraparound_state = Cxx.Ok a' /\
     CircularArraySpec.represents a' [3; 4; 5]%Z) /\
  (exists a', CircularArray.pop_back CircularArraySpec.wraparound_state = Cxx.Ok a' /\
     CircularArraySpec.represents a' [2; 3; 4]%Z).
Proof.
  destruct (pop_removes_at_either_end CircularArraySpec.wraparound_state [2; 3; 4; 5]%Z
              wraparound_state_represents) as (_ & Hfront & Hback).
  destruct (Hfront 2%Z [3; 4; 5]%Z eq_refl) as (a' & Hp & Hr & _).
  destruct (Hback [2; 3; 4]%Z 5%Z eq_refl) as (a2 & Hp2 & Hr2 & _).
  split.
  - exists a'. split; [exact Hp|exact Hr].
  - exists a2. split; [exact Hp2|exact Hr2].
Defined.

Lemma push_then_pop_restores_witness :
  (do a' <- CircularArray.push_back CircularArraySpec.one_two_of_four 3%Z;
   CircularArray.pop_back a') = Cxx.Ok CircularArraySpec.one_two_of_four.
Proof.
  exact (proj1 (push_then_pop_restores CircularArraySpec.one_two_of_four [1; 2]%Z 3%Z
                  (proj2 one_two_of_four_represents) eq_refl)).
Defined.

Lemma clear_empties_witness :
  exists a', CircularArray.clear 5 CircularArraySpec.wraparound_state = Cxx.Ok a' /\
    CircularArray.buffer_ a' = [None; None; None; None].
Proof.
  destruct (clear_empties CircularArraySpec.wraparound_state [2; 3; 4; 5]%Z 5
              wraparound_state_represents ltac:(cbn; lia)) as (a' & Hc & _ & _ & Hb).
  exists a'. split; [exact Hc|exact Hb].
Defined.

Lemma iterator_walk_witness :
  CircularArraySpec.advance 4 (CircularArray.begin_ CircularArraySpec.wraparound_state) =
  Cxx.Ok (CircularArray.end_ CircularArraySpec.wraparound_state).
Proof.
  exact (proj2 (iterator_walk CircularArraySpec.wraparound_state [2; 3; 4; 5]%Z
                  wraparound_state_represents)).
Defined.

Lemma copy_preserves_elements_witness :
  exists a', CircularArray.copy CircularArraySpec.wraparound_state = Cxx.Ok a' /\
    CircularArray.head_ a' = 0%Z /\ CircularArray.at_ a' 0 = Cxx.Ok 2%Z.
Proof.
  destruct (copy_preserves_elements CircularArraySpec.wraparound_state [2; 3; 4; 5]%Z
              wraparound_state_represents) as (a' & Hc & _ & _ & Hh & Hat & _).
  exists a'. split; [exact Hc|]. split; [exact Hh|]. exact (Hat 0%Z ltac:(lia)).
Defined.

Lemma assign_replaces_elements_witness :
  exists a', CircularArray.assign 3 CircularArraySpec.one_two_of_four
               CircularArraySpec.wraparound_state = Cxx.Ok a' /\
    CircularArray.size_ a' = 4%Z /\ CircularArray.at_ a' 3 = Cxx.Ok 5%Z.
Proof.
  destruct (assign_replaces_elements CircularArraySpec.one_two_of_four
              CircularArraySpec.wraparound_state [1; 2]%Z [2; 3; 4; 5]%Z 3
              (proj2 one_two_of_four_represents) wraparound_state_represents
              ltac:(cbn; lia)) as (a' & Ha & Hs & _ & Hat).
  exists a'. split; [exact Ha|]. split; [exact Hs|]. exact (Hat 3%Z ltac:(lia)).
Defined.

Lemma equal_compares_elements_witness :
  CircularArray.equal CircularArraySpec.int_ne CircularArraySpec.one_two_of_four
    CircularArraySpec.wraparound_state = Cxx.Ok false.
Proof.
  destruct (equal_compares_elements CircularArraySpec.int_ne int_ne_spec
              CircularArraySpec.one_two_of_four CircularArraySpec.wraparound_state
              [1; 2]%Z [2; 3; 4; 5]%Z
              (proj2 one_two_of_four_represents) wraparound_state_represents
              ltac:(unfold Cxx.width; cbn; lia) ltac:(unfold Cxx.width; cbn; lia))
    as (r & Hr & _ & Hiff).
  destruct r; [|exact Hr]. by specialize (proj1 Hiff eq_refl).
Defined.

Lemma rotate_full_array_witness :
  exists a', CircularArray.rotate CircularArraySpec.wraparound_state 1 = Cxx.Ok a' /\
    CircularArray.at_ a' 0 =
    CircularArray.at_ CircularArraySpec.wraparound_state 1.
Proof.
  destruct (rotate_full_array CircularArraySpec.wraparound_state 1%Z
              (proj1 wraparound_state_represents) eq_refl eq_refl
              ltac:(unfold Cxx.width; cbn; lia) ltac:(unfold Cxx.width; cbn; lia))
    as (a' & Hr & _ & _ & _ & _ & Hat).
  exists a'. split; [exact Hr|]. exact (Hat 0%Z ltac:(cbn; lia)).
Defined.

(** ** Dynamic array *)

Section DynamicArrayGrowth.

Import Cxx DynamicArray DynamicArraySpec.
Local Open Scope Z_scope.

(** The number of binary digits of a positive number. *)
Lemma digits2_pos_bounds m :
  2 ^ (Z.pos (digits2_pos m) - 1) <= Z.pos m < 2 ^ Z.pos (digits2_pos m).
Proof.
  induction m as [m IH|m IH|]; simpl digits2_pos.
  - rewrite Pos2Z.inj_succ.
    replace (Z.succ (Z.pos (digits2_pos m)) - 1) with (Z.succ (Z.pos (digits2_pos m) - 1)) by lia.
    rewrite !Z.pow_succ_r by lia. lia.
  - rewrite Pos2Z.inj_succ.
    replace (Z.succ (Z.pos (digits2_pos m)) - 1) with (Z.succ (Z.pos (digits2_pos m) - 1)) by lia.
    rewrite !Z.pow_succ_r by lia. lia.
  - simpl. lia.
Qed.

Lemma digits2_pos_unique m d :
  2 ^ (d - 1) <= Z.pos m < 2 ^ d -> Z.pos (digits2_pos m) = d.
Proof.
  intros [Hlo Hhi]. pose proof (digits2_pos_bounds m) as [Hlo' Hhi'].
  assert (0 < d) as Hd.
  { destruct (Z.ltb_spec 0 d); [done|]. rewrite Z.pow_neg_r in Hlo by lia.
    destruct (Z.eqb_spec d 0) as [->|]; [simpl in Hhi; lia|].
    rewrite Z.pow_neg_r in Hhi by lia. lia. }
  assert (d - 1 < Z.pos (digits2_pos m)) as H1.
  { apply (Z.pow_lt_mono_r_iff 2); lia. }
  assert (Z.pos (digits2_pos m) - 1 < d) as H2.
  { apply (Z.pow_lt_mono_r_iff 2); lia. }
  lia.
Qed.

Lemma iter_pos_nat {A} (f : A -> A) p x :
  SpecFloat.iter_pos f p x = @Nat.iter (Pos.to_nat p) A f x.
Proof.
  revert x. induction p as [p IH|p IH|]; intros x; simpl SpecFloat.iter_pos.
  - rewrite !IH, Pos2Nat.inj_xI.
    replace (S (2 * Pos.to_nat p)) with (Pos.to_nat p + (Pos.to_nat p + 1))%nat by lia.
    rewrite !Nat.iter_add. simpl. done.
  - rewrite !IH, Pos2Nat.inj_xO.
    replace (2 * Pos.to_nat p)%nat with (Pos.to_nat p + Pos.to_nat p)%nat by lia.
    by rewrite Nat.iter_add.
  - done.
Qed.

Lemma shr_1_even m :
  0 <= m -> shr_1 (Build_shr_record (2 * m) false false) = Build_shr_record m false false.
Proof. intros Hm. destruct m; [done|done|lia]. Qed.

Lemma iter_shr_1_exact k m :
  0 <= m ->
  @Nat.iter k _ shr_1 (Build_shr_record (m * 2 ^ Z.of_nat k) false false) =
  Build_shr_record m false false.
Proof.
  intros Hm. induction k as [|k IH].
  - simpl. f_equal. lia.
  - rewrite Nat.iter_succ_r, Nat2Z.inj_succ, Z.pow_succ_r by lia.
    replace (m * (2 * 2 ^ Z.of_nat k)) with (2 * (m * 2 ^ Z.of_nat k)) by lia.
    rewrite shr_1_even by lia. done.
Qed.

(** Rounding a mantissa that has [s] trailing zero bits beyond the 24 kept
    is exact. *)
Lemma binary_round_aux_exact m e s q :
  0 <= s -> Z.pos m = Z.pos q * 2 ^ s -> Z.pos (digits2_pos q) = 24 ->
  -149 <= e + s <= 104 ->
  binary_round_aux 24 128 false (Z.pos m) e loc_Exact = S754_finite false q (e + s).
Proof.
  intros Hs Hm Hq He.
  assert (Z.pos (digits2_pos m) = 24 + s) as Hd.
  { apply digits2_pos_unique. pose proof (digits2_pos_bounds q) as Hb.
    rewrite Hq in Hb. rewrite Hm.
    replace (24 + s - 1) with (23 + s) by lia. rewrite !Z.pow_add_r by lia.
    simpl Z.sub in Hb. nia. }
  unfold binary_round_aux, shr_fexp. simpl Zdigits2. rewrite Hd.
  unfold fexp, emin. simpl shr_record_of_loc.
  replace (Z.max (24 + s + e - 24) (3 - 128 - 24) - e) with s by lia.
  assert (shr {| shr_m := Z.pos m; shr_r := false; shr_s := false |} e s =
          ({| shr_m := Z.pos q; shr_r := false; shr_s := false |}, e + s)) as ->.
  { destruct s as [|p|p]; [|clear Hs|lia].
    - simpl. rewrite Z.add_0_r. do 2 f_equal. lia.
    - unfold shr. rewrite iter_pos_nat. f_equal.
      rewrite Hm, <- (positive_nat_Z p). by apply iter_shr_1_exact. }
  simpl. rewrite Hq.
  replace (Z.max (24 + (e + s) - 24) (3 - 128 - 24) - (e + s)) with 0 by lia.
  simpl. destruct (Z.leb_spec (e + s) (128 - 24)); [done|lia].
Qed.

Lemma pos_iter_xO m k : Z.pos (Pos.iter xO m k) = Z.pos m * 2 ^ Z.pos k.
Proof.
  change (Pos.iter xO m k) with (shift_pos k m).
  rewrite shift_pos_correct, Zpower_pos_nat, Zpower_nat_Z, positive_nat_Z. lia.
Qed.

Lemma digits2_pos_le_24 m : Z.pos m < 2 ^ 24 -> Z.pos (digits2_pos m) <= 24.
Proof.
  intros Hm. pose proof (digits2_pos_bounds m) as [Hlo Hhi].
  destruct (Z.leb_spec (Z.pos (digits2_pos m)) 24); [done|].
  assert (2 ^ 24 <= 2 ^ (Z.pos (digits2_pos m) - 1)) by (apply Z.pow_le_mono_r; lia).
  lia.
Qed.

(** A mantissa of at most 24 bits, shifted left until it has exactly 24. *)
Lemma normalized_mantissa m :
  Z.pos m < 2 ^ 24 ->
  exists q, Z.pos q = Z.pos m * 2 ^ (24 - Z.pos (digits2_pos m)) /\
            Z.pos (digits2_pos q) = 24.
Proof.
  intros Hm. pose proof (digits2_pos_bounds m) as [Hlo Hhi].
  pose proof (digits2_pos_le_24 m Hm) as Hd.
  set (d := Z.pos (digits2_pos m)) in *.
  assert (0 < 2 ^ (24 - d)) as Hk by (apply Z.pow_pos_nonneg; lia).
  exists (Z.to_pos (Z.pos m * 2 ^ (24 - d))).
  assert (Z.pos (Z.to_pos (Z.pos m * 2 ^ (24 - d))) = Z.pos m * 2 ^ (24 - d)) as Hq
    by (apply Z2Pos.id; lia).
  split; [done|]. apply digits2_pos_unique. rewrite Hq.
  assert (2 ^ (24 - 1) = 2 ^ (d - 1) * 2 ^ (24 - d)) as ->.
  { rewrite <- Z.pow_add_r by lia. f_equal. lia. }
  assert (2 ^ 24 = 2 ^ d * 2 ^ (24 - d)) as ->.
  { rewrite <- Z.pow_add_r by lia. f_equal. lia. }
  nia.
Qed.

(** A capacity of at most 24 bits converts to [float] without rounding. *)
Lemma float_of_size_t_exact m q :
  Z.pos m < 2 ^ 24 ->
  Z.pos q = Z.pos m * 2 ^ (24 - Z.pos (digits2_pos m)) ->
  Z.pos (digits2_pos q) = 24 ->
  float_of_size_t (Z.pos m) = S754_finite false q (Z.pos (digits2_pos m) - 24).
Proof.
  intros Hm Hq Hdq. pose proof (digits2_pos_le_24 m Hm) as Hd.
  set (d := Z.pos (digits2_pos m)) in *.
  unfold float_of_size_t, binary_normalize, binary_round.
  unfold fexp, SpecFloat.emin, prec, emax. fold d.
  replace (Z.max (d + 0 - 24) (3 - 128 - 24)) with (d - 24) by lia.
  unfold shl_align. rewrite Z.sub_0_r.
  destruct (d - 24) as [|p|p] eqn:Hp; [|lia|].
  - rewrite (binary_round_aux_exact m 0 0 q); [done|lia| |done|lia].
    rewrite Hq. replace (24 - d) with 0 by lia. lia.
  - rewrite (binary_round_aux_exact _ (Z.neg p) 0 q);
      [by rewrite Z.add_0_r|lia| |done|lia].
    rewrite pos_iter_xO, Hq. replace (24 - d) with (Z.pos p) by lia. lia.
Qed.

(** The product of a capacity below 2^24 / 3 with 1.5f is exact, and its
    truncation is the integer quotient. *)
Lemma growth_product_exact c :
  0 <= c -> 3 * c < 2 ^ 24 ->
  size_t_of_float (SFmul prec emax (float_of_size_t c) GROWTH_FACTOR) = Ok (3 * c / 2).
Proof.
  intros Hc Hc3. destruct c as [|m|m]; [done| |lia].
  assert (Z.pos m < 2 ^ 24) as Hm by lia.
  destruct (normalized_mantissa m Hm) as (q & Hq & Hdq).
  destruct (normalized_mantissa (3 * m) Hc3) as (q3 & Hq3 & Hdq3).
  rewrite (float_of_size_t_exact m q Hm Hq Hdq).
  pose proof (digits2_pos_bounds m) as [Hlo Hhi].
  pose proof (digits2_pos_bounds (3 * m)) as [Hlo3 Hhi3].
  pose proof (digits2_pos_le_24 (3 * m) Hc3) as Hd3.
  pose proof (digits2_pos_le_24 m Hm) as Hd.
  set (d := Z.pos (digits2_pos m)) in *.
  set (d3 := Z.pos (digits2_pos (3 * m))) in *.
  assert (d <= d3) as Hdd.
  { assert (d - 1 < d3); [|lia]. apply (Z.pow_lt_mono_r_iff 2); lia. }
  change GROWTH_FACTOR with (S754_finite false 12582912 (-23)).
  unfold SFmul, prec, emax. simpl xorb.
  rewrite (binary_round_aux_exact _ _ (d3 + 22 - d) q3); [|lia| |done|lia].
  - replace (d - 24 + -23 + (d3 + 22 - d)) with (d3 - 25) by lia.
    unfold size_t_of_float.
    rewrite Z.shiftl_div_pow2 by lia. rewrite Hq3. fold d3.
    replace (- (d3 - 25)) with (1 + (24 - d3)) by lia.
    rewrite Z.pow_add_r by lia.
    assert (0 < 2 ^ (24 - d3)) as Hk by (apply Z.pow_pos_nonneg; lia).
    rewrite Z.div_mul_cancel_r by lia.
    rewrite Pos2Z.inj_mul.
    assert (Z.pos 3 * Z.pos m / 2 ^ 1 < 2 ^ width) as Hlt.
    { apply Z.div_lt_upper_bound; [lia|]. unfold width. lia. }
    destruct (Z.ltb_spec (Z.pos 3 * Z.pos m / 2 ^ 1) (2 ^ width)); [done|lia].
  - rewrite Pos2Z.inj_mul, Hq, Hq3. fold d d3.
    change (Z.pos 12582912) with (3 * 2 ^ 22).
    rewrite Pos2Z.inj_mul.
    replace (d3 + 22 - d) with ((24 - d) + 22 - (24 - d3)) by lia.
    assert (2 ^ (24 - d + 22 - (24 - d3)) * 2 ^ (24 - d3) = 2 ^ (24 - d) * 2 ^ 22) as Hp.
    { rewrite <- !Z.pow_add_r by lia. f_equal. lia. }
    change (Z.pos 3) with 3. nia.
Qed.

(** *** Single precision beyond 24 bits *)

Lemma shr_1_nonneg m r s :
  0 <= m ->
  shr_1 (Build_shr_record m r s) = Build_shr_record (m / 2) (Z.odd m) (r || s).
Proof.
  intros Hm. rewrite <- Z.div2_div.
  destruct m as [|p|p]; [done| |lia]. by destruct p.
Qed.

(** [k] right shifts keep the quotient, the last bit shifted out and
    whether a bit set was shifted out before it. *)
Lemma iter_shr_1 k m :
  0 <= m ->
  @Nat.iter k _ shr_1 (Build_shr_record m false false) =
  Build_shr_record (m / 2 ^ Z.of_nat k)
    (2 ^ Z.of_nat k <=? 2 * (m mod 2 ^ Z.of_nat k))
    (negb (2 * (m mod 2 ^ Z.of_nat k) =?
           (if 2 ^ Z.of_nat k <=? 2 * (m mod 2 ^ Z.of_nat k)
            then 2 ^ Z.of_nat k else 0))).
Proof.
  intros Hm. induction k as [|k IH].
  - simpl Nat.iter. change (2 ^ Z.of_nat 0) with 1.
    rewrite Z.div_1_r, Z.mod_1_r. done.
  - rewrite Nat.iter_succ, IH. clear IH.
    rewrite Nat2Z.inj_succ, Z.pow_succ_r by lia.
    set (P := 2 ^ Z.of_nat k).
    assert (0 < P) as HP by (apply Z.pow_pos_nonneg; lia).
    pose proof (Z.mod_pos_bound m P HP) as Hr.
    pose proof (Z.div_pos m P Hm HP) as Hq.
    rewrite shr_1_nonneg by done.
    assert (m mod (2 * P) = m mod P + P * ((m / P) mod 2)) as Hrem.
    { rewrite (Z.mul_comm 2 P). apply Z.rem_mul_r; lia. }
    assert (m / (2 * P) = m / P / 2) as Hdiv.
    { rewrite (Z.mul_comm 2 P). symmetry. apply Z.div_div; lia. }
    pose proof (Z.mod_pos_bound (m / P) 2 ltac:(lia)) as Hb.
    assert (Z.odd (m / P) = ((m / P) mod 2 =? 1)) as Hodd.
    { apply Zodd_mod. }
    rewrite Hrem, Hdiv, Hodd.
    set (b := (m / P) mod 2) in *. set (r := m mod P) in *.
    assert (b = 0 \/ b = 1) as Hb01 by lia. clearbody b r. clear Hrem Hdiv Hodd.
    f_equal.
    + destruct Hb01 as [-> | ->];
        repeat match goal with
               | |- context [Z.leb ?x ?y] => destruct (Z.leb_spec x y)
               end; cbn; lia.
    + destruct Hb01 as [-> | ->];
        repeat match goal with
               | |- context [Z.leb ?x ?y] => destruct (Z.leb_spec x y)
               end;
        cbn [orb];
        repeat match goal with
               | |- context [Z.eqb ?x ?y] => destruct (Z.eqb_spec x y)
               end; cbn [negb]; try done; lia.
Qed.

Lemma round_of_shr_record m s :
  0 <= m -> 0 <= s ->
  round_nearest_even (m / 2 ^ s)
    (loc_of_shr_record
       (Build_shr_record (m / 2 ^ s) (2 ^ s <=? 2 * (m mod 2 ^ s))
          (negb (2 * (m mod 2 ^ s) =?
                 (if 2 ^ s <=? 2 * (m mod 2 ^ s) then 2 ^ s else 0))))) =
  round_to_nearest_even m s.
Proof.
  intros Hm Hs. unfold round_to_nearest_even.
  assert (0 < 2 ^ s) as HP by (apply Z.pow_pos_nonneg; lia).
  pose proof (Z.mod_pos_bound m (2 ^ s) HP) as Hr.
  set (P := 2 ^ s) in *. set (r := m mod P) in *. set (q := m / P).
  rewrite <- Z.negb_even.
  destruct (Z.leb_spec P (2 * r)); destruct (Z.ltb_spec P (2 * r));
    destruct (Z.eqb_spec P (2 * r));
    repeat match goal with
           | |- context [Z.eqb ?x ?y] => destruct (Z.eqb_spec x y)
           end; cbn; try lia; try done.
  by destruct (Z.even q).
Qed.

Lemma digits2_pos_log2 m : Z.pos (digits2_pos m) = Z.log2 (Z.pos m) + 1.
Proof.
  pose proof (digits2_pos_bounds m) as [Hlo Hhi].
  assert (Z.log2 (Z.pos m) = Z.pos (digits2_pos m) - 1); [|lia].
  apply Z.log2_unique; [lia|].
  replace (Z.succ (Z.pos (digits2_pos m) - 1)) with (Z.pos (digits2_pos m)) by lia.
  done.
Qed.

Lemma Zdigits2_unique z d : 2 ^ (d - 1) <= z < 2 ^ d -> 0 < z -> Zdigits2 z = d.
Proof.
  intros Hz H0. destruct z as [|p|p]; [lia| |lia].
  simpl. by apply digits2_pos_unique.
Qed.

(** The rounded quotient of a number of [24 + s] bits has 24 bits, or is
    2^24. *)
Lemma round_to_nearest_even_range m s :
  0 < s -> 2 ^ (23 + s) <= m < 2 ^ (24 + s) ->
  2 ^ 23 <= round_to_nearest_even m s <= 2 ^ 24 /\
  2 * Z.abs (round_to_nearest_even m s * 2 ^ s - m) <= 2 ^ s.
Proof.
  intros Hs Hm. unfold round_to_nearest_even.
  assert (0 < 2 ^ s) as HP by (apply Z.pow_pos_nonneg; lia).
  pose proof (Z.mod_pos_bound m (2 ^ s) HP) as Hr.
  pose proof (Z.div_mod m (2 ^ s) ltac:(lia)) as Hdm.
  rewrite !Z.pow_add_r in Hm by lia.
  set (P := 2 ^ s) in *. set (r := m mod P) in *. set (q := m / P) in *.
  assert (2 ^ 23 <= q < 2 ^ 24) as Hq by nia.
  destruct ((P <? 2 * r) || (P =? 2 * r) && Z.odd q) eqn:Hup.
  - apply orb_true_iff in Hup as [Hup|Hup].
    + apply Z.ltb_lt in Hup. split; [lia|]. nia.
    + apply andb_true_iff in Hup as [Hup _]. apply Z.eqb_eq in Hup.
      split; [lia|]. nia.
  - apply orb_false_iff in Hup as [Hup _]. apply Z.ltb_ge in Hup.
    split; [lia|]. nia.
Qed.

(** Rounding a mantissa of at least 24 bits, as [binary_round_aux] does it
    by shifting and looking at the bits shifted out, gives the nearest
    [float]. *)
Lemma binary_round_aux_round_float m e :
  24 <= Z.pos (digits2_pos m) ->
  -149 <= e + (Z.pos (digits2_pos m) - 24) <= 103 ->
  binary_round_aux 24 128 false (Z.pos m) e loc_Exact =
  S754_finite false (Z.to_pos (fst (round_float (Z.pos m) e)))
    (snd (round_float (Z.pos m) e)).
Proof.
  intros Hd He. pose proof (digits2_pos_bounds m) as [Hlo Hhi].
  unfold round_float. rewrite <- digits2_pos_log2.
  set (d := Z.pos (digits2_pos m)) in *.
  unfold binary_round_aux, shr_fexp. simpl Zdigits2. fold d.
  unfold fexp, emin. simpl shr_record_of_loc.
  replace (Z.max (d + e - 24) (3 - 128 - 24) - e) with (d - 24) by lia.
  destruct (d - 24) as [|p|p] eqn:Hs; [| |lia].
  - simpl shr. cbn [shr_m loc_of_shr_record round_nearest_even].
    simpl Zdigits2. fold d. simpl shr_record_of_loc.
    replace (Z.max (d + e - 24) (3 - 128 - 24) - e) with 0 by lia.
    simpl shr. cbn [shr_m]. cbn [Z.leb Z.compare Z.opp fst snd].
    rewrite Z.add_0_r, Z.mul_1_r, Pos2Z.id.
    destruct (Z.leb_spec e (128 - 24)); [done|lia].
  - unfold shr at 1. rewrite iter_pos_nat.
    rewrite (iter_shr_1 (Pos.to_nat p) (Z.pos m)) by lia.
    rewrite positive_nat_Z. cbn [shr_m].
    rewrite round_of_shr_record by lia.
    assert (2 ^ (23 + Z.pos p) <= Z.pos m < 2 ^ (24 + Z.pos p)) as Hm.
    { replace (23 + Z.pos p) with (d - 1) by lia.
      by replace (24 + Z.pos p) with d by lia. }
    destruct (round_to_nearest_even_range (Z.pos m) (Z.pos p) ltac:(lia) Hm)
      as [Hrange _].
    set (rq := round_to_nearest_even (Z.pos m) (Z.pos p)) in *.
    destruct (Z.leb_spec (Z.pos p) 0); [lia|].
    destruct (Z.eqb_spec rq (2 ^ 24)) as [Heq|Hne]; cbn [fst snd].
    + rewrite Heq. vm_compute Zdigits2. simpl shr_record_of_loc.
      replace (Z.max (25 + (e + Z.pos p) - 24) (3 - 128 - 24) - (e + Z.pos p)) with 1 by lia.
      cbn [shr iter_pos shr_1]. vm_compute (2 ^ 24). cbn [shr_m].
      destruct (Z.leb_spec (e + Z.pos p + 1) (128 - 24)); [done|lia].
    + rewrite (Zdigits2_unique rq 24) by (simpl Z.sub; lia).
      simpl shr_record_of_loc.
      replace (Z.max (24 + (e + Z.pos p) - 24) (3 - 128 - 24) - (e + Z.pos p)) with 0 by lia.
      simpl shr. cbn [shr_m].
      destruct rq as [|q|q] eqn:Hrq; [lia| |lia].
      rewrite Pos2Z.id.
      destruct (Z.leb_spec (e + Z.pos p) (128 - 24)); [done|lia].
Qed.

Lemma round_to_nearest_even_scale m s k :
  0 <= s -> 0 <= k ->
  round_to_nearest_even (m * 2 ^ k) (s + k) = round_to_nearest_even m s.
Proof.
  intros Hs Hk. unfold round_to_nearest_even.
  assert (0 < 2 ^ s) as HP by (apply Z.pow_pos_nonneg; lia).
  assert (0 < 2 ^ k) as HK by (apply Z.pow_pos_nonneg; lia).
  rewrite Z.pow_add_r by lia.
  rewrite Z.div_mul_cancel_r by lia.
  rewrite Z.mul_mod_distr_r by lia.
  set (P := 2 ^ s) in *. set (K := 2 ^ k) in *.
  set (r := m mod P). set (q := m / P).
  assert ((P * K <? 2 * (r * K)) = (P <? 2 * r)) as ->.
  { destruct (Z.ltb_spec (P * K) (2 * (r * K))); destruct (Z.ltb_spec P (2 * r));
      try done; nia. }
  assert ((P * K =? 2 * (r * K)) = (P =? 2 * r)) as ->.
  { destruct (Z.eqb_spec (P * K) (2 * (r * K))); destruct (Z.eqb_spec P (2 * r));
      try done; nia. }
  done.
Qed.

Lemma log2_bounds m : 0 < m -> 2 ^ Z.log2 m <= m < 2 ^ (Z.log2 m + 1).
Proof.
  intros Hm. pose proof (Z.log2_spec m Hm) as H.
  by replace (Z.succ (Z.log2 m)) with (Z.log2 m + 1) in H by lia.
Qed.

(** A [float] of a positive number is normal in the range considered: its
    mantissa has 24 bits. *)
Lemma round_float_normal m e :
  0 < m ->
  2 ^ 23 <= fst (round_float m e) < 2 ^ 24 /\
  e + (Z.log2 m + 1 - 24) <= snd (round_float m e) <= e + (Z.log2 m + 1 - 24) + 1.
Proof.
  intros Hm. pose proof (log2_bounds m Hm) as [Hlo Hhi].
  pose proof (Z.log2_nonneg m) as Hl.
  unfold round_float. set (s := Z.log2 m + 1 - 24).
  destruct (Z.leb_spec s 0) as [Hs|Hs]; cbn [fst snd].
  - split; [|lia].
    assert (2 ^ 23 = 2 ^ Z.log2 m * 2 ^ (- s)) as ->.
    { rewrite <- Z.pow_add_r by lia. f_equal. lia. }
    assert (2 ^ 24 = 2 ^ (Z.log2 m + 1) * 2 ^ (- s)) as ->.
    { rewrite <- Z.pow_add_r by lia. f_equal. lia. }
    assert (0 < 2 ^ (- s)) by (apply Z.pow_pos_nonneg; lia). nia.
  - destruct (round_to_nearest_even_range m s Hs) as [Hrange _].
    { replace (23 + s) with (Z.log2 m) by lia.
      by replace (24 + s) with (Z.log2 m + 1) by lia. }
    destruct (Z.eqb_spec (round_to_nearest_even m s) (2 ^ 24)); cbn [fst snd]; lia.
Qed.

(** The rounding error of a [float] is at most 2^-24 of the value. *)
Lemma round_float_error m e N :
  0 < m -> 0 <= e + N -> 0 <= e + (Z.log2 m + 1 - 24) + N ->
  2 ^ 24 * Z.abs (fst (round_float m e) * 2 ^ (snd (round_float m e) + N) -
                  m * 2 ^ (e + N)) <= m * 2 ^ (e + N).
Proof.
  intros Hm HeN HsN. pose proof (log2_bounds m Hm) as [Hlo Hhi].
  pose proof (Z.log2_nonneg m) as Hl.
  assert (0 < 2 ^ (e + N)) as HE by (apply Z.pow_pos_nonneg; lia).
  unfold round_float. set (s := Z.log2 m + 1 - 24) in *.
  destruct (Z.leb_spec s 0) as [Hs|Hs]; cbn [fst snd].
  - assert (m * 2 ^ (- s) * 2 ^ (e + s + N) = m * 2 ^ (e + N)) as ->.
    { rewrite <- Z.mul_assoc, <- Z.pow_add_r by lia. do 2 f_equal. lia. }
    rewrite Z.sub_diag. simpl Z.abs. nia.
  - destruct (round_to_nearest_even_range m s Hs) as [Hrange Herr].
    { replace (23 + s) with (Z.log2 m) by lia.
      by replace (24 + s) with (Z.log2 m + 1) by lia. }
    assert (2 ^ 23 * 2 ^ s <= m) as Hms.
    { rewrite <- Z.pow_add_r by lia. by replace (23 + s) with (Z.log2 m) by lia. }
    assert (0 < 2 ^ s) as HP by (apply Z.pow_pos_nonneg; lia).
    set (rq := round_to_nearest_even m s) in *.
    assert ((if rq =? 2 ^ 24 then (2 ^ 23, e + s + 1) else (rq, e + s)).1 *
            2 ^ ((if rq =? 2 ^ 24 then (2 ^ 23, e + s + 1) else (rq, e + s)).2 + N) =
            rq * 2 ^ s * 2 ^ (e + N)) as ->.
    { destruct (Z.eqb_spec rq (2 ^ 24)) as [->|_]; cbn [fst snd].
      - replace (e + s + 1 + N) with (1 + s + (e + N)) by lia.
        rewrite !Z.pow_add_r by lia. change (2 ^ 24) with (2 ^ 23 * 2 ^ 1). ring.
      - replace (e + s + N) with (s + (e + N)) by lia.
        rewrite Z.pow_add_r by lia. ring. }
    rewrite <- Z.mul_sub_distr_r, Z.abs_mul, (Z.abs_eq (2 ^ (e + N))) by lia.
    set (D := Z.abs (rq * 2 ^ s - m)) in *.
    assert (2 ^ 24 * D <= m) by lia. nia.
Qed.

Lemma round_float_scale m e k :
  24 <= Z.log2 m + 1 -> 0 <= k ->
  round_float (m * 2 ^ k) (e - k) = round_float m e.
Proof.
  intros Hd Hk.
  assert (0 < m) as Hm.
  { destruct (Z.ltb_spec 0 m); [done|]. rewrite Z.log2_nonpos in Hd; lia. }
  pose proof (log2_bounds m Hm) as [Hlo Hhi].
  unfold round_float. rewrite Z.log2_mul_pow2 by lia.
  set (s := Z.log2 m + 1 - 24).
  replace (k + Z.log2 m + 1 - 24) with (s + k) by lia.
  destruct (Z.leb_spec s 0) as [Hs|Hs].
  - assert (s = 0) as Hs0 by lia.
    assert (m < 2 ^ 24) as Hm24.
    { by replace (Z.log2 m + 1) with 24 in Hhi by lia. }
    destruct (Z.leb_spec k 0) as [Hk0|Hk0].
    + assert (k = 0) as -> by lia. change (2 ^ 0) with 1.
      rewrite Z.add_0_r, Z.sub_0_r, Z.mul_1_r.
      destruct (Z.leb_spec s 0); [done|lia].
    + destruct (Z.leb_spec (s + k) 0); [lia|].
      rewrite round_to_nearest_even_scale by lia. rewrite Hs0.
      unfold round_to_nearest_even. change (2 ^ 0) with 1.
      rewrite Z.div_1_r, Z.mod_1_r.
      change ((1 <? 2 * 0) || (1 =? 2 * 0) && Z.odd m) with false. cbv iota.
      destruct (Z.eqb_spec m (2 ^ 24)); [lia|].
      change (2 ^ (- 0)) with 1. f_equal; lia.
  - destruct (Z.leb_spec (s + k) 0); [lia|].
    rewrite round_to_nearest_even_scale by lia.
    replace (e - k + (s + k)) with (e + s) by lia. done.
Qed.

(** The conversion of a capacity to [float]. *)
Lemma float_of_size_t_round c :
  0 < c < 2 ^ 64 ->
  float_of_size_t c =
  S754_finite false (Z.to_pos (fst (round_float c 0))) (snd (round_float c 0)).
Proof.
  intros [Hc Hc64]. destruct c as [|m|m]; [lia| |lia].
  pose proof (digits2_pos_bounds m) as [Hlo Hhi].
  destruct (Z.ltb_spec (Z.pos m) (2 ^ 24)) as [Hm|Hm].
  - destruct (normalized_mantissa m Hm) as (q & Hq & Hdq).
    rewrite (float_of_size_t_exact m q Hm Hq Hdq).
    pose proof (digits2_pos_le_24 m Hm) as Hd.
    unfold round_float. rewrite <- digits2_pos_log2.
    destruct (Z.leb_spec (Z.pos (digits2_pos m) - 24) 0); [|lia]. cbn [fst snd].
    replace (- (Z.pos (digits2_pos m) - 24)) with (24 - Z.pos (digits2_pos m)) by lia.
    rewrite <- Hq, Pos2Z.id. done.
  - assert (24 < Z.pos (digits2_pos m)) as Hd.
    { apply (Z.pow_lt_mono_r_iff 2); lia. }
    assert (Z.pos (digits2_pos m) <= 64) as Hd64.
    { assert (Z.pos (digits2_pos m) - 1 < 64); [|lia].
      apply (Z.pow_lt_mono_r_iff 2); lia. }
    unfold float_of_size_t, binary_normalize, binary_round, prec, emax.
    unfold fexp, SpecFloat.emin.
    replace (Z.max (Z.pos (digits2_pos m) + 0 - 24) (3 - 128 - 24))
      with (Z.pos (digits2_pos m) - 24) by lia.
    unfold shl_align. rewrite Z.sub_0_r.
    destruct (Z.pos (digits2_pos m) - 24) as [|p|p] eqn:Hp; [lia| |lia].
    apply binary_round_aux_round_float; lia.
Qed.

(** The product of a capacity with [1.5f]. *)
Lemma growth_product_round c :
  0 < c < 2 ^ 64 ->
  SFmul prec emax (float_of_size_t c) GROWTH_FACTOR =
  S754_finite false
    (Z.to_pos (fst (round_float (3 * fst (round_float c 0)) (snd (round_float c 0) - 1))))
    (snd (round_float (3 * fst (round_float c 0)) (snd (round_float c 0) - 1))).
Proof.
  intros Hc. rewrite (float_of_size_t_round c Hc).
  destruct (round_float_normal c 0 ltac:(lia)) as [Hm1 He1].
  assert (0 <= Z.log2 c < 64) as Hl.
  { split; [apply Z.log2_nonneg|]. apply Z.log2_lt_pow2; lia. }
  set (m1 := fst (round_float c 0)) in *. set (e1 := snd (round_float c 0)) in *.
  change GROWTH_FACTOR with (S754_finite false 12582912 (-23)).
  unfold SFmul, prec, emax. simpl xorb.
  assert (Z.pos (Z.to_pos m1 * 12582912) = 3 * m1 * 2 ^ 22) as Hprod.
  { rewrite Pos2Z.inj_mul, Z2Pos.id by lia. change (Z.pos 12582912) with (3 * 2 ^ 22). ring. }
  assert (Z.log2 (3 * m1) = 24 \/ Z.log2 (3 * m1) = 25) as Hl3.
  { assert (24 <= Z.log2 (3 * m1)) by (apply Z.log2_le_pow2; lia).
    assert (Z.log2 (3 * m1) < 26) by (apply Z.log2_lt_pow2; lia). lia. }
  assert (Z.pos (digits2_pos (Z.to_pos m1 * 12582912)) = Z.log2 (3 * m1) + 1 + 22) as Hdig.
  { rewrite digits2_pos_log2, Hprod, Z.log2_mul_pow2 by lia. lia. }
  rewrite binary_round_aux_round_float by lia.
  rewrite Hprod.
  replace (e1 + -23) with (e1 - 1 - 22) by lia.
  rewrite round_float_scale by lia. done.
Qed.

(** The conversion chain of [calculate_growth] computes [float_growth]. *)
Lemma growth_product_general c :
  0 <= c -> float_growth c < 2 ^ width ->
  size_t_of_float (SFmul prec emax (float_of_size_t c) GROWTH_FACTOR) =
  Ok (float_growth c).
Proof.
  intros Hc Hg. destruct (Z.eqb_spec c 0) as [->|Hc0]; [done|].
  destruct (Z.ltb_spec c (2 ^ 64)) as [Hc64|Hc64].
  - rewrite growth_product_round by lia.
    destruct (round_float_normal c 0 ltac:(lia)) as [Hm1 He1].
    destruct (round_float_normal (3 * fst (round_float c 0)) (snd (round_float c 0) - 1)
                ltac:(lia)) as [Hm2 He2].
    unfold float_growth in *.
    destruct (round_float c 0) as [m1 e1]. cbn [fst snd] in *.
    destruct (round_float (3 * m1) (e1 - 1)) as [m2 e2]. cbn [fst snd] in *.
    unfold size_t_of_float. rewrite Z2Pos.id by lia.
    destruct (Z.ltb_spec (Z.shiftl m2 e2) (2 ^ width)); [done|lia].
  - exfalso. revert Hg. unfold float_growth.
    destruct (round_float_normal c 0 ltac:(lia)) as [Hm1 He1].
    destruct (round_float_normal (3 * fst (round_float c 0)) (snd (round_float c 0) - 1)
                ltac:(lia)) as [Hm2 He2].
    assert (64 <= Z.log2 c) as Hl by (apply Z.log2_le_pow2; lia).
    destruct (round_float c 0) as [m1 e1]. cbn [fst snd] in *.
    assert (24 <= Z.log2 (3 * m1)) by (apply Z.log2_le_pow2; lia).
    destruct (round_float (3 * m1) (e1 - 1)) as [m2 e2]. cbn [fst snd] in *.
    rewrite Z.shiftl_mul_pow2 by lia. unfold width.
    assert (2 ^ 41 <= 2 ^ e2) by (apply Z.pow_le_mono_r; lia). nia.
Qed.

Lemma shiftl_scaled m e N :
  0 <= N -> 0 <= e + N -> Z.shiftl m e = m * 2 ^ (e + N) / 2 ^ N.
Proof.
  intros HN HeN.
  assert (0 < 2 ^ N) by (apply Z.pow_pos_nonneg; lia).
  destruct (Z.leb_spec 0 e).
  - rewrite Z.shiftl_mul_pow2, Z.pow_add_r, Z.mul_assoc, Z.div_mul by lia. done.
  - rewrite Z.shiftl_div_pow2 by lia.
    assert (2 ^ N = 2 ^ (e + N) * 2 ^ (- e)) as ->.
    { rewrite <- Z.pow_add_r by lia. f_equal. lia. }
    assert (0 < 2 ^ (e + N)) by (apply Z.pow_pos_nonneg; lia).
    assert (0 < 2 ^ (- e)) by (apply Z.pow_pos_nonneg; lia).
    rewrite (Z.mul_comm (2 ^ (e + N))), Z.div_mul_cancel_r by lia. done.
Qed.

(** [float_growth c] is [1.5 * c] up to the two roundings, each of a
    relative error of at most 2^-24, and the truncation. *)
Lemma float_growth_bounds c :
  0 <= c ->
  2 ^ 49 * float_growth c <= 3 * (2 ^ 24 + 1) ^ 2 * c /\
  3 * (2 ^ 24 - 1) ^ 2 * c < 2 ^ 49 * (float_growth c + 1).
Proof.
  intros Hc. destruct (Z.eqb_spec c 0) as [->|Hc0]; [by vm_compute|].
  assert (0 < c) as Hc1 by lia.
  pose proof (Z.log2_nonneg c) as Hl.
  destruct (round_float_normal c 0 Hc1) as [Hm1 He1].
  pose proof (round_float_error c 0 24 Hc1 ltac:(lia) ltac:(lia)) as Herr1.
  pose proof (round_float_normal (3 * fst (round_float c 0)) (snd (round_float c 0) - 1)
                ltac:(lia)) as [Hm2 He2].
  assert (24 <= Z.log2 (3 * fst (round_float c 0))) as Hl3
    by (apply Z.log2_le_pow2; lia).
  pose proof (round_float_error (3 * fst (round_float c 0)) (snd (round_float c 0) - 1) 25
                ltac:(lia) ltac:(lia) ltac:(lia)) as Herr2.
  unfold float_growth.
  destruct (round_float c 0) as [m1 e1]. cbn [fst snd] in *.
  destruct (round_float (3 * m1) (e1 - 1)) as [m2 e2]. cbn [fst snd] in *.
  rewrite (shiftl_scaled m2 e2 24) by lia.
  replace (e2 + 25) with (1 + (e2 + 24)) in Herr2 by lia.
  replace (e1 - 1 + 25) with (e1 + 24) in Herr2 by lia.
  rewrite (Z.pow_add_r 2 1) in Herr2 by lia.
  change (0 + 24) with 24 in Herr1.
  assert (0 < 2 ^ (e1 + 24)) by (apply Z.pow_pos_nonneg; lia).
  assert (0 < 2 ^ (e2 + 24)) by (apply Z.pow_pos_nonneg; lia).
  set (X1 := m1 * 2 ^ (e1 + 24)) in *.
  assert (m2 * (2 ^ 1 * 2 ^ (e2 + 24)) = 2 * (m2 * 2 ^ (e2 + 24))) as Hx2 by ring.
  rewrite Hx2 in Herr2. clear Hx2.
  replace (3 * m1 * 2 ^ (e1 + 24)) with (3 * X1) in Herr2 by (unfold X1; ring).
  set (X2 := m2 * 2 ^ (e2 + 24)) in *.
  pose proof (Z.div_mod X2 (2 ^ 24) ltac:(lia)) as Hdm.
  pose proof (Z.mod_pos_bound X2 (2 ^ 24) ltac:(lia)) as Hmod.
  set (g := X2 / 2 ^ 24) in *.
  clearbody X1 X2 g.
  change (2 ^ 24) with 16777216 in *. change (2 ^ 49) with 562949953421312.
  change ((16777216 + 1) ^ 2) with 281474976710656%Z || idtac.
  lia.
Qed.

End DynamicArrayGrowth.

Section DynamicArrayFacts.

Import Cxx DynamicArray.
Local Open Scope Z_scope.

Context {T : Type}.

Implicit Types (a : DynamicArray.t T) (xs : list T).

(** C6, as amended: [pop_back()] on an empty array returns normally and
    leaves every member as it was. *)
Theorem pop_back_empty a : size_ a = 0 -> pop_back a = Ok a.
Proof. intros H. unfold pop_back. by rewrite H. Qed.

Lemma construct_app (done : list T) (k : nat) v :
  construct ((Some <$> done) ++ None :: replicate k None) (Z.of_nat (length done)) v =
  Ok ((Some <$> (done ++ [v])) ++ replicate k None).
Proof.
  unfold construct. rewrite length_app, length_fmap. simpl length.
  rewrite length_replicate.
  destruct (Z.leb_spec 0 (Z.of_nat (length done))); [|lia].
  destruct (Z.ltb_spec (Z.of_nat (length done)) (Z.of_nat (length done + S k)));
    [|lia].
  simpl. f_equal. rewrite Nat2Z.id.
  rewrite insert_app_r_alt by (rewrite length_fmap; lia).
  rewrite length_fmap, Nat.sub_diag. simpl.
  rewrite fmap_app, <- app_assoc. done.
Qed.

(** The loop of [reallocate] copies the live elements, in order, to the
    front of the new storage. *)
Lemma move_loop_spec (old : list (option T)) (rest done : list T) (k : nat) :
  Z.of_nat (length (done ++ rest)) < 2 ^ (width - 1) ->
  (forall i x, rest !! i = Some x -> old !! (length done + i)%nat = Some (Some x)) ->
  move_loop (length rest) (Some old)
    ((Some <$> done) ++ replicate (length rest + k) None)
    (Z.of_nat (length done)) =
  Ok ((Some <$> (done ++ rest)) ++ replicate k None).
Proof.
  revert done. induction rest as [|x rest IH]; intros done Hlen Hold.
  - simpl. by rewrite app_nil_r.
  - simpl length. simpl move_loop. unfold load.
    destruct (Z.ltb_spec (Z.of_nat (length done)) 0); [lia|].
    rewrite Nat2Z.id. rewrite <- (Nat.add_0_r (length done)), (Hold 0%nat x) by done.
    simpl bind. rewrite Nat.add_0_r.
    rewrite construct_app. simpl bind.
    rewrite length_app in Hlen. simpl in Hlen.
    rewrite to_size_t_small
      by (unfold width in *; simpl Z.sub in *; lia).
    replace (Z.of_nat (length done) + 1) with (Z.of_nat (length (done ++ [x])))
      by (rewrite length_app; simpl; lia).
    rewrite IH.
    + by rewrite <- app_assoc.
    + rewrite !length_app. simpl. lia.
    + intros i y Hi. rewrite length_app. simpl.
      replace (length done + 1 + i)%nat with (length done + S i)%nat by lia.
      by apply Hold.
Qed.

Lemma reallocate_spec a xs n :
  represents a xs -> size_ a <= n < 2 ^ (width - 1) ->
  exists a', reallocate a n = Ok a' /\ represents a' xs /\
             capacity_ a' = n /\ size_ a' = size_ a.
Proof.
  intros (Hlen & Hcap & Hslots) Hn. unfold reallocate.
  assert (move_loop (Z.to_nat (size_ a)) (data_ a)
            (replicate (Z.to_nat n) None) 0 =
          Ok ((Some <$> xs) ++ replicate (Z.to_nat (n - size_ a)) None)) as ->.
  { destruct xs as [|x xs'].
    - simpl in Hlen. rewrite <- Hlen. simpl. f_equal. f_equal. f_equal. lia.
    - destruct (data_ a) as [old|] eqn:Hd; [|by unfold slots in Hslots; rewrite Hd in Hslots].
      unfold slots in Hslots. rewrite Hd in Hslots. simpl default in Hslots.
      replace (Z.to_nat n) with (length (x :: xs') + Z.to_nat (n - size_ a))%nat by lia.
      replace (Z.to_nat (size_ a)) with (length (x :: xs')) by lia.
      apply (move_loop_spec old (x :: xs') []); [simpl app; lia|].
      intros i y Hi. simpl length. simpl Nat.add. rewrite Hslots.
      rewrite lookup_app_l by (rewrite length_fmap; by eapply lookup_lt_Some).
      by rewrite list_lookup_fmap, Hi. }
  simpl. eexists. split; [done|]. unfold represents, slots. simpl.
  repeat split; try done; lia.
Qed.

(** [push_back] on an array with a free slot. *)
Lemma push_back_room a xs v :
  represents a xs -> size_ a < capacity_ a ->
  exists a', push_back a v = Ok a' /\ represents a' (xs ++ [v]) /\
             capacity_ a' = capacity_ a /\ size_ a' = size_ a + 1.
Proof.
  intros (Hlen & Hcap & Hslots) Hlt. unfold push_back.
  destruct (Z.eqb_spec (size_ a) (capacity_ a)); [lia|]. simpl bind.
  unfold slots in Hslots.
  destruct (data_ a) as [buf|] eqn:Hd; simpl in Hslots.
  - subst buf.
    replace (Z.to_nat (capacity_ a - size_ a))
      with (S (Z.to_nat (capacity_ a - (size_ a + 1)))) by lia.
    rewrite replicate_S, <- Hlen, construct_app. simpl bind.
    rewrite Hlen, to_size_t_small by (unfold width in *; simpl Z.sub in *; lia).
    eexists. split; [done|]. unfold represents, slots. simpl.
    rewrite length_app. simpl. repeat split; try done; lia.
  - exfalso. destruct xs; [|done]. simpl in *.
    assert (length (replicate (Z.to_nat (capacity_ a - size_ a)) (@None T)) = 0%nat) as Hr
      by by rewrite <- Hslots.
    rewrite length_replicate in Hr. lia.
Qed.

(** [push_back] on an array without a free slot: the storage is replaced
    by one of the capacity [calculate_growth] returns. *)
Lemma push_back_grow a xs v n :
  represents a xs -> size_ a = capacity_ a ->
  calculate_growth a (to_size_t (size_ a + 1)) = Ok n -> n < 2 ^ (width - 1) ->
  size_ a + 1 <= n ->
  exists a', push_back a v = Ok a' /\ represents a' (xs ++ [v]) /\
             capacity_ a' = n /\ size_ a' = size_ a + 1.
Proof.
  intros Hrep Heq Hgrow Hn Hle. unfold push_back.
  destruct (Z.eqb_spec (size_ a) (capacity_ a)); [|lia].
  rewrite Hgrow. simpl bind.
  destruct (reallocate_spec a xs n Hrep) as (a1 & -> & Hrep1 & Hc1 & Hs1); [lia|].
  simpl bind.
  destruct (push_back_room a1 xs v Hrep1) as (a' & Hpush & Hrep' & Hc' & Hs'); [lia|].
  unfold push_back in Hpush.
  destruct (Z.eqb_spec (size_ a1) (capacity_ a1)); [lia|]. simpl bind in Hpush.
  rewrite Hpush. exists a'. split; [done|]. split; [done|]. split; lia.
Qed.

End DynamicArrayFacts.

Section DynamicArrayClaims.

Import Cxx DynamicArray DynamicArraySpec.
Local Open Scope Z_scope.

Context {T : Type}.

Implicit Types (a : DynamicArray.t T) (xs : list T).

Lemma make_fill_represents count (v : T) :
  0 <= count < 2 ^ (width - 1) ->
  represents (make_fill count v) (replicate (Z.to_nat count) v).
Proof.
  intros Hc. unfold represents, slots, make_fill. simpl.
  rewrite length_replicate, Z.sub_diag. simpl. rewrite app_nil_r.
  repeat split; try lia.
  destruct (Z.ltb_spec 0 count); simpl.
  - by rewrite fmap_replicate.
  - by replace count with 0 by lia.
Qed.

Lemma calculate_growth_small a n :
  0 <= capacity_ a -> 3 * capacity_ a < 2 ^ 24 ->
  calculate_growth a n = Ok (Z.max (3 * capacity_ a / 2) (Z.max 16 n)).
Proof.
  intros H0 H3. unfold calculate_growth.
  by rewrite growth_product_exact.
Qed.

(** [calculate_growth] on every capacity below 2^63. *)
Lemma calculate_growth_general a n :
  0 <= capacity_ a < 2 ^ (width - 1) ->
  calculate_growth a n = Ok (Z.max (float_growth (capacity_ a)) (Z.max 16 n)).
Proof.
  intros [H0 H63]. destruct (float_growth_bounds (capacity_ a) H0) as [Hup _].
  unfold calculate_growth.
  rewrite growth_product_general; [done|done|].
  unfold width in *. simpl Z.sub in H63.
  change (2 ^ 49) with 562949953421312 in Hup.
  change (3 * (2 ^ 24 + 1) ^ 2) with 844425030795267 in Hup.
  change (2 ^ 63) with 9223372036854775808 in H63.
  change (2 ^ 64) with 18446744073709551616. lia.
Qed.

(** When the length test of [allocate] passes, or no storage is
    requested, [push_back_checked] is [push_back]. *)
Lemma push_back_checked_fits elem_size a v n :
  size_ a = capacity_ a ->
  calculate_growth a (to_size_t (size_ a + 1)) = Ok n ->
  n <= (2 ^ width - 1) / elem_size ->
  push_back_checked elem_size a v = push_back a v.
Proof.
  intros Heq Hn Hfit. unfold push_back_checked, push_back.
  rewrite Hn. cbn [bind]. unfold reallocate_checked, check_length.
  by destruct (Z.ltb_spec ((2 ^ width - 1) / elem_size) n); [lia|].
Qed.

Lemma push_back_checked_room elem_size a v :
  size_ a <> capacity_ a ->
  push_back_checked elem_size a v = push_back a v.
Proof.
  intros Hne. unfold push_back_checked, push_back.
  by destruct (Z.eqb_spec (size_ a) (capacity_ a)).
Qed.

Lemma push_back_checked_throws elem_size a v n :
  size_ a = capacity_ a ->
  calculate_growth a (to_size_t (size_ a + 1)) = Ok n ->
  (2 ^ width - 1) / elem_size < n ->
  push_back_checked elem_size a v = Throw bad_array_new_length.
Proof.
  intros Heq Hn Hbig. unfold push_back_checked.
  rewrite Heq, Z.eqb_refl, <- Heq, Hn. cbn [bind].
  unfold reallocate_checked, check_length.
  by destruct (Z.ltb_spec ((2 ^ width - 1) / elem_size) n); [|lia].
Qed.

(** As long as three times the capacity is below 2^24, the two roundings
    of [float_growth] are exact. *)
Lemma float_growth_small c :
  0 <= c -> 3 * c < 2 ^ 24 -> float_growth c = 3 * c / 2.
Proof.
  intros H0 H3. pose proof (growth_product_exact c H0 H3) as Hexact.
  destruct (float_growth_bounds c H0) as [Hup _].
  rewrite growth_product_general in Hexact; [congruence|done|].
  unfold width.
  change (2 ^ 49) with 562949953421312 in Hup.
  change (3 * (2 ^ 24 + 1) ^ 2) with 844425030795267 in Hup.
  change (2 ^ 24) with 16777216 in H3.
  change (2 ^ 64) with 18446744073709551616. lia.
Qed.

(** C8, as amended: with no free slot [push_back] requests a storage of
    capacity n = max(g, max(16, size + 1)), where g is [float_growth
    capacity]: the capacity rounded to [float], times 1.5 rounded to
    [float], truncated.  g is floor(1.5 * capacity) as long as
    3 * capacity is below 2^24, and in general 1.5 * capacity up to the
    relative error (1 +- 2^-24)^2 of the two roundings and to the
    truncation.  When n elements take less than 2^63 bytes the elements
    are moved to the new storage, of capacity n, and the value is
    appended; when n is above [SIZE_MAX / sizeof(T)] the allocation throws
    [std::bad_array_new_length].  With a free slot [push_back] appends and
    keeps the capacity. *)
Theorem push_back_capacity elem_size a xs v :
  represents a xs -> 0 < elem_size ->
  (size_ a = capacity_ a ->
   Z.max (float_growth (capacity_ a)) (Z.max 16 (size_ a + 1)) * elem_size
     < 2 ^ (width - 1) ->
   exists a', push_back_checked elem_size a v = Ok a' /\
     represents a' (xs ++ [v]) /\ size_ a' = size_ a + 1 /\
     capacity_ a' = Z.max (float_growth (capacity_ a)) (Z.max 16 (size_ a + 1))) /\
  (size_ a = capacity_ a ->
   (2 ^ width - 1) / elem_size
     < Z.max (float_growth (capacity_ a)) (Z.max 16 (size_ a + 1)) ->
   push_back_checked elem_size a v = Throw bad_array_new_length) /\
  (3 * capacity_ a < 2 ^ 24 ->
   float_growth (capacity_ a) = 3 * capacity_ a / 2) /\
  (2 ^ 49 * float_growth (capacity_ a) <= 3 * (2 ^ 24 + 1) ^ 2 * capacity_ a /\
   3 * (2 ^ 24 - 1) ^ 2 * capacity_ a < 2 ^ 49 * (float_growth (capacity_ a) + 1)) /\
  (size_ a < capacity_ a ->
   exists a', push_back_checked elem_size a v = Ok a' /\
     represents a' (xs ++ [v]) /\ size_ a' = size_ a + 1 /\
     capacity_ a' = capacity_ a).
Proof.
  intros Hrep Hel.
  assert (0 <= size_ a <= capacity_ a /\ capacity_ a < 2 ^ (width - 1)) as [Hs Hc63].
  { destruct Hrep as (<- & ? & _). lia. }
  assert (to_size_t (size_ a + 1) = size_ a + 1) as Hsz.
  { apply to_size_t_small. unfold width in *. simpl Z.sub in Hc63.
    change (2 ^ 63) with 9223372036854775808 in Hc63.
    change (2 ^ 64) with 18446744073709551616. lia. }
  pose proof (calculate_growth_general a (size_ a + 1) ltac:(lia)) as Hgrow.
  rewrite <- Hsz in Hgrow at 1.
  set (n := Z.max (float_growth (capacity_ a)) (Z.max 16 (size_ a + 1))) in *.
  split; [|split; [|split; [|split]]].
  - intros Heq Hbytes.
    assert (n < 2 ^ (width - 1)) as Hn by nia.
    rewrite (push_back_checked_fits elem_size a v n Heq Hgrow).
    + destruct (push_back_grow a xs v n Hrep Heq Hgrow Hn ltac:(lia))
        as (a' & Hp & Hr & Hc & Hs').
      exists a'. repeat split; try done; apply Hr.
    + apply Z.div_le_lower_bound; [done|].
      unfold width in *. simpl Z.sub in Hbytes.
      change (2 ^ 64) with (2 * 2 ^ 63). lia.
  - intros Heq Hbig. by apply (push_back_checked_throws elem_size a v n).
  - intros H3. apply float_growth_small; lia.
  - apply float_growth_bounds. lia.
  - intros Hlt. rewrite push_back_checked_room by lia.
    destruct (push_back_room a xs v Hrep Hlt) as (a' & Hp & Hr & Hc & Hs').
    exists a'. repeat split; try done; apply Hr.
Qed.

End DynamicArrayClaims.

Lemma pop_back_empty_witness :
  DynamicArray.pop_back (@DynamicArray.make Z) = Cxx.Ok DynamicArray.make.
Proof. apply (pop_back_empty (@DynamicArray.make Z)). reflexivity. Defined.

(** C6: on an empty array [pop_back()] throws nothing. *)
Lemma pop_back_empty_no_throw :
  ~ (exists e, DynamicArray.pop_back (@DynamicArray.make Z) = Cxx.Throw e).
Proof. intros [e He]. discriminate He. Qed.

Lemma push_back_capacity_witness :
  exists a' : DynamicArray.t Z,
    DynamicArray.push_back_checked 4 (DynamicArray.make_fill 17 0%Z) 1%Z =
      Cxx.Ok a' /\
    DynamicArray.represents a' (replicate 17 0%Z ++ [1%Z]) /\
    DynamicArray.size_ a' = 18%Z /\ DynamicArray.capacity_ a' = 25%Z.
Proof.
  destruct (push_back_capacity 4%Z (DynamicArray.make_fill 17 0%Z)
              (replicate 17 0%Z) 1%Z) as [Hfull _].
  - apply (make_fill_represents 17 0%Z). unfold Cxx.width. simpl. lia.
  - lia.
  - destruct Hfull as (a' & Hp & Hr & Hs & Hc);
      [reflexivity | vm_compute; reflexivity |].
    exists a'. split; [exact Hp|]. split; [exact Hr|]. split; [exact Hs|exact Hc].
Defined.

(** C8: at capacity 5592409 the capacity converts to [float] exactly, but
    its product with 1.5f, 8388613.5, does not fit in 24 bits and is
    rounded to 8388614; the formula gives 8388613. *)
Lemma push_back_capacity_rounded :
  exists a a' : DynamicArray.t Z,
    a = DynamicArray.make_fill 5592409 0%Z /\
    DynamicArray.size_ a = DynamicArray.capacity_ a /\
    DynamicArray.push_back a 1%Z = Cxx.Ok a' /\
    DynamicArray.capacity_ a' = 8388614%Z /\
    (Z.max (3 * DynamicArray.capacity_ a / 2)
       (Z.max 16 (DynamicArray.size_ a + 1)) = 8388613)%Z.
Proof.
  set (a := DynamicArray.make_fill 5592409 0%Z).
  assert (DynamicArray.represents a (replicate (Z.to_nat 5592409) 0%Z)) as Hrep.
  { apply (make_fill_represents 5592409 0%Z). unfold Cxx.width. simpl Z.sub. lia. }
  destruct (push_back_grow a _ 1%Z 8388614%Z Hrep)
    as (a' & Hp & _ & Hc & _).
  - reflexivity.
  - unfold DynamicArray.calculate_growth.
    change (DynamicArray.capacity_ a) with 5592409%Z.
    change (DynamicArray.size_ a) with 5592409%Z.
    assert (DynamicArray.size_t_of_float
              (SFmul DynamicArray.prec DynamicArray.emax
                 (DynamicArray.float_of_size_t 5592409) DynamicArray.GROWTH_FACTOR) =
            Cxx.Ok 8388614%Z) as -> by (vm_compute; reflexivity).
    reflexivity.
  - unfold Cxx.width. simpl Z.sub. lia.
  - change (DynamicArray.size_ a) with 5592409%Z. lia.
  - exists a, a'.
    split; [reflexivity|]. split; [reflexivity|].
    split; [exact Hp|]. split; [exact Hc|].
    change (DynamicArray.capacity_ a) with 5592409%Z.
    change (DynamicArray.size_ a) with 5592409%Z.
    reflexivity.
Qed.

(** ** Dynamic array: behaviour of the other member functions *)

Section DynamicArrayProperties.

Import Cxx DynamicArray DynamicArraySpec.
Local Open Scope Z_scope.

Context {T : Type}.

Implicit Types (a : DynamicArray.t T) (xs : list T).

Lemma represents_lookup a xs i x :
  represents a xs -> xs !! i = Some x ->
  exists buf, data_ a = Some buf /\ buf !! i = Some (Some x).
Proof.
  intros (Hlen & Hcap & Hslots) Hi. unfold slots in Hslots.
  destruct (data_ a) as [buf|]; cbn in Hslots.
  - exists buf. split; [done|]. rewrite Hslots.
    rewrite lookup_app_l by (rewrite length_fmap; by eapply lookup_lt_Some).
    by rewrite list_lookup_fmap, Hi.
  - destruct xs; [done|discriminate].
Qed.

(** X11: [at(pos)] returns the element at index [pos] and throws
    [std::out_of_range] for every [pos >= size()]; [operator[]] returns
    the same element without the check. *)
Theorem dynamic_at_checked a xs :
  represents a xs ->
  (forall i x, xs !! i = Some x ->
     at_ a (Z.of_nat i) = Ok x /\ subscript a (Z.of_nat i) = Ok x) /\
  (forall pos, size_ a <= pos -> at_ a pos = Throw IndexOutOfRange).
Proof.
  intros Hrep. split.
  - intros i x Hi. pose proof (lookup_lt_Some _ _ _ Hi) as Hlt.
    destruct (represents_lookup a xs i x Hrep Hi) as (buf & Hd & Hb).
    destruct Hrep as (Hlen & _). unfold at_, subscript.
    destruct (Z.leb_spec (size_ a) (Z.of_nat i)); [lia|].
    unfold load. rewrite Hd.
    destruct (Z.ltb_spec (Z.of_nat i) 0); [lia|]. by rewrite Nat2Z.id, Hb.
  - intros pos Hpos. unfold at_. by destruct (Z.leb_spec (size_ a) pos); [|lia].
Qed.

(** X12: [pop_back] on a non-empty array removes the last element and keeps
    the storage. *)
Theorem dynamic_pop_back_removes_last a xs x :
  represents a (xs ++ [x]) ->
  exists a', pop_back a = Ok a' /\ represents a' xs /\
    capacity_ a' = capacity_ a /\ size_ a' = size_ a - 1.
Proof.
  intros Hrep.
  destruct (represents_lookup a (xs ++ [x]) (length xs) x Hrep) as (buf & Hd & Hb).
  { by apply list_lookup_middle. }
  destruct Hrep as (Hlen & Hcap & Hslots). unfold slots in Hslots.
  rewrite Hd in Hslots. cbn in Hslots.
  rewrite length_app in Hlen. cbn [length] in Hlen.
  unfold pop_back. destruct (Z.ltb_spec 0 (size_ a)); [|lia].
  rewrite to_size_t_small by (unfold width in *; simpl Z.sub in *; lia).
  rewrite Hd. unfold destroy.
  destruct (Z.ltb_spec (size_ a - 1) 0); [lia|].
  replace (Z.to_nat (size_ a - 1)) with (length xs) by lia.
  rewrite Hb. cbn [bind]. eexists. split; [done|].
  split; [|done]. unfold represents. cbn [size_ capacity_].
  split; [lia|]. split; [lia|]. unfold slots. cbn [data_ default].
  rewrite Hslots, fmap_app, <- app_assoc. cbn [fmap list_fmap app].
  rewrite insert_app_r_alt by (rewrite length_fmap; lia).
  rewrite length_fmap, Nat.sub_diag. cbn [insert list_insert].
  replace (Z.to_nat (capacity_ a - (size_ a - 1)))
    with (S (Z.to_nat (capacity_ a - size_ a))) by lia.
  done.
Qed.

(** X13: [reserve(n)] with [n] not above the capacity changes nothing.
    For a larger [n], the allocation throws [std::bad_array_new_length]
    when [n] is above [SIZE_MAX / sizeof(T)]; when [n * sizeof(T)] is
    below 2^63 the elements and the size are kept and the capacity
    becomes [n]. *)
Theorem reserve_keeps_elements elem_size a xs n :
  represents a xs -> 0 < elem_size ->
  (n <= capacity_ a -> reserve elem_size a n = Ok a) /\
  (capacity_ a < n -> n * elem_size < 2 ^ (width - 1) ->
   exists a', reserve elem_size a n = Ok a' /\ represents a' xs /\
     capacity_ a' = n /\ size_ a' = size_ a) /\
  (capacity_ a < n -> (2 ^ width - 1) / elem_size < n ->
   reserve elem_size a n = Throw bad_array_new_length).
Proof.
  intros Hrep Hel. pose proof Hrep as (Hlen & Hcap & _).
  unfold reserve, reallocate_checked, check_length. split; [|split].
  - intros Hle. by destruct (Z.ltb_spec (capacity_ a) n); [lia|].
  - intros Hlt Hbytes. destruct (Z.ltb_spec (capacity_ a) n); [|lia].
    assert (n < 2 ^ (width - 1)) as Hn by nia.
    assert (n <= (2 ^ width - 1) / elem_size) as Hfit.
    { apply Z.div_le_lower_bound; [done|].
      unfold width in *. simpl Z.sub in *.
      change (2 ^ 64) with (2 * 2 ^ 63). lia. }
    destruct (Z.ltb_spec ((2 ^ width - 1) / elem_size) n); [lia|]. cbn [bind].
    destruct (reallocate_spec a xs n Hrep ltac:(lia)) as (a' & -> & Hr & Hc & Hs).
    by exists a'.
  - intros Hlt Hbig. destruct (Z.ltb_spec (capacity_ a) n); [|lia].
    by destruct (Z.ltb_spec ((2 ^ width - 1) / elem_size) n); [|lia].
Qed.

(** X14: [shrink_to_fit] keeps the elements and leaves a storage of exactly
    [size()] slots. *)
Theorem shrink_to_fit_keeps_elements a xs :
  represents a xs ->
  exists a', shrink_to_fit a = Ok a' /\ represents a' xs /\
    capacity_ a' = size_ a /\ size_ a' = size_ a.
Proof.
  intros Hrep. pose proof Hrep as (Hlen & Hcap & _). unfold shrink_to_fit.
  destruct (Z.ltb_spec (size_ a) (capacity_ a)).
  - destruct (reallocate_spec a xs (size_ a) Hrep ltac:(lia)) as (a' & -> & Hr & Hc & Hs).
    exists a'. repeat split; try done; apply Hr.
  - exists a. repeat split; try done; try apply Hrep. lia.
Qed.

Lemma destroy_range_spec (rest : list T) (n : nat) (behind : list (option T)) :
  destroy_range (length rest) (replicate n None ++ (Some <$> rest) ++ behind)
    (Z.of_nat n) =
  Ok (replicate (n + length rest) None ++ behind).
Proof.
  revert n. induction rest as [|x rest IH]; intros n.
  - cbn. by rewrite Nat.add_0_r.
  - cbn [length destroy_range fmap list_fmap app]. unfold destroy.
    destruct (Z.ltb_spec (Z.of_nat n) 0); [lia|]. rewrite Nat2Z.id.
    rewrite list_lookup_middle by (by rewrite length_replicate). cbn [bind].
    rewrite insert_app_r_alt by (rewrite length_replicate; lia).
    rewrite length_replicate, Nat.sub_diag. cbn [insert list_insert].
    replace (replicate n None ++ None :: (Some <$> rest) ++ behind)
      with (replicate (S n) (@None T) ++ (Some <$> rest) ++ behind).
    2:{ rewrite replicate_S_end, <- app_assoc. done. }
    replace (Z.of_nat n + 1) with (Z.of_nat (S n)) by lia.
    rewrite IH. do 2 f_equal. f_equal. lia.
Qed.

(** X15: [clear] destroys every element and keeps the storage: the array is
    empty, with the capacity it had. *)
Theorem dynamic_clear_empties a xs :
  represents a xs ->
  exists a', clear a = Ok a' /\ represents a' [] /\ capacity_ a' = capacity_ a.
Proof.
  intros (Hlen & Hcap & Hslots). unfold clear, slots in *.
  destruct (data_ a) as [buf|] eqn:Hd; cbn in Hslots.
  - rewrite Hslots, <- Hlen, Nat2Z.id.
    pose proof (destroy_range_spec xs 0
                  (replicate (Z.to_nat (capacity_ a - Z.of_nat (length xs))) None))
      as Hdr.
    cbn [replicate app Nat.add] in Hdr. change (Z.of_nat 0) with 0 in Hdr.
    rewrite Hdr. cbn [bind]. eexists. split; [done|]. split; [|done].
    split; [done|]. split; [cbn; lia|]. unfold slots. cbn.
    rewrite <- replicate_add. f_equal. lia.
  - destruct xs; [|discriminate]. cbn in Hlen. rewrite <- Hlen. cbn.
    eexists. split; [done|]. split; [|done].
    split; [done|]. split; [cbn; lia|]. unfold slots. cbn.
    rewrite <- Hlen in Hslots. exact Hslots.
Qed.

(** X16: The copy constructor gives an array with the same elements whose
    capacity is the size of the source, not its capacity. *)
Theorem dynamic_copy_fits a xs :
  represents a xs ->
  exists a', copy a = Ok a' /\ represents a' xs /\
    size_ a' = size_ a /\ capacity_ a' = size_ a.
Proof.
  intros (Hlen & Hcap & Hslots). unfold copy.
  destruct (Z.ltb_spec 0 (size_ a)).
  - unfold slots in Hslots.
    destruct (data_ a) as [old|] eqn:Hd; cbn in Hslots.
    2:{ destruct xs; [cbn in Hlen; lia|discriminate]. }
    pose proof (move_loop_spec old xs [] 0%nat) as Hloop.
    cbn [app length fmap list_fmap] in Hloop. rewrite Nat.add_0_r in Hloop.
    rewrite <- Hlen, Nat2Z.id. change (Z.of_nat 0) with 0 in Hloop. rewrite Hloop.
    + cbn [bind]. eexists. split; [done|]. split; [|done].
      split; [done|]. split; [cbn; lia|]. unfold slots. cbn.
      by rewrite Z.sub_diag.
    + lia.
    + intros i x Hi. cbn. rewrite Hslots.
      rewrite lookup_app_l by (rewrite length_fmap; by eapply lookup_lt_Some).
      by rewrite list_lookup_fmap, Hi.
  - assert (xs = []) as -> by (destruct xs; [done|cbn in Hlen; lia]).
    eexists. split; [done|]. split; [|done].
    split; [done|]. split; [cbn; lia|]. unfold slots. cbn.
    by rewrite Z.sub_diag.
Qed.

(** X17: Appending values one after the other: as long as three times the
    final size stays below 2^24, every [push_back] succeeds, the array
    ends up holding the old elements followed by the new ones, and the
    capacity never decreases. *)
Theorem push_all_appends a xs vs :
  represents a xs -> 3 * Z.of_nat (length xs + length vs) < 2 ^ 24 ->
  exists a', push_all a vs = Ok a' /\ represents a' (xs ++ vs) /\
    capacity_ a <= capacity_ a'.
Proof.
  revert a xs. induction vs as [|v vs IH]; intros a xs Hrep Hbound.
  - exists a. rewrite app_nil_r. split; [done|]. split; [done|lia].
  - cbn [push_all]. pose proof Hrep as (Hlen & Hcap & _).
    cbn [length] in Hbound.
    assert (exists a1, push_back a v = Ok a1 /\ represents a1 (xs ++ [v]) /\
              capacity_ a <= capacity_ a1) as (a1 & -> & Hrep1 & Hc1).
    { destruct (Z.eq_dec (size_ a) (capacity_ a)) as [Heq|Hne].
      - destruct (push_back_grow a xs v
                    (Z.max (3 * capacity_ a / 2) (Z.max 16 (size_ a + 1))) Hrep Heq)
          as (a1 & Hp & Hr & Hc & _).
        + rewrite to_size_t_small by (unfold width; lia).
          apply calculate_growth_small; lia.
        + assert (3 * capacity_ a / 2 < 2 ^ 24) by (apply Z.div_lt_upper_bound; lia).
          unfold width. simpl Z.sub. lia.
        + lia.
        + exists a1. split; [done|]. split; [done|].
          rewrite Hc. pose proof (Z.div_le_lower_bound (3 * capacity_ a) 2 (capacity_ a)).
          lia.
      - destruct (push_back_room a xs v Hrep ltac:(lia)) as (a1 & Hp & Hr & Hc & _).
        exists a1. split; [done|]. split; [done|]. lia. }
    cbn [bind].
    destruct (IH a1 (xs ++ [v]) Hrep1) as (a' & -> & Hrep' & Hc').
    { rewrite length_app. cbn [length]. lia. }
    exists a'. split; [done|]. rewrite <- app_assoc in Hrep'. split; [done|]. lia.
Qed.

End DynamicArrayProperties.

(** Instances on an array holding 1, 2, 3 in a storage of four slots. *)

Lemma three_of_four_represents :
  DynamicArray.represents DynamicArraySpec.three_of_four [1; 2; 3]%Z.
Proof.
  split; [reflexivity|]. split; [|reflexivity].
  unfold DynamicArraySpec.three_of_four, Cxx.width. cbn.
  change (2 ^ (64 - 1))%Z with 9223372036854775808%Z. lia.
Qed.

Lemma dynamic_at_checked_witness :
  DynamicArray.at_ DynamicArraySpec.three_of_four 2 = Cxx.Ok 3%Z /\
  DynamicArray.at_ DynamicArraySpec.three_of_four 3 = Cxx.Throw Cxx.IndexOutOfRange.
Proof.
  destruct (dynamic_at_checked DynamicArraySpec.three_of_four [1; 2; 3]%Z
              three_of_four_represents) as [Hin Hout].
  split; [exact (proj1 (Hin 2%nat 3%Z eq_refl))|].
  apply Hout. cbn. lia.
Defined.

Lemma dynamic_pop_back_removes_last_witness :
  exists a', DynamicArray.pop_back DynamicArraySpec.three_of_four = Cxx.Ok a' /\
    DynamicArray.represents a' [1; 2]%Z.
Proof.
  destruct (dynamic_pop_back_removes_last DynamicArraySpec.three_of_four [1; 2]%Z 3%Z
              three_of_four_represents) as (a' & Hp & Hr & _).
  exists a'. split; [exact Hp|exact Hr].
Defined.

Lemma reserve_keeps_elements_witness :
  (exists a', DynamicArray.reserve 4 DynamicArraySpec.three_of_four 10 = Cxx.Ok a' /\
     DynamicArray.represents a' [1; 2; 3]%Z /\ DynamicArray.capacity_ a' = 10%Z) /\
  DynamicArray.reserve 4 DynamicArraySpec.three_of_four (2 ^ 62) =
    Cxx.Throw Cxx.bad_array_new_length.
Proof.
  split.
  - destruct (reserve_keeps_elements 4%Z DynamicArraySpec.three_of_four [1; 2; 3]%Z 10%Z
                three_of_four_represents ltac:(lia)) as (_ & Hfit & _).
    destruct (Hfit ltac:(cbn; lia) ltac:(unfold Cxx.width; cbn; lia))
      as (a' & Hp & Hr & Hc & _).
    exists a'. split; [exact Hp|]. split; [exact Hr|exact Hc].
  - destruct (reserve_keeps_elements 4%Z DynamicArraySpec.three_of_four [1; 2; 3]%Z
                (2 ^ 62)%Z three_of_four_represents ltac:(lia)) as (_ & _ & Hbig).
    apply Hbig; [cbn; lia|]. unfold Cxx.width. vm_compute. reflexivity.
Defined.

Lemma shrink_to_fit_keeps_elements_witness :
  exists a', DynamicArray.shrink_to_fit DynamicArraySpec.three_of_four = Cxx.Ok a' /\
    DynamicArray.represents a' [1; 2; 3]%Z /\ DynamicArray.capacity_ a' = 3%Z.
Proof.
  destruct (shrink_to_fit_keeps_elements DynamicArraySpec.three_of_four [1; 2; 3]%Z
              three_of_four_represents) as (a' & Hp & Hr & Hc & _).
  exists a'. split; [exact Hp|]. split; [exact Hr|exact Hc].
Defined.

Lemma dynamic_clear_empties_witness :
  exists a', DynamicArray.clear DynamicArraySpec.three_of_four = Cxx.Ok a' /\
    DynamicArray.represents a' [] /\ DynamicArray.capacity_ a' = 4%Z.
Proof.
  destruct (dynamic_clear_empties DynamicArraySpec.three_of_four [1; 2; 3]%Z
              three_of_four_represents) as (a' & Hp & Hr & Hc).
  exists a'. split; [exact Hp|]. split; [exact Hr|exact Hc].
Defined.

Lemma dynamic_copy_fits_witness :
  exists a', DynamicArray.copy DynamicArraySpec.three_of_four = Cxx.Ok a' /\
    DynamicArray.represents a' [1; 2; 3]%Z /\ DynamicArray.capacity_ a' = 3%Z.
Proof.
  destruct (dynamic_copy_fits DynamicArraySpec.three_of_four [1; 2; 3]%Z
              three_of_four_represents) as (a' & Hp & Hr & _ & Hc).
  exists a'. split; [exact Hp|]. split; [exact Hr|exact Hc].
Defined.

Lemma push_all_appends_witness :
  exists a', DynamicArraySpec.push_all DynamicArraySpec.three_of_four [4; 5]%Z =
               Cxx.Ok a' /\
    DynamicArray.represents a' [1; 2; 3; 4; 5]%Z.
Proof.
  destruct (push_all_appends DynamicArraySpec.three_of_four [1; 2; 3]%Z [4; 5]%Z
              three_of_four_represents ltac:(cbn; lia)) as (a' & Hp & Hr & _).
  exists a'. split; [exact Hp|exact Hr].
Defined.

(** ** Node chains *)

Section HeapFacts.

Import Heap.

Context {T N : Type}.

Implicit Types (h : gmap addr N) (p q : ptr) (xs ys : list (addr * T)).

Lemma lseg_app dat link h p xs ys q :
  lseg (T:=T) dat link h p (xs ++ ys) q <->
  exists r, lseg dat link h p xs r /\ lseg dat link h r ys q.
Proof.
  revert p. induction xs as [|x xs IH]; intros p; simpl.
  - split; [eauto|]. by intros (r & -> & ?).
  - split.
    + intros (-> & n & Hn & Hd & Hseg). apply IH in Hseg as (r & ? & ?).
      exists r. eauto 10.
    + intros (r & (-> & n & Hn & Hd & Hseg) & Hys).
      split; [done|]. exists n. repeat split; try done. apply IH. eauto.
Qed.

(** A segment only depends on the payloads and links of its own nodes. *)
Lemma lseg_transfer {N'} dat link (dat' : N' -> T) link' h (h' : gmap addr N') p xs q :
  lseg dat link h p xs q ->
  (forall a n, a ∈ xs.*1 -> h !! a = Some n ->
     exists n', h' !! a = Some n' /\ dat' n' = dat n /\ link' n' = link n) ->
  lseg dat' link' h' p xs q.
Proof.
  revert p. induction xs as [|x xs IH]; intros p; simpl; [done|].
  intros (-> & n & Hn & Hd & Hseg) Hsame.
  destruct (Hsame (fst x) n) as (n' & Hn' & Hd' & Hl');
    [apply elem_of_cons; by left|done|].
  split; [done|]. exists n'. rewrite Hd', Hl'. repeat split; try done.
  apply IH; [done|]. intros a m Ha. apply Hsame.
  apply elem_of_cons. by right.
Qed.

Lemma lseg_frame dat link h h' p xs q :
  lseg (T:=T) dat link h p xs q ->
  (forall a, a ∈ xs.*1 -> h' !! a = h !! a) ->
  lseg dat link h' p xs q.
Proof.
  intros Hseg Hsame. eapply lseg_transfer; [done|].
  intros a n Ha Hn. exists n. by rewrite Hsame.
Qed.

Lemma lseg_lookup dat link h p xs q a :
  lseg (T:=T) dat link h p xs q -> a ∈ xs.*1 ->
  exists n, h !! a = Some n /\ (a, dat n) ∈ xs.
Proof.
  revert p. induction xs as [|[b d] xs IH]; intros p; simpl.
  - intros _ Ha. by apply elem_of_nil in Ha.
  - intros (-> & n & Hn & Hd & Hseg) Ha.
    apply elem_of_cons in Ha as [->|Ha].
    + exists n. split; [done|]. rewrite Hd. apply elem_of_cons. by left.
    + destruct (IH _ Hseg Ha) as (m & ? & ?). exists m. split; [done|].
      apply elem_of_cons. by right.
Qed.

Lemma chain_functional dat link h p xs ys :
  chain (T:=T) dat link h p xs -> chain dat link h p ys -> xs = ys.
Proof.
  unfold chain. revert p ys. induction xs as [|x xs IH]; intros p ys; simpl.
  - intros ->. destruct ys; simpl; [done|]. by intros (? & _).
  - intros (-> & n & Hn & Hd & Hseg). destruct ys as [|y ys]; simpl; [done|].
    intros (Hy & m & Hm & Hdm & Hseg'). simplify_eq.
    rewrite <- Hy in Hm. simplify_eq. f_equal.
    + destruct x, y. simpl in *. congruence.
    + eauto.
Qed.

(** A chain reaches null, so it meets no node twice. *)
Lemma chain_NoDup dat link h p xs :
  chain (T:=T) dat link h p xs -> NoDup xs.*1.
Proof.
  unfold chain. revert p. induction xs as [|x xs IH]; intros p Hc; simpl.
  - constructor.
  - pose proof Hc as Hc'. simpl in Hc. destruct Hc as (-> & n & Hn & Hd & Hseg).
    constructor; [|eauto].
    intros Hin. apply list_elem_of_fmap in Hin as (y & Hy & Hin).
    apply list_elem_of_split in Hin as (l1 & l2 & ->).
    apply lseg_app in Hseg as (r & _ & Hr).
    pose proof Hr as Hr'. simpl in Hr'. destruct Hr' as (-> & _).
    rewrite <- Hy in Hr.
    pose proof (chain_functional _ _ _ _ _ _ Hc' Hr) as Heq.
    apply (f_equal length) in Heq. simpl in Heq. rewrite length_app in Heq.
    simpl in Heq. lia.
Qed.

Lemma chain_nil dat link h xs : chain (T:=T) dat link h None xs -> xs = [].
Proof. destruct xs; [done|]. by intros (? & _). Qed.

Lemma rev_reverse {A} (l : list A) : rev l = list.reverse l.
Proof. apply rev_alt. Qed.

Lemma elem_of_rev_fst xs a : a ∈ (rev xs).*1 <-> a ∈ xs.*1.
Proof. by rewrite rev_reverse, fmap_reverse, elem_of_reverse. Qed.

End HeapFacts.

(** ** Doubly linked list: reverse *)

Section DoublyReverse.

Import Cxx Heap DoublyLinkedList.

Context {T : Type}.

Implicit Types (h : gmap addr (Node T)) (p q : ptr) (xs : list (addr * T)).

Lemma get_Some h a n : h !! a = Some n -> get h (Some a) = Ok n.
Proof. intros H. unfold get. by rewrite H. Qed.

Lemma set_prev_Some h a n q :
  h !! a = Some n ->
  set_prev h (Some a) q = Ok (<[a := MkNode (data n) q (next n)]> h).
Proof. intros H. unfold set_prev. by rewrite (get_Some h a n). Qed.

Lemma set_next_Some h a n q :
  h !! a = Some n ->
  set_next h (Some a) q = Ok (<[a := MkNode (data n) (prev n) q]> h).
Proof. intros H. unfold set_next. by rewrite (get_Some h a n). Qed.

Lemma reverse_loop_spec xs : forall h p fuel,
  chain data next h p xs -> length xs < fuel ->
  exists h', reverse_loop fuel h p = Ok h' /\
    (forall a, a ∉ xs.*1 -> h' !! a = h !! a) /\
    (forall a n, a ∈ xs.*1 -> h !! a = Some n -> h' !! a = Some (swapped n)).
Proof.
  induction xs as [|[a d] xs IH]; intros h p fuel Hc Hfuel.
  - destruct fuel; [lia|]. unfold chain in Hc. simpl in Hc. subst p.
    exists h. split; [done|]. split; [done|].
    intros a n Ha. by apply elem_of_nil in Ha.
  - destruct fuel as [|k]; [simpl in Hfuel; lia|].
    pose proof (chain_NoDup _ _ _ _ _ Hc) as Hnd.
    rewrite fmap_cons in Hnd. apply NoDup_cons in Hnd as [Hx Hnd].
    destruct Hc as (-> & n & Hn & Hd & Hc). simpl in Hn, Hd, Hx.
    cbn [reverse_loop fst].
    rewrite (get_Some h a n Hn). cbn [bind].
    rewrite (set_prev_Some h a n _ Hn). cbn [bind].
    rewrite (set_next_Some _ a _ _ (lookup_insert_eq _ _ _)). cbn [bind data prev next].
    rewrite insert_insert_eq.
    rewrite (get_Some _ a _ (lookup_insert_eq _ _ _)). cbn [bind data prev next].
    fold (swapped n).
    destruct (IH (<[a:=swapped n]> h) (next n) k) as (h' & Hrun & Hout & Hin).
    { eapply lseg_frame; [exact Hc|]. intros b Hb.
      apply lookup_insert_ne. by intros <-. }
    { simpl in Hfuel. lia. }
    exists h'. split; [exact Hrun|]. split.
    + intros b Hb. rewrite fmap_cons in Hb. apply not_elem_of_cons in Hb as [Hb1 Hb2].
      rewrite Hout by done. by apply lookup_insert_ne.
    + intros b m Hb Hm. rewrite fmap_cons in Hb. apply elem_of_cons in Hb as [->|Hb].
      * rewrite Hout by done. rewrite lookup_insert_eq. simpl in Hm. congruence.
      * apply Hin; [done|]. rewrite lookup_insert_ne; [done|]. by intros <-.
Qed.

Lemma chain_swapped h h' p xs :
  chain data prev h p xs ->
  (forall a n, a ∈ xs.*1 -> h !! a = Some n -> h' !! a = Some (swapped n)) ->
  chain data next h' p xs.
Proof.
  intros Hc Hsw. eapply lseg_transfer; [exact Hc|].
  intros a n Ha Hn. exists (swapped n). split; [by apply Hsw|done].
Qed.

Lemma chain_swapped_back h h' p xs :
  chain data next h p xs ->
  (forall a n, a ∈ xs.*1 -> h !! a = Some n -> h' !! a = Some (swapped n)) ->
  chain data prev h' p xs.
Proof.
  intros Hc Hsw. eapply lseg_transfer; [exact Hc|].
  intros a n Ha Hn. exists (swapped n). split; [by apply Hsw|done].
Qed.

Lemma represents_short h l xs :
  represents h l xs -> (size_ l <=? 1)%Z = true ->
  rev xs = xs /\ head_ l = tail_ l.
Proof.
  intros (Hn & Hp & Hs) Hle. apply Z.leb_le in Hle.
  destruct xs as [|x [|y xs]]; simpl in *; [| |lia].
  - unfold chain in *. simpl in *. split; congruence.
  - destruct Hn as (-> & _), Hp as (-> & _). done.
Qed.

(** [reverse()] on a well-formed list: the nodes are traversed in the
    opposite order, [head_] and [tail_] are exchanged, and no node outside
    the list is touched. *)
Lemma reverse_spec h l xs fuel :
  represents h l xs -> length xs < fuel ->
  exists h' l', reverse fuel h l = Ok (h', l') /\
    represents h' l' (rev xs) /\
    head_ l' = tail_ l /\ tail_ l' = head_ l /\ size_ l' = size_ l /\
    (forall a, a ∉ xs.*1 -> h' !! a = h !! a) /\
    ((size_ l <=? 1)%Z = true -> h' = h /\ l' = l).
Proof.
  intros Hrep Hfuel. unfold reverse.
  destruct (size_ l <=? 1)%Z eqn:Hsz.
  - destruct (represents_short h l xs Hrep Hsz) as [Hrev Hht].
    exists h, l. rewrite Hrev.
    split; [done|]. split; [done|]. split; [done|]. split; [done|].
    split; [done|]. split; done.
  - destruct Hrep as (Hn & Hp & Hs).
    destruct (reverse_loop_spec xs h (head_ l) fuel Hn Hfuel)
      as (h' & -> & Hout & Hin).
    simpl. eexists _, _. split; [done|]. simpl.
    repeat split; try done.
    + apply (chain_swapped h); [done|].
      intros a n Ha. apply Hin. by apply elem_of_rev_fst.
    + simpl. rewrite rev_involutive. by apply (chain_swapped_back h).
    + simpl. by rewrite length_rev.
Qed.

End DoublyReverse.

Section ChainsDetermine.

Import Heap.

Context {T N : Type}.

Implicit Types (h : gmap addr N) (p q : ptr) (xs ys : list (addr * T)).

Lemma chain_head dat link h p xs :
  chain (T:=T) dat link h p xs -> p = fst <$> head xs.
Proof. destruct xs; [done|]. by intros (-> & _). Qed.

(** Two heaps that carry the same chain agree on what the chain reads of
    its nodes. *)
Lemma chain_agree dat link h h' p xs a n n' :
  chain (T:=T) dat link h p xs -> chain dat link h' p xs ->
  a ∈ xs.*1 -> h !! a = Some n -> h' !! a = Some n' ->
  dat n = dat n' /\ link n = link n'.
Proof.
  unfold chain. revert p. induction xs as [|[b d] xs IH]; intros p.
  - intros _ _ Ha. by apply elem_of_nil in Ha.
  - intros (-> & m & Hm & Hd & Hc) (_ & m' & Hm' & Hd' & Hc') Ha Hn Hn'.
    simpl in *. destruct (decide (a = b)) as [->|Hne].
    + simplify_eq. split; [congruence|].
      rewrite (chain_head _ _ _ _ _ Hc), (chain_head _ _ _ _ _ Hc'). done.
    + apply elem_of_cons in Ha as [?|Ha]; [done|].
      pose proof (chain_head _ _ _ _ _ Hc) as Hp.
      pose proof (chain_head _ _ _ _ _ Hc') as Hp'.
      rewrite Hp in Hc. rewrite Hp' in Hc'. eauto.
Qed.

End ChainsDetermine.

(** ** Singly linked list: reverse *)

Section SinglyReverse.

Import Cxx Heap SinglyLinkedList.

Context {T : Type}.

Implicit Types (h : gmap addr (Node T)) (p q : ptr) (xs : list (addr * T)).

Lemma sll_get_Some h a n : h !! a = Some n -> get h (Some a) = Ok n.
Proof. intros H. unfold get. by rewrite H. Qed.

Lemma sll_set_next_Some h a n q :
  h !! a = Some n ->
  set_next h (Some a) q = Ok (<[a := MkNode (data n) q]> h).
Proof. intros H. unfold set_next. by rewrite (sll_get_Some h a n). Qed.

(** The loop of [reverse] moves the nodes of the chain at [current], one
    by one, to the front of the chain at [prev]. *)
Lemma sll_reverse_loop_spec xs : forall h p q done fuel,
  chain data next h p xs -> chain data next h q done ->
  (forall a, a ∈ xs.*1 -> a ∉ done.*1) ->
  length xs < fuel ->
  exists h' r, reverse_loop fuel h q p = Ok (h', r) /\
    chain data next h' r (rev xs ++ done) /\
    (forall a, a ∉ xs.*1 -> h' !! a = h !! a).
Proof.
  induction xs as [|[a d] xs IH]; intros h p q done fuel Hc Hdone Hdisj Hfuel.
  - destruct fuel; [lia|]. unfold chain in Hc. simpl in Hc. subst p.
    exists h, q. by repeat split.
  - destruct fuel as [|k]; [simpl in Hfuel; lia|].
    pose proof (chain_NoDup _ _ _ _ _ Hc) as Hnd.
    rewrite fmap_cons in Hnd. apply NoDup_cons in Hnd as [Hx Hnd].
    destruct Hc as (-> & n & Hn & Hd & Hc). simpl in Hn, Hd, Hx.
    cbn [reverse_loop fst].
    rewrite (sll_get_Some h a n Hn). cbn [bind].
    rewrite (sll_set_next_Some h a n _ Hn). cbn [bind].
    destruct (IH (<[a:=MkNode (data n) q]> h) (next n) (Some a) ((a, d) :: done) k)
      as (h' & r & Hrun & Hres & Hout).
    { eapply lseg_frame; [exact Hc|]. intros b Hb.
      apply lookup_insert_ne. by intros <-. }
    { split; [done|]. eexists. rewrite lookup_insert_eq.
      split; [done|]. split; [done|]. simpl.
      eapply lseg_frame; [exact Hdone|]. intros b Hb.
      apply lookup_insert_ne. intros <-. apply (Hdisj a); [|done].
      rewrite fmap_cons. apply elem_of_cons. by left. }
    { intros b Hb. rewrite fmap_cons. apply not_elem_of_cons. split.
      - by intros ->.
      - apply Hdisj. rewrite fmap_cons. apply elem_of_cons. by right. }
    { simpl in Hfuel. lia. }
    exists h', r. split; [exact Hrun|]. split.
    + simpl. by rewrite <- app_assoc.
    + intros b Hb. rewrite fmap_cons in Hb.
      apply not_elem_of_cons in Hb as [Hb1 Hb2].
      rewrite Hout by done. by apply lookup_insert_ne.
Qed.

Lemma sll_represents_short h l xs :
  represents h l xs -> (size_ l <=? 1)%Z = true ->
  rev xs = xs /\ head_ l = tail_ l.
Proof.
  intros (Hn & Ht & Hs) Hle. apply Z.leb_le in Hle.
  destruct xs as [|x [|y xs]]; simpl in *; [| |lia].
  - unfold chain in *. simpl in *. split; congruence.
  - destruct Hn as (-> & _). done.
Qed.

Lemma last_rev {A} (l : list A) : last (rev l) = head l.
Proof. rewrite rev_reverse. apply last_reverse. Qed.

Lemma head_rev {A} (l : list A) : head (rev l) = last l.
Proof. rewrite rev_reverse. apply head_reverse. Qed.

(** [reverse()] on a well-formed list. *)
Lemma sll_reverse_spec h l xs fuel :
  represents h l xs -> length xs < fuel ->
  exists h' l', reverse fuel h l = Ok (h', l') /\
    represents h' l' (rev xs) /\
    head_ l' = tail_ l /\ tail_ l' = head_ l /\ size_ l' = size_ l /\
    (forall a, a ∉ xs.*1 -> h' !! a = h !! a) /\
    ((size_ l <=? 1)%Z = true -> h' = h /\ l' = l).
Proof.
  intros Hrep Hfuel. unfold reverse.
  destruct (size_ l <=? 1)%Z eqn:Hsz.
  - destruct (sll_represents_short h l xs Hrep Hsz) as [Hrev Hht].
    exists h, l. rewrite Hrev.
    split; [done|]. split; [done|]. split; [done|]. split; [done|].
    split; [done|]. split; done.
  - destruct Hrep as (Hn & Ht & Hs).
    destruct (sll_reverse_loop_spec xs h (head_ l) None [] fuel)
      as (h' & r & Hrun & Hres & Hout); [done|done| |done|].
    { intros a _ Ha. by apply elem_of_nil in Ha. }
    cbn [set_tail head_ tail_ size_]. rewrite Hrun. cbn [bind].
    rewrite app_nil_r in Hres.
    eexists _, _. split; [done|].
    pose proof (chain_head _ _ _ _ _ Hres) as Hr.
    pose proof (chain_head _ _ _ _ _ Hn) as Hh.
    rewrite head_rev in Hr.
    split; [|by cbn; rewrite Hr, Ht].
    split; [done|]. cbn. split; [|by rewrite length_rev].
    by rewrite last_rev.
Qed.

End SinglyReverse.

Section ReverseTwice.

Import Cxx Heap.

Context {T : Type}.

Implicit Types (xs : list (addr * T)).

Lemma sll_traverse_spec xs : forall (h : gmap addr (SinglyLinkedList.Node T)) p fuel,
  chain SinglyLinkedList.data SinglyLinkedList.next h p xs -> length xs < fuel ->
  SinglyLinkedList.traverse fuel h p = Ok xs.*2.
Proof.
  induction xs as [|[a d] xs IH]; intros h p fuel Hc Hfuel.
  - destruct fuel; [lia|]. unfold chain in Hc. simpl in Hc. by subst p.
  - destruct fuel as [|k]; [simpl in Hfuel; lia|].
    destruct Hc as (-> & n & Hn & Hd & Hc). simpl in Hn, Hd.
    cbn [SinglyLinkedList.traverse fst].
    rewrite (sll_get_Some h a n Hn). cbn [bind].
    rewrite (IH h _ k Hc) by (simpl in Hfuel; lia).
    cbn [bind]. by rewrite Hd.
Qed.

Lemma dll_traverse_spec xs : forall (h : gmap addr (DoublyLinkedList.Node T)) p fuel,
  chain DoublyLinkedList.data DoublyLinkedList.next h p xs -> length xs < fuel ->
  DoublyLinkedList.traverse fuel h p = Ok xs.*2.
Proof.
  induction xs as [|[a d] xs IH]; intros h p fuel Hc Hfuel.
  - destruct fuel; [lia|]. unfold chain in Hc. simpl in Hc. by subst p.
  - destruct fuel as [|k]; [simpl in Hfuel; lia|].
    destruct Hc as (-> & n & Hn & Hd & Hc). simpl in Hn, Hd.
    cbn [DoublyLinkedList.traverse fst].
    rewrite (get_Some h a n Hn). cbn [bind].
    rewrite (IH h _ k Hc) by (simpl in Hfuel; lia).
    cbn [bind]. by rewrite Hd.
Qed.

(** A well-formed list is determined by its nodes: two states that
    represent the same nodes and agree outside them are equal. *)
Lemma sll_represents_unique h h' l l' xs :
  SinglyLinkedList.represents h l xs -> SinglyLinkedList.represents h' l' xs ->
  (forall a, a ∉ xs.*1 -> h' !! a = h !! a) ->
  h' = h /\ l' = l.
Proof.
  intros (Hn & Ht & Hs) (Hn' & Ht' & Hs') Hout.
  pose proof (chain_head _ _ _ _ _ Hn) as Hh.
  pose proof (chain_head _ _ _ _ _ Hn') as Hh'.
  split.
  - apply map_eq. intros a. destruct (decide (a ∈ xs.*1)) as [Ha|Ha]; [|by apply Hout].
    rewrite Hh in Hn. rewrite Hh' in Hn'.
    destruct (lseg_lookup _ _ _ _ _ _ a Hn Ha) as (n & Hna & _).
    destruct (lseg_lookup _ _ _ _ _ _ a Hn' Ha) as (n' & Hna' & _).
    destruct (chain_agree _ _ _ _ _ _ a n n' Hn Hn' Ha Hna Hna') as [Hd Hl].
    rewrite Hna, Hna'. destruct n, n'. simpl in *. by subst.
  - destruct l, l'. simpl in *. congruence.
Qed.

Lemma dll_represents_unique h h' l l' xs :
  DoublyLinkedList.represents h l xs -> DoublyLinkedList.represents h' l' xs ->
  (forall a, a ∉ xs.*1 -> h' !! a = h !! a) ->
  h' = h /\ l' = l.
Proof.
  intros (Hn & Hp & Hs) (Hn' & Hp' & Hs') Hout.
  pose proof (chain_head _ _ _ _ _ Hn) as Hh.
  pose proof (chain_head _ _ _ _ _ Hn') as Hh'.
  pose proof (chain_head _ _ _ _ _ Hp) as Htl.
  pose proof (chain_head _ _ _ _ _ Hp') as Htl'.
  split.
  - apply map_eq. intros a. destruct (decide (a ∈ xs.*1)) as [Ha|Ha]; [|by apply Hout].
    rewrite Hh in Hn. rewrite Hh' in Hn'. rewrite Htl in Hp. rewrite Htl' in Hp'.
    destruct (lseg_lookup _ _ _ _ _ _ a Hn Ha) as (n & Hna & _).
    destruct (lseg_lookup _ _ _ _ _ _ a Hn' Ha) as (n' & Hna' & _).
    destruct (chain_agree _ _ _ _ _ _ a n n' Hn Hn' Ha Hna Hna') as [Hd Hl].
    assert (a ∈ (rev xs).*1) as Har by by apply elem_of_rev_fst.
    destruct (chain_agree _ _ _ _ _ _ a n n' Hp Hp' Har Hna Hna') as [_ Hl'].
    rewrite Hna, Hna'. destruct n, n'. simpl in *. by subst.
  - destruct l, l'. simpl in *. congruence.
Qed.

End ReverseTwice.

Section ReverseClaim.

Import Cxx Heap.

Context {T : Type}.

Implicit Types (xs : list (addr * T)).

Lemma snd_rev xs : (rev xs).*2 = rev xs.*2.
Proof. by rewrite !rev_reverse, fmap_reverse. Qed.

Lemma sll_size_short (h : gmap addr (SinglyLinkedList.Node T)) l xs :
  SinglyLinkedList.represents h l xs -> length xs <= 1 ->
  (SinglyLinkedList.size_ l <=? 1)%Z = true.
Proof. intros (_ & _ & ->) Hle. apply Z.leb_le. lia. Qed.

Lemma dll_size_short (h : gmap addr (DoublyLinkedList.Node T)) l xs :
  DoublyLinkedList.represents h l xs -> length xs <= 1 ->
  (DoublyLinkedList.size_ l <=? 1)%Z = true.
Proof. intros (_ & _ & ->) Hle. apply Z.leb_le. lia. Qed.

(** C9: on a well-formed list, singly or doubly linked, [reverse()]
    returns with the nodes in the opposite order and [head_] and [tail_]
    exchanged; a list of at most one node is left as it is; a second
    [reverse()] gives back the heap and the list one started from. *)
Theorem reverse_twice :
  (forall (h : gmap addr (SinglyLinkedList.Node T)) l xs fuel,
     SinglyLinkedList.represents h l xs -> length xs < fuel ->
     exists h1 l1,
       SinglyLinkedList.reverse fuel h l = Ok (h1, l1) /\
       SinglyLinkedList.represents h1 l1 (rev xs) /\
       SinglyLinkedList.traverse fuel h (SinglyLinkedList.head_ l) = Ok xs.*2 /\
       SinglyLinkedList.traverse fuel h1 (SinglyLinkedList.head_ l1) = Ok (rev xs.*2) /\
       SinglyLinkedList.head_ l1 = SinglyLinkedList.tail_ l /\
       SinglyLinkedList.tail_ l1 = SinglyLinkedList.head_ l /\
       SinglyLinkedList.reverse fuel h1 l1 = Ok (h, l) /\
       (length xs <= 1 -> h1 = h /\ l1 = l)) /\
  (forall (h : gmap addr (DoublyLinkedList.Node T)) l xs fuel,
     DoublyLinkedList.represents h l xs -> length xs < fuel ->
     exists h1 l1,
       DoublyLinkedList.reverse fuel h l = Ok (h1, l1) /\
       DoublyLinkedList.represents h1 l1 (rev xs) /\
       DoublyLinkedList.traverse fuel h (DoublyLinkedList.head_ l) = Ok xs.*2 /\
       DoublyLinkedList.traverse fuel h1 (DoublyLinkedList.head_ l1) = Ok (rev xs.*2) /\
       DoublyLinkedList.head_ l1 = DoublyLinkedList.tail_ l /\
       DoublyLinkedList.tail_ l1 = DoublyLinkedList.head_ l /\
       DoublyLinkedList.reverse fuel h1 l1 = Ok (h, l) /\
       (length xs <= 1 -> h1 = h /\ l1 = l)).
Proof.
  split.
  - intros h l xs fuel Hrep Hfuel.
    destruct (sll_reverse_spec h l xs fuel Hrep Hfuel)
      as (h1 & l1 & Hrun & Hrep1 & Hhd & Htl & Hsz & Hout & Hshort).
    destruct (sll_reverse_spec h1 l1 (rev xs) fuel Hrep1)
      as (h2 & l2 & Hrun2 & Hrep2 & _ & _ & _ & Hout2 & _);
      [by rewrite length_rev|].
    rewrite rev_involutive in Hrep2.
    destruct (sll_represents_unique h h2 l l2 xs Hrep Hrep2) as [-> ->].
    { intros a Ha. rewrite Hout2 by by rewrite elem_of_rev_fst. by apply Hout. }
    exists h1, l1. split; [done|]. split; [done|].
    split; [apply sll_traverse_spec; [apply Hrep|done]|].
    split.
    { rewrite <- snd_rev. apply sll_traverse_spec; [apply Hrep1|].
      by rewrite length_rev. }
    split; [done|]. split; [done|]. split; [done|].
    intros Hle. apply Hshort. by eapply sll_size_short.
  - intros h l xs fuel Hrep Hfuel.
    destruct (reverse_spec h l xs fuel Hrep Hfuel)
      as (h1 & l1 & Hrun & Hrep1 & Hhd & Htl & Hsz & Hout & Hshort).
    destruct (reverse_spec h1 l1 (rev xs) fuel Hrep1)
      as (h2 & l2 & Hrun2 & Hrep2 & _ & _ & _ & Hout2 & _);
      [by rewrite length_rev|].
    rewrite rev_involutive in Hrep2.
    destruct (dll_represents_unique h h2 l l2 xs Hrep Hrep2) as [-> ->].
    { intros a Ha. rewrite Hout2 by by rewrite elem_of_rev_fst. by apply Hout. }
    exists h1, l1. split; [done|]. split; [done|].
    split; [apply dll_traverse_spec; [apply Hrep|done]|].
    split.
    { rewrite <- snd_rev. apply dll_traverse_spec; [apply Hrep1|].
      by rewrite length_rev. }
    split; [done|]. split; [done|]. split; [done|].
    intros Hle. apply Hshort. by eapply dll_size_short.
Qed.

End ReverseClaim.

Ltac chain_by_lookup :=
  unfold Heap.chain; simpl Heap.lseg;
  repeat (split; [reflexivity|]; eexists; split; [vm_compute; reflexivity|];
          split; [reflexivity|]);
  reflexivity.

Lemma dll_three_built :
  ListExamples.dll_three =
  Cxx.Ok (ListExamples.dll_three_heap, ListExamples.dll_three_list).
Proof. vm_compute. reflexivity. Qed.

Lemma dll_three_represents :
  DoublyLinkedList.represents ListExamples.dll_three_heap
    ListExamples.dll_three_list ListExamples.three_nodes.
Proof. split; [chain_by_lookup|]. split; [chain_by_lookup|reflexivity]. Qed.

Lemma sll_three_built :
  ListExamples.sll_three =
  Cxx.Ok (ListExamples.sll_three_heap, ListExamples.sll_three_list).
Proof. vm_compute. reflexivity. Qed.

Lemma sll_three_represents :
  SinglyLinkedList.represents ListExamples.sll_three_heap
    ListExamples.sll_three_list ListExamples.three_nodes.
Proof. split; [chain_by_lookup|]. split; reflexivity. Qed.

Lemma reverse_twice_witness :
  (exists h1 l1,
     SinglyLinkedList.reverse 4 ListExamples.sll_three_heap
       ListExamples.sll_three_list = Cxx.Ok (h1, l1) /\
     SinglyLinkedList.traverse 4 h1 (SinglyLinkedList.head_ l1) =
       Cxx.Ok [3; 2; 1]%Z /\
     SinglyLinkedList.reverse 4 h1 l1 =
       Cxx.Ok (ListExamples.sll_three_heap, ListExamples.sll_three_list)) /\
  (exists h1 l1,
     DoublyLinkedList.reverse 4 ListExamples.dll_three_heap
       ListExamples.dll_three_list = Cxx.Ok (h1, l1) /\
     DoublyLinkedList.traverse 4 h1 (DoublyLinkedList.head_ l1) =
       Cxx.Ok [3; 2; 1]%Z /\
     DoublyLinkedList.reverse 4 h1 l1 =
       Cxx.Ok (ListExamples.dll_three_heap, ListExamples.dll_three_list)).
Proof.
  split.
  - destruct (proj1 (@reverse_twice Z) _ _ _ 4 sll_three_represents)
      as (h1 & l1 & H1 & _ & _ & H2 & _ & _ & H3 & _); [simpl; lia|].
    exists h1, l1. split; [exact H1|]. split; [exact H2|exact H3].
  - destruct (proj2 (@reverse_twice Z) _ _ _ 4 dll_three_represents)
      as (h1 & l1 & H1 & _ & _ & H2 & _ & _ & H3 & _); [simpl; lia|].
    exists h1, l1. split; [exact H1|]. split; [exact H2|exact H3].
Defined.

(** ** Doubly linked list: merge sort *)

Section DoublyMergeSort.

Import Cxx Heap DoublyLinkedList ListSpec.

Context {T : Type}.

Variable le : T -> T -> bool.

Implicit Types (h : gmap addr (Node T)) (p q : ptr) (xs ys : list (addr * T)).

Lemma find_middle_spec fuel : forall h s ds S' fast F k,
  chain data next h (Some s) ((s, ds) :: S') -> S' ≠ [] ->
  chain data next h fast F -> F = drop k S' -> length F < fuel ->
  exists s' d' l1 l2,
    find_middle fuel h (Some s) fast = Ok (Some s') /\
    (s, ds) :: S' = l1 ++ (s', d') :: l2 /\ l2 ≠ [].
Proof.
  induction fuel as [|fuel IH]; intros h s ds S' fast F k Hs HS Hf HF Hfuel; [lia|].
  destruct F as [|[f df] F].
  - unfold chain in Hf. simpl in Hf. subst fast.
    exists s, ds, [], S'. by repeat split.
  - destruct Hf as (-> & nf & Hnf & _ & Hf). simpl in Hnf.
    cbn [find_middle fst]. rewrite (get_Some h f nf Hnf). cbn [bind].
    destruct F as [|[g dg] F].
    { simpl in Hf. rewrite Hf. exists s, ds, [], S'. by repeat split. }
    destruct Hf as (Hg & ng & Hng & _ & Hf). simpl in Hng, Hg.
    rewrite Hg. destruct Hs as (_ & ns & Hns & Hds & Hs). simpl in Hns, Hds.
    rewrite (get_Some h s ns Hns), (get_Some h g ng Hng). cbn [bind].
    destruct S' as [|[s2 d2] S'']; [done|].
    pose proof Hs as (Hs2 & _). simpl in Hs2. rewrite Hs2 in Hs |- *.
    assert (length ((f, df) :: (g, dg) :: F) = length (drop k ((s2, d2) :: S'')))
      as Hlen by by rewrite HF.
    rewrite length_drop in Hlen. simpl in Hlen.
    destruct (IH h s2 d2 S'' (next ng) F (S k)) as (s' & d' & l1 & l2 & Hrun & Heq & Hl2).
    + exact Hs.
    + intros ->. simpl in Hlen. lia.
    + exact Hf.
    + change F with (drop 2 ((f, df) :: (g, dg) :: F)).
      rewrite HF, drop_drop. by replace (k + 2) with (S (S k)) by lia.
    + simpl in Hfuel. lia.
    + exists s', d', ((s, ds) :: l1), l2. rewrite Hrun, Heq. by repeat split.
Qed.

Lemma walk_to_last_spec xs : forall h a d fuel,
  chain data next h (Some a) ((a, d) :: xs) -> length xs < fuel ->
  exists t, walk_to_last fuel h (Some a) = Ok t.
Proof.
  induction xs as [|[b db] xs IH]; intros h a d fuel Hc Hfuel;
    (destruct fuel as [|fuel]; [simpl in Hfuel; lia|]);
    destruct Hc as (_ & n & Hn & _ & Hc); simpl in Hn;
    cbn [walk_to_last]; rewrite (get_Some h a n Hn); cbn [bind].
  - simpl in Hc. rewrite Hc. eauto.
  - pose proof Hc as (Hb & _). simpl in Hb. rewrite Hb in Hc |- *.
    apply (IH h b db); [done|simpl in Hfuel; lia].
Qed.

Lemma chain_insert_other h p xs a n :
  chain data next h p xs -> a ∉ xs.*1 -> chain data next (<[a:=n]> h) p xs.
Proof.
  intros Hc Ha. eapply lseg_frame; [exact Hc|].
  intros b Hb. apply lookup_insert_ne. by intros <-.
Qed.

Lemma chain_insert_prev h p xs a n q :
  chain data next h p xs -> h !! a = Some n ->
  chain data next (<[a:=MkNode (data n) q (next n)]> h) p xs.
Proof.
  intros Hc Hn. eapply lseg_transfer; [exact Hc|].
  intros b m Hb Hm. destruct (decide (a = b)) as [->|Hne].
  - rewrite lookup_insert_eq. eexists. split; [done|]. by simplify_eq.
  - rewrite lookup_insert_ne by done. eauto.
Qed.

(** Linking what remains of a chain behind the node [t]. *)
Lemma append_remaining_spec h b db xs t nt fuel :
  chain data next h (Some b) ((b, db) :: xs) ->
  t ∉ ((b, db) :: xs).*1 -> h !! t = Some nt -> length ((b, db) :: xs) < fuel ->
  exists h' tl,
    append_remaining fuel h (Some b) (Some t) = Ok (h', tl) /\
    h' !! t = Some (MkNode (data nt) (prev nt) (Some b)) /\
    chain data next h' (Some b) ((b, db) :: xs) /\
    (forall a, a ≠ t -> a ∉ ((b, db) :: xs).*1 -> h' !! a = h !! a).
Proof.
  intros Hc Ht Hnt Hfuel. rewrite fmap_cons in Ht.
  apply not_elem_of_cons in Ht as [Htb Ht]. simpl in Htb.
  pose proof Hc as (_ & nb & Hnb & Hdb & _). simpl in Hnb, Hdb.
  unfold append_remaining.
  rewrite (set_next_Some h t nt _ Hnt). cbn [bind].
  assert (<[t:=MkNode (data nt) (prev nt) (Some b)]> h !! b = Some nb) as Hnb1
    by by rewrite lookup_insert_ne.
  rewrite (set_prev_Some _ b nb _ Hnb1). cbn [bind].
  set (h2 := <[b:=MkNode (data nb) (Some t) (next nb)]>
               (<[t:=MkNode (data nt) (prev nt) (Some b)]> h)).
  assert (chain data next h2 (Some b) ((b, db) :: xs)) as Hc2.
  { apply chain_insert_prev; [|done]. apply chain_insert_other; [done|].
    rewrite fmap_cons. apply not_elem_of_cons. done. }
  assert (h2 !! t = Some (MkNode (data nt) (prev nt) (Some b))) as Ht2.
  { unfold h2. rewrite lookup_insert_ne by done. by rewrite lookup_insert_eq. }
  destruct (walk_to_last_spec ((b, db) :: xs) h2 t (data nt) fuel) as (tl & ->).
  { split; [done|]. eexists. split; [exact Ht2|]. split; [done|]. exact Hc2. }
  { done. }
  cbn [bind]. exists h2, tl. split; [done|]. split; [done|]. split; [done|].
  intros a Hat Ha. rewrite fmap_cons in Ha. apply not_elem_of_cons in Ha as [Hab _].
  unfold h2. simpl in Hab. by rewrite !lookup_insert_ne.
Qed.

Lemma append_remaining_None fuel h tl :
  append_remaining fuel h None tl = Ok (h, tl).
Proof. done. Qed.

(** The merge loop followed by the two appending blocks, entered with a
    non-empty result whose last node is [t]: the nodes of the two chains
    end up behind [t] in the order of the functional merge. *)
Lemma merge_loop_spec n : forall xs ys h first second r t nt f1 f2,
  length xs + length ys = n ->
  chain data next h first xs -> chain data next h second ys ->
  xs ≠ [] \/ ys ≠ [] ->
  (forall a, a ∈ xs.*1 -> a ∉ ys.*1) ->
  t ∉ xs.*1 -> t ∉ ys.*1 -> h !! t = Some nt ->
  n < f1 -> n < f2 ->
  exists h' tl p,
    (do '(h, (first, second, result, tail)) <-
       merge_loop le f1 h first second (Some r) (Some t);
     do '(h, tail) <- append_remaining f2 h first tail;
     do '(h, tail) <- append_remaining f2 h second tail;
     Ok (h, (result, tail))) = Ok (h', (Some r, tl)) /\
    h' !! t = Some (MkNode (data nt) (prev nt) p) /\
    chain data next h' p (list_merge (node_le le) xs ys) /\
    (forall a, a ≠ t -> a ∉ xs.*1 -> a ∉ ys.*1 -> h' !! a = h !! a).
Proof.
  induction n as [|n IH];
    intros xs ys h first second r t nt f1 f2 Hn Hx Hy Hne Hdisj Htx Hty Hnt Hf1 Hf2.
  { destruct xs, ys; simpl in Hn; try lia. by destruct Hne. }
  destruct f1 as [|f1]; [lia|].
  destruct xs as [|[a da] xs].
  - (* the first chain is exhausted *)
    destruct ys as [|[b db] ys]; [by destruct Hne|].
    unfold chain in Hx. simpl in Hx. subst first.
    pose proof Hy as (-> & _). cbn [merge_loop bind fst].
    rewrite append_remaining_None. cbn [bind].
    destruct (append_remaining_spec h b db ys t nt f2 Hy Hty Hnt)
      as (h' & tl & -> & Ht' & Hc' & Hout); [simpl in *; lia|].
    cbn [bind]. exists h', tl, (Some b). split; [done|]. split; [done|].
    split; [by rewrite list_merge_nil_l|]. intros c Hct _ Hc. by apply Hout.
  - pose proof Hx as (-> & na & Hna & Hda & Hx'). simpl in Hna, Hda.
    cbn [fst] in Hx'.
    destruct ys as [|[b db] ys].
    + (* the second chain is exhausted *)
      unfold chain in Hy. simpl in Hy. subst second.
      cbn [merge_loop bind fst].
      destruct (append_remaining_spec h a da xs t nt f2 Hx Htx Hnt)
        as (h' & tl & -> & Ht' & Hc' & Hout); [simpl in *; lia|].
      cbn [bind]. rewrite append_remaining_None. cbn [bind].
      exists h', tl, (Some a).
      split; [done|]. split; [done|].
      split; [by rewrite list_merge_nil_r|]. intros c Hct Hc _. by apply Hout.
    + pose proof Hy as (-> & nb & Hnb & Hdb & Hy'). simpl in Hnb, Hdb.
      cbn [fst] in Hy'.
      pose proof (chain_NoDup _ _ _ _ _ Hx) as Hndx.
      pose proof (chain_NoDup _ _ _ _ _ Hy) as Hndy.
      rewrite fmap_cons in Hndx, Hndy, Htx, Hty.
      apply NoDup_cons in Hndx as [Hax Hndx]. apply NoDup_cons in Hndy as [Hby Hndy].
      apply not_elem_of_cons in Htx as [Hta Htx].
      apply not_elem_of_cons in Hty as [Htb Hty]. simpl in Hax, Hby, Hta, Htb.
      assert (a ∉ ((b, db) :: ys).*1) as Hay.
      { apply Hdisj. rewrite fmap_cons. apply elem_of_cons. by left. }
      assert (b ∉ ((a, da) :: xs).*1) as Hbx.
      { intros Hb. apply (Hdisj b Hb). rewrite fmap_cons. apply elem_of_cons. by left. }
      rewrite fmap_cons in Hay, Hbx.
      apply not_elem_of_cons in Hay as [Hab Hay].
      apply not_elem_of_cons in Hbx as [_ Hbx]. simpl in Hab.
      cbn [merge_loop fst].
      rewrite (get_Some h a na Hna), (get_Some h b nb Hnb). cbn [bind].
      rewrite Hda, Hdb. rewrite list_merge_cons.
      unfold decide_rel, node_le_dec, node_le. cbn [snd].
      destruct (le da db) eqn:Hle.
      * (* the head of the first chain is taken *)
        destruct (decide (true = true)) as [_|]; [|done].
        rewrite (set_next_Some h t nt _ Hnt). cbn [bind].
        assert (<[t:=MkNode (data nt) (prev nt) (Some a)]> h !! a = Some na) as Hna1
          by by rewrite lookup_insert_ne.
        rewrite (set_prev_Some _ a na _ Hna1). cbn [bind].
        set (h2 := <[a:=MkNode (data na) (Some t) (next na)]>
                     (<[t:=MkNode (data nt) (prev nt) (Some a)]> h)).
        destruct (IH xs ((b, db) :: ys) h2 (next na) (Some b) r a
                    (MkNode (data na) (Some t) (next na)) f1 f2)
          as (h' & tl & p & Hrun & Ha' & Hc' & Hout).
        { simpl in Hn |- *. lia. }
        { apply chain_insert_other; [|done]. by apply chain_insert_other. }
        { apply chain_insert_other; [apply chain_insert_other; [done|]|];
            rewrite fmap_cons; apply not_elem_of_cons; done. }
        { by right. }
        { intros c Hc. apply Hdisj. rewrite fmap_cons. apply elem_of_cons. by right. }
        { done. }
        { rewrite fmap_cons. by apply not_elem_of_cons. }
        { unfold h2. by rewrite lookup_insert_eq. }
        { lia. }
        { lia. }
        exists h', tl, (Some a). split; [exact Hrun|]. split; [|split].
        -- rewrite Hout; [|done|done|rewrite fmap_cons; by apply not_elem_of_cons].
           unfold h2. rewrite lookup_insert_ne by done. by rewrite lookup_insert_eq.
        -- split; [done|]. eexists. split; [exact Ha'|]. split; [done|exact Hc'].
        -- intros c Hct Hcx Hcy. rewrite fmap_cons in Hcx.
           apply not_elem_of_cons in Hcx as [Hca Hcx]. simpl in Hca.
           rewrite Hout by done. unfold h2. by rewrite !lookup_insert_ne.
      * (* the head of the second chain is taken *)
        destruct (decide (false = true)) as [|_]; [done|].
        rewrite (set_next_Some h t nt _ Hnt). cbn [bind].
        assert (<[t:=MkNode (data nt) (prev nt) (Some b)]> h !! b = Some nb) as Hnb1
          by by rewrite lookup_insert_ne.
        rewrite (set_prev_Some _ b nb _ Hnb1). cbn [bind].
        set (h2 := <[b:=MkNode (data nb) (Some t) (next nb)]>
                     (<[t:=MkNode (data nt) (prev nt) (Some b)]> h)).
        destruct (IH ((a, da) :: xs) ys h2 (Some a) (next nb) r b
                    (MkNode (data nb) (Some t) (next nb)) f1 f2)
          as (h' & tl & p & Hrun & Hb' & Hc' & Hout).
        { simpl in Hn |- *. lia. }
        { apply chain_insert_other; [apply chain_insert_other; [done|]|];
            rewrite fmap_cons; apply not_elem_of_cons; done. }
        { apply chain_insert_other; [|done]. by apply chain_insert_other. }
        { by left. }
        { intros c Hc Hcy. apply (Hdisj c Hc). rewrite fmap_cons.
          apply elem_of_cons. by right. }
        { rewrite fmap_cons. by apply not_elem_of_cons. }
        { done. }
        { unfold h2. by rewrite lookup_insert_eq. }
        { lia. }
        { lia. }
        exists h', tl, (Some b). split; [exact Hrun|]. split; [|split].
        -- rewrite Hout; [|done|rewrite fmap_cons; by apply not_elem_of_cons|done].
           unfold h2. rewrite lookup_insert_ne by done. by rewrite lookup_insert_eq.
        -- split; [done|]. eexists. split; [exact Hb'|]. split; [done|exact Hc'].
        -- intros c Hct Hcx Hcy. rewrite fmap_cons in Hcy.
           apply not_elem_of_cons in Hcy as [Hcb Hcy]. simpl in Hcb.
           rewrite Hout by done. unfold h2. by rewrite !lookup_insert_ne.
Qed.

(** [merge_sorted_lists] on two non-empty chains without a common node. *)
Lemma merge_sorted_lists_spec xs ys h first second fuel :
  chain data next h first xs -> chain data next h second ys ->
  xs ≠ [] -> ys ≠ [] ->
  (forall a, a ∈ xs.*1 -> a ∉ ys.*1) ->
  length xs + length ys < fuel ->
  exists h' r tl nr,
    merge_sorted_lists le fuel h first second = Ok (h', (Some r, tl)) /\
    chain data next h' (Some r) (list_merge (node_le le) xs ys) /\
    h' !! r = Some nr /\ prev nr = None /\
    (forall a, a ∉ xs.*1 -> a ∉ ys.*1 -> h' !! a = h !! a).
Proof.
  intros Hx Hy Hxne Hyne Hdisj Hfuel.
  destruct xs as [|[a da] xs]; [done|]. destruct ys as [|[b db] ys]; [done|].
  destruct fuel as [|fuel]; [lia|].
  pose proof Hx as (-> & na & Hna & Hda & Hx'). simpl in Hna, Hda.
  pose proof Hy as (-> & nb & Hnb & Hdb & Hy'). simpl in Hnb, Hdb.
  cbn [fst] in Hx', Hy'.
  pose proof (chain_NoDup _ _ _ _ _ Hx) as Hndx.
  pose proof (chain_NoDup _ _ _ _ _ Hy) as Hndy.
  rewrite fmap_cons in Hndx, Hndy.
  apply NoDup_cons in Hndx as [Hax Hndx]. apply NoDup_cons in Hndy as [Hby Hndy].
  simpl in Hax, Hby.
  assert (a ∉ ((b, db) :: ys).*1) as Hay.
  { apply Hdisj. rewrite fmap_cons. apply elem_of_cons. by left. }
  assert (b ∉ ((a, da) :: xs).*1) as Hbx.
  { intros Hb. apply (Hdisj b Hb). rewrite fmap_cons. apply elem_of_cons. by left. }
  rewrite fmap_cons in Hay, Hbx.
  apply not_elem_of_cons in Hay as [Hab Hay].
  apply not_elem_of_cons in Hbx as [_ Hbx]. simpl in Hab.
  unfold merge_sorted_lists. cbn [merge_loop fst].
  rewrite (get_Some h a na Hna), (get_Some h b nb Hnb). cbn [bind].
  rewrite Hda, Hdb. rewrite list_merge_cons.
  unfold decide_rel, node_le_dec, node_le. cbn [snd].
  destruct (le da db) eqn:Hle.
  - destruct (decide (true = true)) as [_|]; [|done].
    rewrite (set_prev_Some h a na _ Hna). cbn [bind].
    set (h1 := <[a:=MkNode (data na) None (next na)]> h).
    destruct (merge_loop_spec (length xs + length ((b, db) :: ys))
                xs ((b, db) :: ys) h1 (next na) (Some b) a a
                (MkNode (data na) None (next na)) fuel (S fuel))
      as (h' & tl & p & Hrun & Ha' & Hc' & Hout).
    { done. }
    { by apply chain_insert_other. }
    { apply chain_insert_other; [done|]. rewrite fmap_cons.
      by apply not_elem_of_cons. }
    { by right. }
    { intros c Hc. apply Hdisj. rewrite fmap_cons. apply elem_of_cons. by right. }
    { done. }
    { rewrite fmap_cons. by apply not_elem_of_cons. }
    { unfold h1. by rewrite lookup_insert_eq. }
    { simpl in Hfuel |- *. lia. }
    { simpl in Hfuel |- *. lia. }
    rewrite Hrun. eexists h', a, tl, _. split; [done|]. split; [|split; [exact Ha'|]].
    + split; [done|]. eexists. split; [exact Ha'|]. split; [done|exact Hc'].
    + split; [done|]. intros c Hcx Hcy. rewrite fmap_cons in Hcx.
      apply not_elem_of_cons in Hcx as [Hca Hcx]. simpl in Hca.
      rewrite Hout by done. unfold h1. by rewrite lookup_insert_ne.
  - destruct (decide (false = true)) as [|_]; [done|].
    rewrite (set_prev_Some h b nb _ Hnb). cbn [bind].
    set (h1 := <[b:=MkNode (data nb) None (next nb)]> h).
    destruct (merge_loop_spec (length ((a, da) :: xs) + length ys)
                ((a, da) :: xs) ys h1 (Some a) (next nb) b b
                (MkNode (data nb) None (next nb)) fuel (S fuel))
      as (h' & tl & p & Hrun & Hb' & Hc' & Hout).
    { done. }
    { apply chain_insert_other; [done|]. rewrite fmap_cons.
      by apply not_elem_of_cons. }
    { by apply chain_insert_other. }
    { by left. }
    { intros c Hc Hcy. apply (Hdisj c Hc). rewrite fmap_cons.
      apply elem_of_cons. by right. }
    { rewrite fmap_cons. by apply not_elem_of_cons. }
    { done. }
    { unfold h1. by rewrite lookup_insert_eq. }
    { simpl in Hfuel |- *. lia. }
    { simpl in Hfuel |- *. lia. }
    rewrite Hrun. eexists h', b, tl, _. split; [done|]. split; [|split; [exact Hb'|]].
    + split; [done|]. eexists. split; [exact Hb'|]. split; [done|exact Hc'].
    + split; [done|]. intros c Hcx Hcy. rewrite fmap_cons in Hcy.
      apply not_elem_of_cons in Hcy as [Hcb Hcy]. simpl in Hcb.
      rewrite Hout by done. unfold h1. by rewrite lookup_insert_ne.
Qed.

Lemma chain_prev_insert_other h p xs a n :
  chain data prev h p xs -> a ∉ xs.*1 -> chain data prev (<[a:=n]> h) p xs.
Proof.
  intros Hc Ha. eapply lseg_frame; [exact Hc|].
  intros b Hb. apply lookup_insert_ne. by intros <-.
Qed.

(** The last loop of [sort]: every node behind [a] gets its predecessor
    in the chain as [prev]. *)
Lemma relink_prev_spec xs : forall h a d before fuel,
  chain data next h (Some a) ((a, d) :: xs) ->
  chain data prev h (Some a) ((a, d) :: before) ->
  (forall c, c ∈ xs.*1 -> c ∉ before.*1) ->
  length xs < fuel ->
  exists h' tl,
    relink_prev fuel h (Some a) = Ok (h', tl) /\
    chain data next h' (Some a) ((a, d) :: xs) /\
    chain data prev h' tl (rev xs ++ (a, d) :: before) /\
    (forall c, c ∉ xs.*1 -> h' !! c = h !! c).
Proof.
  induction xs as [|[b db] xs IH]; intros h a d before fuel Hn Hp Hdisj Hfuel;
    (destruct fuel as [|fuel]; [simpl in Hfuel; lia|]);
    pose proof Hn as (_ & na & Hna & Hda & Hn'); simpl in Hna, Hda;
    cbn [relink_prev]; rewrite (get_Some h a na Hna); cbn [bind].
  - simpl in Hn'. rewrite Hn'. exists h, (Some a).
    split; [done|]. split; [done|]. split; [exact Hp|done].
  - pose proof (chain_NoDup _ _ _ _ _ Hn) as Hnd.
    rewrite !fmap_cons in Hnd. apply NoDup_cons in Hnd as [Ha Hnd].
    apply not_elem_of_cons in Ha as [Hab Ha]. simpl in Hab, Ha.
    apply NoDup_cons in Hnd as [Hb Hnd]. simpl in Hb.
    pose proof Hn' as (Hnb & nb & Hb' & Hdb & Hn''). simpl in Hnb, Hb', Hdb.
    cbn [fst] in Hn''. rewrite Hnb in Hn' |- *.
    rewrite (set_prev_Some h b nb _ Hb'). cbn [bind].
    set (h1 := <[b:=MkNode (data nb) (Some a) (next nb)]> h).
    destruct (IH h1 b db ((a, d) :: before) fuel) as (h' & tl & Hrun & Hn1 & Hp1 & Hout).
    { apply chain_insert_prev; [|done]. done. }
    { split; [done|]. eexists. unfold h1. rewrite lookup_insert_eq.
      split; [done|]. split; [done|]. cbn [prev].
      apply chain_prev_insert_other; [done|].
      rewrite fmap_cons. apply not_elem_of_cons. split; [by intros ->|].
      apply Hdisj. rewrite fmap_cons. apply elem_of_cons. by left. }
    { intros c Hc. rewrite fmap_cons. apply not_elem_of_cons. split.
      - by intros ->.
      - apply Hdisj. rewrite fmap_cons. apply elem_of_cons. by right. }
    { simpl in Hfuel. lia. }
    exists h', tl. split; [exact Hrun|]. split; [|split].
    + split; [done|]. exists na. split; [|split; [done|]].
      * rewrite Hout by done. unfold h1. by rewrite lookup_insert_ne.
      * by rewrite Hnb.
    + simpl. by rewrite <- app_assoc.
    + intros c Hc. rewrite fmap_cons in Hc.
      apply not_elem_of_cons in Hc as [Hcb Hc]. simpl in Hcb.
      rewrite Hout by done. unfold h1. by rewrite lookup_insert_ne.
Qed.

End DoublyMergeSort.

(** ** Stable merging *)

Section StableMerge.

Import Heap ListSpec.

Context {T : Type}.

Variable le : T -> T -> bool.

Hypothesis le_total : forall x y, le x y = true \/ le y x = true.
Hypothesis le_trans : forall x y z, le x y = true -> le y z = true -> le x z = true.

Implicit Types (xs ys : list (addr * T)).

#[local] Instance node_le_total : Total (node_le le).
Proof using le_total. intros x y. apply le_total. Qed.

#[local] Instance node_le_trans : Transitive (node_le le).
Proof using le_trans. intros x y z. apply le_trans. Qed.

(** Nothing of a sorted list compares equal to [x] when [x] compares
    equal to something strictly below the head of the list. *)
Lemma filter_equivalent_above x a b xs :
  StronglySorted (node_le le) (a :: xs) -> ~ node_le le a b ->
  equivalent le x b -> filter (equivalent le x) (a :: xs) = [].
Proof using le_trans.
  intros Hs Hab [Hxb Hbx]. apply StronglySorted_inv in Hs as [_ Hall].
  assert (Forall (fun y => ~ equivalent le x y) (a :: xs)) as Hno.
  { constructor.
    - intros [Hxa Hax]. apply Hab. by transitivity x.
    - eapply Forall_impl; [exact Hall|]. intros y Hay [Hxy Hyx].
      apply Hab. transitivity y; [done|]. by transitivity x. }
  clear Hall. induction Hno as [|y l Hy Hl IH]; [done|].
  rewrite filter_cons_False by done. done.
Qed.

(** Merging two sorted lists keeps, among the nodes that compare equal,
    those of the first list before those of the second. *)
Lemma list_merge_stable x xs : forall ys,
  StronglySorted (node_le le) xs -> StronglySorted (node_le le) ys ->
  filter (equivalent le x) (list_merge (node_le le) xs ys) =
  filter (equivalent le x) xs ++ filter (equivalent le x) ys.
Proof using le_trans.
  induction xs as [|a xs IHx]; intros ys Hx Hy.
  - by rewrite list_merge_nil_l.
  - induction ys as [|b ys IHy].
    + by rewrite list_merge_nil_r, app_nil_r.
    + rewrite list_merge_cons. case_decide as Hab.
      * rewrite !(filter_cons _ a).
        rewrite IHx; [|by apply StronglySorted_inv in Hx as [? _]|done].
        by destruct (decide (equivalent le x a)).
      * rewrite !(filter_cons _ b).
        rewrite IHy by by apply StronglySorted_inv in Hy as [? _].
        destruct (decide (equivalent le x b)) as [Hb|Hb]; [|done].
        by rewrite (filter_equivalent_above x a b xs Hx Hab Hb).
Qed.

Lemma sorted_from_short xs : length xs <= 1 -> sorted_from le xs xs.
Proof.
  intros Hlen. split; [done|]. split; [|done].
  destruct xs as [|x [|y xs]]; [constructor|repeat constructor|simpl in Hlen; lia].
Qed.

Lemma sorted_from_merge xs1 xs2 ys1 ys2 :
  sorted_from le xs1 ys1 -> sorted_from le xs2 ys2 ->
  sorted_from le (xs1 ++ xs2) (list_merge (node_le le) ys1 ys2).
Proof using le_total le_trans.
  intros (Hp1 & Hs1 & Hst1) (Hp2 & Hs2 & Hst2). split; [|split].
  - by rewrite merge_Permutation, Hp1, Hp2.
  - apply Sorted_StronglySorted; [apply _|].
    apply Sorted_list_merge; [apply _| |]; by apply StronglySorted_Sorted.
  - intros x. rewrite list_merge_stable by done.
    by rewrite Hst1, Hst2, filter_app.
Qed.

End StableMerge.

Section DoublySort.

Import Cxx Heap DoublyLinkedList ListSpec.

Context {T : Type}.

Variable le : T -> T -> bool.

Hypothesis le_total : forall x y, le x y = true \/ le y x = true.
Hypothesis le_trans : forall x y z, le x y = true -> le y z = true -> le x z = true.

Implicit Types (h : gmap addr (Node T)) (p q : ptr) (xs ys : list (addr * T)).

Lemma sorted_from_fst xs ys a :
  sorted_from le xs ys -> a ∈ ys.*1 <-> a ∈ xs.*1.
Proof. intros (Hp & _). by rewrite Hp. Qed.

Lemma sorted_from_length xs ys : sorted_from le xs ys -> length ys = length xs.
Proof. intros (Hp & _). by rewrite Hp. Qed.

(** [merge_sort] on a chain: it returns the head of a chain of the same
    nodes, stably sorted; the first node of a chain of two nodes or more
    has a null [prev]; nodes outside the chain are not written. *)
Lemma merge_sort_spec n : forall xs h head fuel,
  length xs <= n ->
  chain data next h head xs -> 2 * length xs < fuel ->
  exists h' head' ys,
    merge_sort le fuel h head = Ok (h', head') /\
    chain data next h' head' ys /\
    sorted_from le xs ys /\
    (forall a, a ∉ xs.*1 -> h' !! a = h !! a) /\
    (2 <= length xs ->
     exists r nr, head' = Some r /\ h' !! r = Some nr /\ prev nr = None).
Proof using le_total le_trans.
  induction n as [|n IH]; intros xs h head fuel Hlen Hc Hfuel.
  { destruct xs; [|simpl in Hlen; lia]. destruct fuel; [simpl in Hfuel; lia|].
    unfold chain in Hc. simpl in Hc. subst head.
    exists h, None, []. split; [done|]. split; [done|].
    split; [apply sorted_from_short; simpl; lia|]. split; [done|]. simpl. lia. }
  destruct fuel as [|fuel]; [lia|].
  destruct xs as [|[a d] xs].
  { unfold chain in Hc. simpl in Hc. subst head.
    exists h, None, []. split; [done|]. split; [done|].
    split; [apply sorted_from_short; simpl; lia|]. split; [done|]. simpl. lia. }
  pose proof Hc as (-> & na & Hna & Hda & Hc'). simpl in Hna, Hda.
  cbn [fst] in Hc'. cbn [merge_sort fst]. rewrite (get_Some h a na Hna). cbn [bind].
  destruct xs as [|[b db] xs].
  { simpl in Hc'. rewrite Hc'. exists h, (Some a), [(a, d)].
    split; [done|]. split; [done|].
    split; [apply sorted_from_short; simpl; lia|]. split; [done|]. simpl. lia. }
  pose proof Hc' as (Hnb & _). simpl in Hnb. rewrite Hnb.
  rewrite Hnb in Hc'.
  (* the split *)
  destruct (find_middle_spec fuel h a d ((b, db) :: xs) (Some b) ((b, db) :: xs) 0)
    as (s & ds & l1 & l2 & -> & Hsplit & Hl2); [done|done|done|done| |].
  { simpl in Hfuel |- *. lia. }
  cbn [bind]. rewrite Hsplit in Hc, Hlen, Hfuel |- *.
  pose proof (chain_NoDup _ _ _ _ _ Hc) as Hnd.
  rewrite fmap_app, fmap_cons in Hnd.
  apply NoDup_app in Hnd as (Hnd1 & Hd1 & Hnd2).
  apply NoDup_cons in Hnd2 as [Hs2 Hnd2]. simpl in Hs2.
  assert (s ∉ l1.*1) as Hs1.
  { intros Hin. apply (Hd1 s Hin). apply elem_of_cons. by left. }
  apply lseg_app in Hc as (r & Hseg1 & Hseg2).
  pose proof Hseg2 as (-> & ns & Hns & Hds & Hright). simpl in Hns, Hds.
  cbn [fst] in Hright.
  rewrite (get_Some h s ns Hns). cbn [bind].
  rewrite (set_next_Some h s ns _ Hns). cbn [bind].
  set (h1 := <[s:=MkNode (data ns) (prev ns) None]> h).
  assert (chain data next h1 (Some a) (l1 ++ [(s, ds)])) as Hleft1.
  { apply lseg_app. exists (Some s). split.
    - eapply lseg_frame; [exact Hseg1|]. intros c Hc1. unfold h1.
      apply lookup_insert_ne. by intros <-.
    - split; [done|]. eexists. unfold h1. rewrite lookup_insert_eq.
      split; [done|]. split; [done|]. done. }
  assert (chain data next h1 (next ns) l2) as Hright1.
  { by apply chain_insert_other. }
  rewrite !length_app in Hlen, Hfuel. simpl in Hlen, Hfuel.
  assert (0 < length l2) as Hl2pos by (destruct l2; [done|simpl; lia]).
  (* the left half *)
  destruct (IH (l1 ++ [(s, ds)]) h1 (Some a) fuel)
    as (h2 & left_sorted & ys1 & -> & Hc2 & Hsort1 & Hout2 & _);
    [rewrite length_app; simpl; lia|done|rewrite length_app; simpl; lia|].
  cbn [bind].
  assert (chain data next h2 (next ns) l2) as Hright2.
  { eapply lseg_frame; [exact Hright1|]. intros c Hc2'. apply Hout2.
    rewrite fmap_app. apply not_elem_of_app. split.
    - intros Hin. apply (Hd1 c Hin). apply elem_of_cons. by right.
    - simpl. apply not_elem_of_cons. split; [by intros ->|]. apply not_elem_of_nil. }
  (* the right half *)
  destruct (IH l2 h2 (next ns) fuel)
    as (h3 & right_sorted & ys2 & -> & Hc3 & Hsort2 & Hout3 & _); [lia|done|lia|].
  cbn [bind].
  assert (forall c, c ∈ ys1.*1 -> c ∉ ys2.*1) as Hdisj.
  { intros c Hc1 Hc2'. rewrite (sorted_from_fst _ _ _ Hsort1) in Hc1.
    rewrite (sorted_from_fst _ _ _ Hsort2) in Hc2'.
    rewrite fmap_app in Hc1. apply elem_of_app in Hc1 as [Hc1|Hc1].
    - apply (Hd1 c Hc1). apply elem_of_cons. by right.
    - simpl in Hc1. apply elem_of_cons in Hc1 as [->|Hc1]; [done|].
      by apply elem_of_nil in Hc1. }
  assert (chain data next h3 left_sorted ys1) as Hleft3.
  { eapply lseg_frame; [exact Hc2|]. intros c Hc1. apply Hout3.
    intros Hc2'. apply (Hdisj c Hc1). by rewrite (sorted_from_fst _ _ _ Hsort2). }
  pose proof (sorted_from_length _ _ Hsort1) as Hlen1.
  pose proof (sorted_from_length _ _ Hsort2) as Hlen2.
  rewrite length_app in Hlen1. simpl in Hlen1.
  (* the merge *)
  destruct (merge_sorted_lists_spec le ys1 ys2 h3 left_sorted right_sorted fuel)
    as (h4 & res & tl & nr & -> & Hc4 & Hres & Hprev & Hout4);
    [done|done| | |done|lia|].
  { intros ->. simpl in Hlen1. lia. }
  { intros ->. simpl in Hlen2. lia. }
  cbn [bind fst].
  exists h4, (Some res), (list_merge (node_le le) ys1 ys2).
  split; [done|]. split; [done|]. split; [|split].
  - replace (l1 ++ (s, ds) :: l2) with ((l1 ++ [(s, ds)]) ++ l2)
      by by rewrite <- app_assoc.
    by apply sorted_from_merge.
  - intros c Hc4'. rewrite fmap_app, fmap_cons in Hc4'.
    apply not_elem_of_app in Hc4' as [Hcl1 Hcl2].
    apply not_elem_of_cons in Hcl2 as [Hcs Hcl2]. simpl in Hcs.
    rewrite Hout4, Hout3, Hout2.
    + unfold h1. by rewrite lookup_insert_ne.
    + rewrite fmap_app. apply not_elem_of_app. split; [done|].
      simpl. apply not_elem_of_cons. split; [done|apply not_elem_of_nil].
    + done.
    + rewrite (sorted_from_fst _ _ _ Hsort1).
      rewrite fmap_app. apply not_elem_of_app. split; [done|].
      simpl. apply not_elem_of_cons. split; [done|apply not_elem_of_nil].
    + by rewrite (sorted_from_fst _ _ _ Hsort2).
  - intros _. eauto.
Qed.

(** [sort()] on a well-formed list. *)
Lemma sort_spec h l xs fuel :
  represents h l xs -> 2 * length xs < fuel ->
  exists h' l' ys,
    sort le fuel h l = Ok (h', l') /\
    represents h' l' ys /\
    sorted_from le xs ys /\
    (forall a, a ∉ xs.*1 -> h' !! a = h !! a).
Proof using le_total le_trans.
  intros Hrep Hfuel. unfold sort. destruct (size_ l <=? 1)%Z eqn:Hsz.
  - exists h, l, xs. split; [done|]. split; [done|]. split; [|done].
    apply sorted_from_short. destruct Hrep as (_ & _ & Hs).
    apply Z.leb_le in Hsz. lia.
  - destruct Hrep as (Hn & Hp & Hs). apply Z.leb_gt in Hsz.
    destruct (merge_sort_spec (length xs) xs h (head_ l) fuel)
      as (h1 & head' & ys & -> & Hc1 & Hsort & Hout1 & Hhead); [done|done|done|].
    cbn [bind set_head head_].
    destruct Hhead as (r & nr & -> & Hr & Hprev); [lia|].
    destruct ys as [|[r' d0] ys]; [done|].
    pose proof Hc1 as (Hr' & nr' & Hnr' & Hd0 & _). simpl in Hr', Hnr', Hd0.
    injection Hr' as <-. rewrite Hr in Hnr'. injection Hnr' as <-. subst d0.
    destruct (relink_prev_spec ys h1 r (data nr) [] fuel)
      as (h2 & tl & -> & Hn2 & Hp2 & Hout2).
    { done. }
    { split; [done|]. exists nr. split; [done|]. split; [done|]. by rewrite Hprev. }
    { intros c _ Hc. by apply elem_of_nil in Hc. }
    { pose proof (sorted_from_length _ _ Hsort) as Hlen. simpl in Hlen. lia. }
    cbn [bind]. eexists h2, _, ((r, data nr) :: ys).
    split; [done|]. split; [|split; [done|]].
    + split; [done|]. split; [done|]. cbn [size_ set_tail set_head].
      rewrite Hs. by rewrite (sorted_from_length _ _ Hsort).
    + intros c Hc. rewrite Hout2, Hout1; [done|done|].
      intros Hin. apply Hc. apply (sorted_from_fst _ _ c Hsort).
      rewrite fmap_cons. apply elem_of_cons. by right.
Qed.

End DoublySort.

(** ** Singly linked list: merge sort

    The merge sort modelled for the singly linked list performs the same
    steps as the one of the doubly linked list, the writes to [prev]
    apart: a run of the latter gives a run of the former on the heap with
    the [prev] fields forgotten. *)

Ltac outcome_inv H :=
  repeat match type of H with
  | Cxx.bind ?m _ = Cxx.Ok _ =>
      let E := fresh "E" in
      destruct m eqn:E; cbn [Cxx.bind] in H; try discriminate H
  | (let (_, _) := ?p in _) = Cxx.Ok _ => is_var p; destruct p
  | _ => progress cbn beta iota in H
  end.

Section SinglySimulation.

Import Cxx Heap ListSpec.

Context {T : Type}.

Variable le : T -> T -> bool.

Implicit Types (h : gmap addr (DoublyLinkedList.Node T)) (p q : ptr).

#[local] Abbreviation forget := (fmap (M:=gmap addr) forget_prev).

Lemma sim_get h p n : DoublyLinkedList.get h p = Ok n -> SinglyLinkedList.get (forget h) p = Ok (forget_prev n).
Proof.
  unfold DoublyLinkedList.get, SinglyLinkedList.get. destruct p as [a|]; [|done].
  rewrite lookup_fmap. destruct (h !! a); [|done]. by intros [= ->].
Qed.

Lemma sim_set_next h p q h' :
  DoublyLinkedList.set_next h p q = Ok h' -> SinglyLinkedList.set_next (forget h) p q = Ok (forget h').
Proof.
  unfold DoublyLinkedList.set_next, SinglyLinkedList.set_next. intros H. outcome_inv H.
  rewrite (sim_get _ _ _ E). cbn [bind]. destruct p as [x|]; [|done].
  injection H as <-. by rewrite fmap_insert.
Qed.

Lemma sim_set_prev h p q h' : DoublyLinkedList.set_prev h p q = Ok h' -> forget h' = forget h.
Proof.
  unfold DoublyLinkedList.set_prev. intros H. outcome_inv H.
  destruct p as [x|]; [|done].
  injection H as <-. rewrite fmap_insert. apply insert_id.
  rewrite lookup_fmap. unfold DoublyLinkedList.get in E. destruct (h !! x); [|done].
  by injection E as ->.
Qed.

Lemma sim_find_middle fuel : forall h s f r,
  DoublyLinkedList.find_middle fuel h s f = Ok r -> SinglyLinkedList.find_middle fuel (forget h) s f = Ok r.
Proof.
  induction fuel as [|fuel IH]; intros h s f r H; [done|].
  cbn [DoublyLinkedList.find_middle] in H. cbn [SinglyLinkedList.find_middle].
  destruct f as [x|]; [|done]. outcome_inv H.
  rewrite (sim_get _ _ _ E). cbn [bind]. cbn [forget_prev SinglyLinkedList.next].
  destruct (DoublyLinkedList.next a) as [y|] eqn:Hy; [|done]. outcome_inv H.
  rewrite (sim_get _ _ _ E0), (sim_get _ _ _ E1). cbn [bind forget_prev SinglyLinkedList.next].
  by apply IH.
Qed.

Lemma sim_merge_loop fuel : forall h first second result tail h' st,
  DoublyLinkedList.merge_loop le fuel h first second result tail = Ok (h', st) ->
  SinglyLinkedList.merge_loop le fuel (forget h) first second result tail =
  Ok (forget h', st).
Proof.
  induction fuel as [|fuel IH]; intros h first second result tail h' st H; [done|].
  cbn [DoublyLinkedList.merge_loop] in H. cbn [SinglyLinkedList.merge_loop].
  destruct first as [x|], second as [y|]; try by injection H as <- <-.
  outcome_inv H.
  rewrite (sim_get _ _ _ E), (sim_get _ _ _ E0).
  cbn [bind forget_prev SinglyLinkedList.data SinglyLinkedList.next].
  destruct (le (DoublyLinkedList.data a) (DoublyLinkedList.data a0)).
  - destruct result as [r|]; outcome_inv H.
    + outcome_inv E1. injection E1 as <- <-.
      rewrite (sim_set_next _ _ _ _ E3). cbn [bind].
      rewrite <- (sim_set_prev _ _ _ _ E2). by apply IH.
    + injection E1 as <- <-.
      rewrite <- (sim_set_prev _ _ _ _ E2). by apply IH.
  - destruct result as [r|]; outcome_inv H.
    + outcome_inv E1. injection E1 as <- <-.
      rewrite (sim_set_next _ _ _ _ E3). cbn [bind].
      rewrite <- (sim_set_prev _ _ _ _ E2). by apply IH.
    + injection E1 as <- <-.
      rewrite <- (sim_set_prev _ _ _ _ E2). by apply IH.
Qed.

Lemma sim_append_remaining fuel h rest tail h' tl :
  DoublyLinkedList.append_remaining fuel h rest tail = Ok (h', tl) ->
  SinglyLinkedList.append_remaining (forget h) rest tail = Ok (forget h').
Proof.
  unfold DoublyLinkedList.append_remaining, SinglyLinkedList.append_remaining.
  destruct rest as [x|]; [|by intros [= <- <-]].
  intros H. outcome_inv H. injection H as <- <-.
  rewrite (sim_set_next _ _ _ _ E). by rewrite (sim_set_prev _ _ _ _ E0).
Qed.

(** When the merge loop stops one of the two chains is exhausted. *)
Lemma merge_loop_exhausts fuel : forall h first second result tail h' f s r t,
  DoublyLinkedList.merge_loop le fuel h first second result tail =
  Ok (h', (f, s, r, t)) ->
  f = None \/ s = None.
Proof.
  induction fuel as [|fuel IH]; intros h first second result tail h' f s r t H;
    [done|].
  cbn [DoublyLinkedList.merge_loop] in H.
  destruct first as [x|], second as [y|];
    try (injection H as <- <- <- <- <-; by eauto).
  outcome_inv H.
  destruct (le (DoublyLinkedList.data a) (DoublyLinkedList.data a0));
    outcome_inv H; eauto.
Qed.

Lemma sim_merge_sorted_lists fuel h first second h' r tl :
  DoublyLinkedList.merge_sorted_lists le fuel h first second = Ok (h', (r, tl)) ->
  SinglyLinkedList.merge_sorted_lists le fuel (forget h) first second =
  Ok (forget h', r).
Proof.
  unfold DoublyLinkedList.merge_sorted_lists, SinglyLinkedList.merge_sorted_lists.
  destruct first as [x|]; [|by intros [= <- <- <-]].
  destruct second as [y|]; [|by intros [= <- <- <-]].
  intros H. outcome_inv H. injection H as <- <- <-.
  rewrite (sim_merge_loop _ _ _ _ _ _ _ _ E). cbn [bind].
  rewrite (sim_append_remaining _ _ _ _ _ _ E0). cbn [bind].
  destruct (merge_loop_exhausts _ _ _ _ _ _ _ _ _ _ _ E) as [->| ->].
  - injection E0 as <- <-. by rewrite (sim_append_remaining _ _ _ _ _ _ E1).
  - by injection E1 as <- <-.
Qed.

Lemma sim_merge_sort fuel : forall h head h' r,
  DoublyLinkedList.merge_sort le fuel h head = Ok (h', r) ->
  SinglyLinkedList.merge_sort le fuel (forget h) head = Ok (forget h', r).
Proof.
  induction fuel as [|fuel IH]; intros h head h' r H; [done|].
  cbn [DoublyLinkedList.merge_sort] in H. cbn [SinglyLinkedList.merge_sort].
  destruct head as [x|]; [|by injection H as <- <-].
  outcome_inv H. rewrite (sim_get _ _ _ E).
  cbn [bind forget_prev SinglyLinkedList.next].
  destruct (DoublyLinkedList.next a) as [y|] eqn:Hy; [|by injection H as <- <-].
  outcome_inv H. injection H as <- <-. destruct p1 as [res tl].
  rewrite (sim_find_middle _ _ _ _ _ E0). cbn [bind].
  rewrite (sim_get _ _ _ E1). cbn [bind forget_prev SinglyLinkedList.next].
  rewrite (sim_set_next _ _ _ _ E2). cbn [bind].
  rewrite (IH _ _ _ _ E3). cbn [bind].
  rewrite (IH _ _ _ _ E4). cbn [bind].
  by rewrite (sim_merge_sorted_lists _ _ _ _ _ _ _ E5).
Qed.

End SinglySimulation.

Section SinglySort.

Import Cxx Heap ListSpec.

Context {T : Type}.

Variable le : T -> T -> bool.

Hypothesis le_total : forall x y, le x y = true \/ le y x = true.
Hypothesis le_trans : forall x y z, le x y = true -> le y z = true -> le x z = true.

Implicit Types (hs : gmap addr (SinglyLinkedList.Node T)) (xs ys : list (addr * T)).

Lemma forget_with_null_prev hs :
  forget_prev <$> (with_null_prev <$> hs) = hs.
Proof.
  apply map_eq. intros a. rewrite !lookup_fmap.
  destruct (hs !! a) as [[d n]|]; done.
Qed.

Lemma chain_with_null_prev hs p xs :
  chain SinglyLinkedList.data SinglyLinkedList.next hs p xs ->
  chain DoublyLinkedList.data DoublyLinkedList.next (with_null_prev <$> hs) p xs.
Proof.
  intros Hc. eapply lseg_transfer; [exact Hc|].
  intros a n _ Hn. exists (with_null_prev n). rewrite lookup_fmap, Hn. done.
Qed.

Lemma chain_forget_prev (h : gmap addr (DoublyLinkedList.Node T)) p xs :
  chain DoublyLinkedList.data DoublyLinkedList.next h p xs ->
  chain SinglyLinkedList.data SinglyLinkedList.next (forget_prev <$> h) p xs.
Proof.
  intros Hc. eapply lseg_transfer; [exact Hc|].
  intros a n _ Hn. exists (forget_prev n). rewrite lookup_fmap, Hn. done.
Qed.

(** The modelled [merge_sort] of the singly linked list. *)
Lemma sll_merge_sort_spec xs hs head fuel :
  chain SinglyLinkedList.data SinglyLinkedList.next hs head xs ->
  2 * length xs < fuel ->
  exists hs' head' ys,
    SinglyLinkedList.merge_sort le fuel hs head = Ok (hs', head') /\
    chain SinglyLinkedList.data SinglyLinkedList.next hs' head' ys /\
    sorted_from le xs ys /\
    (forall a, a ∉ xs.*1 -> hs' !! a = hs !! a).
Proof using le_total le_trans.
  intros Hc Hfuel.
  destruct (merge_sort_spec le le_total le_trans (length xs) xs
              (with_null_prev <$> hs) head fuel)
    as (h' & head' & ys & Hrun & Hc' & Hsort & Hout & _);
    [done|by apply chain_with_null_prev|done|].
  apply sim_merge_sort in Hrun. rewrite forget_with_null_prev in Hrun.
  exists (forget_prev <$> h'), head', ys. split; [done|].
  split; [by apply chain_forget_prev|]. split; [done|].
  intros a Ha. rewrite lookup_fmap, Hout by done.
  rewrite <- lookup_fmap. by rewrite forget_with_null_prev.
Qed.

Lemma sll_find_tail_spec xs : forall hs a d fuel,
  chain SinglyLinkedList.data SinglyLinkedList.next hs (Some a) ((a, d) :: xs) ->
  length xs < fuel ->
  SinglyLinkedList.find_tail fuel hs (Some a) = Ok (fst <$> last ((a, d) :: xs)).
Proof.
  induction xs as [|[b db] xs IH]; intros hs a d fuel Hc Hfuel;
    (destruct fuel as [|fuel]; [simpl in Hfuel; lia|]);
    destruct Hc as (_ & n & Hn & _ & Hc); simpl in Hn;
    cbn [SinglyLinkedList.find_tail]; rewrite (sll_get_Some hs a n Hn); cbn [bind].
  - simpl in Hc. by rewrite Hc.
  - pose proof Hc as (Hb & _). simpl in Hb. rewrite Hb in Hc |- *.
    rewrite (IH hs b db); [done|done|simpl in Hfuel; lia].
Qed.

(** [sort()] of the singly linked list, on a well-formed list. *)
Lemma sll_sort_spec hs l xs fuel :
  SinglyLinkedList.represents hs l xs -> 2 * length xs < fuel ->
  exists hs' l' ys,
    SinglyLinkedList.sort le fuel hs l = Ok (hs', l') /\
    SinglyLinkedList.represents hs' l' ys /\
    sorted_from le xs ys /\
    (forall a, a ∉ xs.*1 -> hs' !! a = hs !! a).
Proof using le_total le_trans.
  intros Hrep Hfuel. unfold SinglyLinkedList.sort.
  destruct (SinglyLinkedList.size_ l <=? 1)%Z eqn:Hsz.
  - exists hs, l, xs. split; [done|]. split; [done|]. split; [|done].
    apply sorted_from_short. destruct Hrep as (_ & _ & Hs).
    apply Z.leb_le in Hsz. lia.
  - destruct Hrep as (Hn & Ht & Hs). apply Z.leb_gt in Hsz.
    destruct (sll_merge_sort_spec xs hs (SinglyLinkedList.head_ l) fuel)
      as (h1 & head' & ys & -> & Hc1 & Hsort & Hout1); [done|done|].
    cbn [bind SinglyLinkedList.set_head SinglyLinkedList.head_].
    pose proof (sorted_from_length le _ _ Hsort) as Hlen.
    destruct ys as [|[r d0] ys]; [simpl in Hlen; lia|].
    pose proof Hc1 as (-> & _). cbn [fst].
    rewrite (sll_find_tail_spec ys h1 r d0 fuel Hc1) by (simpl in Hlen; lia).
    cbn [bind]. eexists h1, _, ((r, d0) :: ys).
    split; [done|]. split; [|done].
    split; [done|]. split; [done|]. cbn. rewrite Hs. simpl in Hlen. lia.
Qed.

End SinglySort.

Section SortClaim.

Import Cxx Heap ListSpec.

Context {T : Type}.

Variable le : T -> T -> bool.

Implicit Types (xs ys : list (addr * T)).

Lemma sorted_from_payloads xs ys :
  sorted_from le xs ys ->
  ys.*2 ≡ₚ xs.*2 /\ StronglySorted (fun x y => le x y = true) ys.*2.
Proof.
  intros (Hp & Hs & _). split; [by rewrite Hp|].
  eapply StronglySorted_fmap; [|exact Hs]. by intros x y.
Qed.

(** C4: on a well-formed list, singly or doubly linked, and for an order
    that is total and transitive, [sort()] returns with the same nodes,
    their payloads unchanged, in non-decreasing order, the nodes that
    compare equal in the order they had; the list is well formed again,
    which for the doubly linked list says that the [prev] pointers mirror
    the [next] pointers and that [head_] and [tail_] are the two ends. *)
Theorem sort_stable :
  (forall x y, le x y = true \/ le y x = true) ->
  (forall x y z, le x y = true -> le y z = true -> le x z = true) ->
  (forall (h : gmap addr (SinglyLinkedList.Node T)) l xs fuel,
     SinglyLinkedList.represents h l xs -> 2 * length xs < fuel ->
     exists h' l' ys,
       SinglyLinkedList.sort le fuel h l = Ok (h', l') /\
       SinglyLinkedList.represents h' l' ys /\
       sorted_from le xs ys /\
       SinglyLinkedList.traverse fuel h' (SinglyLinkedList.head_ l') = Ok ys.*2 /\
       ys.*2 ≡ₚ xs.*2 /\
       StronglySorted (fun x y => le x y = true) ys.*2) /\
  (forall (h : gmap addr (DoublyLinkedList.Node T)) l xs fuel,
     DoublyLinkedList.represents h l xs -> 2 * length xs < fuel ->
     exists h' l' ys,
       DoublyLinkedList.sort le fuel h l = Ok (h', l') /\
       DoublyLinkedList.represents h' l' ys /\
       sorted_from le xs ys /\
       DoublyLinkedList.traverse fuel h' (DoublyLinkedList.head_ l') = Ok ys.*2 /\
       ys.*2 ≡ₚ xs.*2 /\
       StronglySorted (fun x y => le x y = true) ys.*2).
Proof.
  intros le_total le_trans. split.
  - intros h l xs fuel Hrep Hfuel.
    destruct (sll_sort_spec le le_total le_trans h l xs fuel Hrep Hfuel)
      as (h' & l' & ys & Hrun & Hrep' & Hsort & _).
    exists h', l', ys. split; [done|]. split; [done|]. split; [done|].
    split; [|by apply sorted_from_payloads].
    apply sll_traverse_spec; [apply Hrep'|].
    rewrite (sorted_from_length le _ _ Hsort). lia.
  - intros h l xs fuel Hrep Hfuel.
    destruct (sort_spec le le_total le_trans h l xs fuel Hrep Hfuel)
      as (h' & l' & ys & Hrun & Hrep' & Hsort & _).
    exists h', l', ys. split; [done|]. split; [done|]. split; [done|].
    split; [|by apply sorted_from_payloads].
    apply dll_traverse_spec; [apply Hrep'|].
    rewrite (sorted_from_length le _ _ Hsort). lia.
Qed.

End SortClaim.

Lemma by_first_total x y :
  ListExamples.by_first x y = true \/ ListExamples.by_first y x = true.
Proof. unfold ListExamples.by_first. lia. Qed.

Lemma by_first_trans x y z :
  ListExamples.by_first x y = true -> ListExamples.by_first y z = true ->
  ListExamples.by_first x z = true.
Proof. unfold ListExamples.by_first. lia. Qed.

Lemma dll_pairs_built :
  ListExamples.dll_pairs =
  Cxx.Ok (ListExamples.dll_pairs_heap, ListExamples.dll_three_list).
Proof. vm_compute. reflexivity. Qed.

Lemma dll_pairs_represents :
  DoublyLinkedList.represents ListExamples.dll_pairs_heap
    ListExamples.dll_three_list ListExamples.pairs_nodes.
Proof. split; [chain_by_lookup|]. split; [chain_by_lookup|reflexivity]. Qed.

Lemma sll_pairs_built :
  ListExamples.sll_pairs =
  Cxx.Ok (ListExamples.sll_pairs_heap, ListExamples.sll_three_list).
Proof. vm_compute. reflexivity. Qed.

Lemma sll_pairs_represents :
  SinglyLinkedList.represents ListExamples.sll_pairs_heap
    ListExamples.sll_three_list ListExamples.pairs_nodes.
Proof. split; [chain_by_lookup|]. split; reflexivity. Qed.

Lemma sort_stable_witness :
  (exists h' l' ys,
     SinglyLinkedList.sort ListExamples.by_first 7 ListExamples.sll_pairs_heap
       ListExamples.sll_three_list = Cxx.Ok (h', l') /\
     ListSpec.sorted_from ListExamples.by_first ListExamples.pairs_nodes ys) /\
  (exists h' l' ys,
     DoublyLinkedList.sort ListExamples.by_first 7 ListExamples.dll_pairs_heap
       ListExamples.dll_three_list = Cxx.Ok (h', l') /\
     DoublyLinkedList.represents h' l' ys /\
     ListSpec.sorted_from ListExamples.by_first ListExamples.pairs_nodes ys).
Proof.
  destruct (sort_stable ListExamples.by_first by_first_total by_first_trans)
    as [Hs Hd].
  split.
  - destruct (Hs _ _ _ 7 sll_pairs_represents) as (h' & l' & ys & H1 & _ & H2 & _);
      [simpl; lia|].
    exists h', l', ys. split; [exact H1|exact H2].
  - destruct (Hd _ _ _ 7 dll_pairs_represents) as (h' & l' & ys & H1 & H2 & H3 & _);
      [simpl; lia|].
    exists h', l', ys. split; [exact H1|]. split; [exact H2|exact H3].
Defined.

(** The stability test: (2, 0), (1, 1), (1, 2) sorted by first component. *)
Example sort_pairs :
  (do '(h, l) <- DoublyLinkedList.sort ListExamples.by_first 7
                   ListExamples.dll_pairs_heap ListExamples.dll_three_list;
   DoublyLinkedList.traverse 7 h (DoublyLinkedList.head_ l)) =
  Cxx.Ok [(1, 1); (1, 2); (2, 0)]%Z /\
  (do '(h, l) <- SinglyLinkedList.sort ListExamples.by_first 7
                   ListExamples.sll_pairs_heap ListExamples.sll_three_list;
   SinglyLinkedList.traverse 7 h (SinglyLinkedList.head_ l)) =
  Cxx.Ok [(1, 1); (1, 2); (2, 0)]%Z.
Proof. split; vm_compute; reflexivity. Qed.

(** ** Doubly linked list: splice

    [splice] writes at the ends of up to five stretches of nodes, so the
    lists are cut into segments that carry their outer [prev] and [next]
    pointers. *)

Section DoublySegments.

Import Cxx Heap DoublyLinkedList ListSpec.

Context {T : Type}.

Implicit Types (h : gmap addr (Node T)) (p q : ptr) (xs ys : list (addr * T)).

Lemma first_addr_app xs ys q :
  first_addr (xs ++ ys) q = first_addr xs (first_addr ys q).
Proof. by destruct xs. Qed.

Lemma last_addr_app xs ys p :
  last_addr (xs ++ ys) p = last_addr ys (last_addr xs p).
Proof.
  unfold last_addr. rewrite last_app. by destruct (last ys).
Qed.

Lemma last_addr_cons x xs p : last_addr (x :: xs) p = last_addr xs (Some (fst x)).
Proof. unfold last_addr. rewrite last_cons. by destruct (last xs). Qed.

Lemma lseg_first dat link (h : gmap addr (Node T)) p xs q :
  lseg dat link h p xs q -> p = first_addr xs q.
Proof. destruct xs; [done|]. by intros (-> & _). Qed.

Lemma dseg_app h p xs ys q :
  dseg h p (xs ++ ys) q <->
  dseg h p xs (first_addr ys q) /\ dseg h (last_addr xs p) ys q.
Proof.
  revert p. induction xs as [|x xs IH]; intros p.
  - simpl. unfold last_addr. simpl. tauto.
  - cbn [app dseg]. rewrite IH, first_addr_app, last_addr_cons. tauto.
Qed.

Lemma dseg_frame h h' p xs q :
  dseg h p xs q -> (forall a, a ∈ xs.*1 -> h' !! a = h !! a) -> dseg h' p xs q.
Proof.
  revert p. induction xs as [|x xs IH]; intros p; [done|].
  intros [Hx Hseg] Hsame. split.
  - rewrite Hsame; [done|]. rewrite fmap_cons. apply elem_of_cons. by left.
  - apply IH; [done|]. intros a Ha. apply Hsame.
    rewrite fmap_cons. apply elem_of_cons. by right.
Qed.

(** A segment as two chains, one along [next] and one along [prev]. *)
Lemma dseg_chains h p xs q :
  dseg h p xs q <->
  lseg data next h (first_addr xs q) xs q /\
  lseg data prev h (last_addr xs p) (rev xs) p.
Proof.
  revert p. induction xs as [|[a d] xs IH]; intros p.
  - simpl. unfold last_addr. simpl. tauto.
  - cbn [dseg first_addr fst snd rev]. rewrite last_addr_cons, IH. cbn [fst].
    rewrite lseg_app. split.
    + intros (Ha & Hn & Hp). split.
      * split; [done|]. eexists. split; [exact Ha|]. by split.
      * exists (Some a). split; [done|]. split; [done|].
        eexists. split; [exact Ha|]. by split.
    + intros ((_ & n & Hn & Hd & Hnext) & r & Hprev & Hr & m & Hm & _ & Hpm).
      simpl in Hn, Hd, Hm, Hpm, Hr. subst r.
      rewrite Hn in Hm. injection Hm as <-.
      pose proof (lseg_first _ _ _ _ _ _ Hnext) as Hnx.
      split; [|split; [by rewrite <- Hnx|done]].
      rewrite Hn. destruct n as [d' p' n']. simpl in *. by subst.
Qed.

(** The data model of the list, seen as one segment between two nulls. *)
Lemma represents_dseg h l xs :
  represents h l xs <->
  dseg h None xs None /\ head_ l = first_addr xs None /\
  tail_ l = last_addr xs None /\ size_ l = Z.of_nat (length xs).
Proof.
  unfold represents, chain. rewrite dseg_chains. split.
  - intros (Hn & Hp & Hs).
    pose proof (lseg_first _ _ _ _ _ _ Hn) as Hh.
    pose proof (lseg_first _ _ _ _ _ _ Hp) as Ht.
    assert (first_addr (rev xs) None = last_addr xs None) as Hfl.
    { unfold last_addr. rewrite <- head_rev. by destruct (rev xs). }
    rewrite Hfl in Ht. rewrite <- Hh, <- Ht. done.
  - intros ((Hn & Hp) & -> & -> & Hs). done.
Qed.

Lemma first_addr_nonempty xs q q' : xs <> [] -> first_addr xs q = first_addr xs q'.
Proof. by destruct xs. Qed.

Lemma last_addr_nonempty xs p p' : xs <> [] -> last_addr xs p = last_addr xs p'.
Proof.
  destruct xs as [|x xs] using rev_ind; [done|]. intros _.
  by rewrite !last_addr_app.
Qed.

Lemma last_addr_empty xs : last_addr xs None = None -> xs = [].
Proof.
  destruct xs as [|x xs] using rev_ind; [done|].
  by rewrite last_addr_app.
Qed.

Lemma first_addr_empty xs : first_addr xs None = None -> xs = [].
Proof. by destruct xs. Qed.

Lemma first_addr_elem xs a : first_addr xs None = Some a -> a ∈ xs.*1.
Proof.
  destruct xs as [|x xs]; [done|]. intros [= <-].
  rewrite fmap_cons. apply elem_of_cons. by left.
Qed.

(** Reading the first node of a segment. *)
Lemma dseg_get_first h p xs q :
  xs <> [] -> dseg h p xs q ->
  exists n, get h (first_addr xs None) = Ok n /\ prev n = p.
Proof.
  destruct xs as [|x xs]; [done|]. intros _ [Hx _].
  eexists. cbn [first_addr get]. rewrite Hx. done.
Qed.

(** [first->prev = p'] on the first node of a segment. *)
Lemma set_prev_first h p xs q p' :
  xs <> [] -> dseg h p xs q -> NoDup xs.*1 ->
  exists h',
    set_prev h (first_addr xs None) p' = Ok h' /\
    dseg h' p' xs q /\
    (forall a, a ∉ xs.*1 -> h' !! a = h !! a).
Proof.
  destruct xs as [|x xs]; [done|]. intros _ [Hx Hseg] Hnd.
  rewrite fmap_cons in Hnd. apply NoDup_cons in Hnd as [Hnotin _].
  eexists. cbn [first_addr]. unfold set_prev. cbn [get]. rewrite Hx. cbn [bind].
  split; [done|]. cbn [data next]. split.
  - split; [by rewrite lookup_insert_eq|].
    apply (dseg_frame h); [done|]. intros a Ha.
    apply lookup_insert_ne. by intros <-.
  - intros a Ha. apply lookup_insert_ne. intros <-. apply Ha.
    rewrite fmap_cons. apply elem_of_cons. by left.
Qed.

(** [last->next = q'] on the last node of a segment. *)
Lemma set_next_last h p xs q q' :
  xs <> [] -> dseg h p xs q -> NoDup xs.*1 ->
  exists h',
    set_next h (last_addr xs None) q' = Ok h' /\
    dseg h' p xs q' /\
    (forall a, a ∉ xs.*1 -> h' !! a = h !! a).
Proof.
  destruct xs as [|x xs _] using rev_ind; [done|]. intros _ Hseg Hnd.
  apply dseg_app in Hseg as [Hxs [Hx _]].
  rewrite fmap_app in Hnd. apply NoDup_app in Hnd as (_ & Hnotin & _).
  rewrite last_addr_app. unfold last_addr at 1. cbn [last].
  eexists. unfold set_next. cbn [get]. rewrite Hx. cbn [bind].
  split; [done|]. cbn [data prev]. split.
  - apply dseg_app. split.
    + apply (dseg_frame h); [done|]. intros a Ha.
      apply lookup_insert_ne. intros <-. apply (Hnotin _ Ha).
      simpl. apply elem_of_cons. by left.
    + split; [by rewrite lookup_insert_eq|done].
  - intros a Ha. apply lookup_insert_ne. intros <-. apply Ha.
    rewrite fmap_app. apply elem_of_app. right.
    simpl. apply elem_of_cons. by left.
Qed.

(** The counting loop over a segment. *)
Lemma distance_spec fuel h p xs q c :
  dseg h p xs q -> (forall a, a ∈ xs.*1 -> q <> Some a) ->
  (length xs < fuel)%nat ->
  (0 <= c)%Z -> (c + Z.of_nat (length xs) < 2 ^ width)%Z ->
  distance fuel h (first_addr xs q) q c = Ok (c + Z.of_nat (length xs))%Z.
Proof.
  revert fuel p c. induction xs as [|x xs IH]; intros fuel p c Hseg Hq Hfuel Hc Hlen.
  - destruct fuel as [|k]; [simpl in Hfuel; lia|]. cbn [distance first_addr].
    case_decide; [|done]. f_equal. simpl. lia.
  - destruct fuel as [|k]; [simpl in Hfuel; lia|]. destruct Hseg as [Hx Hseg].
    cbn [distance first_addr]. case_decide as Heq.
    { exfalso. apply (Hq (fst x)); [|done].
      rewrite fmap_cons. apply elem_of_cons. by left. }
    cbn [get]. rewrite Hx. cbn [bind next].
    cbn [length] in Hlen, Hfuel. rewrite to_size_t_small by lia.
    erewrite IH; [f_equal; cbn [length]; lia|exact Hseg| |lia|lia|lia].
    intros a Ha. apply Hq. rewrite fmap_cons. apply elem_of_cons. by right.
Qed.

(** The statement pair [if (before) before->next = target; else head_ =
    target;] applied to the segment that ends at [before]. *)
Lemma link_after h l xs q q' :
  dseg h None xs q -> NoDup xs.*1 -> head_ l = first_addr xs q ->
  exists h' l',
    match last_addr xs None with
    | Some _ => do h <- set_next h (last_addr xs None) q'; Ok (h, l)
    | None => Ok (h, set_head l q')
    end = Ok (h', l') /\
    dseg h' None xs q' /\
    (forall a, a ∉ xs.*1 -> h' !! a = h !! a) /\
    head_ l' = first_addr xs q' /\ tail_ l' = tail_ l /\ size_ l' = size_ l.
Proof.
  intros Hseg Hnd Hhead.
  destruct (last_addr xs None) as [b|] eqn:Hlast.
  - assert (xs <> []) as Hne by (intros ->; discriminate).
    destruct (set_next_last h None xs q q' Hne Hseg Hnd) as (h' & Hset & Hseg' & Hfr).
    rewrite Hlast in Hset. rewrite Hset. cbn [bind].
    exists h', l. split; [done|]. split; [done|]. split; [done|].
    split; [|done]. rewrite Hhead. by apply first_addr_nonempty.
  - apply last_addr_empty in Hlast as ->.
    exists h, (set_head l q'). done.
Qed.

End DoublySegments.

Section SpliceRange.

Import Cxx Heap DoublyLinkedList ListSpec.

Context {T : Type}.

Implicit Types (h : gmap addr (Node T)) (xs ys : list (addr * T)).

Lemma dseg_frame_disjoint h h' p xs ys q :
  dseg h p xs q -> (forall a, a ∉ ys.*1 -> h' !! a = h !! a) ->
  (forall a, a ∈ xs.*1 -> a ∉ ys.*1) -> dseg h' p xs q.
Proof.
  intros Hseg Hfr Hdis. apply (dseg_frame h); [done|].
  intros a Ha. apply Hfr. by apply Hdis.
Qed.

(** Five pairwise disjoint address lists, as [splice] sees them: the part
    of [other] before the range, the range, the part from [last] on, and
    the parts of [this] before and from [pos]. *)
Lemma splice_disjoint (A1 A2 B1 M L : list addr) :
  NoDup (A1 ++ A2) -> NoDup (B1 ++ M ++ L) ->
  (forall a, a ∈ A1 ++ A2 -> a ∉ B1 ++ M ++ L) ->
  ((forall a, a ∈ A1 -> a ∉ A2) /\ (forall a, a ∈ A1 -> a ∉ B1) /\
   (forall a, a ∈ A1 -> a ∉ M) /\ (forall a, a ∈ A1 -> a ∉ L)) /\
  ((forall a, a ∈ A2 -> a ∉ A1) /\ (forall a, a ∈ A2 -> a ∉ B1) /\
   (forall a, a ∈ A2 -> a ∉ M) /\ (forall a, a ∈ A2 -> a ∉ L)) /\
  ((forall a, a ∈ B1 -> a ∉ A1) /\ (forall a, a ∈ B1 -> a ∉ A2) /\
   (forall a, a ∈ B1 -> a ∉ M) /\ (forall a, a ∈ B1 -> a ∉ L)) /\
  ((forall a, a ∈ M -> a ∉ A1) /\ (forall a, a ∈ M -> a ∉ A2) /\
   (forall a, a ∈ M -> a ∉ B1) /\ (forall a, a ∈ M -> a ∉ L)) /\
  ((forall a, a ∈ L -> a ∉ A1) /\ (forall a, a ∈ L -> a ∉ A2) /\
   (forall a, a ∈ L -> a ∉ B1) /\ (forall a, a ∈ L -> a ∉ M)).
Proof.
  rewrite !NoDup_app. intros (_ & HA & _) (_ & HB & _ & HM & _) Hdis.
  repeat split; intros a Ha Ha'.
  all: try (apply (HA a); done).
  all: try (apply (HB a); [done|]; apply elem_of_app; auto; right; apply elem_of_app; auto).
  all: try (apply (HM a); done).
  all: try (apply (Hdis a); [apply elem_of_app; auto|]; apply elem_of_app; auto; right; apply elem_of_app; auto).
  all: try (apply (Hdis a); [apply elem_of_app; eauto|]; rewrite !elem_of_app; eauto).
Qed.

(** Carries every segment of heap [h] that a write has not touched over
    to the heap [h'] after the write. *)
Ltac frame_segments h h' Hfr :=
  repeat match goal with
  | H : dseg h ?p ?xs ?q |- _ =>
      let H' := fresh in
      assert (dseg h' p xs q) as H'
        by (apply (dseg_frame_disjoint h h' p xs _ q H Hfr); assumption);
      clear H; rename H' into H
  end.

(** The model of [splice] with [last] at a node of [other]: for two
    well-formed lists without common nodes, [pos] in [this] (or [end()],
    when [A2] is empty), and the non-empty range [M] of [other] from
    [first] up to, not including, the node [l], the call returns, [this]
    holds the range in front of [pos] in its original order, [other] has
    lost exactly the range, both lists are well formed with their sizes
    updated, and no other node is written. *)
Lemma splice_spec fuel h this other A1 A2 B1 M l B2 :
  represents h this (A1 ++ A2) ->
  represents h other (B1 ++ M ++ l :: B2) ->
  M <> [] ->
  (forall a, a ∈ (A1 ++ A2).*1 -> a ∉ (B1 ++ M ++ l :: B2).*1) ->
  (length M < fuel)%nat ->
  (size_ this + size_ other < 2 ^ width)%Z ->
  exists h' this' other',
    splice fuel h this other (first_addr A2 None) (first_addr M None) (Some (fst l)) =
      Ok (h', this', other') /\
    represents h' this' (A1 ++ M ++ A2) /\
    represents h' other' (B1 ++ l :: B2) /\
    (forall a, a ∉ (A1 ++ A2).*1 -> a ∉ (B1 ++ M ++ l :: B2).*1 -> h' !! a = h !! a).
Proof.
  intros HA HB HM Hdis Hfuel Hsz.
  pose proof (chain_NoDup _ _ _ _ _ (proj1 HA)) as NdA.
  pose proof (chain_NoDup _ _ _ _ _ (proj1 HB)) as NdB.
  apply represents_dseg in HA as (SA & HAh & HAt & HAs).
  apply represents_dseg in HB as (SB & HBh & HBt & HBs).
  apply dseg_app in SA as [SA1 SA2].
  apply dseg_app in SB as [SB1 SB]. apply dseg_app in SB as [SM SL].
  rewrite fmap_app in NdA. rewrite !fmap_app in NdB. rewrite !fmap_app in Hdis.
  destruct (splice_disjoint _ _ _ _ _ NdA NdB Hdis)
    as ((DA1A2 & DA1B1 & DA1M & DA1L) & (DA2A1 & DA2B1 & DA2M & DA2L) &
        (DB1A1 & DB1A2 & DB1M & DB1L) & (DMA1 & DMA2 & DMB1 & DML) &
        (DLA1 & DLA2 & DLB1 & DLM)).
  apply NoDup_app in NdA as (NdA1 & _ & NdA2).
  apply NoDup_app in NdB as (NdB1 & _ & NdB). apply NoDup_app in NdB as (NdM & _ & NdL).
  rewrite first_addr_app in SB1. rewrite !first_addr_app in HBh.
  cbn [first_addr] in SB1, SM, HBh.
  rewrite (last_addr_nonempty M _ None HM) in SL.
  rewrite length_app in HAs. rewrite !length_app in HBs. cbn [length] in HBs.
  assert (fst l ∈ (l :: B2).*1) as Hl.
  { rewrite fmap_cons. apply elem_of_cons. by left. }
  unfold splice. case_decide as Hfl.
  { exfalso. apply (DML (fst l)); [by apply first_addr_elem|done]. }
  assert (distance fuel h (first_addr M None) (Some (fst l)) 0 =
          Ok (Z.of_nat (length M))) as ->.
  { rewrite (first_addr_nonempty M None (Some (fst l)) HM).
    rewrite (distance_spec fuel h _ M (Some (fst l)) 0 SM); [done| |done|done|lia].
    intros a Ha [= <-]. by apply (DML _ Ha). }
  cbn [bind].
  destruct (dseg_get_first h _ M _ HM SM) as (nfirst & -> & Hpf). cbn [bind].
  destruct (dseg_get_first h _ (l :: B2) _ ltac:(done) SL) as (nlast & Hgl & Hpl).
  cbn [first_addr] in Hgl. rewrite Hgl. cbn [bind]. rewrite Hpf, Hpl.
  clear nfirst nlast Hgl Hpf Hpl.
  (* before_first->next = last, or other.head_ = last *)
  destruct (link_after h other B1 _ (Some (fst l)) SB1 NdB1 HBh)
    as (h1 & other1 & -> & SB1' & Hfr1 & Hh1 & Ht1 & Hs1).
  clear SB1. cbn [bind]. frame_segments h h1 Hfr1.
  (* last->prev = before_first *)
  destruct (set_prev_first h1 _ (l :: B2) _ (last_addr B1 None) ltac:(done) SL NdL)
    as (h2 & Hset & SL' & Hfr2).
  cbn [first_addr] in Hset. rewrite Hset. clear SL Hset. cbn [bind].
  frame_segments h1 h2 Hfr2.
  rewrite first_addr_app in HAh. rewrite last_addr_app in HAt.
  match goal with
  | |- exists _ _ _, bind ?blk _ = _ /\ _ =>
      assert (exists h6 this6,
        blk = Ok (h6, this6) /\
        dseg h6 None (A1 ++ M ++ A2) None /\
        dseg h6 None B1 (Some (fst l)) /\
        dseg h6 (last_addr B1 None) (l :: B2) None /\
        head_ this6 = first_addr (A1 ++ M ++ A2) None /\
        tail_ this6 = last_addr (A1 ++ M ++ A2) None /\
        size_ this6 = size_ this /\
        (forall a, a ∉ A1.*1 -> a ∉ A2.*1 -> a ∉ M.*1 -> h6 !! a = h2 !! a))
        as (h6 & this6 & -> & SA & SB1 & SL & Hh6 & Ht6 & Hs6 & Hfr6)
  end.
  { rewrite !first_addr_app, !last_addr_app.
    rewrite (first_addr_nonempty M (first_addr A2 None) None HM).
    rewrite (last_addr_nonempty M (last_addr A1 None) None HM).
    destruct (decide (A2 = [])) as [->|HA2].
    - (* pos == end(): the range is appended behind tail_ *)
      cbn [first_addr].
      change (last_addr [] (last_addr A1 None)) with (last_addr A1 None) in HAt.
      change (last_addr [] (last_addr M None)) with (last_addr M None).
      rewrite HAt, app_nil_r.
      destruct (decide (A1 = [])) as [->|HA1].
      + change (last_addr (T:=T) [] None) with (@None addr).
        destruct (set_prev_first h2 _ M _ None HM SM NdM) as (h3 & -> & SM' & Hfr3).
        clear SM. cbn [bind tail_ set_tail]. frame_segments h2 h3 Hfr3.
        destruct (set_next_last h3 _ M _ None HM SM' NdM) as (h4 & -> & SM & Hfr4).
        clear SM'. cbn [bind]. frame_segments h3 h4 Hfr4.
        eexists _, _. split; [reflexivity|].
        cbn [app head_ tail_ size_ set_tail set_head first_addr].
        do 6 (split; [done|]).
        intros a _ _ Ha. by rewrite Hfr4, Hfr3.
      + destruct (last_addr A1 None) as [b|] eqn:Hb; [|by apply last_addr_empty in Hb].
        destruct (set_next_last h2 _ A1 _ (first_addr M None) HA1 SA1 NdA1)
          as (h3 & Hset & SA1' & Hfr3).
        rewrite Hb in Hset. rewrite Hset. clear SA1 Hset. cbn [bind].
        frame_segments h2 h3 Hfr3.
        destruct (set_prev_first h3 _ M _ (Some b) HM SM NdM) as (h4 & -> & SM' & Hfr4).
        clear SM. cbn [bind tail_ set_tail]. frame_segments h3 h4 Hfr4.
        destruct (set_next_last h4 _ M _ None HM SM' NdM) as (h5 & -> & SM & Hfr5).
        clear SM'. cbn [bind]. frame_segments h4 h5 Hfr5.
        eexists _, _. split; [reflexivity|]. cbn [head_ tail_ size_ set_tail].
        split. { apply dseg_app. split; [exact SA1'|]. rewrite Hb. exact SM. }
        do 2 (split; [done|]).
        split. { rewrite HAh. by apply first_addr_nonempty. }
        do 2 (split; [done|]).
        intros a Ha _ Ha'. by rewrite Hfr5, Hfr4, Hfr3.
    - (* pos at a node: the range is linked in before it *)
      assert (exists b, first_addr A2 None = Some b) as [b Hb].
      { destruct A2; [done|by eexists]. }
      rewrite Hb.
      destruct (dseg_get_first h2 _ A2 _ HA2 SA2) as (npos & Hgp & Hpp).
      rewrite Hb in Hgp. rewrite Hgp. cbn [bind]. rewrite Hpp. clear npos Hgp Hpp.
      destruct (link_after h2 this A1 _ (first_addr M None) SA1 NdA1 HAh)
        as (h3 & this3 & -> & SA1' & Hfr3 & Hh3 & Ht3 & Hs3).
      clear SA1. cbn [bind]. frame_segments h2 h3 Hfr3.
      destruct (set_prev_first h3 _ M _ (last_addr A1 None) HM SM NdM)
        as (h4 & -> & SM' & Hfr4).
      clear SM. cbn [bind]. frame_segments h3 h4 Hfr4.
      destruct (set_next_last h4 _ M _ (first_addr A2 None) HM SM' NdM)
        as (h5 & Hset & SM & Hfr5).
      rewrite Hb in Hset. rewrite Hset. clear SM' Hset. cbn [bind].
      frame_segments h4 h5 Hfr5.
      destruct (set_prev_first h5 _ A2 _ (last_addr M None) HA2 SA2 NdA2)
        as (h6 & Hset & SA2' & Hfr6).
      rewrite Hb in Hset. rewrite Hset. clear SA2 Hset. cbn [bind].
      frame_segments h5 h6 Hfr6.
      eexists _, _. split; [reflexivity|].
      split.
      { apply dseg_app. split.
        { rewrite first_addr_app, (first_addr_nonempty M (first_addr A2 None) None HM).
          exact SA1'. }
        apply dseg_app. split; [exact SM|].
        rewrite (last_addr_nonempty M (last_addr A1 None) None HM). exact SA2'. }
      do 2 (split; [done|]). split; [done|].
      split. { rewrite Ht3, HAt. by apply last_addr_nonempty. }
      split; [done|].
      intros a Ha Ha' Ha''. by rewrite Hfr6, Hfr5, Hfr4, Hfr3. }
  cbn [bind]. eexists _, _, _. split; [reflexivity|]. split; [|split].
  - apply represents_dseg. cbn [head_ tail_ size_ set_size].
    do 3 (split; [done|]).
    rewrite Hs6, HAs, to_size_t_small by lia. rewrite !length_app. lia.
  - apply represents_dseg. cbn [head_ tail_ size_ set_size].
    split. { apply dseg_app. by split. }
    split. { by rewrite first_addr_app. }
    split. { rewrite Ht1, HBt, !last_addr_app. by apply last_addr_nonempty. }
    rewrite Hs1, HBs, to_size_t_small by lia. rewrite length_app. cbn [length]. lia.
  - intros a HaA HaB. rewrite fmap_app in HaA. rewrite !fmap_app in HaB.
    apply not_elem_of_app in HaA as [? ?].
    apply not_elem_of_app in HaB as [? HaB]. apply not_elem_of_app in HaB as [? ?].
    by rewrite Hfr6, Hfr2, Hfr1.
Qed.

End SpliceRange.

Section SpliceFacts.

Import Cxx Heap DoublyLinkedList.

Context {T : Type}.

(** A range that ends at [end()] makes [splice] read [last.current_->prev]
    through a null pointer: the call never returns normally. *)
Lemma splice_to_end_never_returns fuel (h : gmap addr (Node T)) this other pos first r :
  first <> None -> splice fuel h this other pos first None <> Ok r.
Proof.
  intros Hfirst. unfold splice.
  case_decide; [done|].
  destruct (distance fuel h first None 0); cbn [bind]; try discriminate.
  destruct (get h first); cbn [bind get]; discriminate.
Qed.

End SpliceFacts.

(** C3: with B holding 1, 2, 3 and A empty, [A.splice(A.end(), B,
    B.begin(), B.end())] is undefined: after counting the three nodes the
    code reads [last.current_->prev] with [last.current_] null.  The guard
    [if (last.current_)] two statements later shows that a null [last]
    was meant to be accepted. *)
Theorem splice_whole_list_undefined :
  ListExamples.dll_three =
    Cxx.Ok (ListExamples.dll_three_heap, ListExamples.dll_three_list) /\
  DoublyLinkedList.distance 4 ListExamples.dll_three_heap (Some 0) None 0 =
    Cxx.Ok 3%Z /\
  forall k,
    DoublyLinkedList.splice (4 + k) ListExamples.dll_three_heap
      DoublyLinkedList.make ListExamples.dll_three_list None (Some 0) None =
    Cxx.Undefined.
Proof.
  split; [exact dll_three_built|]. split; [vm_compute; reflexivity|].
  intros k. vm_compute. reflexivity.
Qed.

(** A range that stops at a node of B is moved: [A.splice(pos, B, first,
    last)] with [pos] at 20, [first] at 1 and [last] at 3 leaves
    10, 1, 2, 20 in A and 3 in B, both lists well formed. *)
Example splice_into_the_middle :
  exists h a b h' a' b',
    ListExamples.dll_two_lists = Cxx.Ok (h, a, b) /\
    DoublyLinkedList.represents h a [(0, 10%Z); (1, 20%Z)] /\
    DoublyLinkedList.represents h b [(2, 1%Z); (3, 2%Z); (4, 3%Z)] /\
    DoublyLinkedList.splice 4 h a b (Some 1) (Some 2) (Some 4) = Cxx.Ok (h', a', b') /\
    DoublyLinkedList.represents h' a' [(0, 10%Z); (2, 1%Z); (3, 2%Z); (1, 20%Z)] /\
    DoublyLinkedList.represents h' b' [(4, 3%Z)].
Proof.
  do 6 eexists. split; [vm_compute; reflexivity|].
  split; [split; [chain_by_lookup|]; split; [chain_by_lookup|reflexivity]|].
  split; [split; [chain_by_lookup|]; split; [chain_by_lookup|reflexivity]|].
  split; [vm_compute; reflexivity|].
  split; (split; [chain_by_lookup|]; split; [chain_by_lookup|reflexivity]).
Qed.

(** With [last] at the node holding 3 the same call moves 1, 2 to A and
    leaves 3 in B. *)
Example splice_up_to_last_node :
  (do '(h, a, b) <- DoublyLinkedList.splice 4 ListExamples.dll_three_heap
                      DoublyLinkedList.make ListExamples.dll_three_list
                      None (Some 0) (Some 2);
   do xs <- DoublyLinkedList.traverse 4 h (DoublyLinkedList.head_ a);
   do ys <- DoublyLinkedList.traverse 4 h (DoublyLinkedList.head_ b);
   Cxx.Ok (xs, DoublyLinkedList.size_ a, ys, DoublyLinkedList.size_ b)) =
  Cxx.Ok ([1; 2]%Z, 2%Z, [3%Z], 1%Z).
Proof. vm_compute. reflexivity. Qed.

(** ** Doubly linked list: the modifiers *)

Section DoublyModifiers.

Import Cxx Heap DoublyLinkedList ListSpec.

Context {T : Type}.

Implicit Types (h : gmap addr (Node T)) (l : DoublyLinkedList.t) (p q : ptr).
Implicit Types (xs ys : list (addr * T)).

Lemma dseg_is_Some h p xs q a : dseg h p xs q -> a ∈ xs.*1 -> is_Some (h !! a).
Proof.
  revert p. induction xs as [|x xs IH]; intros p Hseg Ha.
  - by apply elem_of_nil in Ha.
  - destruct Hseg as [Hx Hseg]. rewrite fmap_cons in Ha.
    apply elem_of_cons in Ha as [->|Ha]; [by rewrite Hx|by eapply IH].
Qed.

Lemma dseg_lookup_last h p xs x q :
  dseg h p (xs ++ [x]) q ->
  h !! fst x = Some (MkNode (snd x) (last_addr xs p) q).
Proof. intros Hseg. by apply dseg_app in Hseg as [_ [Hx _]]. Qed.

Lemma fresh_lookup h : h !! fresh (dom h) = None.
Proof. apply not_elem_of_dom. apply is_fresh. Qed.

Lemma fresh_not_in h p xs q : dseg h p xs q -> fresh (dom h) ∉ xs.*1.
Proof.
  intros Hseg Hin. destruct (dseg_is_Some h p xs q _ Hseg Hin) as [n Hn].
  by rewrite fresh_lookup in Hn.
Qed.

Lemma last_addr_snoc xs x p : last_addr (xs ++ [x]) p = Some (fst x).
Proof. by rewrite last_addr_app. Qed.

Lemma dseg_insert_other h p xs q a n :
  a ∉ xs.*1 -> dseg h p xs q -> dseg (<[a := n]> h) p xs q.
Proof.
  intros Ha Hseg. apply (dseg_frame h); [done|].
  intros b Hb. apply lookup_insert_ne. by intros ->.
Qed.

Lemma dseg_delete_other h p xs q a :
  a ∉ xs.*1 -> dseg h p xs q -> dseg (delete a h) p xs q.
Proof.
  intros Ha Hseg. apply (dseg_frame h); [done|].
  intros b Hb. apply lookup_delete_ne. by intros ->.
Qed.

(** The statement pair [if (after) after->prev = target; else tail_ =
    target;] applied to the segment that starts at [after]. *)
Lemma link_before h l xs p p' :
  dseg h p xs None -> NoDup xs.*1 -> tail_ l = last_addr xs p ->
  exists h' l',
    match first_addr xs None with
    | Some _ => do h <- set_prev h (first_addr xs None) p'; Ok (h, l)
    | None => Ok (h, set_tail l p')
    end = Ok (h', l') /\
    dseg h' p' xs None /\
    (forall a, a ∉ xs.*1 -> h' !! a = h !! a) /\
    tail_ l' = last_addr xs p' /\ head_ l' = head_ l /\ size_ l' = size_ l.
Proof.
  intros Hseg Hnd Htail.
  destruct (first_addr xs None) as [b|] eqn:Hfirst.
  - assert (xs <> []) as Hne by (intros ->; discriminate).
    destruct (set_prev_first h p xs None p' Hne Hseg Hnd) as (h' & Hset & Hseg' & Hfr).
    rewrite Hfirst in Hset. rewrite Hset. cbn [bind].
    exists h', l. split; [done|]. split; [done|]. split; [done|].
    split; [|done]. rewrite Htail. by apply last_addr_nonempty.
  - apply first_addr_empty in Hfirst as ->.
    exists h, (set_tail l p'). done.
Qed.

Lemma dll_push_back_represents h l xs v :
  represents h l xs -> (Z.of_nat (length xs) + 1 < 2 ^ width)%Z ->
  exists h' l',
    push_back h l v = Ok (h', l') /\
    represents h' l' (xs ++ [(fresh (dom h), v)]) /\
    (forall b, b ∉ xs.*1 -> b <> fresh (dom h) -> h' !! b = h !! b).
Proof.
  intros Hrep Hbound.
  pose proof (chain_NoDup _ _ _ _ _ (proj1 Hrep)) as Hnd.
  apply represents_dseg in Hrep as (Hseg & Hh & Ht & Hs).
  pose proof (fresh_lookup h) as Ha. pose proof (fresh_not_in h _ _ _ Hseg) as Hnotin.
  unfold push_back, create_node. set (a := fresh (dom h)) in *.
  unfold empty. rewrite Hs.
  destruct (decide (xs = [])) as [->|Hne].
  - cbn [length Z.of_nat Z.eqb bind]. eexists _, _. split; [done|]. split.
    + apply represents_dseg. cbn. rewrite lookup_insert_eq.
      rewrite Hs. done.
    + intros b _ Hb. by apply lookup_insert_ne.
  - destruct (Z.eqb_spec (Z.of_nat (length xs)) 0) as [H0|_].
    { destruct xs; [done|cbn in H0; lia]. }
    unfold set_prev at 1. cbn [get]. rewrite lookup_insert_eq. cbn [bind data next].
    rewrite insert_insert_eq.
    assert (dseg (<[a:=MkNode v (tail_ l) None]> h) None xs None) as Hseg1
      by (by apply dseg_insert_other).
    destruct (set_next_last _ None xs None (Some a) Hne Hseg1 Hnd) as (h3 & Hset & Hseg3 & Hfr).
    rewrite <- Ht in Hset. rewrite Hset. cbn [bind].
    eexists _, _. split; [done|]. split.
    + apply represents_dseg. cbn [head_ tail_ size_ set_size set_tail].
      split; [|split; [|split]].
      * apply dseg_app. split; [done|]. cbn. split; [|done].
        rewrite Hfr by done. rewrite lookup_insert_eq. by rewrite Ht.
      * rewrite Hh, first_addr_app. by apply first_addr_nonempty.
      * by rewrite last_addr_snoc.
      * rewrite to_size_t_small by lia. rewrite length_app. cbn. lia.
    + intros b Hb Hba. rewrite Hfr by done. by apply lookup_insert_ne.
Qed.

Lemma dll_push_front_represents h l xs v :
  represents h l xs -> (Z.of_nat (length xs) + 1 < 2 ^ width)%Z ->
  exists h' l',
    push_front h l v = Ok (h', l') /\
    represents h' l' ((fresh (dom h), v) :: xs) /\
    (forall b, b ∉ xs.*1 -> b <> fresh (dom h) -> h' !! b = h !! b).
Proof.
  intros Hrep Hbound.
  pose proof (chain_NoDup _ _ _ _ _ (proj1 Hrep)) as Hnd.
  apply represents_dseg in Hrep as (Hseg & Hh & Ht & Hs).
  pose proof (fresh_lookup h) as Ha. pose proof (fresh_not_in h _ _ _ Hseg) as Hnotin.
  unfold push_front, create_node. set (a := fresh (dom h)) in *.
  unfold empty. rewrite Hs.
  destruct (decide (xs = [])) as [->|Hne].
  - cbn [length Z.of_nat Z.eqb bind]. eexists _, _. split; [done|]. split.
    + apply represents_dseg. cbn. rewrite lookup_insert_eq.
      rewrite Hs. done.
    + intros b _ Hb. by apply lookup_insert_ne.
  - destruct (Z.eqb_spec (Z.of_nat (length xs)) 0) as [H0|_].
    { destruct xs; [done|cbn in H0; lia]. }
    unfold set_next at 1. cbn [get]. rewrite lookup_insert_eq. cbn [bind data prev].
    rewrite insert_insert_eq.
    assert (dseg (<[a:=MkNode v None (head_ l)]> h) None xs None) as Hseg1
      by (by apply dseg_insert_other).
    destruct (set_prev_first _ None xs None (Some a) Hne Hseg1 Hnd) as (h3 & Hset & Hseg3 & Hfr).
    rewrite <- Hh in Hset. rewrite Hset. cbn [bind].
    eexists _, _. split; [done|]. split.
    + apply represents_dseg. cbn [head_ tail_ size_ set_size set_head].
      split; [|split; [|split]].
      * cbn [dseg fst snd]. split; [|done].
        rewrite Hfr by done. rewrite lookup_insert_eq. by rewrite Hh.
      * done.
      * rewrite Ht, last_addr_cons. by apply last_addr_nonempty.
      * rewrite to_size_t_small by lia. cbn [length]. lia.
    + intros b Hb Hba. rewrite Hfr by done. by apply lookup_insert_ne.
Qed.

Lemma dll_destroy_node_Some h a n :
  h !! a = Some n -> destroy_node h (Some a) = Ok (delete a h).
Proof. intros Hn. unfold destroy_node. by rewrite Hn. Qed.

Lemma dll_pop_front_represents h l x xs :
  represents h l (x :: xs) -> (Z.of_nat (length xs) + 1 < 2 ^ width)%Z ->
  exists h' l',
    pop_front h l = Ok (h', l') /\
    represents h' l' xs /\ h' !! fst x = None /\
    (forall b, b ∉ (x :: xs).*1 -> h' !! b = h !! b).
Proof.
  intros Hrep Hbound.
  pose proof (chain_NoDup _ _ _ _ _ (proj1 Hrep)) as Hnd.
  apply represents_dseg in Hrep as (Hseg & Hh & Ht & Hs).
  rewrite fmap_cons in Hnd. apply NoDup_cons in Hnd as [Hx Hnd].
  destruct Hseg as [Hlx Hseg]. cbn [first_addr] in Hh. cbn [length] in Hs.
  unfold pop_front, empty. rewrite Hs.
  destruct (Z.eqb_spec (Z.of_nat (S (length xs))) 0) as [H0|_]; [lia|].
  rewrite Hh. cbn [get]. rewrite Hlx. cbn [bind next head_ set_head].
  rewrite last_addr_cons in Ht.
  destruct (link_before h (set_head l (first_addr xs None)) xs (Some (fst x)) None
              Hseg Hnd Ht) as (h1 & l1 & Hlink & Hseg1 & Hfr & Ht1 & Hh1 & Hs1).
  rewrite Hlink. cbn [bind].
  rewrite (dll_destroy_node_Some h1 (fst x) _ ltac:(by rewrite Hfr)). cbn [bind].
  eexists _, _. split; [done|]. split; [|split].
  - apply represents_dseg. cbn [head_ tail_ size_ set_size].
    split; [by apply dseg_delete_other|]. split; [by rewrite Hh1|]. split; [done|].
    rewrite Hs1. cbn [size_ set_head]. rewrite Hs, to_size_t_small by lia. lia.
  - apply lookup_delete_eq.
  - intros b Hb. rewrite fmap_cons in Hb. apply not_elem_of_cons in Hb as [Hbx Hb].
    rewrite lookup_delete_ne by done. by apply Hfr.
Qed.

Lemma dll_pop_back_represents h l xs x :
  represents h l (xs ++ [x]) -> (Z.of_nat (length xs) + 1 < 2 ^ width)%Z ->
  exists h' l',
    pop_back h l = Ok (h', l') /\
    represents h' l' xs /\ h' !! fst x = None /\
    (forall b, b ∉ (xs ++ [x]).*1 -> h' !! b = h !! b).
Proof.
  intros Hrep Hbound.
  pose proof (chain_NoDup _ _ _ _ _ (proj1 Hrep)) as Hnd.
  apply represents_dseg in Hrep as (Hseg & Hh & Ht & Hs).
  rewrite fmap_app in Hnd. apply NoDup_app in Hnd as (Hnd & Hx & _).
  pose proof (dseg_lookup_last _ _ _ _ _ Hseg) as Hlx.
  apply dseg_app in Hseg as [Hseg _]. cbn [first_addr] in Hseg.
  rewrite last_addr_snoc in Ht. rewrite first_addr_app in Hh. cbn [first_addr] in Hh.
  rewrite length_app in Hs. cbn [length] in Hs.
  unfold pop_back, empty. rewrite Hs.
  destruct (Z.eqb_spec (Z.of_nat (length xs + 1)) 0) as [H0|_]; [lia|].
  rewrite Ht. cbn [get]. rewrite Hlx. cbn [bind prev tail_ set_tail].
  destruct (link_after h (set_tail l (last_addr xs None)) xs (Some (fst x)) None
              Hseg Hnd Hh) as (h1 & l1 & Hlink & Hseg1 & Hfr & Hh1 & Ht1 & Hs1).
  rewrite Hlink. cbn [bind].
  assert (fst x ∉ xs.*1) as Hxn.
  { intros Hin. apply (Hx _ Hin). cbn. apply elem_of_cons. by left. }
  rewrite (dll_destroy_node_Some h1 (fst x) _ ltac:(by rewrite Hfr)). cbn [bind].
  eexists _, _. split; [done|]. split; [|split].
  - apply represents_dseg. cbn [head_ tail_ size_ set_size].
    split; [by apply dseg_delete_other|]. split; [done|]. split; [by rewrite Ht1|].
    rewrite Hs1. cbn [size_ set_tail]. rewrite Hs, to_size_t_small by lia. lia.
  - apply lookup_delete_eq.
  - intros b Hb. rewrite fmap_app in Hb. apply not_elem_of_app in Hb as [Hb Hbx].
    rewrite lookup_delete_ne; [by apply Hfr|].
    intros <-. apply Hbx. cbn. apply elem_of_cons. by left.
Qed.

(** The nodes of a list cut at one of them. *)
Lemma dll_represents_split h l xs1 c xs2 :
  represents h l (xs1 ++ c :: xs2) ->
  dseg h None xs1 (Some (fst c)) /\
  h !! fst c = Some (MkNode (snd c) (last_addr xs1 None) (first_addr xs2 None)) /\
  dseg h (Some (fst c)) xs2 None /\
  NoDup xs1.*1 /\ NoDup xs2.*1 /\ (fst c ∉ xs1.*1) /\ (fst c ∉ xs2.*1) /\
  (forall a, a ∈ xs1.*1 -> a ∉ xs2.*1) /\
  head_ l = first_addr xs1 (Some (fst c)) /\
  tail_ l = last_addr xs2 (Some (fst c)) /\
  size_ l = Z.of_nat (length xs1 + S (length xs2)).
Proof.
  intros Hrep.
  pose proof (chain_NoDup _ _ _ _ _ (proj1 Hrep)) as Hnd.
  apply represents_dseg in Hrep as (Hseg & Hh & Ht & Hs).
  apply dseg_app in Hseg as [Hseg1 [Hc Hseg2]]. cbn [first_addr] in Hseg1.
  rewrite fmap_app, fmap_cons in Hnd.
  apply NoDup_app in Hnd as (Hnd1 & Hdis & Hnd2).
  apply NoDup_cons in Hnd2 as [Hc2 Hnd2].
  rewrite first_addr_app in Hh. rewrite last_addr_app, last_addr_cons in Ht.
  rewrite length_app in Hs. cbn [length] in Hs.
  split; [done|]. split; [done|]. split; [done|]. split; [done|]. split; [done|].
  split. { intros Hin. apply (Hdis _ Hin). apply elem_of_cons. by left. }
  split; [done|].
  split. { intros a Ha Ha'. apply (Hdis _ Ha). apply elem_of_cons. by right. }
  done.
Qed.

Lemma dll_insert_represents h l xs1 c xs2 v :
  represents h l (xs1 ++ c :: xs2) ->
  (Z.of_nat (length (xs1 ++ c :: xs2)) + 1 < 2 ^ width)%Z ->
  exists h' l',
    insert h l (Some (fst c)) v = Ok (h', l', Some (fresh (dom h))) /\
    represents h' l' (xs1 ++ (fresh (dom h), v) :: c :: xs2) /\
    (forall b, b ∉ (xs1 ++ c :: xs2).*1 -> b <> fresh (dom h) -> h' !! b = h !! b).
Proof.
  intros Hrep Hbound.
  pose proof (fresh_lookup h) as Ha.
  assert (fresh (dom h) ∉ (xs1 ++ c :: xs2).*1) as Hnotin.
  { apply represents_dseg in Hrep as (Hseg & _). by eapply fresh_not_in. }
  destruct (dll_represents_split h l xs1 c xs2 Hrep)
    as (Hseg1 & Hc & Hseg2 & Hnd1 & Hnd2 & Hc1 & Hc2 & Hdis & Hh & Ht & Hs).
  rewrite fmap_app, fmap_cons in Hnotin.
  apply not_elem_of_app in Hnotin as [Hn1 Hn2].
  apply not_elem_of_cons in Hn2 as [Hnc Hn2].
  rewrite length_app in Hbound. cbn [length] in Hbound.
  unfold insert, create_node. set (a := fresh (dom h)) in *.
  erewrite set_next_Some by apply lookup_insert_eq. cbn [bind data prev].
  rewrite insert_insert_eq.
  erewrite (get_Some _ (fst c)); [|rewrite lookup_insert_ne by done; exact Hc].
  cbn [bind prev].
  erewrite set_prev_Some by apply lookup_insert_eq. cbn [bind data next].
  rewrite insert_insert_eq.
  erewrite (get_Some _ (fst c)); [|rewrite lookup_insert_ne by done; exact Hc].
  cbn [bind prev].
  set (h3 := <[a := MkNode v (last_addr xs1 None) (Some (fst c))]> h).
  assert (dseg h3 None xs1 (Some (fst c))) as Hseg1' by (by apply dseg_insert_other).
  destruct (link_after h3 l xs1 _ (Some a) Hseg1' Hnd1 Hh)
    as (h4 & l4 & -> & Hseg4 & Hfr4 & Hh4 & Ht4 & Hs4).
  cbn [bind].
  assert (dseg h4 (last_addr xs1 None) (c :: xs2) None) as Hseg2'.
  { apply (dseg_frame h3).
    - split; [by unfold h3; rewrite lookup_insert_ne, Hc|].
      by apply dseg_insert_other.
    - intros b Hb. apply Hfr4. rewrite fmap_cons in Hb.
      apply elem_of_cons in Hb as [->|Hb]; [done|]. intros Hb'. by apply (Hdis _ Hb'). }
  destruct (set_prev_first h4 _ (c :: xs2) None (Some a) ltac:(done) Hseg2')
    as (h5 & Hset & Hseg5 & Hfr5).
  { rewrite fmap_cons. by apply NoDup_cons. }
  cbn [first_addr] in Hset. rewrite Hset. cbn [bind].
  eexists _, _. split; [done|]. split.
  - apply represents_dseg. cbn [head_ tail_ size_ set_size].
    split; [|split; [|split]].
    + apply dseg_app. split.
      * cbn [first_addr fst]. apply (dseg_frame h4); [done|].
        intros b Hb. apply Hfr5. rewrite fmap_cons. apply not_elem_of_cons.
        split; [by intros ->|]. by apply Hdis.
      * split; [|done]. cbn [fst snd first_addr].
        rewrite Hfr5 by (rewrite fmap_cons; by apply not_elem_of_cons).
        rewrite Hfr4 by done. unfold h3. by rewrite lookup_insert_eq.
    + rewrite Hh4, first_addr_app. done.
    + rewrite Ht4, Ht, last_addr_app, !last_addr_cons. done.
    + rewrite Hs4, Hs, to_size_t_small by lia. rewrite length_app. cbn [length]. lia.
  - intros b Hb Hba. rewrite fmap_app, fmap_cons in Hb.
    apply not_elem_of_app in Hb as [Hb1 Hb2].
    rewrite Hfr5 by (by rewrite fmap_cons).
    rewrite Hfr4 by done. unfold h3. by apply lookup_insert_ne.
Qed.

Lemma dll_unlink_represents h l xs1 c xs2 :
  represents h l (xs1 ++ c :: xs2) ->
  (Z.of_nat (length (xs1 ++ c :: xs2)) < 2 ^ width)%Z ->
  exists h' l',
    unlink h l (Some (fst c)) = Ok (h', l') /\
    represents h' l' (xs1 ++ xs2) /\ h' !! fst c = None /\
    (forall b, b ∉ (xs1 ++ c :: xs2).*1 -> h' !! b = h !! b).
Proof.
  intros Hrep Hbound.
  destruct (dll_represents_split h l xs1 c xs2 Hrep)
    as (Hseg1 & Hc & Hseg2 & Hnd1 & Hnd2 & Hc1 & Hc2 & Hdis & Hh & Ht & Hs).
  rewrite length_app in Hbound. cbn [length] in Hbound.
  unfold unlink. rewrite (get_Some h (fst c) _ Hc). cbn [bind prev next].
  destruct (link_after h l xs1 _ (first_addr xs2 None) Hseg1 Hnd1 Hh)
    as (h1 & l1 & -> & Hseg1' & Hfr1 & Hh1 & Ht1 & Hs1).
  cbn [bind].
  rewrite (get_Some h1 (fst c) _ ltac:(by rewrite Hfr1)). cbn [bind prev next].
  assert (dseg h1 (Some (fst c)) xs2 None) as Hseg2'.
  { apply (dseg_frame h); [done|]. intros b Hb. apply Hfr1.
    intros Hb'. by apply (Hdis _ Hb'). }
  destruct (link_before h1 l1 xs2 _ (last_addr xs1 None) Hseg2' Hnd2 ltac:(by rewrite Ht1))
    as (h2 & l2 & -> & Hseg2'' & Hfr2 & Ht2 & Hh2 & Hs2).
  cbn [bind].
  rewrite (dll_destroy_node_Some h2 (fst c) _ ltac:(by rewrite Hfr2, Hfr1)). cbn [bind].
  eexists _, _. split; [done|]. split; [|split].
  - apply represents_dseg. cbn [head_ tail_ size_ set_size].
    split; [|split; [|split]].
    + apply dseg_app. split; apply dseg_delete_other; try done.
      apply (dseg_frame h1); [done|]. intros b Hb. apply Hfr2. by apply Hdis.
    + by rewrite Hh2, Hh1, first_addr_app.
    + by rewrite Ht2, last_addr_app.
    + rewrite Hs2, Hs1, Hs, to_size_t_small by lia. rewrite length_app. lia.
  - apply lookup_delete_eq.
  - intros b Hb. rewrite fmap_app, fmap_cons in Hb.
    apply not_elem_of_app in Hb as [Hb1 Hb2].
    apply not_elem_of_cons in Hb2 as [Hbc Hb2].
    rewrite lookup_delete_ne by done. by rewrite Hfr2, Hfr1.
Qed.

(** On a node of the list [erase] executes what the loops of [remove]
    execute, and returns the iterator to the next node. *)
Lemma erase_unlink h l xs1 c xs2 :
  represents h l (xs1 ++ c :: xs2) ->
  erase h l (Some (fst c)) =
  do '(h', l') <- unlink h l (Some (fst c)); Ok (h', l', first_addr xs2 None).
Proof.
  intros Hrep.
  destruct (dll_represents_split h l xs1 c xs2 Hrep)
    as (Hseg1 & Hc & Hseg2 & Hnd1 & Hnd2 & Hc1 & Hc2 & Hdis & Hh & Ht & Hs).
  unfold erase, unlink, empty. rewrite Hs.
  destruct (Z.eqb_spec (Z.of_nat (length xs1 + S (length xs2))) 0) as [H0|_]; [lia|].
  cbn [orb]. rewrite bool_decide_eq_false_2 by done.
  rewrite (get_Some h (fst c) _ Hc). cbn [bind prev next].
  destruct (link_after h l xs1 _ (first_addr xs2 None) Hseg1 Hnd1 Hh)
    as (h1 & l1 & -> & Hseg1' & Hfr1 & Hh1 & Ht1 & Hs1).
  cbn [bind].
  rewrite (get_Some h1 (fst c) _ ltac:(by rewrite Hfr1)). cbn [bind prev next].
  destruct (match first_addr xs2 None with
            | Some _ => do h0 <- set_prev h1 (first_addr xs2 None) (last_addr xs1 None);
                        Ok (h0, l1)
            | None => Ok (h1, set_tail l1 (last_addr xs1 None))
            end) as [[h2 l2]| | |]; cbn [bind]; try done.
  by destruct (destroy_node h2 (Some (fst c))).
Qed.

Lemma dll_clear_loop_spec xs : forall h p fuel,
  dseg h p xs None -> NoDup xs.*1 -> length xs < fuel ->
  exists h',
    clear_loop fuel h (first_addr xs None) = Ok h' /\
    (forall a, a ∈ xs.*1 -> h' !! a = None) /\
    (forall b, b ∉ xs.*1 -> h' !! b = h !! b).
Proof.
  induction xs as [|x xs IH]; intros h p fuel Hseg Hnd Hfuel.
  - destruct fuel as [|k]; [cbn in Hfuel; lia|]. exists h. cbn.
    split; [done|]. split; [|done]. intros a Ha. by apply elem_of_nil in Ha.
  - destruct fuel as [|k]; [cbn in Hfuel; lia|].
    destruct Hseg as [Hx Hseg]. rewrite fmap_cons in Hnd.
    apply NoDup_cons in Hnd as [Hxn Hnd].
    cbn [clear_loop first_addr]. rewrite (get_Some h (fst x) _ Hx). cbn [bind next].
    rewrite (dll_destroy_node_Some h (fst x) _ Hx). cbn [bind].
    destruct (IH (delete (fst x) h) (Some (fst x)) k) as (h' & -> & Hfreed & Hfr).
    { by apply dseg_delete_other. }
    { done. }
    { cbn in Hfuel. lia. }
    exists h'. split; [done|]. split.
    + intros a Ha. rewrite fmap_cons in Ha. apply elem_of_cons in Ha as [->|Ha].
      * rewrite Hfr by done. apply lookup_delete_eq.
      * by apply Hfreed.
    + intros b Hb. rewrite fmap_cons in Hb. apply not_elem_of_cons in Hb as [Hbx Hb].
      rewrite Hfr by done. by apply lookup_delete_ne.
Qed.

Lemma dll_remove_if_loop_spec (pred : T -> bool) zs : forall h l ys fuel,
  represents h l (ys ++ zs) ->
  (Z.of_nat (length (ys ++ zs)) < 2 ^ width)%Z -> length zs < fuel ->
  exists h' l',
    remove_if_loop pred fuel h l (first_addr zs None) = Ok (h', l') /\
    represents h' l' (ys ++ filter (fun z => pred (snd z) = false) zs) /\
    (forall z, z ∈ zs -> pred (snd z) = true -> h' !! fst z = None) /\
    (forall b, b ∉ (ys ++ zs).*1 -> h' !! b = h !! b).
Proof.
  induction zs as [|z zs IH]; intros h l ys fuel Hrep Hbound Hfuel.
  - destruct fuel as [|k]; [cbn in Hfuel; lia|]. exists h, l. cbn [remove_if_loop first_addr].
    split; [done|]. split; [done|]. split; [|done].
    intros z Hz. by apply elem_of_nil in Hz.
  - destruct fuel as [|k]; [cbn in Hfuel; lia|].
    destruct (dll_represents_split h l ys z zs Hrep)
      as (_ & Hz & _ & _ & _ & Hz1 & Hz2 & _).
    cbn [remove_if_loop first_addr]. rewrite (get_Some h (fst z) _ Hz).
    cbn [bind data next].
    destruct (pred (snd z)) eqn:Hp.
    + destruct (dll_unlink_represents h l ys z zs Hrep Hbound)
        as (h1 & l1 & -> & Hrep1 & Hfreed1 & Hfr1).
      cbn [bind].
      destruct (IH h1 l1 ys k Hrep1) as (h' & l' & -> & Hrep' & Hfreed & Hfr).
      { rewrite length_app in *. cbn [length] in Hbound. lia. }
      { cbn in Hfuel. lia. }
      exists h', l'. split; [done|].
      rewrite filter_cons_False by (by rewrite Hp).
      split; [done|]. split.
      * intros w Hw Hpw. apply elem_of_cons in Hw as [->|Hw]; [|by apply Hfreed].
        rewrite Hfr; [done|]. rewrite fmap_app. apply not_elem_of_app. done.
      * intros b Hb. rewrite Hfr, Hfr1; [done|done|].
        rewrite fmap_app, fmap_cons in Hb. rewrite fmap_app.
        apply not_elem_of_app in Hb as [Hb1 Hb2].
        apply not_elem_of_cons in Hb2 as [_ Hb2]. by apply not_elem_of_app.
    + rewrite (app_assoc ys [z] zs : ys ++ z :: zs = (ys ++ [z]) ++ zs) in Hrep, Hbound.
      destruct (IH h l (ys ++ [z]) k Hrep Hbound) as (h' & l' & -> & Hrep' & Hfreed & Hfr).
      { cbn in Hfuel. lia. }
      exists h', l'. split; [done|].
      rewrite filter_cons_True by done. rewrite <- app_assoc in Hrep'.
      split; [done|]. split.
      * intros w Hw Hpw. apply elem_of_cons in Hw as [->|Hw]; [congruence|].
        by apply Hfreed.
      * intros b Hb. apply Hfr. by rewrite <- app_assoc.
Qed.

Lemma dll_represents_frame h h' l xs :
  represents h l xs -> (forall a, a ∈ xs.*1 -> h' !! a = h !! a) ->
  represents h' l xs.
Proof.
  intros Hrep Hfr. apply represents_dseg in Hrep as (Hseg & Hrest).
  apply represents_dseg. split; [|done]. by apply (dseg_frame h).
Qed.

Lemma unique_nodes_head (eqb : T -> T -> bool) c zs :
  exists rest, unique_nodes eqb c zs = c :: rest.
Proof.
  revert c. induction zs as [|z zs IH]; intros c; cbn; [by eexists|].
  destruct (eqb (snd c) (snd z)); [apply IH|by eexists].
Qed.

Lemma dll_unique_loop_spec (eqb : T -> T -> bool) zs : forall h l ys c fuel,
  represents h l (ys ++ c :: zs) ->
  (Z.of_nat (length (ys ++ c :: zs)) < 2 ^ width)%Z -> length zs < fuel ->
  exists h' l',
    unique_loop eqb fuel h l (Some (fst c)) = Ok (h', l') /\
    represents h' l' (ys ++ unique_nodes eqb c zs) /\
    (forall a, a ∈ (c :: zs).*1 -> a ∉ (unique_nodes eqb c zs).*1 -> h' !! a = None) /\
    (forall b, b ∉ (ys ++ c :: zs).*1 -> h' !! b = h !! b).
Proof.
  induction zs as [|z zs IH]; intros h l ys c fuel Hrep Hbound Hfuel.
  - destruct fuel as [|k]; [cbn in Hfuel; lia|].
    destruct (dll_represents_split h l ys c [] Hrep) as (_ & Hc & _).
    cbn [unique_loop]. rewrite (get_Some h (fst c) _ Hc). cbn [bind next first_addr].
    exists h, l. split; [done|]. split; [done|]. split; [|done].
    intros a Ha Ha'. done.
  - destruct fuel as [|k]; [cbn in Hfuel; lia|].
    destruct (dll_represents_split h l ys c (z :: zs) Hrep)
      as (Hseg1 & Hc & [Hz Hseg2] & Hnd1 & Hnd2 & Hc1 & Hc2 & Hdis & Hh & Ht & Hs).
    rewrite fmap_cons in Hnd2, Hc2. apply NoDup_cons in Hnd2 as [Hzn Hnd2].
    apply not_elem_of_cons in Hc2 as [Hcz Hc2].
    cbn [unique_loop]. rewrite (get_Some h (fst c) _ Hc). cbn [bind next first_addr].
    rewrite (get_Some h (fst z) _ Hz). cbn [bind data next].
    cbn [unique_nodes].
    destruct (eqb (snd c) (snd z)) eqn:Heq.
    + rewrite (set_next_Some h (fst c) _ _ Hc). cbn [bind data prev next].
      set (h1 := <[fst c := MkNode (snd c) (last_addr ys None) (first_addr zs None)]> h).
      rewrite (get_Some h1 (fst z) _ ltac:(by unfold h1; rewrite lookup_insert_ne, Hz)).
      cbn [bind next].
      assert (dseg h1 (Some (fst z)) zs None) as Hseg2' by (by apply dseg_insert_other).
      rewrite last_addr_cons in Ht.
      destruct (link_before h1 l zs _ (Some (fst c)) Hseg2' Hnd2 Ht)
        as (h2 & l2 & -> & Hseg2'' & Hfr2 & Ht2 & Hh2 & Hs2).
      cbn [bind].
      rewrite (dll_destroy_node_Some h2 (fst z) (MkNode (snd z) (Some (fst c)) (first_addr zs None))).
      2:{ rewrite Hfr2 by done. unfold h1. by rewrite lookup_insert_ne, Hz. }
      cbn [bind].
      assert (forall a, a ∈ ys.*1 -> a ∉ zs.*1) as Hdis'.
      { intros a Ha Ha'. apply (Hdis _ Ha). rewrite fmap_cons. apply elem_of_cons. by right. }
      assert (fst z ∉ ys.*1) as Hzy.
      { intros Ha. apply (Hdis _ Ha). rewrite fmap_cons. apply elem_of_cons. by left. }
      rewrite length_app in Hbound. cbn [length] in Hbound, Hs.
      destruct (IH (delete (fst z) h2) (set_size l2 (to_size_t (size_ l2 - 1))) ys c k)
        as (h' & l' & -> & Hrep' & Hfreed & Hfr).
      { apply represents_dseg. cbn [head_ tail_ size_ set_size].
        split; [|split; [|split]].
        - apply dseg_app. split.
          + apply dseg_delete_other; [done|]. apply (dseg_frame h); [done|].
            intros a Ha. rewrite Hfr2 by (by apply Hdis'). unfold h1.
            apply lookup_insert_ne. by intros <-.
          + split; [|by apply dseg_delete_other].
            rewrite lookup_delete_ne by done. rewrite Hfr2 by done.
            unfold h1. by rewrite lookup_insert_eq.
        - by rewrite Hh2, Hh, first_addr_app.
        - by rewrite Ht2, last_addr_app, last_addr_cons.
        - rewrite Hs2, Hs, to_size_t_small by lia. rewrite length_app. cbn [length]. lia. }
      { rewrite length_app. cbn [length]. lia. }
      { cbn in Hfuel. lia. }
      exists h', l'. split; [done|]. split; [done|]. split.
      * intros a Ha Ha'. rewrite !fmap_cons in Ha.
        apply elem_of_cons in Ha as [->|Ha].
        { apply Hfreed; [|done]. rewrite fmap_cons. apply elem_of_cons. by left. }
        apply elem_of_cons in Ha as [->|Ha].
        { rewrite Hfr; [apply lookup_delete_eq|].
          rewrite fmap_app, fmap_cons. apply not_elem_of_app. split; [done|].
          apply not_elem_of_cons. split; [congruence|done]. }
        apply Hfreed; [|done]. rewrite fmap_cons. apply elem_of_cons. by right.
      * intros b Hb. rewrite fmap_app, !fmap_cons in Hb.
        apply not_elem_of_app in Hb as [Hb1 Hb2].
        apply not_elem_of_cons in Hb2 as [Hbc Hb2].
        apply not_elem_of_cons in Hb2 as [Hbz Hb2].
        rewrite Hfr.
        2:{ rewrite fmap_app, fmap_cons. apply not_elem_of_app. split; [done|].
            by apply not_elem_of_cons. }
        rewrite lookup_delete_ne by done. rewrite Hfr2 by done.
        unfold h1. by apply lookup_insert_ne.
    + rewrite (app_assoc ys [c] (z :: zs) : ys ++ c :: z :: zs = (ys ++ [c]) ++ z :: zs)
        in Hrep, Hbound.
      destruct (IH h l (ys ++ [c]) z k Hrep Hbound) as (h' & l' & -> & Hrep' & Hfreed & Hfr).
      { cbn in Hfuel. lia. }
      exists h', l'. split; [done|]. rewrite <- app_assoc in Hrep'.
      split; [done|]. split.
      * intros a Ha Ha'. rewrite fmap_cons in Ha, Ha'.
        apply not_elem_of_cons in Ha' as [Hac Ha'].
        apply elem_of_cons in Ha as [->|Ha]; [done|]. by apply Hfreed.
      * intros b Hb. apply Hfr. by rewrite <- app_assoc.
Qed.

Section Equality.

Variable ne : T -> T -> bool.
Hypothesis ne_spec : forall x y, ne x y = false <-> x = y.

Lemma dll_equal_loop_spec xs : forall ys h p p' fuel,
  dseg h p xs None -> dseg h p' ys None ->
  length xs = length ys -> length xs < fuel ->
  exists r,
    equal_loop ne fuel h (first_addr xs None) (first_addr ys None) = Ok r /\
    (r = true <-> xs.*2 = ys.*2).
Proof using ne_spec.
  induction xs as [|x xs IH]; intros ys h p p' fuel Hx Hy Hlen Hfuel.
  - destruct fuel as [|k]; [cbn in Hfuel; lia|].
    destruct ys; [|done]. exists true. done.
  - destruct fuel as [|k]; [cbn in Hfuel; lia|].
    destruct ys as [|y ys]; [done|].
    destruct Hx as [Hlx Hx]. destruct Hy as [Hly Hy].
    cbn [equal_loop first_addr].
    rewrite (get_Some h (fst x) _ Hlx), (get_Some h (fst y) _ Hly).
    cbn [bind data next]. rewrite !fmap_cons.
    destruct (ne (snd x) (snd y)) eqn:Hne.
    + exists false. split; [done|]. split; [done|].
      intros [= Hxy _]. apply ne_spec in Hxy. congruence.
    + apply ne_spec in Hne.
      destruct (IH ys h _ _ k Hx Hy) as (r & -> & Hr).
      { cbn in Hlen. lia. }
      { cbn in Hfuel. lia. }
      exists r. split; [done|]. rewrite Hr, Hne.
      split; [by intros ->|by intros [= ->]].
Qed.

End Equality.

Lemma dll_copy_from_loop_spec other rest : forall h l ys done fuel,
  represents h other (done ++ rest) -> represents h l ys ->
  (forall a, a ∈ ys.*1 -> a ∉ (done ++ rest).*1) ->
  (Z.of_nat (length ys + length rest) < 2 ^ width)%Z -> length rest < fuel ->
  exists h' l' zs,
    copy_from_loop fuel h l (first_addr rest None) = Ok (h', l') /\
    represents h' l' (ys ++ zs) /\ zs.*2 = rest.*2 /\
    represents h' other (done ++ rest) /\
    (forall a, a ∈ zs.*1 -> h !! a = None) /\
    (forall b, b ∉ ys.*1 -> is_Some (h !! b) -> h' !! b = h !! b).
Proof.
  induction rest as [|r rest IH]; intros h l ys done fuel Hother Hl Hdis Hbound Hfuel.
  - destruct fuel as [|k]; [cbn in Hfuel; lia|]. exists h, l, [].
    cbn [copy_from_loop first_addr]. rewrite app_nil_r.
    split; [done|]. split; [done|]. split; [done|]. split; [done|]. split; [|done].
    intros a Ha. by apply elem_of_nil in Ha.
  - destruct fuel as [|k]; [cbn in Hfuel; lia|].
    destruct (dll_represents_split h other done r rest Hother) as (_ & Hr & _).
    cbn [copy_from_loop first_addr]. rewrite (get_Some h (fst r) _ Hr).
    cbn [bind data]. cbn [length] in Hbound.
    destruct (dll_push_back_represents h l ys (snd r) Hl ltac:(lia))
      as (h1 & l1 & -> & Hl1 & Hfr1).
    cbn [bind].
    assert (fresh (dom h) ∉ (done ++ r :: rest).*1) as Hfresh.
    { apply represents_dseg in Hother as (Hseg & _). by eapply fresh_not_in. }
    assert (forall a, a ∈ (done ++ r :: rest).*1 -> h1 !! a = h !! a) as Hsame.
    { intros a Ha. apply Hfr1; [|by intros ->]. intros Ha'. by apply (Hdis _ Ha'). }
    assert (fst r ∈ (done ++ r :: rest).*1) as Hrin.
    { rewrite fmap_app, fmap_cons. apply elem_of_app. right. apply elem_of_cons. by left. }
    rewrite (get_Some h1 (fst r) _ ltac:(by rewrite Hsame, Hr)). cbn [bind next].
    pose proof (dll_represents_frame h h1 other _ Hother Hsame) as Hother1.
    rewrite (app_assoc done [r] rest : done ++ r :: rest = (done ++ [r]) ++ rest)
      in Hother1, Hfresh, Hdis.
    destruct (IH h1 l1 (ys ++ [(fresh (dom h), snd r)]) (done ++ [r]) k Hother1 Hl1)
      as (h' & l' & zs & -> & Hl' & Hzs & Hother' & Hnew & Hfr).
    { intros a Ha. rewrite fmap_app in Ha. apply elem_of_app in Ha as [Ha|Ha].
      - by apply Hdis.
      - cbn in Ha. apply elem_of_cons in Ha as [->|Ha]; [done|].
        by apply elem_of_nil in Ha. }
    { rewrite length_app. cbn [length]. lia. }
    { cbn in Hfuel. lia. }
    exists h', l', ((fresh (dom h), snd r) :: zs). split; [done|].
    rewrite <- app_assoc in Hl', Hother'. split; [done|].
    split; [by rewrite !fmap_cons, Hzs|]. split; [done|]. split.
    + intros a Ha. rewrite fmap_cons in Ha.
      apply elem_of_cons in Ha as [->|Ha]; [apply fresh_lookup|].
      pose proof (chain_NoDup _ _ _ _ _ (proj1 Hl')) as Hnd.
      rewrite !fmap_app in Hnd. apply NoDup_app in Hnd as (_ & Hd1 & Hnd2).
      cbn in Hnd2. apply NoDup_cons in Hnd2 as [Hd2 _].
      rewrite <- Hfr1; [by apply Hnew| |by intros ->].
      intros Hay. apply (Hd1 _ Hay). cbn. apply elem_of_cons. by right.
    + intros b Hb Hsome.
      assert (b <> fresh (dom h)) as Hbf.
      { intros ->. rewrite fresh_lookup in Hsome. by destruct Hsome. }
      rewrite Hfr; [by apply Hfr1| |by rewrite Hfr1].
      rewrite fmap_app. apply not_elem_of_app. split; [done|].
      cbn. apply not_elem_of_cons. split; [done|]. apply not_elem_of_nil.
Qed.


End DoublyModifiers.

(** ** Doubly linked list: behaviour of the member functions *)

Section DoublyProperties.

Import Cxx Heap DoublyLinkedList ListSpec.

Context {T : Type}.

Implicit Types (h : gmap addr (Node T)) (l : DoublyLinkedList.t).
Implicit Types (xs ys : list (addr * T)).

Lemma dll_front_represents h l xs :
  represents h l xs ->
  front h l = match xs with
              | [] => Throw (out_of_range "List is empty")
              | x :: _ => Ok (snd x)
              end.
Proof.
  intros Hrep. apply represents_dseg in Hrep as (Hseg & Hh & _ & Hs).
  unfold front, empty. rewrite Hs. destruct xs as [|x xs]; [done|].
  destruct (Z.eqb_spec (Z.of_nat (length (x :: xs))) 0) as [H0|_]; [cbn in H0; lia|].
  destruct Hseg as [Hx _]. rewrite Hh. cbn [first_addr].
  by rewrite (get_Some h (fst x) _ Hx).
Qed.

Lemma dll_back_represents h l xs :
  represents h l xs ->
  back h l = match last xs with
             | None => Throw (out_of_range "List is empty")
             | Some x => Ok (snd x)
             end.
Proof.
  intros Hrep. apply represents_dseg in Hrep as (Hseg & _ & Ht & Hs).
  unfold back, empty. rewrite Hs.
  destruct xs as [|x xs _] using rev_ind; [done|].
  rewrite length_app. cbn [length].
  destruct (Z.eqb_spec (Z.of_nat (length xs + 1)) 0) as [H0|_]; [lia|].
  rewrite last_snoc, Ht, last_addr_snoc.
  by rewrite (get_Some h (fst x) _ (dseg_lookup_last _ _ _ _ _ Hseg)).
Qed.

(** X19: [push_back] and [push_front] allocate one node for the value and link
    it behind the last node, or in front of the first; the value is then
    what [back()], or [front()], returns, and no node outside the list is
    written. *)
Theorem dll_push_adds_at_either_end h l xs v :
  represents h l xs -> (Z.of_nat (length xs) + 1 < 2 ^ width)%Z ->
  (exists h' l' a,
     push_back h l v = Ok (h', l') /\ h !! a = None /\
     represents h' l' (xs ++ [(a, v)]) /\ back h' l' = Ok v /\
     (forall b, b ∉ xs.*1 -> b <> a -> h' !! b = h !! b)) /\
  (exists h' l' a,
     push_front h l v = Ok (h', l') /\ h !! a = None /\
     represents h' l' ((a, v) :: xs) /\ front h' l' = Ok v /\
     (forall b, b ∉ xs.*1 -> b <> a -> h' !! b = h !! b)).
Proof.
  intros Hrep Hbound. split.
  - destruct (dll_push_back_represents h l xs v Hrep Hbound) as (h' & l' & Hp & Hrep' & Hfr).
    exists h', l', (fresh (dom h)). split; [done|]. split; [apply fresh_lookup|].
    split; [done|]. split; [|done].
    rewrite (dll_back_represents h' l' _ Hrep'). by rewrite last_snoc.
  - destruct (dll_push_front_represents h l xs v Hrep Hbound) as (h' & l' & Hp & Hrep' & Hfr).
    exists h', l', (fresh (dom h)). split; [done|]. split; [apply fresh_lookup|].
    split; [done|]. split; [|done].
    by rewrite (dll_front_represents h' l' _ Hrep').
Qed.

(** X20: [front()], [back()], [pop_front()] and [pop_back()] throw
    [std::out_of_range] on an empty list; otherwise [front()] and [back()]
    return the first and the last element, and [pop_front()] and
    [pop_back()] remove it and give its node back, without writing a node
    outside the list. *)
Theorem dll_pop_removes_at_either_end h l xs :
  represents h l xs -> (Z.of_nat (length xs) < 2 ^ width)%Z ->
  (xs = [] ->
   front h l = Throw (out_of_range "List is empty") /\
   pop_front h l = Throw (out_of_range "List is empty") /\
   back h l = Throw (out_of_range "List is empty") /\
   pop_back h l = Throw (out_of_range "List is empty")) /\
  (forall x xs', xs = x :: xs' ->
   front h l = Ok (snd x) /\
   exists h' l',
     pop_front h l = Ok (h', l') /\ represents h' l' xs' /\
     h' !! fst x = None /\
     (forall b, b ∉ xs.*1 -> h' !! b = h !! b)) /\
  (forall ys x, xs = ys ++ [x] ->
   back h l = Ok (snd x) /\
   exists h' l',
     pop_back h l = Ok (h', l') /\ represents h' l' ys /\
     h' !! fst x = None /\
     (forall b, b ∉ xs.*1 -> h' !! b = h !! b)).
Proof.
  intros Hrep Hbound.
  pose proof (dll_front_represents h l xs Hrep) as Hfront.
  pose proof (dll_back_represents h l xs Hrep) as Hback.
  split; [|split].
  - intros ->. split; [done|]. destruct Hrep as (_ & _ & Hs).
    unfold pop_front, pop_back, empty. by rewrite Hs.
  - intros x xs' ->. split; [done|].
    cbn [length] in Hbound. by apply dll_pop_front_represents; [|lia].
  - intros ys x ->. rewrite last_snoc in Hback. split; [done|].
    rewrite length_app in Hbound. cbn [length] in Hbound.
    by apply dll_pop_back_represents; [|lia].
Qed.

(** X21: [insert(pos, value)] links a new node holding the value in front of
    the node [pos] points to, or behind the last node when [pos] is
    [end()], and returns an iterator to the new node. *)
Theorem dll_insert_before h l xs1 xs2 v :
  represents h l (xs1 ++ xs2) ->
  (Z.of_nat (length (xs1 ++ xs2)) + 1 < 2 ^ width)%Z ->
  exists h' l' a,
    insert h l (first_addr xs2 None) v = Ok (h', l', Some a) /\ h !! a = None /\
    represents h' l' (xs1 ++ (a, v) :: xs2) /\
    (forall b, b ∉ (xs1 ++ xs2).*1 -> b <> a -> h' !! b = h !! b).
Proof.
  intros Hrep Hbound. destruct xs2 as [|c xs2].
  - rewrite app_nil_r in *. cbn [first_addr insert].
    destruct (dll_push_back_represents h l xs1 v Hrep Hbound) as (h' & l' & -> & Hrep' & Hfr).
    cbn [bind]. exists h', l', (fresh (dom h)).
    apply represents_dseg in Hrep' as Hd. destruct Hd as (_ & _ & Ht & _).
    rewrite last_addr_snoc in Ht. rewrite Ht.
    split; [done|]. split; [apply fresh_lookup|]. done.
  - cbn [first_addr].
    destruct (dll_insert_represents h l xs1 c xs2 v Hrep Hbound) as (h' & l' & Hi & Hrep' & Hfr).
    exists h', l', (fresh (dom h)). split; [done|]. split; [apply fresh_lookup|]. done.
Qed.

(** X22: [erase(pos)] throws [std::out_of_range] on an empty list and for
    [pos == end()]; on a node of the list it takes the node out, gives it
    back, and returns an iterator to the node that followed it. *)
Theorem dll_erase_removes h l xs :
  represents h l xs -> (Z.of_nat (length xs) < 2 ^ width)%Z ->
  erase h l None = Throw (out_of_range "Invalid iterator") /\
  (xs = [] -> forall pos, erase h l pos = Throw (out_of_range "Invalid iterator")) /\
  (forall xs1 c xs2, xs = xs1 ++ c :: xs2 ->
   exists h' l',
     erase h l (Some (fst c)) = Ok (h', l', first_addr xs2 None) /\
     represents h' l' (xs1 ++ xs2) /\ h' !! fst c = None /\
     (forall b, b ∉ xs.*1 -> h' !! b = h !! b)).
Proof.
  intros Hrep Hbound. split; [|split].
  - unfold erase. by rewrite orb_true_r.
  - intros -> pos. destruct Hrep as (_ & _ & Hs). unfold erase, empty. by rewrite Hs.
  - intros xs1 c xs2 ->. rewrite (erase_unlink h l xs1 c xs2 Hrep).
    destruct (dll_unlink_represents h l xs1 c xs2 Hrep Hbound) as (h' & l' & -> & Hrest).
    cbn [bind]. by exists h', l'.
Qed.

Lemma dll_clear_frees h l xs fuel :
  represents h l xs -> length xs < fuel ->
  exists h',
    clear fuel h l = Ok (h', make) /\ represents h' make [] /\
    (forall a, a ∈ xs.*1 -> h' !! a = None) /\
    (forall b, b ∉ xs.*1 -> h' !! b = h !! b).
Proof.
  intros Hrep Hfuel.
  pose proof (chain_NoDup _ _ _ _ _ (proj1 Hrep)) as Hnd.
  apply represents_dseg in Hrep as (Hseg & Hh & _).
  destruct (dll_clear_loop_spec xs h None fuel Hseg Hnd Hfuel) as (h' & Hcl & Hfreed & Hfr).
  exists h'. unfold clear. rewrite Hh, Hcl. cbn [bind].
  split; [done|]. split; [|done]. by apply represents_dseg.
Qed.

(** X23: [remove_if(p)] keeps exactly the elements on which [p] is false, in
    their order, and gives the nodes of the others back; [remove(value)]
    does the same for the elements that [operator==] finds equal to
    [value]. *)
Theorem dll_remove_if_filters (pred : T -> bool) (eqb : T -> T -> bool) value
    h l xs fuel :
  represents h l xs -> (Z.of_nat (length xs) < 2 ^ width)%Z -> length xs < fuel ->
  (exists h' l',
     remove_if pred fuel h l = Ok (h', l') /\
     represents h' l' (filter (fun x => pred (snd x) = false) xs) /\
     (forall x, x ∈ xs -> pred (snd x) = true -> h' !! fst x = None) /\
     (forall b, b ∉ xs.*1 -> h' !! b = h !! b)) /\
  (exists h' l',
     remove eqb value fuel h l = Ok (h', l') /\
     represents h' l' (filter (fun x => eqb (snd x) value = false) xs) /\
     (forall x, x ∈ xs -> eqb (snd x) value = true -> h' !! fst x = None)).
Proof.
  intros Hrep Hbound Hfuel.
  pose proof Hrep as Hd. apply represents_dseg in Hd as (_ & Hh & _).
  unfold remove, remove_if. rewrite Hh. split.
  - exact (dll_remove_if_loop_spec pred xs h l [] fuel Hrep Hbound Hfuel).
  - destruct (dll_remove_if_loop_spec (fun x => eqb x value) xs h l [] fuel
                Hrep Hbound Hfuel) as (h' & l' & Hr & Hrep' & Hfreed & _).
    exists h', l'. split; [exact Hr|]. split; [exact Hrep'|exact Hfreed].
Qed.

(** X24: [unique()] drops every node whose element [operator==] finds equal to
    that of the last node kept before it, gives the dropped nodes back and
    keeps the others in their order. *)
Theorem dll_unique_drops_repeats (eqb : T -> T -> bool) h l xs fuel :
  represents h l xs -> (Z.of_nat (length xs) < 2 ^ width)%Z -> length xs < fuel ->
  exists h' l',
    unique eqb fuel h l = Ok (h', l') /\
    represents h' l' (unique_list eqb xs) /\
    (forall a, a ∈ xs.*1 -> a ∉ (unique_list eqb xs).*1 -> h' !! a = None) /\
    (forall b, b ∉ xs.*1 -> h' !! b = h !! b).
Proof.
  intros Hrep Hbound Hfuel. unfold unique.
  pose proof Hrep as Hd. apply represents_dseg in Hd as (_ & Hh & _ & Hs).
  destruct xs as [|c zs].
  - rewrite Hs. cbn. exists h, l. split; [done|]. split; [done|]. split; [|done].
    intros a Ha. by apply elem_of_nil in Ha.
  - destruct (Z.leb_spec (size_ l) 1) as [Hle|Hgt].
    + assert (zs = []) as -> by (destruct zs; [done|cbn in Hs; lia]).
      exists h, l. split; [done|]. split; [done|]. split; [|done].
      intros a Ha Ha'. done.
    + rewrite Hh. cbn [first_addr unique_list].
      apply (dll_unique_loop_spec eqb zs h l [] c fuel Hrep Hbound).
      cbn in Hfuel. lia.
Qed.

Lemma dll_equal_compares (ne : T -> T -> bool) h l1 l2 xs ys fuel :
  (forall x y, ne x y = false <-> x = y) ->
  represents h l1 xs -> represents h l2 ys -> length xs < fuel ->
  exists r, equal ne fuel h l1 l2 = Ok r /\ (r = true <-> xs.*2 = ys.*2).
Proof.
  intros Hne H1 H2 Hfuel.
  apply represents_dseg in H1 as (Hseg1 & Hh1 & _ & Hs1).
  apply represents_dseg in H2 as (Hseg2 & Hh2 & _ & Hs2).
  unfold equal. rewrite Hs1, Hs2, Hh1, Hh2.
  destruct (Z.eqb_spec (Z.of_nat (length xs)) (Z.of_nat (length ys))) as [Heq|Hneq];
    cbn [negb].
  - apply (dll_equal_loop_spec ne Hne xs ys h None None fuel Hseg1 Hseg2); [lia|done].
  - exists false. split; [done|]. split; [done|].
    intros Hxy. exfalso. apply Hneq. f_equal.
    by rewrite <- (length_fmap snd xs), <- (length_fmap snd ys), Hxy.
Qed.

Lemma dll_copy_duplicates h other xs fuel :
  represents h other xs -> (Z.of_nat (length xs) < 2 ^ width)%Z -> length xs < fuel ->
  exists h' l' zs,
    copy fuel h other = Ok (h', l') /\
    represents h' l' zs /\ zs.*2 = xs.*2 /\
    represents h' other xs /\
    (forall a, a ∈ zs.*1 -> h !! a = None) /\
    (forall b, is_Some (h !! b) -> h' !! b = h !! b).
Proof.
  intros Hrep Hbound Hfuel. unfold copy, copy_from.
  pose proof Hrep as Hd. apply represents_dseg in Hd as (_ & Hh & _).
  rewrite Hh.
  destruct (dll_copy_from_loop_spec other xs h make [] [] fuel Hrep)
    as (h' & l' & zs & Hc & Hl & Hzs & Hother & Hnew & Hfr); try done.
  { intros a Ha. by apply elem_of_nil in Ha. }
  exists h', l', zs. split; [done|]. split; [done|]. split; [done|].
  split; [done|]. split; [done|]. intros b Hb. apply Hfr; [|done].
  apply not_elem_of_nil.
Qed.

End DoublyProperties.

(** Instances on the list 1, 2, 3 built by [push_back], whose nodes are
    at the addresses 0, 1 and 2. *)

Lemma dll_push_adds_at_either_end_witness :
  (exists h' l' a,
     DoublyLinkedList.push_back ListExamples.dll_three_heap
       ListExamples.dll_three_list 4%Z = Cxx.Ok (h', l') /\
     DoublyLinkedList.represents h' l' [(0, 1%Z); (1, 2%Z); (2, 3%Z); (a, 4%Z)]) /\
  (exists h' l' a,
     DoublyLinkedList.push_front ListExamples.dll_three_heap
       ListExamples.dll_three_list 0%Z = Cxx.Ok (h', l') /\
     DoublyLinkedList.represents h' l' [(a, 0%Z); (0, 1%Z); (1, 2%Z); (2, 3%Z)]).
Proof.
  destruct (dll_push_adds_at_either_end ListExamples.dll_three_heap
              ListExamples.dll_three_list [(0, 1%Z); (1, 2%Z); (2, 3%Z)] 4%Z
              dll_three_represents ltac:(vm_compute; reflexivity))
    as [(h' & l' & a & Hp & _ & Hr & _) _].
  destruct (dll_push_adds_at_either_end ListExamples.dll_three_heap
              ListExamples.dll_three_list [(0, 1%Z); (1, 2%Z); (2, 3%Z)] 0%Z
              dll_three_represents ltac:(vm_compute; reflexivity))
    as [_ (h2 & l2 & a2 & Hp2 & _ & Hr2 & _)].
  split.
  - exists h', l', a. split; [exact Hp|exact Hr].
  - exists h2, l2, a2. split; [exact Hp2|exact Hr2].
Defined.

Lemma dll_pop_removes_at_either_end_witness :
  (exists h' l',
     DoublyLinkedList.pop_front ListExamples.dll_three_heap
       ListExamples.dll_three_list = Cxx.Ok (h', l') /\
     DoublyLinkedList.represents h' l' [(1, 2%Z); (2, 3%Z)] /\ h' !! 0 = None) /\
  (exists h' l',
     DoublyLinkedList.pop_back ListExamples.dll_three_heap
       ListExamples.dll_three_list = Cxx.Ok (h', l') /\
     DoublyLinkedList.represents h' l' [(0, 1%Z); (1, 2%Z)] /\ h' !! 2 = None).
Proof.
  destruct (dll_pop_removes_at_either_end ListExamples.dll_three_heap
              ListExamples.dll_three_list [(0, 1%Z); (1, 2%Z); (2, 3%Z)]
              dll_three_represents ltac:(vm_compute; reflexivity))
    as (_ & Hfront & Hback).
  destruct (Hfront (0, 1%Z) [(1, 2%Z); (2, 3%Z)] eq_refl)
    as (_ & h' & l' & Hp & Hr & Hf & _).
  destruct (Hback [(0, 1%Z); (1, 2%Z)] (2, 3%Z) eq_refl)
    as (_ & h2 & l2 & Hp2 & Hr2 & Hf2 & _).
  split.
  - exists h', l'. split; [exact Hp|]. split; [exact Hr|exact Hf].
  - exists h2, l2. split; [exact Hp2|]. split; [exact Hr2|exact Hf2].
Defined.

Lemma dll_insert_before_witness :
  exists h' l' a,
    DoublyLinkedList.insert ListExamples.dll_three_heap
      ListExamples.dll_three_list (Some 1) 9%Z = Cxx.Ok (h', l', Some a) /\
    DoublyLinkedList.represents h' l' [(0, 1%Z); (a, 9%Z); (1, 2%Z); (2, 3%Z)].
Proof.
  destruct (dll_insert_before ListExamples.dll_three_heap
              ListExamples.dll_three_list [(0, 1%Z)] [(1, 2%Z); (2, 3%Z)] 9%Z
              dll_three_represents ltac:(vm_compute; reflexivity))
    as (h' & l' & a & Hp & _ & Hr & _).
  exists h', l', a. split; [exact Hp|exact Hr].
Defined.

Lemma dll_erase_removes_witness :
  exists h' l',
    DoublyLinkedList.erase ListExamples.dll_three_heap
      ListExamples.dll_three_list (Some 1) = Cxx.Ok (h', l', Some 2) /\
    DoublyLinkedList.represents h' l' [(0, 1%Z); (2, 3%Z)] /\ h' !! 1 = None.
Proof.
  destruct (dll_erase_removes ListExamples.dll_three_heap
              ListExamples.dll_three_list [(0, 1%Z); (1, 2%Z); (2, 3%Z)]
              dll_three_represents ltac:(vm_compute; reflexivity)) as (_ & _ & H).
  destruct (H [(0, 1%Z)] (1, 2%Z) [(2, 3%Z)] eq_refl) as (h' & l' & Hp & Hr & Hf & _).
  exists h', l'. split; [exact Hp|]. split; [exact Hr|exact Hf].
Defined.

Lemma dll_remove_if_filters_witness :
  (exists h' l',
     DoublyLinkedList.remove_if ListExamples.is_two 4 ListExamples.dll_three_heap
       ListExamples.dll_three_list = Cxx.Ok (h', l') /\
     DoublyLinkedList.represents h' l' [(0, 1%Z); (2, 3%Z)]) /\
  (exists h' l',
     DoublyLinkedList.remove Z.eqb 3%Z 4 ListExamples.dll_three_heap
       ListExamples.dll_three_list = Cxx.Ok (h', l') /\
     DoublyLinkedList.represents h' l' [(0, 1%Z); (1, 2%Z)]).
Proof.
  destruct (dll_remove_if_filters ListExamples.is_two Z.eqb 3%Z
              ListExamples.dll_three_heap ListExamples.dll_three_list
              [(0, 1%Z); (1, 2%Z); (2, 3%Z)] 4
              dll_three_represents ltac:(vm_compute; reflexivity) ltac:(cbn; lia))
    as [(h' & l' & Hp & Hr & _) (h2 & l2 & Hp2 & Hr2 & _)].
  split.
  - exists h', l'. split; [exact Hp|exact Hr].
  - exists h2, l2. split; [exact Hp2|exact Hr2].
Defined.

Lemma dll_unique_drops_repeats_witness :
  exists h' l',
    DoublyLinkedList.unique ListExamples.same_first 4 ListExamples.dll_pairs_heap
      ListExamples.dll_three_list = Cxx.Ok (h', l') /\
    DoublyLinkedList.represents h' l' [(0, (2, 0)%Z); (1, (1, 1)%Z)].
Proof.
  destruct (dll_unique_drops_repeats ListExamples.same_first
              ListExamples.dll_pairs_heap ListExamples.dll_three_list
              [(0, (2, 0)%Z); (1, (1, 1)%Z); (2, (1, 2)%Z)] 4
              dll_pairs_represents ltac:(vm_compute; reflexivity) ltac:(cbn; lia))
    as (h' & l' & Hp & Hr & _).
  exists h', l'. split; [exact Hp|exact Hr].
Defined.

(** ** Singly linked list: modifiers *)

Section SinglyModifiers.

Import Cxx Heap SinglyLinkedList ListSpec.

Context {T : Type}.

Implicit Types (h : gmap addr (Node T)) (l : SinglyLinkedList.t) (p q : ptr).
Implicit Types (xs ys : list (addr * T)).

Lemma sseg_app h xs ys q :
  sseg h (xs ++ ys) q <-> sseg h xs (first_addr ys q) /\ sseg h ys q.
Proof.
  induction xs as [|x xs IH].
  - simpl. tauto.
  - cbn [app sseg]. rewrite IH, first_addr_app. tauto.
Qed.

Lemma sseg_frame h h' xs q :
  sseg h xs q -> (forall a, a ∈ xs.*1 -> h' !! a = h !! a) -> sseg h' xs q.
Proof.
  induction xs as [|x xs IH]; [done|].
  intros [Hx Hseg] Hsame. split.
  - rewrite Hsame; [done|]. rewrite fmap_cons. apply elem_of_cons. by left.
  - apply IH; [done|]. intros a Ha. apply Hsame.
    rewrite fmap_cons. apply elem_of_cons. by right.
Qed.

Lemma sseg_insert_other h xs q a n :
  a ∉ xs.*1 -> sseg h xs q -> sseg (<[a := n]> h) xs q.
Proof.
  intros Ha Hseg. apply (sseg_frame h); [done|].
  intros b Hb. apply lookup_insert_ne. by intros ->.
Qed.

Lemma sseg_delete_other h xs q a :
  a ∉ xs.*1 -> sseg h xs q -> sseg (delete a h) xs q.
Proof.
  intros Ha Hseg. apply (sseg_frame h); [done|].
  intros b Hb. apply lookup_delete_ne. by intros ->.
Qed.

Lemma sseg_is_Some h xs q a : sseg h xs q -> a ∈ xs.*1 -> is_Some (h !! a).
Proof.
  induction xs as [|x xs IH]; intros Hseg Ha.
  - by apply elem_of_nil in Ha.
  - destruct Hseg as [Hx Hseg]. rewrite fmap_cons in Ha.
    apply elem_of_cons in Ha as [->|Ha]; [by rewrite Hx|by eapply IH].
Qed.

Lemma sll_fresh_lookup h : h !! fresh (dom h) = None.
Proof. apply not_elem_of_dom. apply is_fresh. Qed.

Lemma sseg_fresh_not_in h xs q : sseg h xs q -> fresh (dom h) ∉ xs.*1.
Proof.
  intros Hseg Hin. destruct (sseg_is_Some h xs q _ Hseg Hin) as [n Hn].
  by rewrite sll_fresh_lookup in Hn.
Qed.

Lemma sll_lseg_first h p xs q : lseg data next h p xs q -> p = first_addr xs q.
Proof. destruct xs; [done|]. by intros (-> & _). Qed.

(** A segment as a chain along [next]. *)
Lemma sseg_lseg h xs q :
  sseg h xs q <-> lseg data next h (first_addr xs q) xs q.
Proof.
  induction xs as [|[a d] xs IH].
  - simpl. tauto.
  - cbn [sseg first_addr fst snd lseg]. rewrite IH. split.
    + intros [Ha Hn]. split; [done|]. eexists. split; [exact Ha|]. by split.
    + intros (_ & n & Hn & Hd & Hnext).
      pose proof (sll_lseg_first _ _ _ _ Hnext) as Hnx.
      split; [|by rewrite <- Hnx].
      rewrite Hn. destruct n as [d' n']. simpl in *. by subst.
Qed.

(** The data model of the list, seen as one segment that ends at null. *)
Lemma represents_sseg h l xs :
  represents h l xs <->
  sseg h xs None /\ head_ l = first_addr xs None /\
  tail_ l = last_addr xs None /\ size_ l = Z.of_nat (length xs).
Proof.
  unfold represents, chain. rewrite sseg_lseg.
  assert (fst <$> last xs = last_addr xs None) as ->
    by (unfold last_addr; by destruct (last xs)).
  split.
  - intros (Hn & Ht & Hs). pose proof (sll_lseg_first _ _ _ _ Hn) as Hh.
    rewrite <- Hh. done.
  - intros (Hn & -> & Ht & Hs). done.
Qed.

Lemma last_addr_elem xs p a :
  xs <> [] -> last_addr xs p = Some a -> a ∈ xs.*1.
Proof.
  destruct xs as [|x xs _] using rev_ind; [done|]. intros _.
  rewrite last_addr_snoc. intros [= <-].
  rewrite fmap_app. apply elem_of_app. right. cbn. apply elem_of_cons. by left.
Qed.

(** [last->next = q'] on the last node of a segment. *)
Lemma sll_set_next_last h xs q q' :
  xs <> [] -> sseg h xs q -> NoDup xs.*1 ->
  exists h',
    set_next h (last_addr xs None) q' = Ok h' /\
    sseg h' xs q' /\
    (forall a, a ∉ xs.*1 -> h' !! a = h !! a).
Proof.
  destruct xs as [|x xs _] using rev_ind; [done|]. intros _ Hseg Hnd.
  apply sseg_app in Hseg as [Hxs [Hx _]].
  rewrite fmap_app in Hnd. apply NoDup_app in Hnd as (_ & Hnotin & _).
  rewrite last_addr_snoc.
  eexists. rewrite (sll_set_next_Some h (fst x) _ _ Hx).
  split; [done|]. cbn [data]. split.
  - apply sseg_app. split.
    + apply (sseg_frame h); [done|]. intros a Ha.
      apply lookup_insert_ne. intros <-. apply (Hnotin _ Ha).
      simpl. apply elem_of_cons. by left.
    + split; [by rewrite lookup_insert_eq|done].
  - intros a Ha. apply lookup_insert_ne. intros <-. apply Ha.
    rewrite fmap_app. apply elem_of_app. right.
    simpl. apply elem_of_cons. by left.
Qed.

Lemma sll_represents_split h l xs1 c xs2 :
  represents h l (xs1 ++ c :: xs2) ->
  sseg h xs1 (Some (fst c)) /\
  h !! fst c = Some (MkNode (snd c) (first_addr xs2 None)) /\
  sseg h xs2 None /\
  NoDup xs1.*1 /\ NoDup xs2.*1 /\ (fst c ∉ xs1.*1) /\ (fst c ∉ xs2.*1) /\
  (forall a, a ∈ xs1.*1 -> a ∉ xs2.*1) /\
  head_ l = first_addr xs1 (Some (fst c)) /\
  tail_ l = last_addr xs2 (Some (fst c)) /\
  size_ l = Z.of_nat (length xs1 + S (length xs2)).
Proof.
  intros Hrep.
  pose proof (chain_NoDup _ _ _ _ _ (proj1 Hrep)) as Hnd.
  apply represents_sseg in Hrep as (Hseg & Hh & Ht & Hs).
  apply sseg_app in Hseg as [Hseg1 [Hc Hseg2]]. cbn [first_addr] in Hseg1.
  rewrite fmap_app, fmap_cons in Hnd.
  apply NoDup_app in Hnd as (Hnd1 & Hdis & Hnd2).
  apply NoDup_cons in Hnd2 as [Hc2 Hnd2].
  rewrite first_addr_app in Hh. rewrite last_addr_app, last_addr_cons in Ht.
  rewrite length_app in Hs. cbn [length] in Hs.
  split; [done|]. split; [done|]. split; [done|]. split; [done|]. split; [done|].
  split. { intros Hin. apply (Hdis _ Hin). apply elem_of_cons. by left. }
  split; [done|].
  split. { intros a Ha Ha'. apply (Hdis _ Ha). apply elem_of_cons. by right. }
  done.
Qed.

Lemma sll_represents_frame h h' l xs :
  represents h l xs -> (forall a, a ∈ xs.*1 -> h' !! a = h !! a) ->
  represents h' l xs.
Proof.
  intros Hrep Hfr. apply represents_sseg in Hrep as (Hseg & Hrest).
  apply represents_sseg. split; [|done]. by apply (sseg_frame h).
Qed.

Lemma sll_destroy_node_Some h a n :
  h !! a = Some n -> destroy_node h (Some a) = Ok (delete a h).
Proof. intros Hn. unfold destroy_node. by rewrite Hn. Qed.

Lemma sll_push_back_represents h l xs v :
  represents h l xs -> (Z.of_nat (length xs) + 1 < 2 ^ width)%Z ->
  exists h' l',
    push_back h l v = Ok (h', l') /\
    represents h' l' (xs ++ [(fresh (dom h), v)]) /\
    (forall b, b ∉ xs.*1 -> b <> fresh (dom h) -> h' !! b = h !! b).
Proof.
  intros Hrep Hbound.
  pose proof (chain_NoDup _ _ _ _ _ (proj1 Hrep)) as Hnd.
  apply represents_sseg in Hrep as (Hseg & Hh & Ht & Hs).
  pose proof (sll_fresh_lookup h) as Ha. pose proof (sseg_fresh_not_in h _ _ Hseg) as Hnotin.
  unfold push_back, create_node. set (a := fresh (dom h)) in *.
  destruct (decide (xs = [])) as [->|Hne].
  - rewrite Ht. cbn [last_addr last bind]. eexists _, _. split; [done|]. split.
    + apply represents_sseg. cbn. rewrite lookup_insert_eq.
      rewrite Hs. done.
    + intros b _ Hb. by apply lookup_insert_ne.
  - assert (sseg (<[a:=MkNode v None]> h) xs None) as Hseg1
      by (by apply sseg_insert_other).
    destruct (sll_set_next_last _ xs None (Some a) Hne Hseg1 Hnd) as (h3 & Hset & Hseg3 & Hfr).
    rewrite <- Ht in Hset.
    destruct (tail_ l) as [t|] eqn:Htl.
    2:{ symmetry in Ht. by apply last_addr_empty in Ht. }
    rewrite Hset. cbn [bind].
    eexists _, _. split; [done|]. split.
    + apply represents_sseg. cbn [head_ tail_ size_ set_size set_tail].
      split; [|split; [|split]].
      * apply sseg_app. split; [done|]. cbn. split; [|done].
        rewrite Hfr by done. by rewrite lookup_insert_eq.
      * rewrite Hh, first_addr_app. by apply first_addr_nonempty.
      * by rewrite last_addr_snoc.
      * rewrite to_size_t_small by lia. rewrite length_app. cbn. lia.
    + intros b Hb Hba. rewrite Hfr by done. by apply lookup_insert_ne.
Qed.

Lemma sll_push_front_represents h l xs v :
  represents h l xs -> (Z.of_nat (length xs) + 1 < 2 ^ width)%Z ->
  exists h' l',
    push_front h l v = Ok (h', l') /\
    represents h' l' ((fresh (dom h), v) :: xs) /\
    (forall b, b <> fresh (dom h) -> h' !! b = h !! b).
Proof.
  intros Hrep Hbound.
  apply represents_sseg in Hrep as (Hseg & Hh & Ht & Hs).
  pose proof (sll_fresh_lookup h) as Ha. pose proof (sseg_fresh_not_in h _ _ Hseg) as Hnotin.
  unfold push_front, create_node. set (a := fresh (dom h)) in *.
  rewrite (sll_set_next_Some _ a (MkNode v None)) by apply lookup_insert_eq.
  cbn [bind data]. rewrite insert_insert_eq.
  eexists _, _. split; [done|]. split.
  - apply represents_sseg. split; [|split; [|split]].
    + cbn [sseg fst snd]. split; [by rewrite lookup_insert_eq, Hh|].
      by apply sseg_insert_other.
    + by destruct (tail_ (set_head l (Some a))).
    + cbn [tail_ set_head]. rewrite last_addr_cons.
      destruct (tail_ l) as [t|] eqn:Htl; cbn [tail_ set_size set_tail set_head].
      * rewrite Htl, Ht. apply last_addr_nonempty. intros ->. by rewrite Ht in Htl.
      * symmetry in Ht. apply last_addr_empty in Ht as ->. done.
    + assert (forall l0 : SinglyLinkedList.t,
                size_ (match tail_ l0 with
                       | Some _ => l0
                       | None => set_tail l0 (Some a)
                       end) = size_ l0) as Hsz
        by (intros l0; by destruct (tail_ l0)).
      cbn [size_ set_size]. rewrite Hsz. cbn [size_ set_head].
      rewrite to_size_t_small by lia. cbn [length]. lia.
  - intros b Hb. by apply lookup_insert_ne.
Qed.

Lemma sll_clear_loop_spec xs : forall h fuel,
  sseg h xs None -> NoDup xs.*1 -> length xs < fuel ->
  exists h',
    clear_loop fuel h (first_addr xs None) = Ok h' /\
    (forall a, a ∈ xs.*1 -> h' !! a = None) /\
    (forall b, b ∉ xs.*1 -> h' !! b = h !! b).
Proof.
  induction xs as [|x xs IH]; intros h fuel Hseg Hnd Hfuel.
  - destruct fuel as [|k]; [cbn in Hfuel; lia|]. exists h. cbn.
    split; [done|]. split; [|done]. intros a Ha. by apply elem_of_nil in Ha.
  - destruct fuel as [|k]; [cbn in Hfuel; lia|].
    destruct Hseg as [Hx Hseg]. rewrite fmap_cons in Hnd.
    apply NoDup_cons in Hnd as [Hxn Hnd].
    cbn [clear_loop first_addr]. rewrite (sll_get_Some h (fst x) _ Hx). cbn [bind next].
    rewrite (sll_destroy_node_Some h (fst x) _ Hx). cbn [bind].
    destruct (IH (delete (fst x) h) k) as (h' & -> & Hfreed & Hfr).
    { by apply sseg_delete_other. }
    { done. }
    { cbn in Hfuel. lia. }
    exists h'. split; [done|]. split.
    + intros a Ha. rewrite fmap_cons in Ha. apply elem_of_cons in Ha as [->|Ha].
      * rewrite Hfr by done. apply lookup_delete_eq.
      * by apply Hfreed.
    + intros b Hb. rewrite fmap_cons in Hb. apply not_elem_of_cons in Hb as [Hbx Hb].
      rewrite Hfr by done. by apply lookup_delete_ne.
Qed.

(** The statements of [remove_if] that take the node [z] out of the
    links: [head_ = current->next] or [prev->next = current->next], and
    the update of [tail_]. *)
Lemma sll_unlink_step h l ys z zs :
  represents h l (ys ++ z :: zs) ->
  exists h1 l1,
    match last_addr ys None with
    | None =>
        Ok (h, if decide (tail_ (set_head l (first_addr zs None)) = Some (fst z))
               then set_tail (set_head l (first_addr zs None)) None
               else set_head l (first_addr zs None))
    | Some _ =>
        do h <- set_next h (last_addr ys None) (first_addr zs None);
        Ok (h, if decide (tail_ l = Some (fst z))
               then set_tail l (last_addr ys None) else l)
    end = Ok (h1, l1) /\
    sseg h1 ys (first_addr zs None) /\
    (forall a, a ∉ ys.*1 -> h1 !! a = h !! a) /\
    head_ l1 = first_addr (ys ++ zs) None /\
    tail_ l1 = last_addr (ys ++ zs) None /\
    size_ l1 = size_ l.
Proof.
  intros Hrep.
  destruct (sll_represents_split h l ys z zs Hrep)
    as (Hseg1 & Hz & Hseg2 & Hnd1 & Hnd2 & Hz1 & Hz2 & Hdis & Hh & Ht & Hs).
  assert (tail_ l = Some (fst z) <-> zs = []) as Htail.
  { rewrite Ht. split; [|by intros ->].
    intros Hl. destruct (decide (zs = [])) as [|Hne]; [done|].
    exfalso. apply Hz2. by apply (last_addr_elem zs (Some (fst z))). }
  rewrite first_addr_app, last_addr_app.
  destruct (last_addr ys None) as [b|] eqn:Hlast.
  - assert (ys <> []) as Hne by (intros ->; discriminate).
    destruct (sll_set_next_last h ys _ (first_addr zs None) Hne Hseg1 Hnd1)
      as (h1 & Hset & Hseg1' & Hfr).
    rewrite Hlast in Hset. rewrite Hset. cbn [bind].
    eexists _, _. split; [done|]. split; [done|]. split; [done|].
    case_decide as Hd.
    + apply Htail in Hd as ->. cbn [head_ tail_ size_ set_tail first_addr].
      split; [|done]. rewrite Hh. by apply first_addr_nonempty.
    + split; [rewrite Hh; by apply first_addr_nonempty|]. split; [|done].
      rewrite Ht. apply last_addr_nonempty. intros ->. by apply Hd, Htail.
  - apply last_addr_empty in Hlast as ->.
    eexists _, _. split; [done|]. split; [done|]. split; [done|].
    cbn [tail_ set_head first_addr]. case_decide as Hd.
    + apply Htail in Hd as ->. done.
    + cbn [head_ tail_ size_ set_head]. split; [done|]. split; [|done].
      rewrite Ht. apply last_addr_nonempty. intros ->. by apply Hd, Htail.
Qed.

Lemma sll_remove_if_loop_spec (pred : T -> bool) zs : forall h l ys fuel,
  represents h l (ys ++ zs) ->
  (Z.of_nat (length (ys ++ zs)) < 2 ^ width)%Z -> length zs < fuel ->
  exists h' l',
    remove_if_loop pred fuel h l (first_addr zs None) (last_addr ys None) =
      Ok (h', l') /\
    represents h' l' (ys ++ filter (fun z => pred (snd z) = false) zs) /\
    (forall z, z ∈ zs -> pred (snd z) = true -> h' !! fst z = None) /\
    (forall b, b ∉ (ys ++ zs).*1 -> h' !! b = h !! b).
Proof.
  induction zs as [|z zs IH]; intros h l ys fuel Hrep Hbound Hfuel.
  - destruct fuel as [|k]; [cbn in Hfuel; lia|]. exists h, l. cbn [remove_if_loop first_addr].
    split; [done|]. split; [done|]. split; [|done].
    intros z Hz. by apply elem_of_nil in Hz.
  - destruct fuel as [|k]; [cbn in Hfuel; lia|].
    destruct (sll_represents_split h l ys z zs Hrep)
      as (Hseg1 & Hz & Hseg2 & Hnd1 & Hnd2 & Hz1 & Hz2 & Hdis & Hh & Ht & Hs).
    cbn [remove_if_loop first_addr]. rewrite (sll_get_Some h (fst z) _ Hz).
    cbn [bind data next].
    destruct (pred (snd z)) eqn:Hp.
    + destruct (sll_unlink_step h l ys z zs Hrep)
        as (h1 & l1 & Hstep & Hseg1' & Hfr1 & Hh1 & Ht1 & Hs1).
      rewrite Hstep. cbn [bind].
      rewrite (sll_get_Some h1 (fst z) (MkNode (snd z) (first_addr zs None)))
        by (by rewrite Hfr1).
      cbn [bind next].
      rewrite (sll_destroy_node_Some h1 (fst z) (MkNode (snd z) (first_addr zs None)))
        by (by rewrite Hfr1).
      cbn [bind].
      rewrite length_app in Hbound. cbn [length] in Hbound.
      destruct (IH (delete (fst z) h1) (set_size l1 (to_size_t (size_ l1 - 1))) ys k)
        as (h' & l' & -> & Hrep' & Hfreed & Hfr).
      { apply represents_sseg. cbn [head_ tail_ size_ set_size].
        split; [|split; [|split]]; [|done|done|].
        - apply sseg_app. split; [by apply sseg_delete_other|].
          apply sseg_delete_other; [done|]. apply (sseg_frame h); [done|].
          intros a Ha. apply Hfr1. intros Ha'. by apply (Hdis _ Ha').
        - rewrite Hs1, Hs, to_size_t_small by lia. rewrite length_app. lia. }
      { rewrite length_app. lia. }
      { cbn in Hfuel. lia. }
      exists h', l'. split; [done|].
      rewrite filter_cons_False by (by rewrite Hp).
      split; [done|]. split.
      * intros w Hw Hpw. apply elem_of_cons in Hw as [->|Hw]; [|by apply Hfreed].
        rewrite Hfr; [apply lookup_delete_eq|].
        rewrite fmap_app. apply not_elem_of_app. done.
      * intros b Hb. rewrite fmap_app, fmap_cons in Hb.
        apply not_elem_of_app in Hb as [Hb1 Hb2].
        apply not_elem_of_cons in Hb2 as [Hbz Hb2].
        rewrite Hfr by (rewrite fmap_app; by apply not_elem_of_app).
        rewrite lookup_delete_ne by done. by apply Hfr1.
    + rewrite (app_assoc ys [z] zs : ys ++ z :: zs = (ys ++ [z]) ++ zs) in Hrep, Hbound.
      destruct (IH h l (ys ++ [z]) k Hrep Hbound) as (h' & l' & Hloop & Hrep' & Hfreed & Hfr).
      { cbn in Hfuel. lia. }
      rewrite last_addr_snoc in Hloop. rewrite Hloop.
      exists h', l'. split; [done|].
      rewrite filter_cons_True by done. rewrite <- app_assoc in Hrep'.
      split; [done|]. split.
      * intros w Hw Hpw. apply elem_of_cons in Hw as [->|Hw]; [congruence|].
        by apply Hfreed.
      * intros b Hb. apply Hfr. by rewrite <- app_assoc.
Qed.

Lemma sll_unique_loop_spec (eqb : T -> T -> bool) zs : forall h l ys c fuel,
  represents h l (ys ++ c :: zs) ->
  (Z.of_nat (length (ys ++ c :: zs)) < 2 ^ width)%Z -> length zs < fuel ->
  exists h' l',
    unique_loop eqb fuel h l (Some (fst c)) = Ok (h', l') /\
    represents h' l' (ys ++ unique_nodes eqb c zs) /\
    (forall a, a ∈ (c :: zs).*1 -> a ∉ (unique_nodes eqb c zs).*1 -> h' !! a = None) /\
    (forall b, b ∉ (ys ++ c :: zs).*1 -> h' !! b = h !! b).
Proof.
  induction zs as [|z zs IH]; intros h l ys c fuel Hrep Hbound Hfuel.
  - destruct fuel as [|k]; [cbn in Hfuel; lia|].
    destruct (sll_represents_split h l ys c [] Hrep) as (_ & Hc & _).
    cbn [unique_loop]. rewrite (sll_get_Some h (fst c) _ Hc). cbn [bind next first_addr].
    exists h, l. split; [done|]. split; [done|]. split; [|done].
    intros a Ha Ha'. done.
  - destruct fuel as [|k]; [cbn in Hfuel; lia|].
    destruct (sll_represents_split h l ys c (z :: zs) Hrep)
      as (Hseg1 & Hc & [Hz Hseg2] & Hnd1 & Hnd2 & Hc1 & Hc2 & Hdis & Hh & Ht & Hs).
    rewrite fmap_cons in Hnd2, Hc2. apply NoDup_cons in Hnd2 as [Hzn Hnd2].
    apply not_elem_of_cons in Hc2 as [Hcz Hc2].
    cbn [unique_loop]. rewrite (sll_get_Some h (fst c) _ Hc). cbn [bind next first_addr].
    rewrite (sll_get_Some h (fst z) _ Hz). cbn [bind data next].
    cbn [unique_nodes].
    destruct (eqb (snd c) (snd z)) eqn:Heq.
    + rewrite (sll_set_next_Some h (fst c) _ _ Hc). cbn [bind data next].
      set (h1 := <[fst c := MkNode (snd c) (first_addr zs None)]> h).
      rewrite (sll_destroy_node_Some h1 (fst z) (MkNode (snd z) (first_addr zs None)))
        by (by unfold h1; rewrite lookup_insert_ne, Hz).
      cbn [bind].
      assert (forall a, a ∈ ys.*1 -> a ∉ zs.*1) as Hdis'.
      { intros a Ha Ha'. apply (Hdis _ Ha). rewrite fmap_cons. apply elem_of_cons. by right. }
      assert (fst z ∉ ys.*1) as Hzy.
      { intros Ha. apply (Hdis _ Ha). rewrite fmap_cons. apply elem_of_cons. by left. }
      assert (tail_ l = Some (fst z) <-> zs = []) as Htail.
      { rewrite Ht, last_addr_cons. split; [|by intros ->].
        intros Hl. destruct (decide (zs = [])) as [|Hne]; [done|].
        exfalso. apply Hzn. by apply (last_addr_elem zs (Some (fst z))). }
      rewrite length_app in Hbound. cbn [length] in Hbound, Hs.
      destruct (IH (delete (fst z) h1)
                  (set_size (if decide (tail_ l = Some (fst z))
                             then set_tail l (Some (fst c)) else l)
                     (to_size_t (size_ (if decide (tail_ l = Some (fst z))
                                        then set_tail l (Some (fst c)) else l) - 1)))
                  ys c k)
        as (h' & l' & -> & Hrep' & Hfreed & Hfr).
      { apply represents_sseg. split; [|split; [|split]].
        - apply sseg_app. split.
          + apply sseg_delete_other; [done|]. by apply sseg_insert_other.
          + split.
            * rewrite lookup_delete_ne by done. unfold h1. by rewrite lookup_insert_eq.
            * apply sseg_delete_other; [done|]. by apply sseg_insert_other.
        - rewrite first_addr_app. by case_decide.
        - rewrite last_addr_app, last_addr_cons. case_decide as Hd.
          + apply Htail in Hd as ->. done.
          + cbn [tail_ set_size]. rewrite Ht, !last_addr_cons.
            apply last_addr_nonempty. intros ->. by apply Hd, Htail.
        - assert (forall b : bool,
                    size_ (if b then set_tail l (Some (fst c)) else l) = size_ l) as Hsz
            by (by intros []).
          cbn [size_ set_size]. case_decide; cbn [size_ set_tail];
            rewrite Hs, to_size_t_small by lia; rewrite length_app; cbn [length]; lia. }
      { rewrite length_app. cbn [length]. lia. }
      { cbn in Hfuel. lia. }
      exists h', l'. split; [done|]. split; [done|]. split.
      * intros a Ha Ha'. rewrite !fmap_cons in Ha.
        apply elem_of_cons in Ha as [->|Ha].
        { apply Hfreed; [|done]. rewrite fmap_cons. apply elem_of_cons. by left. }
        apply elem_of_cons in Ha as [->|Ha].
        { rewrite Hfr; [apply lookup_delete_eq|].
          rewrite fmap_app, fmap_cons. apply not_elem_of_app. split; [done|].
          apply not_elem_of_cons. split; [congruence|done]. }
        apply Hfreed; [|done]. rewrite fmap_cons. apply elem_of_cons. by right.
      * intros b Hb. rewrite fmap_app, !fmap_cons in Hb.
        apply not_elem_of_app in Hb as [Hb1 Hb2].
        apply not_elem_of_cons in Hb2 as [Hbc Hb2].
        apply not_elem_of_cons in Hb2 as [Hbz Hb2].
        rewrite Hfr.
        2:{ rewrite fmap_app, fmap_cons. apply not_elem_of_app. split; [done|].
            by apply not_elem_of_cons. }
        rewrite lookup_delete_ne by done.
        unfold h1. by apply lookup_insert_ne.
    + rewrite (app_assoc ys [c] (z :: zs) : ys ++ c :: z :: zs = (ys ++ [c]) ++ z :: zs)
        in Hrep, Hbound.
      destruct (IH h l (ys ++ [c]) z k Hrep Hbound) as (h' & l' & -> & Hrep' & Hfreed & Hfr).
      { cbn in Hfuel. lia. }
      exists h', l'. split; [done|]. rewrite <- app_assoc in Hrep'.
      split; [done|]. split.
      * intros a Ha Ha'. rewrite fmap_cons in Ha, Ha'.
        apply not_elem_of_cons in Ha' as [Hac Ha'].
        apply elem_of_cons in Ha as [->|Ha]; [done|]. by apply Hfreed.
      * intros b Hb. apply Hfr. by rewrite <- app_assoc.
Qed.

Section Equality.

Variable ne : T -> T -> bool.
Hypothesis ne_spec : forall x y, ne x y = false <-> x = y.

Lemma sll_equal_loop_spec xs : forall ys h fuel,
  sseg h xs None -> sseg h ys None ->
  length xs = length ys -> length xs < fuel ->
  exists r,
    equal_loop ne fuel h (first_addr xs None) (first_addr ys None) = Ok r /\
    (r = true <-> xs.*2 = ys.*2).
Proof using ne_spec.
  induction xs as [|x xs IH]; intros ys h fuel Hx Hy Hlen Hfuel.
  - destruct fuel as [|k]; [cbn in Hfuel; lia|].
    destruct ys; [|done]. exists true. done.
  - destruct fuel as [|k]; [cbn in Hfuel; lia|].
    destruct ys as [|y ys]; [done|].
    destruct Hx as [Hlx Hx]. destruct Hy as [Hly Hy].
    cbn [equal_loop first_addr].
    rewrite (sll_get_Some h (fst x) _ Hlx), (sll_get_Some h (fst y) _ Hly).
    cbn [bind data next]. rewrite !fmap_cons.
    destruct (ne (snd x) (snd y)) eqn:Hne.
    + exists false. split; [done|]. split; [done|].
      intros [= Hxy _]. apply ne_spec in Hxy. congruence.
    + apply ne_spec in Hne.
      destruct (IH ys h k Hx Hy) as (r & -> & Hr).
      { cbn in Hlen. lia. }
      { cbn in Hfuel. lia. }
      exists r. split; [done|]. rewrite Hr, Hne.
      split; [by intros ->|by intros [= ->]].
Qed.

End Equality.

Lemma sll_copy_from_loop_spec other rest : forall h l ys done fuel,
  represents h other (done ++ rest) -> represents h l ys ->
  (forall a, a ∈ ys.*1 -> a ∉ (done ++ rest).*1) ->
  (Z.of_nat (length ys + length rest) < 2 ^ width)%Z -> length rest < fuel ->
  exists h' l' zs,
    copy_from_loop fuel h l (first_addr rest None) = Ok (h', l') /\
    represents h' l' (ys ++ zs) /\ zs.*2 = rest.*2 /\
    represents h' other (done ++ rest) /\
    (forall a, a ∈ zs.*1 -> h !! a = None) /\
    (forall b, b ∉ ys.*1 -> is_Some (h !! b) -> h' !! b = h !! b).
Proof.
  induction rest as [|r rest IH]; intros h l ys done fuel Hother Hl Hdis Hbound Hfuel.
  - destruct fuel as [|k]; [cbn in Hfuel; lia|]. exists h, l, [].
    cbn [copy_from_loop first_addr]. rewrite app_nil_r.
    split; [done|]. split; [done|]. split; [done|]. split; [done|]. split; [|done].
    intros a Ha. by apply elem_of_nil in Ha.
  - destruct fuel as [|k]; [cbn in Hfuel; lia|].
    destruct (sll_represents_split h other done r rest Hother) as (_ & Hr & _).
    cbn [copy_from_loop first_addr]. rewrite (sll_get_Some h (fst r) _ Hr).
    cbn [bind data]. cbn [length] in Hbound.
    destruct (sll_push_back_represents h l ys (snd r) Hl ltac:(lia))
      as (h1 & l1 & -> & Hl1 & Hfr1).
    cbn [bind].
    assert (fresh (dom h) ∉ (done ++ r :: rest).*1) as Hfresh.
    { apply represents_sseg in Hother as (Hseg & _). by eapply sseg_fresh_not_in. }
    assert (forall a, a ∈ (done ++ r :: rest).*1 -> h1 !! a = h !! a) as Hsame.
    { intros a Ha. apply Hfr1; [|by intros ->]. intros Ha'. by apply (Hdis _ Ha'). }
    assert (fst r ∈ (done ++ r :: rest).*1) as Hrin.
    { rewrite fmap_app, fmap_cons. apply elem_of_app. right. apply elem_of_cons. by left. }
    rewrite (sll_get_Some h1 (fst r) _ ltac:(by rewrite Hsame, Hr)). cbn [bind next].
    pose proof (sll_represents_frame h h1 other _ Hother Hsame) as Hother1.
    rewrite (app_assoc done [r] rest : done ++ r :: rest = (done ++ [r]) ++ rest)
      in Hother1, Hfresh, Hdis.
    destruct (IH h1 l1 (ys ++ [(fresh (dom h), snd r)]) (done ++ [r]) k Hother1 Hl1)
      as (h' & l' & zs & -> & Hl' & Hzs & Hother' & Hnew & Hfr).
    { intros a Ha. rewrite fmap_app in Ha. apply elem_of_app in Ha as [Ha|Ha].
      - by apply Hdis.
      - cbn in Ha. apply elem_of_cons in Ha as [->|Ha]; [done|].
        by apply elem_of_nil in Ha. }
    { rewrite length_app. cbn [length]. lia. }
    { cbn in Hfuel. lia. }
    exists h', l', ((fresh (dom h), snd r) :: zs). split; [done|].
    rewrite <- app_assoc in Hl', Hother'. split; [done|].
    split; [by rewrite !fmap_cons, Hzs|]. split; [done|]. split.
    + intros a Ha. rewrite fmap_cons in Ha.
      apply elem_of_cons in Ha as [->|Ha]; [apply sll_fresh_lookup|].
      pose proof (chain_NoDup _ _ _ _ _ (proj1 Hl')) as Hnd.
      rewrite !fmap_app in Hnd. apply NoDup_app in Hnd as (_ & Hd1 & Hnd2).
      cbn in Hnd2. apply NoDup_cons in Hnd2 as [Hd2 _].
      rewrite <- Hfr1; [by apply Hnew| |by intros ->].
      intros Hay. apply (Hd1 _ Hay). cbn. apply elem_of_cons. by right.
    + intros b Hb Hsome.
      assert (b <> fresh (dom h)) as Hbf.
      { intros ->. rewrite sll_fresh_lookup in Hsome. by destruct Hsome. }
      rewrite Hfr; [by apply Hfr1| |by rewrite Hfr1].
      rewrite fmap_app. apply not_elem_of_app. split; [done|].
      cbn. apply not_elem_of_cons. split; [done|]. apply not_elem_of_nil.
Qed.

End SinglyModifiers.

Section SinglyProperties.

Import Cxx Heap SinglyLinkedList ListSpec.

Context {T : Type}.

Implicit Types (h : gmap addr (Node T)) (l : SinglyLinkedList.t).
Implicit Types (xs ys : list (addr * T)).

(** X25: [push_back] and [push_front] of the singly linked list allocate one
    node for the value and link it behind the last node, or in front of
    the first; [tail_] and [head_] follow, also on the empty list. *)
Theorem sll_push_adds_at_either_end h l xs v :
  represents h l xs -> (Z.of_nat (length xs) + 1 < 2 ^ width)%Z ->
  (exists h' l' a,
     push_back h l v = Ok (h', l') /\ h !! a = None /\
     represents h' l' (xs ++ [(a, v)]) /\
     (forall b, b ∉ xs.*1 -> b <> a -> h' !! b = h !! b)) /\
  (exists h' l' a,
     push_front h l v = Ok (h', l') /\ h !! a = None /\
     represents h' l' ((a, v) :: xs) /\
     (forall b, b <> a -> h' !! b = h !! b)).
Proof.
  intros Hrep Hbound. split.
  - destruct (sll_push_back_represents h l xs v Hrep Hbound) as (h' & l' & Hp & Hrep' & Hfr).
    exists h', l', (fresh (dom h)). split; [done|]. split; [apply sll_fresh_lookup|]. done.
  - destruct (sll_push_front_represents h l xs v Hrep Hbound) as (h' & l' & Hp & Hrep' & Hfr).
    exists h', l', (fresh (dom h)). split; [done|]. split; [apply sll_fresh_lookup|]. done.
Qed.

Lemma sll_clear_frees h l xs fuel :
  represents h l xs -> length xs < fuel ->
  exists h',
    clear fuel h l = Ok (h', make) /\ represents h' make [] /\
    (forall a, a ∈ xs.*1 -> h' !! a = None) /\
    (forall b, b ∉ xs.*1 -> h' !! b = h !! b).
Proof.
  intros Hrep Hfuel.
  pose proof (chain_NoDup _ _ _ _ _ (proj1 Hrep)) as Hnd.
  apply represents_sseg in Hrep as (Hseg & Hh & _).
  destruct (sll_clear_loop_spec xs h fuel Hseg Hnd Hfuel) as (h' & Hcl & Hfreed & Hfr).
  exists h'. unfold clear. rewrite Hh, Hcl. cbn [bind].
  split; [done|]. split; [|done]. by apply represents_sseg.
Qed.

(** X26: [remove_if(p)] of the singly linked list keeps exactly the elements on
    which [p] is false, in their order, with [head_], [tail_] and [size_]
    brought up to date, and gives the nodes of the others back;
    [remove(value)] does the same for the elements that [operator==] finds
    equal to [value]. *)
Theorem sll_remove_if_filters (pred : T -> bool) (eqb : T -> T -> bool) value
    h l xs fuel :
  represents h l xs -> (Z.of_nat (length xs) < 2 ^ width)%Z -> length xs < fuel ->
  (exists h' l',
     remove_if pred fuel h l = Ok (h', l') /\
     represents h' l' (filter (fun x => pred (snd x) = false) xs) /\
     (forall x, x ∈ xs -> pred (snd x) = true -> h' !! fst x = None) /\
     (forall b, b ∉ xs.*1 -> h' !! b = h !! b)) /\
  (exists h' l',
     remove eqb value fuel h l = Ok (h', l') /\
     represents h' l' (filter (fun x => eqb (snd x) value = false) xs) /\
     (forall x, x ∈ xs -> eqb (snd x) value = true -> h' !! fst x = None)).
Proof.
  intros Hrep Hbound Hfuel.
  pose proof Hrep as Hd. apply represents_sseg in Hd as (_ & Hh & _).
  unfold remove, remove_if. rewrite Hh. split.
  - exact (sll_remove_if_loop_spec pred xs h l [] fuel Hrep Hbound Hfuel).
  - destruct (sll_remove_if_loop_spec (fun x => eqb x value) xs h l [] fuel
                Hrep Hbound Hfuel) as (h' & l' & Hr & Hrep' & Hfreed & _).
    exists h', l'. split; [exact Hr|]. split; [exact Hrep'|exact Hfreed].
Qed.

(** X27: [unique()] of the singly linked list drops every node whose element
    [operator==] finds equal to that of the last node kept before it,
    gives the dropped nodes back and keeps the others in their order;
    [tail_] is moved when the last node is dropped. *)
Theorem sll_unique_drops_repeats (eqb : T -> T -> bool) h l xs fuel :
  represents h l xs -> (Z.of_nat (length xs) < 2 ^ width)%Z -> length xs < fuel ->
  exists h' l',
    unique eqb fuel h l = Ok (h', l') /\
    represents h' l' (unique_list eqb xs) /\
    (forall a, a ∈ xs.*1 -> a ∉ (unique_list eqb xs).*1 -> h' !! a = None) /\
    (forall b, b ∉ xs.*1 -> h' !! b = h !! b).
Proof.
  intros Hrep Hbound Hfuel. unfold unique.
  pose proof Hrep as Hd. apply represents_sseg in Hd as (_ & Hh & _ & Hs).
  destruct xs as [|c zs].
  - rewrite Hs. cbn. exists h, l. split; [done|]. split; [done|]. split; [|done].
    intros a Ha. by apply elem_of_nil in Ha.
  - destruct (Z.leb_spec (size_ l) 1) as [Hle|Hgt].
    + assert (zs = []) as -> by (destruct zs; [done|cbn in Hs; lia]).
      exists h, l. split; [done|]. split; [done|]. split; [|done].
      intros a Ha Ha'. done.
    + rewrite Hh. cbn [first_addr unique_list].
      apply (sll_unique_loop_spec eqb zs h l [] c fuel Hrep Hbound).
      cbn in Hfuel. lia.
Qed.

Lemma sll_equal_compares (ne : T -> T -> bool) h l1 l2 xs ys fuel :
  (forall x y, ne x y = false <-> x = y) ->
  represents h l1 xs -> represents h l2 ys -> length xs < fuel ->
  exists r, equal ne fuel h l1 l2 = Ok r /\ (r = true <-> xs.*2 = ys.*2).
Proof.
  intros Hne H1 H2 Hfuel.
  apply represents_sseg in H1 as (Hseg1 & Hh1 & _ & Hs1).
  apply represents_sseg in H2 as (Hseg2 & Hh2 & _ & Hs2).
  unfold equal. rewrite Hs1, Hs2, Hh1, Hh2.
  destruct (Z.eqb_spec (Z.of_nat (length xs)) (Z.of_nat (length ys))) as [Heq|Hneq];
    cbn [negb].
  - apply (sll_equal_loop_spec ne Hne xs ys h fuel Hseg1 Hseg2); [lia|done].
  - exists false. split; [done|]. split; [done|].
    intros Hxy. exfalso. apply Hneq. f_equal.
    by rewrite <- (length_fmap snd xs), <- (length_fmap snd ys), Hxy.
Qed.

Lemma sll_copy_duplicates h other xs fuel :
  represents h other xs -> (Z.of_nat (length xs) < 2 ^ width)%Z -> length xs < fuel ->
  exists h' l' zs,
    copy fuel h other = Ok (h', l') /\
    represents h' l' zs /\ zs.*2 = xs.*2 /\
    represents h' other xs /\
    (forall a, a ∈ zs.*1 -> h !! a = None) /\
    (forall b, is_Some (h !! b) -> h' !! b = h !! b).
Proof.
  intros Hrep Hbound Hfuel. unfold copy, copy_from.
  pose proof Hrep as Hd. apply represents_sseg in Hd as (_ & Hh & _).
  rewrite Hh.
  destruct (sll_copy_from_loop_spec other xs h make [] [] fuel Hrep)
    as (h' & l' & zs & Hc & Hl & Hzs & Hother & Hnew & Hfr); try done.
  { intros a Ha. by apply elem_of_nil in Ha. }
  exists h', l', zs. split; [done|]. split; [done|]. split; [done|].
  split; [done|]. split; [done|]. intros b Hb. apply Hfr; [|done].
  apply not_elem_of_nil.
Qed.

End SinglyProperties.

(** Instances on the singly linked lists built by [push_back], whose
    nodes are at the addresses 0, 1 and 2. *)

Lemma sll_push_adds_at_either_end_witness :
  (exists h' l' a,
     SinglyLinkedList.push_back ListExamples.sll_three_heap
       ListExamples.sll_three_list 4%Z = Cxx.Ok (h', l') /\
     SinglyLinkedList.represents h' l' [(0, 1%Z); (1, 2%Z); (2, 3%Z); (a, 4%Z)]) /\
  (exists h' l' a,
     SinglyLinkedList.push_front ListExamples.sll_three_heap
       ListExamples.sll_three_list 0%Z = Cxx.Ok (h', l') /\
     SinglyLinkedList.represents h' l' [(a, 0%Z); (0, 1%Z); (1, 2%Z); (2, 3%Z)]).
Proof.
  destruct (sll_push_adds_at_either_end ListExamples.sll_three_heap
              ListExamples.sll_three_list [(0, 1%Z); (1, 2%Z); (2, 3%Z)] 4%Z
              sll_three_represents ltac:(vm_compute; reflexivity))
    as [(h' & l' & a & Hp & _ & Hr & _) _].
  destruct (sll_push_adds_at_either_end ListExamples.sll_three_heap
              ListExamples.sll_three_list [(0, 1%Z); (1, 2%Z); (2, 3%Z)] 0%Z
              sll_three_represents ltac:(vm_compute; reflexivity))
    as [_ (h2 & l2 & a2 & Hp2 & _ & Hr2 & _)].
  split.
  - exists h', l', a. split; [exact Hp|exact Hr].
  - exists h2, l2, a2. split; [exact Hp2|exact Hr2].
Defined.

Lemma sll_remove_if_filters_witness :
  (exists h' l',
     SinglyLinkedList.remove_if ListExamples.is_two 4 ListExamples.sll_three_heap
       ListExamples.sll_three_list = Cxx.Ok (h', l') /\
     SinglyLinkedList.represents h' l' [(0, 1%Z); (2, 3%Z)]) /\
  (exists h' l',
     SinglyLinkedList.remove Z.eqb 3%Z 4 ListExamples.sll_three_heap
       ListExamples.sll_three_list = Cxx.Ok (h', l') /\
     SinglyLinkedList.represents h' l' [(0, 1%Z); (1, 2%Z)]).
Proof.
  destruct (sll_remove_if_filters ListExamples.is_two Z.eqb 3%Z
              ListExamples.sll_three_heap ListExamples.sll_three_list
              [(0, 1%Z); (1, 2%Z); (2, 3%Z)] 4
              sll_three_represents ltac:(vm_compute; reflexivity) ltac:(cbn; lia))
    as [(h' & l' & Hp & Hr & _) (h2 & l2 & Hp2 & Hr2 & _)].
  split.
  - exists h', l'. split; [exact Hp|exact Hr].
  - exists h2, l2. split; [exact Hp2|exact Hr2].
Defined.

Lemma sll_unique_drops_repeats_witness :
  exists h' l',
    SinglyLinkedList.unique ListExamples.same_first 4 ListExamples.sll_pairs_heap
      ListExamples.sll_three_list = Cxx.Ok (h', l') /\
    SinglyLinkedList.represents h' l' [(0, (2, 0)%Z); (1, (1, 1)%Z)].
Proof.
  destruct (sll_unique_drops_repeats ListExamples.same_first
              ListExamples.sll_pairs_heap ListExamples.sll_three_list
              [(0, (2, 0)%Z); (1, (1, 1)%Z); (2, (1, 2)%Z)] 4
              sll_pairs_represents ltac:(vm_compute; reflexivity) ltac:(cbn; lia))
    as (h' & l' & Hp & Hr & _).
  exists h', l'. split; [exact Hp|exact Hr].
Defined.

(** ** Both lists: clear, comparison and copy *)

Section ListsProperties.

Import Cxx Heap ListSpec.

Context {T : Type}.

(** X28: [clear()] of either list gives every node of the list back and leaves
    the empty list; no other node is touched. *)
Theorem lists_clear_frees :
  (forall (h : gmap addr (DoublyLinkedList.Node T)) l xs fuel,
     DoublyLinkedList.represents h l xs -> length xs < fuel ->
     exists h',
       DoublyLinkedList.clear fuel h l = Ok (h', DoublyLinkedList.make) /\
       DoublyLinkedList.represents h' DoublyLinkedList.make [] /\
       (forall a, a ∈ xs.*1 -> h' !! a = None) /\
       (forall b, b ∉ xs.*1 -> h' !! b = h !! b)) /\
  (forall (h : gmap addr (SinglyLinkedList.Node T)) l xs fuel,
     SinglyLinkedList.represents h l xs -> length xs < fuel ->
     exists h',
       SinglyLinkedList.clear fuel h l = Ok (h', SinglyLinkedList.make) /\
       SinglyLinkedList.represents h' SinglyLinkedList.make [] /\
       (forall a, a ∈ xs.*1 -> h' !! a = None) /\
       (forall b, b ∉ xs.*1 -> h' !! b = h !! b)).
Proof.
  split.
  - intros h l xs fuel. apply dll_clear_frees.
  - intros h l xs fuel. apply sll_clear_frees.
Qed.

(** X29: [operator==] of either list returns true exactly when the two lists
    hold the same sequence of elements; lists of different sizes are
    unequal without a node being read. *)
Theorem lists_equal_compares (ne : T -> T -> bool) :
  (forall x y, ne x y = false <-> x = y) ->
  (forall (h : gmap addr (DoublyLinkedList.Node T)) l1 l2 xs ys fuel,
     DoublyLinkedList.represents h l1 xs -> DoublyLinkedList.represents h l2 ys ->
     length xs < fuel ->
     exists r, DoublyLinkedList.equal ne fuel h l1 l2 = Ok r /\
       (r = true <-> xs.*2 = ys.*2)) /\
  (forall (h : gmap addr (SinglyLinkedList.Node T)) l1 l2 xs ys fuel,
     SinglyLinkedList.represents h l1 xs -> SinglyLinkedList.represents h l2 ys ->
     length xs < fuel ->
     exists r, SinglyLinkedList.equal ne fuel h l1 l2 = Ok r /\
       (r = true <-> xs.*2 = ys.*2)).
Proof.
  intros Hne. split.
  - intros h l1 l2 xs ys fuel. by apply dll_equal_compares.
  - intros h l1 l2 xs ys fuel. by apply sll_equal_compares.
Qed.

(** X30: The copy constructor of either list builds a list of new nodes that
    hold the elements of the source in the same order, and leaves the
    source and every other node as they were. *)
Theorem lists_copy_duplicates :
  (forall (h : gmap addr (DoublyLinkedList.Node T)) other xs fuel,
     DoublyLinkedList.represents h other xs ->
     (Z.of_nat (length xs) < 2 ^ width)%Z -> length xs < fuel ->
     exists h' l' zs,
       DoublyLinkedList.copy fuel h other = Ok (h', l') /\
       DoublyLinkedList.represents h' l' zs /\ zs.*2 = xs.*2 /\
       DoublyLinkedList.represents h' other xs /\
       (forall a, a ∈ zs.*1 -> h !! a = None) /\
       (forall b, is_Some (h !! b) -> h' !! b = h !! b)) /\
  (forall (h : gmap addr (SinglyLinkedList.Node T)) other xs fuel,
     SinglyLinkedList.represents h other xs ->
     (Z.of_nat (length xs) < 2 ^ width)%Z -> length xs < fuel ->
     exists h' l' zs,
       SinglyLinkedList.copy fuel h other = Ok (h', l') /\
       SinglyLinkedList.represents h' l' zs /\ zs.*2 = xs.*2 /\
       SinglyLinkedList.represents h' other xs /\
       (forall a, a ∈ zs.*1 -> h !! a = None) /\
       (forall b, is_Some (h !! b) -> h' !! b = h !! b)).
Proof.
  split.
  - intros h other xs fuel. apply dll_copy_duplicates.
  - intros h other xs fuel. apply sll_copy_duplicates.
Qed.

End ListsProperties.

Lemma lists_clear_frees_witness :
  (exists h',
     DoublyLinkedList.clear 4 ListExamples.dll_three_heap
       ListExamples.dll_three_list = Cxx.Ok (h', DoublyLinkedList.make) /\
     h' !! 0 = None /\ h' !! 1 = None /\ h' !! 2 = None) /\
  (exists h',
     SinglyLinkedList.clear 4 ListExamples.sll_three_heap
       ListExamples.sll_three_list = Cxx.Ok (h', SinglyLinkedList.make) /\
     h' !! 0 = None /\ h' !! 1 = None /\ h' !! 2 = None).
Proof.
  split.
  - destruct (proj1 (@lists_clear_frees Z) ListExamples.dll_three_heap
                ListExamples.dll_three_list [(0, 1%Z); (1, 2%Z); (2, 3%Z)] 4
                dll_three_represents ltac:(cbn; lia)) as (h' & Hc & _ & Hf & _).
    exists h'. split; [exact Hc|].
    split; [|split]; apply Hf; cbn; rewrite !elem_of_cons; tauto.
  - destruct (proj2 (@lists_clear_frees Z) ListExamples.sll_three_heap
                ListExamples.sll_three_list [(0, 1%Z); (1, 2%Z); (2, 3%Z)] 4
                sll_three_represents ltac:(cbn; lia)) as (h' & Hc & _ & Hf & _).
    exists h'. split; [exact Hc|].
    split; [|split]; apply Hf; cbn; rewrite !elem_of_cons; tauto.
Defined.

Lemma lists_equal_compares_witness :
  DoublyLinkedList.equal CircularArraySpec.int_ne 4 ListExamples.dll_three_heap
    ListExamples.dll_three_list ListExamples.dll_three_list = Cxx.Ok true /\
  SinglyLinkedList.equal CircularArraySpec.int_ne 4 ListExamples.sll_three_heap
    ListExamples.sll_three_list ListExamples.sll_three_list = Cxx.Ok true.
Proof.
  split.
  - destruct (proj1 (lists_equal_compares CircularArraySpec.int_ne int_ne_spec)
                ListExamples.dll_three_heap
                ListExamples.dll_three_list ListExamples.dll_three_list
                [(0, 1%Z); (1, 2%Z); (2, 3%Z)] [(0, 1%Z); (1, 2%Z); (2, 3%Z)] 4
                dll_three_represents dll_three_represents ltac:(cbn; lia))
      as (r & Hr & Hiff).
    rewrite Hr. f_equal. apply Hiff. reflexivity.
  - destruct (proj2 (lists_equal_compares CircularArraySpec.int_ne int_ne_spec)
                ListExamples.sll_three_heap
                ListExamples.sll_three_list ListExamples.sll_three_list
                [(0, 1%Z); (1, 2%Z); (2, 3%Z)] [(0, 1%Z); (1, 2%Z); (2, 3%Z)] 4
                sll_three_represents sll_three_represents ltac:(cbn; lia))
      as (r & Hr & Hiff).
    rewrite Hr. f_equal. apply Hiff. reflexivity.
Defined.

Lemma lists_copy_duplicates_witness :
  (exists h' l' zs,
     DoublyLinkedList.copy 4 ListExamples.dll_three_heap ListExamples.dll_three_list =
       Cxx.Ok (h', l') /\
     DoublyLinkedList.represents h' l' zs /\ zs.*2 = [1; 2; 3]%Z) /\
  (exists h' l' zs,
     SinglyLinkedList.copy 4 ListExamples.sll_three_heap ListExamples.sll_three_list =
       Cxx.Ok (h', l') /\
     SinglyLinkedList.represents h' l' zs /\ zs.*2 = [1; 2; 3]%Z).
Proof.
  split.
  - destruct (proj1 (@lists_copy_duplicates Z) ListExamples.dll_three_heap
                ListExamples.dll_three_list [(0, 1%Z); (1, 2%Z); (2, 3%Z)] 4
                dll_three_represents ltac:(vm_compute; reflexivity) ltac:(cbn; lia))
      as (h' & l' & zs & Hp & Hr & Hz & _).
    exists h', l', zs. split; [exact Hp|]. split; [exact Hr|exact Hz].
  - destruct (proj2 (@lists_copy_duplicates Z) ListExamples.sll_three_heap
                ListExamples.sll_three_list [(0, 1%Z); (1, 2%Z); (2, 3%Z)] 4
                sll_three_represents ltac:(vm_compute; reflexivity) ltac:(cbn; lia))
      as (h' & l' & zs & Hp & Hr & Hz & _).
    exists h', l', zs. split; [exact Hp|]. split; [exact Hr|exact Hz].
Defined.
